(** * n8n-auto-preview: the job engine (scripts/run_job.mjs) and the bank
      wizard (scripts/bank_wizard.mjs)

    A shallow embedding of the engine's planning, rotation, sampling, locking
    and packaging code, and of the wizard: its bank normalisation and its
    dialogue at the terminal.

    Conventions.
    - A JavaScript string is a Rocq [string]; its characters are code units
      below 256.
    - A JavaScript number is modelled by what the code observes of it
      (see [jsnum]); counts and ids are integers ([Z]).  Arithmetic on
      counts, which stay small, is exact; an id is any integer that a file
      may hold, and adding one to it is rounded as doubles are from [2^53]
      on (see [plusOne]).
    - [Math.random()] draws from an explicit random source: a stream of
      natural numbers; [Math.floor(Math.random() * n)] is the next draw
      reduced modulo [n], so every index below [n] can come out and nothing
      else can.
    - Thrown errors are values of [error]; a function that may throw returns
      a [result]. *)

From Stdlib Require Import ZArith List String Ascii Lia Permutation Sorted Bool.
From Stdlib Require Import DecimalString DecimalNat.
From stdpp Require Import base gmap strings list.
Import ListNotations.
Local Open Scope Z_scope.

(** ** Errors and results *)

Inductive error :=
| Error (message : string)          (* [throw new Error(message)] *)
| SysError (code : string)          (* a rejected fs / process call, [error.code] *)
| OutOfFuel.                        (* not an error of the program: the bound the
                                       model puts on a [while (true)] loop was reached *)

Inductive result (A : Type) :=
| Ok (a : A)
| Throw (e : error).
Arguments Ok {A} a.
Arguments Throw {A} e.

(** Decimal rendering of a number inside a template string. *)
Definition showNat (n : nat) : string :=
  DecimalString.NilEmpty.string_of_uint (Nat.to_uint n).

Definition showZ (z : Z) : string :=
  DecimalString.NilEmpty.string_of_int (Z.to_int z).

(** ** The random source *)

Definition rng := nat -> nat.

Definition Rand (A : Type) := rng -> A * rng.

Definition next (g : rng) : rng := fun i => g (S i).

(** [Math.floor(Math.random() * n)] *)
Definition randomBelow (n : nat) : Rand nat :=
  fun g => (match n with O => O | S _ => Nat.modulo (g O) n end, next g).

(** [randomIntInclusive(min, max)] *)
Definition randomIntInclusive (min max : Z) : Rand Z :=
  fun g =>
    let (r, g') := randomBelow (Z.to_nat (max - min + 1)) g in
    (Z.of_nat r + min, g').

(** A source whose first draws are the given ones. *)
Definition draws (l : list nat) : rng := fun i => nth i l O.

(** ** MediaSelector: [pickRandomItems] *)

Section MediaSelector.
Context {A : Type}.

(** [pool.splice(idx, 1)] *)
Definition splice1 (idx : nat) (pool : list A) : list A :=
  firstn idx pool ++ skipn (S idx) pool.

(** The loop of [pickRandomItems]: [n] rounds of draw, push, splice. *)
Fixpoint pickLoop (n : nat) (pool selected : list A) : Rand (list A) :=
  fun g =>
    match n with
    | O => (selected, g)
    | S n' =>
        let (idx, g') := randomBelow (length pool) g in
        match nth_error pool idx with
        | Some x => pickLoop n' (splice1 idx pool) (selected ++ [x]) g'
        | None => (selected, g')
        end
    end.

Definition cannotPick (count : Z) (len : nat) : error :=
  Error ("Cannot pick " +:+ showZ count +:+ " items from " +:+ showNat len +:+ " items.").

Definition pickRandomItems (items : list A) (count : Z) : Rand (result (list A)) :=
  fun g =>
    if count <=? 0 then (Ok [], g)
    else if Z.of_nat (length items) <? count then (Throw (cannotPick count (length items)), g)
    else
      let (selected, g') := pickLoop (Z.to_nat count) items [] g in
      (Ok selected, g').
End MediaSelector.

(** ** CompositionPlanner: [chooseComposition] *)

Record composition := { images : Z; videos : Z }.

Definition possibleImageCounts (imageCount videoCount : Z) : list Z :=
  filter (fun candidate =>
            let remainingVideos := 4 - candidate in
            (candidate <=? imageCount) && (remainingVideos <=? videoCount))
         [1; 2; 3].

Definition chooseComposition (imageCount videoCount : Z) : Rand (option composition) :=
  fun g =>
    let total := imageCount + videoCount in
    if total <? 4 then (None, g)
    else
      let singleType :=
        if 4 <=? imageCount then Some {| images := 4; videos := 0 |}
        else if 4 <=? videoCount then Some {| images := 0; videos := 4 |}
        else None in
      if (0 <? imageCount) && (0 <? videoCount) then
        let possible := possibleImageCounts imageCount videoCount in
        if (0 <? length possible)%nat then
          let (idx, g') := randomBelow (length possible) g in
          let imagePick := nth idx possible 0 in
          (Some {| images := imagePick; videos := 4 - imagePick |}, g')
        else (singleType, g)
      else (singleType, g).

(** ** Strings *)

(** The characters matched by [\s] and removed by [trim()]. *)
Definition isWhiteSpace (c : ascii) : bool :=
  let n := nat_of_ascii c in
  ((9 <=? n) && (n <=? 13) || (n =? 32) || (n =? 160))%nat.

Definition isEmpty (s : string) : bool :=
  match s with EmptyString => true | String _ _ => false end.

Fixpoint trimStart (s : string) : string :=
  match s with
  | EmptyString => EmptyString
  | String c s' => if isWhiteSpace c then trimStart s' else s
  end.

Fixpoint trimEnd (s : string) : string :=
  match s with
  | EmptyString => EmptyString
  | String c s' =>
      let t := trimEnd s' in
      if isWhiteSpace c && isEmpty t then EmptyString else String c t
  end.

(** [s.trim()] *)
Definition trim (s : string) : string := trimEnd (trimStart s).

(** [s.replace(/\s+/g, '')] *)
Fixpoint removeWhiteSpace (s : string) : string :=
  match s with
  | EmptyString => EmptyString
  | String c s' =>
      if isWhiteSpace c then removeWhiteSpace s' else String c (removeWhiteSpace s')
  end.

(** [s.startsWith('#')] *)
Definition startsWithHash (s : string) : bool :=
  match s with
  | String c _ => Ascii.eqb c "#"
  | EmptyString => false
  end.

Fixpoint hasWhiteSpace (s : string) : bool :=
  match s with
  | EmptyString => false
  | String c s' => isWhiteSpace c || hasWhiteSpace s'
  end.

(** ** JavaScript values, as [JSON.parse] and the code produce them *)

(** A number, by what the code can observe of it: [NaN], an integer, or a
    value that is neither (fractional or infinite). *)
Inductive jsnum :=
| NaN
| NInt (z : Z)
| NNonInt.

#[warnings="-register-all"]
Inductive value :=
| VUndefined
| VNull
| VBool (b : bool)
| VNum (n : jsnum)
| VStr (s : string)
| VArr (items : list value)
| VObj (props : list (string * value)).

Fixpoint lookupProp (key : string) (props : list (string * value)) : value :=
  match props with
  | [] => VUndefined
  | (k, v) :: rest => if String.eqb k key then v else lookupProp key rest
  end.

(** [entry.key] for the property names the code reads; an array has none
    of them. *)
Definition get (entry : value) (key : string) : value :=
  match entry with
  | VObj props => lookupProp key props
  | _ => VUndefined
  end.

(** [typeof v === 'string'] *)
Definition isString (v : value) : bool :=
  match v with VStr _ => true | _ => false end.

(** [typeof v === 'object'] *)
Definition isObjectType (v : value) : bool :=
  match v with VNull | VArr _ | VObj _ => true | _ => false end.

(** [Boolean(v)], also the test of [!v] and [if (v)] *)
Definition truthy (v : value) : bool :=
  match v with
  | VUndefined | VNull => false
  | VBool b => b
  | VNum NaN => false
  | VNum (NInt z) => negb (z =? 0)
  | VNum NNonInt => true
  | VStr s => negb (isEmpty s)
  | VArr _ | VObj _ => true
  end.

(** [a ?? b] *)
Definition nullish (a b : value) : value :=
  match a with
  | VUndefined | VNull => b
  | _ => a
  end.
Infix "??" := nullish (at level 45, left associativity).

Definition strOf (v : value) : string :=
  match v with VStr s => s | _ => EmptyString end.

Definition num (z : Z) : value := VNum (NInt z).

(** The conversions of the language that the code calls on values it does
    not control: they are parameters of the development. *)
Class Builtins := {
  (** [Number(s)] on a string *)
  StringToNumber : string -> jsnum;
  (** [String(n)] on a number *)
  NumberToString : jsnum -> string;
  (** [String(v)] on an array or an object *)
  ObjectToString : value -> string;
  (** [s.toLowerCase()] *)
  toLowerCase : string -> string;
  (** [a.localeCompare(b)], by its sign *)
  localeCompare : string -> string -> Z;
  (** [JSON.parse(content)], [None] when it throws a [SyntaxError] *)
  JSON_parse : string -> option value;
  (** [JSON.stringify(v, null, 2)] *)
  JSON_stringify : value -> string
}.

Section Conversions.
Context `{Builtins}.

(** [String(v)] *)
Definition toString (v : value) : string :=
  match v with
  | VUndefined => "undefined"
  | VNull => "null"
  | VBool true => "true"
  | VBool false => "false"
  | VNum n => NumberToString n
  | VStr s => s
  | VArr _ | VObj _ => ObjectToString v
  end.

(** [Number(v)] *)
Definition toNumber (v : value) : jsnum :=
  match v with
  | VUndefined => NaN
  | VNull => NInt 0
  | VBool true => NInt 1
  | VBool false => NInt 0
  | VNum n => n
  | VStr s => StringToNumber s
  | VArr _ | VObj _ => StringToNumber (ObjectToString v)
  end.
End Conversions.

(** ** CaptionRotator *)

(** A caption entry [{ id, text, used, used_at }].  The engine keeps whatever
    id the file had ([caption value]); the wizard computes with numeric ids
    ([caption Z]). *)
Record caption (I : Type) := mkCaption {
  id : I;
  text : string;
  used : bool;
  used_at : value
}.
Arguments mkCaption {I} _ _ _ _.
Arguments id {I} _.
Arguments text {I} _.
Arguments used {I} _.
Arguments used_at {I} _.

(** [typeof entry.text === 'string' ? entry.text
      : typeof entry.caption === 'string' ? entry.caption : ''] *)
Definition textCandidate (entry : value) : string :=
  if isString (get entry "text") then strOf (get entry "text")
  else if isString (get entry "caption") then strOf (get entry "caption")
  else "".

(** *** The engine: [normalizeCaptionEntries] (run_job.mjs) *)

Definition mustBeArray (file : string) : error :=
  Error (file +:+ " must contain an array.").

Definition invalidEntry (index : nat) : error :=
  Error ("Invalid caption entry at index " +:+ showNat index +:+ ".").

Definition noText (index : nat) : error :=
  Error ("Caption entry at index " +:+ showNat index +:+ " does not contain text.").

(** The callback of [raw.map((entry, index) => ...)]. *)
Definition normalizeCaptionEntry (entry : value) (index : nat) : result (caption value) :=
  if isString entry then
    Ok {| id := num (Z.of_nat index + 1);
          text := trim (strOf entry);
          used := false;
          used_at := VNull |}
  else if negb (truthy entry) || negb (isObjectType entry) then
    Throw (invalidEntry index)
  else
    let text := trim (textCandidate entry) in
    if isEmpty text then Throw (noText index)
    else
      Ok {| id := get entry "id" ?? num (Z.of_nat index + 1);
            text := text;
            used := truthy (get entry "used");
            used_at := get entry "used_at" ?? VNull |}.

(** [Array.prototype.map] with a callback that may throw: the first throw,
    in index order, ends the call. *)
Fixpoint mapFrom {A B : Type} (f : A -> nat -> result B) (index : nat) (l : list A)
  : result (list B) :=
  match l with
  | [] => Ok []
  | x :: rest =>
      match f x index with
      | Throw e => Throw e
      | Ok y =>
          match mapFrom f (S index) rest with
          | Throw e => Throw e
          | Ok ys => Ok (y :: ys)
          end
      end
  end.

Definition normalizeCaptionEntries (raw : value) : result (list (caption value)) :=
  match raw with
  | VArr items => mapFrom normalizeCaptionEntry O items
  | _ => Throw (mustBeArray "captions.json")
  end.

(** *** Rotation: [pickCaption] (run_job.mjs) *)

Definition emptyBank : error :=
  Error "No caption entries available in captions.json.".

(** [.map((entry, index) => ({ entry, index })).filter(({ entry }) => !entry.used)
     .map(({ index }) => index)] *)
Fixpoint unusedFrom {I : Type} (index : nat) (state : list (caption I)) : list nat :=
  match state with
  | [] => []
  | entry :: rest =>
      if used entry then unusedFrom (S index) rest
      else index :: unusedFrom (S index) rest
  end.

Definition unusedIndexes {I : Type} (state : list (caption I)) : list nat :=
  unusedFrom O state.

(** [{ ...entry, used: false, used_at: null }] *)
Definition resetEntry {I : Type} (entry : caption I) : caption I :=
  {| id := id entry; text := text entry; used := false; used_at := VNull |}.

(** [entry.used = true; entry.used_at = now] *)
Definition markUsed {I : Type} (now : string) (entry : caption I) : caption I :=
  {| id := id entry; text := text entry; used := true; used_at := VStr now |}.

Record picked (I : Type) := {
  captionText : string;
  nextCaptions : list (caption I)
}.
Arguments captionText {I} _.
Arguments nextCaptions {I} _.

(** [now] is [new Date().toISOString()] at the time of the call. *)
Definition pickCaption {I : Type} (now : string) (captions : list (caption I))
  : Rand (result (picked I)) :=
  fun g =>
    let state := captions in
    let availableIndexes := unusedIndexes state in
    let '(state, availableIndexes) :=
      if (length availableIndexes =? 0)%nat
      then (map resetEntry state, seq 0 (length state))
      else (state, availableIndexes) in
    if (length availableIndexes =? 0)%nat then (Throw emptyBank, g)
    else
      let (r, g') := randomBelow (length availableIndexes) g in
      let selectedIndex := nth r availableIndexes O in
      let state := alter (markUsed now) selectedIndex state in
      match state !! selectedIndex with
      | Some entry => (Ok {| captionText := text entry; nextCaptions := state |}, g')
      | None => (Throw (Error "TypeError"), g')
      end.

(** Whether the call had to reset the bank first. *)
Definition resets {I : Type} (captions : list (caption I)) : bool :=
  (length (unusedIndexes captions) =? 0)%nat.

(** *** The wizard: [normalizeCaptions] (bank_wizard.mjs) *)

Section WizardCaptions.
Context `{Builtins}.

(** [Number.isInteger(parsedId) && parsedId > 0 ? parsedId : fallbackId] *)
Definition entryId (entry : value) (fallbackId : Z) : Z :=
  match toNumber (get entry "id") with
  | NInt parsedId => if 0 <? parsedId then parsedId else fallbackId
  | _ => fallbackId
  end.

(** [x + 1] and [x += 1] on a positive integer.  The numbers of JavaScript
    are doubles: the sum is exact up to [2^53]; from there to [2^54] the
    doubles are the even integers, and [x + 1], half-way between two of
    them, is rounded to the one whose significand ([x / 2] for [x]) is even;
    from [2^54] on the doubles are four or more apart and the sum is [x]
    again. *)
Definition plusOne (x : Z) : Z :=
  if x <? 2 ^ 53 then x + 1
  else if x <? 2 ^ 54 then (if Z.even (x / 2) then x else x + 2)
  else x.

(** One round of the [for (const entry of raw)] loop, on the pair
    [(fallbackId, normalized)]. *)
Definition normalizeStep (acc : Z * list (caption Z)) (entry : value)
  : Z * list (caption Z) :=
  let '(fallbackId, normalized) := acc in
  if isString entry then
    let text := trim (strOf entry) in
    if isEmpty text then acc
    else (plusOne fallbackId,
          normalized ++ [{| id := fallbackId; text := text; used := false; used_at := VNull |}])
  else if negb (truthy entry) || negb (isObjectType entry) then acc
  else
    let text := trim (textCandidate entry) in
    if isEmpty text then acc
    else
      let id := entryId entry fallbackId in
      (Z.max fallbackId (plusOne id),
       normalized ++ [{| id := id; text := text;
                         used := truthy (get entry "used");
                         used_at := get entry "used_at" ?? VNull |}]).

(** [.sort((a, b) => a.id - b.id)]: the sort is stable; insertion from the
    right, before the first entry that is not smaller, is. *)
Fixpoint insertById (x : caption Z) (sorted : list (caption Z)) : list (caption Z) :=
  match sorted with
  | [] => [x]
  | y :: rest => if id x <=? id y then x :: y :: rest else y :: insertById x rest
  end.

Definition sortById (l : list (caption Z)) : list (caption Z) :=
  fold_right insertById [] l.

(** [.map((entry, index) => ({ ...entry, id: index + 1 }))] *)
Fixpoint renumberFrom {I : Type} (index : nat) (l : list (caption I)) : list (caption Z) :=
  match l with
  | [] => []
  | entry :: rest =>
      {| id := Z.of_nat index + 1; text := text entry;
         used := used entry; used_at := used_at entry |}
      :: renumberFrom (S index) rest
  end.

Definition reindexCaptions {I : Type} (l : list (caption I)) : list (caption Z) :=
  renumberFrom O l.

Definition normalizeCaptions (raw : value) : list (caption Z) :=
  match raw with
  | VArr items =>
      let '(_, normalized) := fold_left normalizeStep items (1, []) in
      reindexCaptions (sortById normalized)
  | _ => []
  end.
End WizardCaptions.

(** The object that a caption record stands for, and the array that a bank
    stands for: what a normalisation receives when it is given a bank. *)
Definition captionToValue {I : Type} (idToValue : I -> value) (entry : caption I) : value :=
  VObj [("id", idToValue (id entry)); ("text", VStr (text entry));
        ("used", VBool (used entry)); ("used_at", used_at entry)].

Definition bankToValue {I : Type} (idToValue : I -> value) (bank : list (caption I)) : value :=
  VArr (map (captionToValue idToValue) bank).

(** ** HashtagPicker *)

(** Insertion-ordered deduplication: [[...new Set(tags)]], and the
    [seen] set of the wizard's loop. *)
Fixpoint uniqueFrom (seen : gset string) (tags : list string) : list string :=
  match tags with
  | [] => []
  | tag :: rest =>
      if decide (tag ∈ seen) then uniqueFrom seen rest
      else tag :: uniqueFrom ({[tag]} ∪ seen) rest
  end.

(** *** The engine: [normalizeHashtags] (run_job.mjs) *)

(** The first [.map]: the string an entry stands for. *)
Definition hashtagText (entry : value) : string :=
  if isString entry then strOf entry
  else if truthy entry && isObjectType entry then
    if isString (get entry "tag") then strOf (get entry "tag")
    else if isString (get entry "hashtag") then strOf (get entry "hashtag")
    else if isString (get entry "text") then strOf (get entry "text")
    else ""
  else "".

(** The last [.map]:
    [tag.startsWith('#') ? tag : `#${tag.replace(/\s+/g, '')}`] *)
Definition hashPrefixed (tag : string) : string :=
  if startsWithHash tag then tag else "#" +:+ removeWhiteSpace tag.

Definition normalizeHashtags (raw : value) : result (list string) :=
  match raw with
  | VArr items =>
      let tags :=
        map hashPrefixed
          (filter (fun tag => negb (isEmpty tag))
             (map trim (map hashtagText items))) in
      Ok (uniqueFrom ∅ tags)
  | _ => Throw (mustBeArray "hashtags.json")
  end.

(** *** Sampling: [pickHashtags] (run_job.mjs) *)

Definition pickHashtags (hashtags : list string) : Rand (result (list string)) :=
  fun g =>
    if (length hashtags =? 0)%nat then (Ok [], g)
    else
      let maxPick := Z.min 5 (Z.of_nat (length hashtags)) in
      let minPick := Z.min 3 maxPick in
      let (pickCount, g') := randomIntInclusive minPick maxPick g in
      pickRandomItems hashtags pickCount g'.

(** *** The wizard: [normalizeHashtag], [normalizeHashtags] (bank_wizard.mjs) *)

Module Wizard.
Section WizardHashtags.
Context `{Builtins}.

Definition normalizeHashtag (rawTag : value) : string :=
  let trimmed := trim (toString (rawTag ?? VStr "")) in
  if isEmpty trimmed then ""
  else
    let compact := removeWhiteSpace trimmed in
    if isEmpty compact then ""
    else if startsWithHash compact then compact else "#" +:+ compact.

(** [typeof entry === 'string' ? entry
      : entry && typeof entry === 'object'
        ? entry.tag ?? entry.hashtag ?? entry.text ?? '' : ''] *)
Definition candidate (entry : value) : value :=
  if isString entry then entry
  else if truthy entry && isObjectType entry then
    get entry "tag" ?? get entry "hashtag" ?? get entry "text" ?? VStr ""
  else VStr "".

(** One round of the [for (const entry of raw)] loop, on the pair
    [(seen, result)]. *)
Definition hashtagStep (acc : gset string * list string) (entry : value)
  : gset string * list string :=
  let '(seen, result) := acc in
  let normalized := normalizeHashtag (candidate entry) in
  if isEmpty normalized then acc
  else
    let key := toLowerCase normalized in
    if decide (key ∈ seen) then acc
    else ({[key]} ∪ seen, result ++ [normalized]).

Definition normalizeHashtags (raw : value) : list string :=
  match raw with
  | VArr items => snd (fold_left hashtagStep items (∅, []))
  | _ => []
  end.
End WizardHashtags.
End Wizard.

(** * The engine at work: file system, processes, clock *)

(** ** Paths *)

(** [path.join(a, b)], for a directory and a name that need no cleaning up. *)
Definition join (a b : string) : string := a +:+ "/" +:+ b.

Fixpoint containsSlash (s : string) : bool :=
  match s with
  | EmptyString => false
  | String c s' => Ascii.eqb c "/" || containsSlash s'
  end.

(** [path.basename(p)]: what follows the last [/]. *)
Fixpoint basename (p : string) : string :=
  match p with
  | EmptyString => EmptyString
  | String c rest =>
      if containsSlash rest then basename rest
      else if Ascii.eqb c "/" then rest else p
  end.

(** The directory a path is in: what precedes its last [/].  It is empty for
    a path directly under the root or under the working directory, which are
    always there. *)
Fixpoint parentOf (p : string) : string :=
  match p with
  | EmptyString => EmptyString
  | String c rest => if containsSlash rest then String c (parentOf rest) else EmptyString
  end.

(** The directories above [p], from the outermost to the one [p] is in:
    what precedes each [/] of [p], the root and the working directory left
    out. *)
Fixpoint ancestorsFrom (seen p : string) : list string :=
  match p with
  | EmptyString => []
  | String c rest =>
      (if Ascii.eqb c "/" && negb (isEmpty seen) then [seen] else [])
      ++ ancestorsFrom (seen +:+ String c EmptyString) rest
  end.

Definition ancestors (p : string) : list string := ancestorsFrom EmptyString p.

Fixpoint containsDot (s : string) : bool :=
  match s with
  | EmptyString => false
  | String c s' => Ascii.eqb c "." || containsDot s'
  end.

(** The split of a name at its last dot, the first character apart (a dot
    there starts no extension). *)
Fixpoint splitLastDot (s : string) : string * string :=
  match s with
  | EmptyString => (EmptyString, EmptyString)
  | String c rest =>
      if containsDot rest then
        let (name, ext) := splitLastDot rest in (String c name, ext)
      else if Ascii.eqb c "." then (EmptyString, s) else (s, EmptyString)
  end.

(** [path.parse(base)], its [name] and [ext], for a name without [/]. *)
Definition parse (base : string) : string * string :=
  match base with
  | EmptyString => (EmptyString, EmptyString)
  | String c rest =>
      if String.eqb base ".." then (base, EmptyString)
      else if containsDot rest then
        let (name, ext) := splitLastDot rest in (String c name, ext)
      else (base, EmptyString)
  end.

(** [path.extname(name)] *)
Definition extname (name : string) : string := snd (parse name).

(** [text.split(/\r?\n/, 1)[0]] *)
Fixpoint firstLine (s : string) : string :=
  match s with
  | EmptyString => EmptyString
  | String c rest =>
      if Ascii.eqb c "010" then EmptyString
      else if Ascii.eqb c "013" && String.prefix (String "010" EmptyString) rest then EmptyString
      else String c (firstLine rest)
  end.

(** [s.padStart(2, '0')] *)
Definition padStart2 (s : string) : string :=
  match String.length s with
  | O => "00"
  | S O => "0" +:+ s
  | _ => s
  end.

(** ** The world *)

(** What [process.kill(pid, 0)] finds. *)
Inductive probe := Alive | NoSuchProcess | NotPermitted.

(** An instant, as [toISOString()] and as [Intl.DateTimeFormat] render it
    in the zone Asia/Jakarta. *)
Record instant := {
  iso : string;
  year : string; month : string; day : string; hour : string; minute : string
}.

Inductive kind := IsDirectory | IsFile | IsOther.

Record dirent := { entryName : string; entryKind : kind }.

(** The store is indexed by paths: regular files with their content, and
    directories.  [faults] lists what the next calls to the system are made
    to answer, whatever the store says: [Some code] rejects the call with
    that code, [None] lets it through; after the list, all calls go
    through. *)
Record world := {
  files : gmap string string;
  dirs : gset string;
  device : string -> nat;
  procs : Z -> probe;
  pid : Z;
  faults : list (option string);
  random : rng;
  clock : nat -> instant
}.

Definition withStore (f : gmap string string) (d : gset string) (w : world) : world :=
  {| files := f; dirs := d; device := device w; procs := procs w; pid := pid w;
     faults := faults w; random := random w; clock := clock w |}.

Definition withFiles (f : gmap string string) (w : world) : world := withStore f (dirs w) w.

Definition withFaults (l : list (option string)) (w : world) : world :=
  {| files := files w; dirs := dirs w; device := device w; procs := procs w; pid := pid w;
     faults := l; random := random w; clock := clock w |}.

Definition withRandom (g : rng) (w : world) : world :=
  {| files := files w; dirs := dirs w; device := device w; procs := procs w; pid := pid w;
     faults := faults w; random := g; clock := clock w |}.

Definition withClock (c : nat -> instant) (w : world) : world :=
  {| files := files w; dirs := dirs w; device := device w; procs := procs w; pid := pid w;
     faults := faults w; random := random w; clock := c |}.

Definition pathExists (w : world) (p : string) : bool :=
  bool_decide (is_Some (files w !! p)) || bool_decide (p ∈ dirs w).

Definition isFileOf (w : world) (p : string) : bool := bool_decide (is_Some (files w !! p)).

(** What the system answers to the making of an entry at [path] when the
    directory it is to be in is not there: [ENOENT], or [ENOTDIR] when a
    regular file is in its place. *)
Definition missingParent (w : world) (path : string) : option string :=
  let parent := parentOf path in
  if isEmpty parent then None
  else if bool_decide (parent ∈ dirs w) then None
  else if isFileOf w parent then Some "ENOTDIR" else Some "ENOENT".

(** ** Calls to the system, and the trace they leave *)

Inductive call :=
| Mkdir (path : string) (recursive : bool)
| OpenWx (path : string)
| HandleWrite (path payload : string)
| HandleClose (path : string)
| ReadFile (path : string)
| Kill (target : Z)
| Rm (path : string)
| ExistsSync (path : string)
| Readdir (path : string)
| Access (path : string)
| Rename (src dst : string)
| CopyFileExcl (src dst : string)
| Unlink (path : string)
| WriteFile (path content : string)
| ConsoleLog (line : string).

Record event := { what : call; failed : option string }.

Definition succeeded (c : call) : event := {| what := c; failed := None |}.

(** ** The monad of the engine: state, errors, trace *)

Definition M (A : Type) := world -> result A * world * list event.

Definition ret {A : Type} (a : A) : M A := fun w => (Ok a, w, []).

Definition throw {A : Type} (e : error) : M A := fun w => (Throw e, w, []).

Definition bind {A B : Type} (m : M A) (f : A -> M B) : M B :=
  fun w =>
    match m w with
    | (Ok a, w', es) => let '(r, w'', es') := f a w' in (r, w'', es ++ es')
    | (Throw e, w', es) => (Throw e, w', es)
    end.

(** [x ← m; k] and [m;; k] are written with these instances. *)
#[global] Instance M_ret : MRet M := @ret.
#[global] Instance M_bind : MBind M := fun A B f m => bind m f.

(** [try { m } catch (error) { ... }]: the error becomes a value.  Reaching
    the loop bound is not an error that the program sees. *)
Definition catching {A : Type} (m : M A) : M (result A) :=
  fun w =>
    match m w with
    | (Ok a, w', es) => (Ok (Ok a), w', es)
    | (Throw OutOfFuel, w', es) => (Throw OutOfFuel, w', es)
    | (Throw e, w', es) => (Ok (Throw e), w', es)
    end.

(** [try { m } finally { cleanup }] *)
Definition finally {A : Type} (m : M A) (cleanup : M unit) : M A :=
  fun w =>
    match m w with
    | (Throw OutOfFuel, w', es) => (Throw OutOfFuel, w', es)
    | (r, w', es) =>
        match cleanup w' with
        | (Ok _, w'', es') => (r, w'', es ++ es')
        | (Throw e, w'', es') => (Throw e, w'', es ++ es')
        end
    end.

(** [error.code === code] *)
Definition hasCode (e : error) (code : string) : bool :=
  match e with
  | SysError c => String.eqb c code
  | _ => false
  end.

Definition liftResult {A : Type} (r : result A) : M A := fun w => (r, w, []).

(** A computation that draws from [Math.random]. *)
Definition liftRand {A : Type} (m : Rand A) : M A :=
  fun w => let (a, g) := m (random w) in (Ok a, withRandom g w, []).

(** [new Date()] *)
Definition newDate : M instant :=
  fun w => (Ok (clock w O), withClock (fun i => clock w (S i)) w, []).

Definition getPid : M Z := fun w => (Ok (pid w), w, []).

(** A call to the system: rejected by an injected fault, or performed on the
    store. *)
Definition syscall {A : Type} (c : call) (perform : world -> (string + A) * world) : M A :=
  fun w =>
    match faults w with
    | Some code :: later =>
        (Throw (SysError code), withFaults later w, [{| what := c; failed := Some code |}])
    | _ =>
        match perform (withFaults (tail (faults w)) w) with
        | (inr a, w') => (Ok a, w', [succeeded c])
        | (inl code, w') => (Throw (SysError code), w', [{| what := c; failed := Some code |}])
        end
    end.

(** [fs.mkdir(path, { recursive })].  With [recursive] the directories above
    [path] that are missing are made too, and a directory already there is no
    error; without it the directory that [path] is to be in must be there. *)
Definition mkdir (path : string) (recursive : bool) : M unit :=
  syscall (Mkdir path recursive) (fun w =>
    if recursive then
      if bool_decide (path ∈ dirs w) then (inr tt, w)
      else if bool_decide (is_Some (files w !! path)) then (inl "EEXIST", w)
      else if existsb (isFileOf w) (ancestors path) then (inl "ENOTDIR", w)
      else (inr tt, withStore (files w) ({[path]} ∪ list_to_set (ancestors path) ∪ dirs w) w)
    else
      match missingParent w path with
      | Some code => (inl code, w)
      | None =>
          if pathExists w path then (inl "EEXIST", w)
          else (inr tt, withStore (files w) ({[path]} ∪ dirs w) w)
      end).

(** [fs.open(path, 'wx', 0o644)]: create, and fail if the path exists.  The
    directory that [path] is in is taken to be there: the engine opens the
    lock file only, in the data directory that it has just made. *)
Definition openWx (path : string) : M unit :=
  syscall (OpenWx path) (fun w =>
    if pathExists w path then (inl "EEXIST", w)
    else (inr tt, withFiles (<[path := ""]> (files w)) w)).

Definition handleWrite (path payload : string) : M unit :=
  syscall (HandleWrite path payload) (fun w =>
    (inr tt, withFiles (<[path := payload]> (files w)) w)).

Definition handleClose (path : string) : M unit :=
  syscall (HandleClose path) (fun w => (inr tt, w)).

Definition readFile (path : string) : M string :=
  syscall (ReadFile path) (fun w =>
    match files w !! path with
    | Some content => (inr content, w)
    | None => if bool_decide (path ∈ dirs w) then (inl "EISDIR", w) else (inl "ENOENT", w)
    end).

(** [process.kill(pid, 0)] *)
Definition kill (target : Z) : M unit :=
  syscall (Kill target) (fun w =>
    match procs w target with
    | Alive => (inr tt, w)
    | NoSuchProcess => (inl "ESRCH", w)
    | NotPermitted => (inl "EPERM", w)
    end).

(** [fs.rm(path, { force: true })] *)
Definition rm (path : string) : M unit :=
  syscall (Rm path) (fun w =>
    if bool_decide (path ∈ dirs w) then (inl "ERR_FS_EISDIR", w)
    else (inr tt, withFiles (delete path (files w)) w)).

Definition access (path : string) : M unit :=
  syscall (Access path) (fun w =>
    if pathExists w path then (inr tt, w) else (inl "ENOENT", w)).

(** [fs.rename]: within one device, and onto whatever is at [dst].  The
    directory that [dst] is in is taken to be there, here and in
    [copyFileExcl]: the engine moves into the job directory that it has
    just made. *)
Definition rename (src dst : string) : M unit :=
  syscall (Rename src dst) (fun w =>
    match files w !! src with
    | None => (inl "ENOENT", w)
    | Some content =>
        if negb (device w src =? device w dst)%nat then (inl "EXDEV", w)
        else if bool_decide (dst ∈ dirs w) then (inl "EISDIR", w)
        else (inr tt, withFiles (<[dst := content]> (delete src (files w))) w)
    end).

(** [fs.copyFile(src, dst, COPYFILE_EXCL)] *)
Definition copyFileExcl (src dst : string) : M unit :=
  syscall (CopyFileExcl src dst) (fun w =>
    match files w !! src with
    | None => (inl "ENOENT", w)
    | Some content =>
        if pathExists w dst then (inl "EEXIST", w)
        else (inr tt, withFiles (<[dst := content]> (files w)) w)
    end).

Definition unlink (path : string) : M unit :=
  syscall (Unlink path) (fun w =>
    match files w !! path with
    | Some _ => (inr tt, withFiles (delete path (files w)) w)
    | None => if bool_decide (path ∈ dirs w) then (inl "EISDIR", w) else (inl "ENOENT", w)
    end).

(** [fs.writeFile(path, content)]: the file is created or replaced, in a
    directory that is there. *)
Definition writeFile (path content : string) : M unit :=
  syscall (WriteFile path content) (fun w =>
    if bool_decide (path ∈ dirs w) then (inl "EISDIR", w)
    else
      match missingParent w path with
      | Some code => (inl code, w)
      | None => (inr tt, withFiles (<[path := content]> (files w)) w)
      end).

(** [existsSync(path)]: never throws, [false] on any failure. *)
Definition existsSync (path : string) : M bool :=
  fun w =>
    match faults w with
    | Some code :: later =>
        (Ok false, withFaults later w, [{| what := ExistsSync path; failed := Some code |}])
    | _ =>
        (Ok (pathExists w path), withFaults (tail (faults w)) w, [succeeded (ExistsSync path)])
    end.

(** The name of [p] inside the directory [d], when [p] is directly there. *)
Definition childName (d p : string) : option string :=
  if String.prefix (d +:+ "/") p then
    let n := substring (String.length d + 1) (String.length p - (String.length d + 1)) p in
    if isEmpty n || containsSlash n then None else Some n
  else None.

Definition children (w : world) (d : string) : list dirent :=
  omap (fun p => n ← childName d p; Some {| entryName := n; entryKind := IsFile |})
       (map fst (map_to_list (files w)))
  ++ omap (fun p => n ← childName d p; Some {| entryName := n; entryKind := IsDirectory |})
       (elements (dirs w)).

(** [fs.readdir(path, { withFileTypes: true })] *)
Definition readdir (path : string) : M (list dirent) :=
  syscall (Readdir path) (fun w =>
    if bool_decide (path ∈ dirs w) then (inr (children w path), w)
    else if bool_decide (is_Some (files w !! path)) then (inl "ENOTDIR", w)
    else (inl "ENOENT", w)).

Definition consoleLog (line : string) : M unit :=
  fun w => (Ok tt, w, [succeeded (ConsoleLog line)]).

(** [for (const x of l) { body(x) }] *)
Fixpoint forEach {A : Type} (l : list A) (body : A -> M unit) : M unit :=
  match l with
  | [] => ret tt
  | x :: rest => body x;; forEach rest body
  end.

(** * The engine (run_job.mjs) *)

Definition IMAGE_EXTENSIONS : list string := [".jpg"; ".jpeg"; ".png"; ".webp"].
Definition VIDEO_EXTENSIONS : list string := [".mp4"; ".mov"].

Definition newline : string := String "010" EmptyString.

Section Engine.
Context `{Builtins}.

(** [process.env.AUTO_PREVIEW_ROOT || defaultRoot] *)
Variable rootDir : string.

Definition sourceImageDir : string := join (join rootDir "source_media") "images".
Definition sourceVideoDir : string := join (join rootDir "source_media") "videos".
Definition outputJobsDir : string := join rootDir "output_jobs".
Definition dataDir : string := join rootDir "data".
Definition captionsPath : string := join dataDir "captions.json".
Definition hashtagsPath : string := join dataDir "hashtags.json".
Definition lockFilePath : string := join dataDir ".run.lock".

Definition log (message : string) : M unit :=
  now ← newDate;
  consoleLog ("[" +:+ iso now +:+ "] " +:+ message).

Definition ensureDirectories : M unit :=
  mkdir sourceImageDir true;;
  mkdir sourceVideoDir true;;
  mkdir outputJobsDir true;;
  mkdir dataDir true.

(** ** LockGuard *)

Definition isProcessAlive (activePid : jsnum) : M bool :=
  match activePid with
  | NInt p =>
      if p <=? 0 then mret false
      else
        probed ← catching (kill p);
        match probed with
        | Ok _ => mret true
        | Throw e =>
            if hasCode e "ESRCH" then mret false
            else if hasCode e "EPERM" then mret true
            else throw e
        end
  | _ => mret false
  end.

(** [fs.open(lockFilePath, 'wx', 0o644)], [writeFile(payload)], [close()] *)
Definition writeLock (payload : string) : M unit :=
  openWx lockFilePath;;
  handleWrite lockFilePath payload;;
  handleClose lockFilePath.

(** The second [try] of [acquireLock]: is the recorded holder alive? *)
Definition holderAlive : M bool :=
  existing ← readFile lockFilePath;
  let line := trim (firstLine existing) in
  let activePid := StringToNumber line in
  isProcessAlive activePid.

(** The end of [acquireLock]: take the stale lock over. *)
Definition reclaimLock (payload : string) : M bool :=
  rm lockFilePath;;
  writeLock payload;;
  mret true.

Definition lockPayload (p : Z) (now : instant) : string :=
  showZ p +:+ newline +:+ iso now +:+ newline.

Definition acquireLock : M bool :=
  p ← getPid;
  now ← newDate;
  let payload := lockPayload p now in
  created ← catching (writeLock payload);
  match created with
  | Ok _ => mret true
  | Throw e =>
      if negb (hasCode e "EEXIST") then throw e
      else
        alive ← catching holderAlive;
        match alive with
        | Ok true => mret false
        | _ => reclaimLock payload
        end
  end.

Definition releaseLock : M unit := rm lockFilePath.

(** ** MediaInventory *)

Definition readJsonFile (filePath : string) : M value :=
  content ← readFile filePath;
  match JSON_parse content with
  | Some v => mret v
  | None => throw (Error "SyntaxError")
  end.

Definition writeJsonFile (filePath : string) (v : value) : M unit :=
  let content := JSON_stringify v in
  writeFile filePath (content +:+ newline).

(** The body of [for (const entry of entries)], on [(queue, results)]. *)
Definition visit (extensionSet : list string) (current : string)
           (acc : list string * list string) (entry : dirent)
  : list string * list string :=
  let '(queue, results) := acc in
  let fullPath := join current (entryName entry) in
  match entryKind entry with
  | IsDirectory => (queue ++ [fullPath], results)
  | IsOther => acc
  | IsFile =>
      let ext := toLowerCase (extname (entryName entry)) in
      if bool_decide (ext ∈ extensionSet) then (queue, results ++ [fullPath]) else acc
  end.

(** [while (queue.length > 0)] *)
Fixpoint walk (fuel : nat) (extensionSet : list string) (queue results : list string)
  : M (list string) :=
  match queue with
  | [] => mret results
  | current :: queue =>
      match fuel with
      | O => throw OutOfFuel
      | S fuel =>
          entries ← readdir current;
          let '(queue, results) := fold_left (visit extensionSet current) entries (queue, results) in
          walk fuel extensionSet queue results
      end
  end.

(** [results.sort((a, b) => a.localeCompare(b))] *)
Fixpoint insertPath (x : string) (sorted : list string) : list string :=
  match sorted with
  | [] => [x]
  | y :: rest => if localeCompare x y <=? 0 then x :: y :: rest else y :: insertPath x rest
  end.

Definition sortPaths (l : list string) : list string := fold_right insertPath [] l.

Definition collectFilesRecursive (fuel : nat) (root : string) (extensionSet : list string)
  : M (list string) :=
  present ← existsSync root;
  if negb present then mret []
  else
    results ← walk fuel extensionSet [root] [];
    mret (sortPaths results).

(** ** JobPackager *)

Definition formatWibJobFolderName (now : instant) : string :=
  "job_" +:+ year now +:+ "-" +:+ month now +:+ "-" +:+ day now
    +:+ "_" +:+ hour now +:+ "-" +:+ minute now +:+ "_WIB".

Fixpoint uniqueDirectoryLoop (fuel : nat) (baseDir desiredName : string) (attempt : nat)
  : M string :=
  match fuel with
  | O => throw OutOfFuel
  | S fuel =>
      let suffix := if (attempt =? 0)%nat then "" else "_" +:+ padStart2 (showNat attempt) in
      let candidate := join baseDir (desiredName +:+ suffix) in
      made ← catching (mkdir candidate false);
      match made with
      | Ok _ => mret candidate
      | Throw e =>
          if negb (hasCode e "EEXIST") then throw e
          else uniqueDirectoryLoop fuel baseDir desiredName (S attempt)
      end
  end.

Definition uniqueDirectoryPath (fuel : nat) (baseDir desiredName : string) : M string :=
  uniqueDirectoryLoop fuel baseDir desiredName O.

(** [`${parsed.name}${suffix}${parsed.ext}`] *)
Definition candidateName (parsed : string * string) (attempt : nat) : string :=
  let suffix := if (attempt =? 0)%nat then "" else "_" +:+ showNat attempt in
  fst parsed +:+ suffix +:+ snd parsed.

Fixpoint uniqueFileLoop (fuel : nat) (targetDir : string) (parsed : string * string)
         (attempt : nat) : M string :=
  match fuel with
  | O => throw OutOfFuel
  | S fuel =>
      let candidatePath := join targetDir (candidateName parsed attempt) in
      found ← catching (access candidatePath);
      match found with
      | Ok _ => uniqueFileLoop fuel targetDir parsed (S attempt)
      | Throw _ => mret candidatePath
      end
  end.

Definition uniqueFilePath (fuel : nat) (targetDir baseName : string) : M string :=
  let parsed := parse baseName in
  uniqueFileLoop fuel targetDir parsed O.

Definition moveFileSafe (sourcePath destinationPath : string) : M unit :=
  moved ← catching (rename sourcePath destinationPath);
  match moved with
  | Ok _ => mret tt
  | Throw e =>
      if negb (hasCode e "EXDEV") then throw e
      else
        copyFileExcl sourcePath destinationPath;;
        unlink sourcePath
  end.

(** The loop of [run] over the selected media. *)
Definition moveSelected (fuel : nat) (jobDir : string) (selectedMedia : list string) : M unit :=
  forEach selectedMedia (fun sourcePath =>
    destinationPath ← uniqueFilePath fuel jobDir (basename sourcePath);
    moveFileSafe sourcePath destinationPath).

(** [`${captionText}\n${hashtagsLine}\n`] *)
Definition captionFileContent (captionText : string) (selectedHashtags : list string) : string :=
  let hashtagsLine := String.concat " " selectedHashtags in
  captionText +:+ newline +:+ hashtagsLine +:+ newline.

(** ** Orchestrator *)

Definition skippedActive : string := "Run skipped: previous execution is still active.".

Definition skippedStock (images videos : nat) : string :=
  "Run skipped: not enough source media. images=" +:+ showNat images
    +:+ ", videos=" +:+ showNat videos
    +:+ ", total=" +:+ showNat (images + videos) +:+ ".".

Definition success (moved : nat) (jobDir : string) (c : composition) (hashtags : nat) : string :=
  "Run success: " +:+ showNat moved +:+ " media moved to " +:+ jobDir
    +:+ ". images=" +:+ showZ (images c) +:+ ", videos=" +:+ showZ (videos c)
    +:+ ", hashtags=" +:+ showNat hashtags +:+ ".".

(** What [run] does once it holds the lock and has a composition. *)
Definition assemble (fuel : nat) (imageFiles videoFiles : list string) (c : composition)
  : M unit :=
  selectedImages ← (liftRand (pickRandomItems imageFiles (images c)) ≫= liftResult);
  selectedVideos ← (liftRand (pickRandomItems videoFiles (videos c)) ≫= liftResult);
  let selectedMedia := selectedImages ++ selectedVideos in
  captionsRaw ← readJsonFile captionsPath;
  normalizedCaptions ← liftResult (normalizeCaptionEntries captionsRaw);
  stamp ← newDate;
  chosen ← (liftRand (pickCaption (iso stamp) normalizedCaptions) ≫= liftResult);
  hashtagsRaw ← readJsonFile hashtagsPath;
  hashtags ← liftResult (normalizeHashtags hashtagsRaw);
  selectedHashtags ← (liftRand (pickHashtags hashtags) ≫= liftResult);
  now ← newDate;
  let jobFolderName := formatWibJobFolderName now in
  jobDir ← uniqueDirectoryPath fuel outputJobsDir jobFolderName;
  moveSelected fuel jobDir selectedMedia;;
  writeFile (join jobDir "caption.txt")
            (captionFileContent (captionText chosen) selectedHashtags);;
  writeJsonFile captionsPath (bankToValue (fun v => v) (nextCaptions chosen));;
  log (success (length selectedMedia) jobDir c (length selectedHashtags)).

(** [run()].  [Promise.all] starts the two scans together; they only read
    the store, and they are taken here one after the other, the images
    first.  When one of them fails, what the other still reads behind the
    back of the [finally] is left out. *)
Definition run (fuel : nat) : M unit :=
  ensureDirectories;;
  lockAcquired ← acquireLock;
  if negb lockAcquired then log skippedActive
  else
    finally
      (imageFiles ← collectFilesRecursive fuel sourceImageDir IMAGE_EXTENSIONS;
       videoFiles ← collectFilesRecursive fuel sourceVideoDir VIDEO_EXTENSIONS;
       composition ← liftRand (chooseComposition (Z.of_nat (length imageFiles))
                                                  (Z.of_nat (length videoFiles)));
       match composition with
       | None => log (skippedStock (length imageFiles) (length videoFiles))
       | Some c => assemble fuel imageFiles videoFiles c
       end)
      releaseLock.
End Engine.

(** * Notions used to state the properties *)

(** The feasible mixed splits, in the words of the specification. *)
Definition feasible (imageCount videoCount k : Z) : Prop :=
  1 <= k <= 3 /\ k <= imageCount /\ 4 - k <= videoCount.

Section RotationNotions.
Context {I : Type}.

Definition unusedCount (bank : list (caption I)) : nat := length (unusedIndexes bank).

(** The bank a pick selects from: the bank itself, or the bank reset when
    nothing is left unused. *)
Definition available (bank : list (caption I)) : list (caption I) :=
  if resets bank then map resetEntry bank else bank.

(** Repeated [pickCaption], each call on the bank the previous one
    returned, one timestamp per call; the flags tell which calls reset. *)
Fixpoint repeatedPicks (nows : list string) (bank : list (caption I))
  : Rand (result (list bool * list (caption I))) :=
  fun g =>
    match nows with
    | [] => (Ok ([], bank), g)
    | now :: later =>
        match pickCaption now bank g with
        | (Throw e, g') => (Throw e, g')
        | (Ok p, g') =>
            match repeatedPicks later (nextCaptions p) g' with
            | (Throw e, g'') => (Throw e, g'')
            | (Ok (flags, final), g'') => (Ok (resets bank :: flags, final), g'')
            end
        end
    end.
End RotationNotions.

(** ** Caption normalisation, in the words of the specification *)

Definition idLe (a b : caption Z) : Prop := id a <= id b.

(** Ids [1..N], in order. *)
Definition denseIds {I : Type} (idOf : I -> value) (bank : list (caption I)) : Prop :=
  map (fun c => idOf (id c)) bank
  = map (fun i => num (Z.of_nat i + 1)) (seq 0 (length bank)).

(** The text an entry carries: a legacy plain string, or the [text] (else
    [caption]) of a structured record. *)
Definition entryText (entry : value) : string :=
  if isString entry then strOf entry else textCandidate entry.

(** A structured entry: not a string, and an object or an array. *)
Definition isRecord (entry : value) : bool :=
  negb (isString entry) && truthy entry && isObjectType entry.

(** An entry that is a string or a record, and whose text is not blank. *)
Definition hasText (entry : value) : bool :=
  (isString entry || truthy entry && isObjectType entry)
  && negb (isEmpty (trim (entryText entry))).

Definition entryUsed (entry : value) : bool :=
  if isString entry then false else truthy (get entry "used").

Definition entryUsedAt (entry : value) : value :=
  if isString entry then VNull else get entry "used_at" ?? VNull.

(** The largest id of a list, [0] when it is empty. *)
Definition maxId (l : list (caption Z)) : Z :=
  fold_right Z.max 0 (map id l).

Section DeclaredId.
Context `{Builtins}.

(** The id a structured record declares, when it is a positive integer. *)
Definition declaredId (entry : value) : option Z :=
  if isString entry then None
  else match toNumber (get entry "id") with
       | NInt p => if 0 <? p then Some p else None
       | _ => None
       end.

(** The record an entry with text becomes, given the fallback id. *)
Definition captionOf (entry : value) (fallbackId : Z) : caption Z :=
  {| id := match declaredId entry with Some p => p | None => fallbackId end;
     text := trim (entryText entry);
     used := entryUsed entry;
     used_at := entryUsedAt entry |}.

(** Ids in sequence: the fallback is never below the successor of an id
    given so far. *)
Fixpoint assignIds (fallbackId : Z) (kept : list value) : list (caption Z) :=
  match kept with
  | [] => []
  | entry :: rest =>
      let c := captionOf entry fallbackId in
      c :: assignIds (Z.max fallbackId (plusOne (id c))) rest
  end.
End DeclaredId.

(** The fallback id once the records [earlier] have their ids: the
    greatest of [start] and of the successors of these ids. *)
Definition fallbackAfter (start : Z) (earlier : list (caption Z)) : Z :=
  fold_left (fun fallbackId c => Z.max fallbackId (plusOne (id c))) earlier start.

(** An id up to which adding one is exact. *)
Definition safeId (c : caption Z) : Prop := id c < 2 ^ 53.

(** A bank in normal form, numbered from [k + 1]: trimmed non-empty texts,
    ids in sequence, a [used_at] that is a value or [null]. *)
Fixpoint canonFrom (k : nat) (bank : list (caption Z)) : Prop :=
  match bank with
  | [] => True
  | c :: rest =>
      id c = Z.of_nat k + 1 /\
      trim (text c) = text c /\
      isEmpty (text c) = false /\
      used_at c ?? VNull = used_at c /\
      canonFrom (S k) rest
  end.

Definition trimmedText {I : Type} (c : caption I) : Prop :=
  trim (text c) = text c /\ isEmpty (text c) = false /\ used_at c ?? VNull = used_at c.

(** ** Hashtag normalisation, in the words of the specification *)

(** First occurrences, compared through [key]. *)
Fixpoint firstByKey (key : string -> string) (seen : gset string) (tags : list string)
  : list string :=
  match tags with
  | [] => []
  | tag :: rest =>
      if decide (key tag ∈ seen) then firstByKey key seen rest
      else tag :: firstByKey key ({[key tag]} ∪ seen) rest
  end.

(** A canonical hashtag: a leading [#], no white space. *)
Definition canonicalTag (tag : string) : Prop :=
  startsWithHash tag = true /\ hasWhiteSpace tag = false.

(** ** Observing a computation of the engine *)

Definition resultOf {A : Type} (x : result A * world * list event) : result A := fst (fst x).
Definition worldOf {A : Type} (x : result A * world * list event) : world := snd (fst x).
Definition eventsOf {A : Type} (x : result A * world * list event) : list event := snd x.

(** Every event of [m] satisfies [P], and every error it throws satisfies [E],
    from whatever world it starts. *)
Definition respects {A : Type} (P : event -> Prop) (E : error -> Prop) (m : M A) : Prop :=
  forall w,
    Forall P (eventsOf (m w)) /\
    (forall e, resultOf (m w) = Throw e -> E e).

(** No injected fault is pending: the system answers by the store. *)
Definition calm (w : world) : Prop := faults w = [].

Definition isOpenWx (ev : event) : bool :=
  match what ev with OpenWx _ => true | _ => false end.

Definition noOpen (ev : event) : Prop := isOpenWx ev = false.

(** The number of exclusive creations attempted. *)
Definition opens (es : list event) : nat := length (filter (fun ev => isOpenWx ev = true) es).

(** An error of the system or the loop bound: nothing the program throws
    itself. *)
Definition fromSystem (e : error) : Prop :=
  match e with Error _ => False | _ => True end.

(** Any error but the one of [pickRandomItems]. *)
Definition notCannotPick (e : error) : Prop :=
  forall (count : Z) (len : nat), e <> cannotPick count len.

(** The first three characters of the message of a thrown [Error]. *)
Definition prefix3 (e : error) : string :=
  match e with
  | Error message => substring 0 3 message
  | _ => EmptyString
  end.

(** An event that is not a [fs.writeFile]. *)
Definition notWriteFile (ev : event) : Prop :=
  forall path content, what ev <> WriteFile path content.

(** ** The order of a run's effects *)

Section RunOrder.
Context `{Builtins}.
Variable rootDir : string.

(** The caption bank file is written (or its writing is attempted). *)
Definition isBankWrite (ev : event) : Prop :=
  exists content, what ev = WriteFile (captionsPath rootDir) content.

Definition notBankWrite (ev : event) : Prop := ~ isBankWrite ev.

(** The write is one [fs.writeFile] of a whole serialised bank. *)
Definition writesWholeBank (ev : event) : Prop :=
  exists bank : list (caption value),
    what ev = WriteFile (captionsPath rootDir)
                        (JSON_stringify (bankToValue (fun v => v) bank) +:+ newline).

(** [src] has been moved into [jobDir], under its base name or under that
    name with a suffix [_k]: renamed, or copied and unlinked. *)
Definition movedInto (jobDir src : string) (es : list event) : Prop :=
  exists k : nat,
    let dst := join jobDir (candidateName (parse (basename src)) k) in
    In (succeeded (Rename src dst)) es \/
    (In (succeeded (CopyFileExcl src dst)) es /\
     In (succeeded (Unlink src)) es).

(** The run up to its selection: what [run] does until the media are
    selected, and the media that it selects then; [None] when it stops
    before for want of the lock or of media. *)
Definition selecting (fuel : nat) : M (option (list string)) :=
  ensureDirectories rootDir;;
  lockAcquired ← acquireLock rootDir;
  if negb lockAcquired then mret None
  else
    imageFiles ← collectFilesRecursive fuel (sourceImageDir rootDir) IMAGE_EXTENSIONS;
    videoFiles ← collectFilesRecursive fuel (sourceVideoDir rootDir) VIDEO_EXTENSIONS;
    composition ← liftRand (chooseComposition (Z.of_nat (length imageFiles))
                                               (Z.of_nat (length videoFiles)));
    match composition with
    | None => mret None
    | Some c =>
        selectedImages ← (liftRand (pickRandomItems imageFiles (images c)) ≫= liftResult);
        selectedVideos ← (liftRand (pickRandomItems videoFiles (videos c)) ≫= liftResult);
        mret (Some (selectedImages ++ selectedVideos))
    end.

(** The media that the run from [w] selects. *)
Definition selectedBy (fuel : nat) (w : world) (selectedMedia : list string) : Prop :=
  resultOf (selecting fuel w) = Ok (Some selectedMedia).

(** The job is packaged: every medium of [selectedMedia] has been moved
    into one job directory, made in the output directory, and the
    [caption.txt] of that directory is written. *)
Definition packaged (selectedMedia : list string) (es : list event) : Prop :=
  exists (jobDir : string) (content : string),
    (exists name, jobDir = join (outputJobsDir rootDir) name) /\
    (forall src, In src selectedMedia -> movedInto jobDir src es) /\
    In (succeeded (WriteFile (join jobDir "caption.txt") content)) es.

(** A trace without a write of the bank, or with one write of the whole
    bank that comes after the packaging of media that satisfy [Sel]. *)
Definition guarded (Sel : list string -> Prop) (es : list event) : Prop :=
  Forall notBankWrite es \/
  exists pre ev post selectedMedia,
    es = pre ++ ev :: post /\ writesWholeBank ev /\
    Forall notBankWrite pre /\
    Sel selectedMedia /\ packaged selectedMedia pre /\
    Forall notBankWrite post.

(** Every trace of [m] is guarded. *)
Definition ensuresGuarded {A : Type} (Sel : list string -> Prop) (m : M A) : Prop :=
  forall w, guarded Sel (eventsOf (m w)).

(** Four media, all different. *)
Definition fourDistinct (selectedMedia : list string) : Prop :=
  length selectedMedia = 4%nat /\ NoDup selectedMedia.

(** Every trace of [m] is guarded, by the packaging of the four media that
    [k] returns from the same world. *)
Definition tied (k : M (option (list string))) (m : M unit) : Prop :=
  forall w,
    guarded (fun selectedMedia =>
               resultOf (k w) = Ok (Some selectedMedia) /\ fourDistinct selectedMedia)
            (eventsOf (m w)).
End RunOrder.

Fixpoint lastChar (s : string) : option ascii :=
  match s with
  | EmptyString => None
  | String c rest => match lastChar rest with Some d => Some d | None => Some c end
  end.

(** ** The lock record *)

(** The world after one [new Date()]. *)
Definition started (w : world) : world := withClock (fun i => clock w (S i)) w.

Section LockRecord.
Context `{Builtins}.

(** The process id that a lock record names: [Number] of its first line,
    trimmed. *)
Definition recordedHolder (content : string) : jsnum :=
  StringToNumber (trim (firstLine content)).

(** The holder that the record names is taken to be alive: its id is a
    positive integer and the probe finds the process, or is refused the
    permission to look ([EPERM]). *)
Definition liveHolder (w : world) (content : string) : bool :=
  match recordedHolder content with
  | NInt p =>
      (0 <? p) && match procs w p with
                  | Alive | NotPermitted => true
                  | NoSuchProcess => false
                  end
  | _ => false
  end.

(** The three events of a lock record written. *)
Definition lockWritten (rootDir payload : string) : list event :=
  [succeeded (OpenWx (lockFilePath rootDir));
   succeeded (HandleWrite (lockFilePath rootDir) payload);
   succeeded (HandleClose (lockFilePath rootDir))].
End LockRecord.

(** ** The store of a world *)

(** The paths that exist: files and directories. *)
Definition existing (w : world) : gset string := dom (files w) ∪ dirs w.

(** * Sample data *)

Definition threeCaptions : list (caption Z) :=
  [ {| id := 1; text := "a"; used := false; used_at := VNull |};
    {| id := 2; text := "b"; used := true; used_at := VStr "t0" |};
    {| id := 3; text := "c"; used := false; used_at := VNull |} ].

(** [[{ "id": 5, "text": "a" }]] *)
Definition rawSparseId : value :=
  VArr [VObj [("id", num 5); ("text", VStr "a")]].

(** [[""]]: a bank with one blank legacy entry. *)
Definition rawBlankString : value := VArr [VStr ""].

Definition blankCaption : caption value :=
  {| id := num 1; text := ""; used := false; used_at := VNull |}.

(** [["  Hi ", { "id": 7, "text": "there" }, " ", { "caption": "you", "used": 1 }]] *)
Definition rawMixed : value :=
  VArr [VStr "  Hi "; VObj [("id", num 7); ("text", VStr "there")]; VStr " ";
        VObj [("caption", VStr "you"); ("used", num 1)]].

(** [[{ "id": 9007199254740992, "text": "A" }, "B",
     { "id": 9007199254740992, "text": "C" }]]: ids of [2^53]. *)
Definition rawLargeIds : value :=
  VArr [VObj [("id", num (2 ^ 53)); ("text", VStr "A")]; VStr "B";
        VObj [("id", num (2 ^ 53)); ("text", VStr "C")]].

(** A conventional instance of the conversions: decimal digits for the
    numbers, ASCII letters for the case. *)
Definition asciiLower (c : ascii) : ascii :=
  let n := nat_of_ascii c in
  if ((65 <=? n) && (n <=? 90))%nat then ascii_of_nat (n + 32) else c.

Fixpoint lowerAscii (s : string) : string :=
  match s with
  | EmptyString => EmptyString
  | String c s' => String (asciiLower c) (lowerAscii s')
  end.

Definition quote : string := String (ascii_of_nat 34) EmptyString.

(** The two bank files of the samples: a one-caption bank and three hashtags. *)
Definition sampleCaptionsJson : string := "[" +:+ quote +:+ "Hi" +:+ quote +:+ "]".
Definition sampleHashtagsJson : string :=
  "[" +:+ quote +:+ "#x" +:+ quote +:+ "," +:+ quote +:+ "#y" +:+ quote +:+ ","
      +:+ quote +:+ "#z" +:+ quote +:+ "]".

(** A compact serialisation: no escapes, no indentation. *)
Fixpoint sampleStringify (v : value) : string :=
  match v with
  | VUndefined | VNull => "null"
  | VBool true => "true"
  | VBool false => "false"
  | VNum (NInt z) => showZ z
  | VNum _ => "null"
  | VStr s => quote +:+ s +:+ quote
  | VArr items =>
      "[" +:+ (fix each (l : list value) : string :=
                 match l with
                 | [] => ""
                 | [x] => sampleStringify x
                 | x :: rest => sampleStringify x +:+ "," +:+ each rest
                 end) items +:+ "]"
  | VObj props =>
      "{" +:+ (fix each (l : list (string * value)) : string :=
                 match l with
                 | [] => ""
                 | [(k, x)] => quote +:+ k +:+ quote +:+ ":" +:+ sampleStringify x
                 | (k, x) :: rest =>
                     quote +:+ k +:+ quote +:+ ":" +:+ sampleStringify x +:+ "," +:+ each rest
                 end) props +:+ "}"
  end.

(** It parses the two sample files only. *)
Definition sampleBuiltins : Builtins :=
  {| StringToNumber := fun s =>
       match DecimalString.NilEmpty.uint_of_string s with
       | Some d => NInt (Z.of_nat (Nat.of_uint d))
       | None => NaN
       end;
     NumberToString := fun n =>
       match n with NInt z => showZ z | NaN => "NaN" | NNonInt => "Infinity" end;
     ObjectToString := fun _ => "[object Object]";
     toLowerCase := lowerAscii;
     localeCompare := fun a b =>
       match String.compare a b with Lt => -1 | Eq => 0 | Gt => 1 end;
     JSON_parse := fun content =>
       if String.eqb content sampleCaptionsJson then Some (VArr [VStr "Hi"])
       else if String.eqb content sampleHashtagsJson
            then Some (VArr [VStr "#x"; VStr "#y"; VStr "#z"])
            else None;
     JSON_stringify := sampleStringify |}.

(** [["#a b"]] and [["#Tag", "#tag"]] *)
Definition rawSpacedTag : value := VArr [VStr "#a b"].
Definition rawCasedTags : value := VArr [VStr "#Tag"; VStr "#tag"].

(** [[" My Tag ", { "tag": "#my tag" }, "", { "hashtag": "#MYTAG" }, { "tag": 7 }, "x"]] *)
Definition rawTags_items : list value :=
  [VStr " My Tag "; VObj [("tag", VStr "#my tag")]; VStr "";
   VObj [("hashtag", VStr "#MYTAG")]; VObj [("tag", num 7)]; VStr "x"].

Definition rawTags : value := VArr rawTags_items.

(** A stock of two images and three videos under the root [/r], a bank of
    one caption and a bank of three hashtags; the process is 4242, and no
    other process is alive. *)
Definition sampleInstant : instant :=
  {| iso := "2026-02-22T14:00:00.000Z";
     year := "2026"; month := "02"; day := "22"; hour := "21"; minute := "00" |}.

Definition sampleWorld : world :=
  {| files :=
       list_to_map
         [ ("/r/source_media/images/a.jpg", "A"); ("/r/source_media/images/b.jpg", "B");
           ("/r/source_media/videos/c.mp4", "C"); ("/r/source_media/videos/d.mp4", "D");
           ("/r/source_media/videos/e.mp4", "E");
           ("/r/data/captions.json", sampleCaptionsJson);
           ("/r/data/hashtags.json", sampleHashtagsJson) ];
     dirs := ∅;
     device := fun _ => O;
     procs := fun p => if p =? 4242 then Alive else NoSuchProcess;
     pid := 4242;
     faults := [];
     random := draws [0; 1; 2; 0; 0; 0; 0; 0; 0; 0]%nat;
     clock := fun _ => sampleInstant |}.

(** One run on the sample stock. *)
Definition sampleRun : result unit * world * list event :=
  @run sampleBuiltins "/r" 10 sampleWorld.

(** The sample world with a lock record left by process 999, which is no
    longer there. *)
Definition staleRecord : string :=
  "999" +:+ newline +:+ "2026-02-22T13:00:00.000Z" +:+ newline.

Definition staleWorld : world :=
  withFiles (<["/r/data/.run.lock" := staleRecord]> (files sampleWorld)) sampleWorld.

(** A job directory that already holds [a.jpg] and [a_1.jpg], and a source
    file of the same name. *)
Definition collisionWorld : world :=
  withStore (list_to_map [ ("/job/a.jpg", "old"); ("/job/a_1.jpg", "older");
                           ("/in/a.jpg", "new") ])
            {["/in"; "/job"]}
            sampleWorld.

(** * The wizard at the terminal (bank_wizard.mjs) *)

(** The computations of the wizard are those of the engine, with the lines
    that the user will type passed along: a computation takes the lines that
    are left and returns its value with the lines it has not read.  The
    trace records what [console.log] prints and what the file system is
    asked; the prompts of the questions are not recorded. *)

Module WizardIO.

(** [await rl.question(prompt)]: the next line.  When the input has ended,
    the question is never answered and the wizard does not go on: the
    outcome is [OutOfFuel], which no handler sees. *)
Definition question (prompt : string) (answers : list string) : M (string * list string) :=
  match answers with
  | [] => throw OutOfFuel
  | line :: rest => mret (line, rest)
  end.

(** [yesPattern.test(String(value).trim())], for
    [yesPattern = /^(y|yes|ya|iya|1)$/i]: the pattern has ASCII letters
    only, which [i] compares up to their case. *)
Definition isYes (value : string) : bool :=
  bool_decide (lowerAscii (trim value) ∈ ["y"; "yes"; "ya"; "iya"; "1"]%string).

(** [raw.slice(0, end)] *)
Definition sliceTo (raw : string) (finish : Z) : string :=
  let len := Z.of_nat (String.length raw) in
  let to := if finish <? 0 then Z.max (len + finish) 0 else Z.min finish len in
  substring 0 (Z.to_nat to) raw.

(** [truncateText(text, max)], for a text that is a string. *)
Definition truncateText (text : string) (max : Z) : string :=
  let raw := trim text in
  if Z.of_nat (String.length raw) <=? max then raw
  else sliceTo raw (max - 3) +:+ "...".

(** [array.findIndex((x, i) => test(x, i))], [None] for [-1]. *)
Fixpoint findIndexFrom {A : Type} (test : A -> nat -> bool) (index : nat) (l : list A)
  : option nat :=
  match l with
  | [] => None
  | x :: rest => if test x index then Some index else findIndexFrom test (S index) rest
  end.

(** [{ ...current, text: replacement }] *)
Definition withText (replacement : string) (current : caption Z) : caption Z :=
  {| id := id current; text := replacement; used := used current; used_at := used_at current |}.

(** The thrown error of a branch that is never taken: an index that
    [askIndex] has returned is within the list. *)
Definition outOfRange : error := Error "index out of range".

Section Dialogue.
Context `{Builtins}.
Variable rootDir : string.

Definition readJson (filePath : string) (fallbackValue : value) : M value :=
  got ← catching (content ← readFile filePath;
                  match JSON_parse content with
                  | Some v => mret v
                  | None => throw (Error "SyntaxError")
                  end);
  match got with
  | Ok v => mret v
  | Throw e => if hasCode e "ENOENT" then mret fallbackValue else throw e
  end.

Definition writeJson (filePath : string) (v : value) : M unit :=
  let content := JSON_stringify v in
  writeFile filePath (content +:+ newline).

(** [while (true)]: every round reads one line. *)
Fixpoint askChoice (prompt : string) (validChoices : list string) (answers : list string)
  : M (string * list string) :=
  match answers with
  | [] => throw OutOfFuel
  | line :: rest =>
      let answer := trim line in
      if bool_decide (answer ∈ validChoices) then mret (answer, rest)
      else
        consoleLog ("Input ga valid. Pilih salah satu: " +:+ String.concat ", " validChoices);;
        askChoice prompt validChoices rest
  end.

(** [Number.isInteger(value) && value >= 1 && value <= max] *)
Definition indexOf (answer : string) (max : nat) : option nat :=
  match StringToNumber answer with
  | NInt value =>
      if (1 <=? value) && (value <=? Z.of_nat max) then Some (Z.to_nat (value - 1)) else None
  | _ => None
  end.

(** [null] is [None]. *)
Fixpoint askIndex (prompt : string) (max : nat) (answers : list string)
  : M (option nat * list string) :=
  match answers with
  | [] => throw OutOfFuel
  | line :: rest =>
      let answer := trim line in
      if isEmpty answer then mret (None, rest)
      else
        match indexOf answer max with
        | Some index => mret (Some index, rest)
        | None =>
            consoleLog ("Nomor ga valid. Masukin angka 1-" +:+ showNat max
                          +:+ " atau Enter kosong buat batal.");;
            askIndex prompt max rest
        end
  end.

Definition captionLine (index : nat) (entry : caption Z) : string :=
  let usage := if used entry then "used" else "fresh" in
  showNat (index + 1) +:+ ". " +:+ truncateText (text entry) 100 +:+ " [" +:+ usage +:+ "]".

(** The body of [while (captions.length > 0)]; a round reads at least one
    line, so that the bound is not reached before the input ends. *)
Fixpoint manageCaptionsLoop (fuel : nat) (captions : list (caption Z)) (answers : list string)
  : M (list (caption Z) * list string) :=
  match fuel with
  | O => throw OutOfFuel
  | S fuel =>
      if (length captions =? 0)%nat then mret (captions, answers)
      else
        consoleLog (newline +:+ "Caption yang ada sekarang:");;
        forEach (imap captionLine captions) consoleLog;;
        consoleLog (newline +:+ "Menu caption:");;
        consoleLog "1) Edit caption by nomor";;
        consoleLog "2) Hapus caption by nomor";;
        consoleLog "3) Lanjut";;
        '(action, answers) ← askChoice "Pilih [1-3]: " ["1"; "2"; "3"]%string answers;
        if String.eqb action "3" then mret (captions, answers)
        else
          '(chosen, answers) ←
            askIndex ("Nomor caption (1-" +:+ showNat (length captions)
                        +:+ ", Enter kosong buat batal): ")
                     (length captions) answers;
          match chosen with
          | None => manageCaptionsLoop fuel captions answers
          | Some index =>
              match captions !! index with
              | None => throw outOfRange
              | Some current =>
                  if String.eqb action "1" then
                    '(line, answers) ←
                      question ("Caption baru untuk #" +:+ showNat (index + 1)
                                  +:+ " (Enter kosong batal): ") answers;
                    let replacement := trim line in
                    if isEmpty replacement then
                      consoleLog "Edit dibatalin.";;
                      manageCaptionsLoop fuel captions answers
                    else
                      let captions := <[index := withText replacement current]> captions in
                      consoleLog ("Caption #" +:+ showNat (index + 1) +:+ " diupdate.");;
                      manageCaptionsLoop fuel captions answers
                  else
                    let removed := current in
                    let captions := reindexCaptions (delete index captions) in
                    consoleLog ("Caption #" +:+ showNat (index + 1) +:+ " dihapus: " +:+ quote
                                  +:+ truncateText (text removed) 60 +:+ quote);;
                    manageCaptionsLoop fuel captions answers
              end
          end
  end.

Definition manageCaptions (currentCaptions : list (caption Z)) (answers : list string)
  : M (list (caption Z) * list string) :=
  manageCaptionsLoop (S (length answers)) (reindexCaptions currentCaptions) answers.

Definition hashtagLine (index : nat) (tag : string) : string :=
  showNat (index + 1) +:+ ". " +:+ tag.

(** [(tag, tagIndex) => tagIndex !== index
      && tag.toLowerCase() === replacement.toLowerCase()] *)
Definition duplicates (replacement : string) (index : nat) (tag : string) (tagIndex : nat)
  : bool :=
  negb (tagIndex =? index)%nat && String.eqb (toLowerCase tag) (toLowerCase replacement).

Fixpoint manageHashtagsLoop (fuel : nat) (hashtags : list string) (answers : list string)
  : M (list string * list string) :=
  match fuel with
  | O => throw OutOfFuel
  | S fuel =>
      if (length hashtags =? 0)%nat then mret (hashtags, answers)
      else
        consoleLog (newline +:+ "Hashtag yang ada sekarang:");;
        forEach (imap hashtagLine hashtags) consoleLog;;
        consoleLog (newline +:+ "Menu hashtag:");;
        consoleLog "1) Edit hashtag by nomor";;
        consoleLog "2) Hapus hashtag by nomor";;
        consoleLog "3) Lanjut";;
        '(action, answers) ← askChoice "Pilih [1-3]: " ["1"; "2"; "3"]%string answers;
        if String.eqb action "3" then mret (hashtags, answers)
        else
          '(chosen, answers) ←
            askIndex ("Nomor hashtag (1-" +:+ showNat (length hashtags)
                        +:+ ", Enter kosong buat batal): ")
                     (length hashtags) answers;
          match chosen with
          | None => manageHashtagsLoop fuel hashtags answers
          | Some index =>
              match hashtags !! index with
              | None => throw outOfRange
              | Some removed =>
                  if String.eqb action "1" then
                    '(replacementRaw, answers) ←
                      question ("Hashtag baru untuk #" +:+ showNat (index + 1)
                                  +:+ " (Enter kosong batal): ") answers;
                    let replacement := Wizard.normalizeHashtag (VStr replacementRaw) in
                    if isEmpty replacement then
                      consoleLog "Edit dibatalin.";;
                      manageHashtagsLoop fuel hashtags answers
                    else
                      match findIndexFrom (duplicates replacement index) O hashtags with
                      | Some duplicateIndex =>
                          consoleLog (replacement +:+ " udah ada di nomor "
                                        +:+ showNat (duplicateIndex + 1) +:+ ".");;
                          manageHashtagsLoop fuel hashtags answers
                      | None =>
                          let hashtags := <[index := replacement]> hashtags in
                          consoleLog ("Hashtag #" +:+ showNat (index + 1) +:+ " diupdate jadi "
                                        +:+ replacement +:+ ".");;
                          manageHashtagsLoop fuel hashtags answers
                      end
                  else
                    let hashtags := delete index hashtags in
                    consoleLog ("Hashtag #" +:+ showNat (index + 1) +:+ " dihapus: "
                                  +:+ removed);;
                    manageHashtagsLoop fuel hashtags answers
              end
          end
  end.

Definition manageHashtags (currentHashtags : list string) (answers : list string)
  : M (list string * list string) :=
  manageHashtagsLoop (S (length answers)) currentHashtags answers.

(** The loop of [handleCaptions] that reads the new captions. *)
Fixpoint addCaptions (nextId : Z) (captions : list (caption Z)) (answers : list string)
  : M (list (caption Z) * list string) :=
  match answers with
  | [] => throw OutOfFuel
  | inputText :: rest =>
      let text := trim inputText in
      if isEmpty text then mret (captions, rest)
      else
        addCaptions (nextId + 1)
          (captions ++ [{| id := nextId; text := text; used := false; used_at := VNull |}])
          rest
  end.

Definition handleCaptions (answers : list string) : M (bool * list string) :=
  existingRaw ← readJson (captionsPath rootDir) (VArr []);
  let captions := normalizeCaptions existingRaw in
  consoleLog (newline +:+ "=== Wizard Caption ===");;
  consoleLog ("Caption sekarang: " +:+ showNat (length captions));;
  '(line, answers) ← question "Mau ganti total caption lama? (y/N): " answers;
  let replaceAll := isYes line in
  '(captions, answers) ←
    (if replaceAll then mret ([], answers)
     else if (0 <? length captions)%nat then
       '(line, answers) ←
         question "Mau reset status used caption lama jadi fresh lagi? (y/N): " answers;
       let resetUsage := isYes line in
       let captions := if resetUsage then map resetEntry captions else captions in
       '(line, answers) ←
         question "Mau edit/hapus caption lama by nomor dulu? (y/N): " answers;
       let manageOld := isYes line in
       if manageOld then manageCaptions captions answers else mret (captions, answers)
     else mret (captions, answers));
  consoleLog "Masukin caption satu-satu. Enter kosong buat selesai.";;
  let nextId := fold_left (fun max entry => Z.max max (id entry)) captions 0 + 1 in
  '(captions, answers) ← addCaptions nextId captions answers;
  let captions := reindexCaptions (sortById captions) in
  if (length captions =? 0)%nat then
    consoleLog "Caption bank kosong, file ga jadi diubah.";;
    mret (false, answers)
  else
    writeJson (captionsPath rootDir) (bankToValue num captions);;
    consoleLog ("Beres. Total caption aktif: " +:+ showNat (length captions));;
    mret (true, answers).

(** The loop of [handleHashtags] that reads the new hashtags. *)
Fixpoint addHashtags (seen : gset string) (hashtags : list string) (answers : list string)
  : M (list string * list string) :=
  match answers with
  | [] => throw OutOfFuel
  | inputTag :: rest =>
      let normalized := Wizard.normalizeHashtag (VStr inputTag) in
      if isEmpty normalized then mret (hashtags, rest)
      else
        let key := toLowerCase normalized in
        if decide (key ∈ seen) then
          consoleLog ("Lewat, " +:+ normalized +:+ " udah ada.");;
          addHashtags seen hashtags rest
        else addHashtags ({[key]} ∪ seen) (hashtags ++ [normalized]) rest
  end.

Definition handleHashtags (answers : list string) : M (bool * list string) :=
  existingRaw ← readJson (hashtagsPath rootDir) (VArr []);
  let hashtags := Wizard.normalizeHashtags existingRaw in
  consoleLog (newline +:+ "=== Wizard Hashtag ===");;
  consoleLog ("Hashtag sekarang: " +:+ showNat (length hashtags));;
  '(line, answers) ← question "Mau ganti total hashtag lama? (y/N): " answers;
  let replaceAll := isYes line in
  '(hashtags, answers) ←
    (if replaceAll then mret ([], answers)
     else if (0 <? length hashtags)%nat then
       '(line, answers) ←
         question "Mau edit/hapus hashtag lama by nomor dulu? (y/N): " answers;
       let manageOld := isYes line in
       if manageOld then manageHashtags hashtags answers else mret (hashtags, answers)
     else mret (hashtags, answers));
  consoleLog "Masukin hashtag satu-satu. Boleh pake # atau engga. Enter kosong buat selesai.";;
  let seen : gset string := list_to_set (map toLowerCase hashtags) in
  '(hashtags, answers) ← addHashtags seen hashtags answers;
  if (length hashtags =? 0)%nat then
    consoleLog "Hashtag bank kosong, file ga jadi diubah.";;
    mret (false, answers)
  else
    writeJson (hashtagsPath rootDir) (VArr (map VStr hashtags));;
    consoleLog ("Beres. Total hashtag aktif: " +:+ showNat (length hashtags));;
    mret (true, answers).

(** [rl.close()] changes nothing of the store. *)
Definition run (answers : list string) : M unit :=
  mkdir (dataDir rootDir) true;;
  finally
    (consoleLog "=== Wizard Bank n8n-auto-preview ===";;
     consoleLog ("Root: " +:+ rootDir);;
     consoleLog ("Data: " +:+ dataDir rootDir);;
     consoleLog (newline +:+ "Pilih mode:");;
     consoleLog "1) Isi/tambah caption";;
     consoleLog "2) Isi/tambah hashtag";;
     consoleLog "3) Isi dua-duanya";;
     consoleLog "4) Keluar";;
     '(mode, answers) ← askChoice "Pilih [1-4]: " ["1"; "2"; "3"; "4"]%string answers;
     if String.eqb mode "4" then consoleLog "Sip, wizard ditutup."
     else
       let changed := false in
       '(changed, answers) ←
         (if String.eqb mode "1" || String.eqb mode "3" then
            '(done, answers) ← handleCaptions answers;
            mret (done || changed, answers)
          else mret (changed, answers));
       '(changed, answers) ←
         (if String.eqb mode "2" || String.eqb mode "3" then
            '(done, answers) ← handleHashtags answers;
            mret (done || changed, answers)
          else mret (changed, answers));
       if (changed : bool) then
         consoleLog (newline +:+ "Semua update beres.");;
         consoleLog "Ga perlu restart n8n. Run berikutnya otomatis kebaca.";;
         consoleLog "Kalo mau test langsung: node scripts/run_job.mjs"
       else consoleLog (newline +:+ "Ga ada perubahan yang disimpan."))
    (mret tt).
End Dialogue.
End WizardIO.

(** * Further notions *)

(** A caption record that the engine gives back as it is: a trimmed
    non-empty text, an id and a [used_at] that are not [undefined]. *)
Definition settled (c : caption value) : Prop :=
  trim (text c) = text c /\
  isEmpty (text c) = false /\
  (forall fallback, id c ?? fallback = id c) /\
  used_at c ?? VNull = used_at c.

(** The engine's view of a wizard's bank: the same records, the ids as
    numbers. *)
Definition asEngineBank (bank : list (caption Z)) : list (caption value) :=
  map (fun c => {| id := num (id c); text := text c; used := used c; used_at := used_at c |})
      bank.

(** A hashtag bank as the array of strings that the file holds. *)
Definition tagsToValue (tags : list string) : value := VArr (map VStr tags).

(** An event that signals no process, or a process with a positive id. *)
Definition probesPositive (ev : event) : Prop :=
  match what ev with
  | Kill target => 0 < target
  | _ => True
  end.

(** [p] lies under the directory [root]. *)
Definition under (root p : string) : Prop := String.prefix (root +:+ "/") p = true.

Section ScanNotions.
Context `{Builtins}.

(** A path that a scan of [root] may return: a regular file of the store,
    under [root], whose extension, in lower case, is one of [exts]. *)
Definition scannable (w : world) (root : string) (exts : list string) (p : string) : Prop :=
  is_Some (files w !! p) /\ under root p /\ toLowerCase (extname (basename p)) ∈ exts.

(** What the loop of a scan holds: directories that are the root or under
    it, and results that the scan may return. *)
Definition scanState (w : world) (root : string) (exts queue results : list string) : Prop :=
  Forall (fun d => d = root \/ under root d) queue /\
  Forall (scannable w root exts) results.

(** A file name that [path.extname] and the scan take as it is: not empty,
    without [/]. *)
Definition plainName (n : string) : Prop := isEmpty n = false /\ containsSlash n = false.

(** The directories of the store that are [root] or below it: each one is
    a directory entry of the one before. *)
Inductive below (w : world) (root : string) : string -> Prop :=
| below_root : below w root root
| below_child (d n : string) :
    below w root d -> join d n ∈ dirs w -> plainName n -> below w root (join d n).

(** A regular file named [n] in the directory [d], with one of the
    extensions asked for. *)
Definition eligibleIn (w : world) (exts : list string) (d n : string) : Prop :=
  is_Some (files w !! join d n) /\ plainName n /\ toLowerCase (extname n) ∈ exts.

(** What the loop of a scan has covered: every directory below the root
    is still to be reached from the queue, or has its eligible files among
    the results. *)
Definition scanCovers (w : world) (root : string) (exts queue results : list string) : Prop :=
  forall d, below w root d ->
    (exists q, q ∈ queue /\ below w q d) \/
    (forall n, eligibleIn w exts d n -> join d n ∈ results).

(** What one round of the scan adds to the queue and to the results. *)
Definition foundDirs (current : string) (entries : list dirent) : list string :=
  omap (fun entry => match entryKind entry with
                     | IsDirectory => Some (join current (entryName entry))
                     | _ => None
                     end) entries.

Definition foundFiles (exts : list string) (current : string) (entries : list dirent)
  : list string :=
  omap (fun entry => match entryKind entry with
                     | IsFile =>
                         if bool_decide (toLowerCase (extname (entryName entry)) ∈ exts)
                         then Some (join current (entryName entry)) else None
                     | _ => None
                     end) entries.

(** A name in a directory that has been read. *)
Definition childOf (visited : list string) (p : string) : Prop :=
  exists d n, p = join d n /\ d ∈ visited /\ plainName n.

(** What the loop of a scan keeps, for the directories [visited] so far:
    no directory is read or queued twice, no result is there twice, and
    every path but the root is a name in a directory already read. *)
Definition scanDistinct (root : string) (visited queue results : list string) : Prop :=
  NoDup (visited ++ queue) /\ NoDup results /\
  (forall x, x ∈ visited ++ queue ->
             (String.length root <= String.length x)%nat /\
             (x = root \/ childOf visited x)) /\
  (forall r, r ∈ results -> childOf visited r).

(** The order of [localeCompare]. *)
Definition localeLe (a b : string) : Prop := localeCompare a b <= 0.
End ScanNotions.

(** The four directories that [ensureDirectories] makes. *)
Definition baseDirectories (rootDir : string) : list string :=
  [sourceImageDir rootDir; sourceVideoDir rootDir; outputJobsDir rootDir; dataDir rootDir].

(** No regular file is in the way of the directory [p]: neither at [p] nor
    above it. *)
Definition clearWay (w : world) (p : string) : Prop :=
  files w !! p = None /\ forall a, a ∈ ancestors p -> files w !! a = None.

(** The name of an entry of a directory, which [path.join] appends as it
    is: not empty, without [/], neither [.] nor [..]. *)
Definition ordinaryName (n : string) : Prop :=
  plainName n /\ n <> "."%string /\ n <> ".."%string.

(** The [attempt]-th directory name that [uniqueDirectoryPath] tries. *)
Definition directoryCandidate (baseDir desiredName : string) (attempt : nat) : string :=
  join baseDir
       (desiredName +:+ (if (attempt =? 0)%nat then "" else "_" +:+ padStart2 (showNat attempt))).

(** An event of the preparation of a run: the base directories, the lock
    file, reading and probing.  No job directory is made, no file is moved,
    copied, removed or written. *)
Definition preparatory (rootDir : string) (ev : event) : Prop :=
  match what ev with
  | Mkdir _ recursive => recursive = true
  | OpenWx p | HandleWrite p _ | HandleClose p | Rm p => p = lockFilePath rootDir
  | Rename _ _ | CopyFileExcl _ _ | Unlink _ | WriteFile _ _ => False
  | ReadFile _ | Kill _ | ExistsSync _ | Readdir _ | Access _ | ConsoleLog _ => True
  end.

(** A result that is no [Error] thrown by the program itself. *)
Definition noDataError {A : Type} (r : result A) : Prop :=
  match r with
  | Throw e => fromSystem e
  | Ok _ => True
  end.

(** A computation that throws an [Error] of its own only while all it has
    done is preparatory. *)
Definition abortsEarly {A : Type} (rootDir : string) (m : M A) : Prop :=
  forall w,
    Forall (preparatory rootDir) (eventsOf (m w)) \/ noDataError (resultOf (m w)).

(** An event that is not the removal of the lock file. *)
Definition notRelease (rootDir : string) (ev : event) : Prop :=
  what ev <> Rm (lockFilePath rootDir).

(** ** What the wizard does *)

(** Every event of [m] satisfies [P]; the error it throws satisfies [E];
    the value it returns satisfies [Q]. *)
Definition fulfils {A : Type} (P : event -> Prop) (E : error -> Prop) (Q : A -> Prop)
           (m : M A) : Prop :=
  forall w,
    Forall P (eventsOf (m w)) /\
    match resultOf (m w) with
    | Ok a => Q a
    | Throw e => E e
    end.

(** Any error but the one of the branch that is never taken. *)
Definition inRange (e : error) : Prop := e <> WizardIO.outOfRange.

Section WizardNotions.
Context `{Builtins}.
Variable rootDir : string.

(** A hashtag bank as the wizard keeps it: canonical tags, no two equal up
    to case. *)
Definition tagsOk (tags : list string) : Prop :=
  Forall canonicalTag tags /\ NoDup (map toLowerCase tags).

(** The write of a caption bank: a bank in normal form that is not empty,
    serialised, to [captions.json]. *)
Definition captionBankWrite (path content : string) : Prop :=
  path = captionsPath rootDir /\
  exists bank : list (caption Z),
    content = JSON_stringify (bankToValue num bank) +:+ newline /\
    bank <> [] /\ canonFrom O bank.

(** The write of a hashtag bank, to [hashtags.json]. *)
Definition hashtagBankWrite (path content : string) : Prop :=
  path = hashtagsPath rootDir /\
  exists tags : list string,
    content = JSON_stringify (tagsToValue tags) +:+ newline /\
    tags <> [] /\ tagsOk tags.

(** What the wizard may do: make the data directory, read the two banks,
    print, and write a bank. *)
Definition wizardEvent (ev : event) : Prop :=
  match what ev with
  | WriteFile path content => captionBankWrite path content \/ hashtagBankWrite path content
  | Mkdir path recursive => path = dataDir rootDir /\ recursive = true
  | ReadFile path => path = captionsPath rootDir \/ path = hashtagsPath rootDir
  | ConsoleLog _ => True
  | _ => False
  end.
End WizardNotions.

(** ** The lines of a text *)

Fixpoint hasNewline (s : string) : bool :=
  match s with
  | EmptyString => false
  | String c rest => Ascii.eqb c "010" || hasNewline rest
  end.

(** The first line of a text and what follows its line feed; [None] when
    the text has no line feed. *)
Fixpoint cutLine (s : string) : option (string * string) :=
  match s with
  | EmptyString => None
  | String c rest =>
      if Ascii.eqb c "010" then Some (EmptyString, rest)
      else match cutLine rest with
           | Some (line, after) => Some (String c line, after)
           | None => None
           end
  end.

(** ** The delivery of the selected media *)

(** [dst] is a new path of the job directory that holds, in [after], what
    [src] held in [before]. *)
Definition deliveredAs (jobDir : string) (before after : world) (src dst : string) : Prop :=
  (exists name, dst = join jobDir name) /\
  pathExists before dst = false /\
  files after !! dst = files before !! src.

(** ** A first session of the wizard *)

(** The bank of the lines typed, numbered from [index + 1]. *)
Fixpoint typedFrom (index : nat) (lines : list string) : list (caption Z) :=
  match lines with
  | [] => []
  | line :: rest =>
      {| id := Z.of_nat index + 1; text := trim line; used := false; used_at := VNull |}
        :: typedFrom (S index) rest
  end.

(** A line that is not blank. *)
Definition notBlank (line : string) : Prop := isEmpty (trim line) = false.

(** [["  Hi ", { "id": 7, "text": "there" }]], and the bank the engine
    reads from it. *)
Definition rawTwo : value :=
  VArr [VStr "  Hi "; VObj [("id", num 7); ("text", VStr "there")]].

Definition twoCaptions : list (caption value) :=
  [ {| id := num 1; text := "Hi"; used := false; used_at := VNull |};
    {| id := num 7; text := "there"; used := false; used_at := VNull |} ].

(** The world of the collision, where the rename is refused across devices
    and the removal of the source fails after the copy. *)
Definition interruptedWorld : world :=
  withFaults [Some "EXDEV"; None; Some "EIO"]%string collisionWorld.

(** The sample world once its image directory exists, with one more file
    that is no image, and a second image in upper case in a subdirectory. *)
Definition scanWorld : world :=
  withStore
    (<["/r/source_media/images/notes.txt" := "N"]>
       (<["/r/source_media/images/old/Z.JPG" := "Z"]> (files sampleWorld)))
    {["/r/source_media/images"; "/r/source_media/images/old"]}
    sampleWorld.

(** The sample world with an output directory where two job directories
    are taken. *)
Definition takenWorld : world :=
  withStore (files sampleWorld) {["/out"; "/out/job"; "/out/job_01"]} sampleWorld.

(** The sample world with a caption bank that is no JSON. *)
Definition brokenBankWorld : world :=
  withFiles (<["/r/data/captions.json" := "oops"]> (files sampleWorld)) sampleWorld.

(** A session of the wizard: captions only, nothing reset or edited, one
    caption added. *)
Definition wizardAnswers : list string := ["1"; "n"; "n"; "n"; " Baru "; ""]%string.

Definition wizardSession : result unit * world * list event :=
  @WizardIO.run sampleBuiltins "/r" wizardAnswers sampleWorld.

(** Two media of the same name, in two directories, and a job directory. *)
Definition twinWorld : world :=
  withStore (list_to_map [ ("/in/a.jpg", "one"); ("/in2/a.jpg", "two") ])
            {["/in"; "/in2"; "/job"]} sampleWorld.

(** A root where the wizard has made the data directory and no bank is
    written yet. *)
Definition freshWorld : world :=
  withStore ∅ {["/fresh"; "/fresh/data"]} sampleWorld.

(** The two media of the same name, when the third call to the system, the
    probe of [/job/a.jpg] for the second medium, fails with [EIO]. *)
Definition failedProbeWorld : world :=
  withFaults [None; None; Some "EIO"]%string twinWorld.

(** The sample world when a regular file is where the directory
    [/r/source_media] should be. *)
Definition blockedWorld : world :=
  withStore (list_to_map [ ("/r/source_media", "not a directory") ]) ∅ sampleWorld.

(** The sample world once the process 4242, which is alive, holds the
    lock. *)
Definition heldWorld : world := worldOf (@acquireLock sampleBuiltins "/r" sampleWorld).

(** * Properties *)

(** ** The random source *)

Lemma randomBelow_lt (n : nat) (g : rng) :
  (0 < n)%nat -> (fst (randomBelow n g) < n)%nat.
Proof.
  intros Hn. unfold randomBelow. simpl. destruct n as [|n']; [lia|].
  apply Nat.mod_upper_bound. lia.
Qed.

Lemma randomBelow_draws (n r : nat) (rest : list nat) :
  (r < n)%nat -> fst (randomBelow n (draws (r :: rest))) = r.
Proof.
  intros Hr. unfold randomBelow, draws. simpl. destruct n as [|n']; [lia|].
  apply Nat.mod_small. exact Hr.
Qed.

Lemma next_draws (r : nat) (rest : list nat) : next (draws (r :: rest)) = draws rest.
Proof. reflexivity. Qed.

(** ** CompositionPlanner *)

Lemma possibleImageCounts_feasible (imageCount videoCount k : Z) :
  In k (possibleImageCounts imageCount videoCount) <-> feasible imageCount videoCount k.
Proof.
  unfold possibleImageCounts, feasible.
  rewrite <- list_elem_of_In, list_elem_of_filter, list_elem_of_In. simpl.
  rewrite andb_True, !Is_true_true, !Z.leb_le. intuition lia.
Qed.

Lemma possibleImageCounts_NoDup (imageCount videoCount : Z) :
  NoDup (possibleImageCounts imageCount videoCount).
Proof.
  unfold possibleImageCounts. apply NoDup_filter.
  repeat (apply NoDup_cons; split; [rewrite list_elem_of_In; simpl; lia|]).
  apply NoDup_nil_2.
Qed.

Lemma possibleImageCounts_nonempty (imageCount videoCount : Z) :
  0 < imageCount -> 0 < videoCount -> 4 <= imageCount + videoCount ->
  exists k, feasible imageCount videoCount k.
Proof.
  intros Hi Hv Ht. unfold feasible.
  destruct (Z_le_gt_dec 3 imageCount).
  - exists 3. lia.
  - exists imageCount. lia.
Qed.

Lemma chooseComposition_mixed (imageCount videoCount : Z) (g : rng) :
  4 <= imageCount + videoCount -> 0 < imageCount -> 0 < videoCount ->
  let possible := possibleImageCounts imageCount videoCount in
  (0 < length possible)%nat ->
  let k := nth (Nat.modulo (g O) (length possible)) possible 0 in
  In k possible /\
  fst (chooseComposition imageCount videoCount g) = Some {| images := k; videos := 4 - k |}.
Proof.
  intros Hge Hi Hv possible Hlen k. unfold chooseComposition.
  assert ((imageCount + videoCount <? 4) = false) as -> by (apply Z.ltb_ge; lia).
  assert ((0 <? imageCount) = true) as -> by (apply Z.ltb_lt; lia).
  assert ((0 <? videoCount) = true) as -> by (apply Z.ltb_lt; lia).
  cbn [andb]. fold possible.
  assert ((0 <? length possible)%nat = true) as -> by (apply Nat.ltb_lt; exact Hlen).
  unfold randomBelow. cbn [fst]. unfold k.
  destruct (length possible) as [|n] eqn:El; [lia|].
  split; [|reflexivity].
  apply nth_In. rewrite El. apply Nat.mod_upper_bound. lia.
Qed.

(** C1. [chooseComposition] follows the planning algorithm: no composition
    below four media; when both counts are positive and some mixed split is
    feasible, there is one duplicate-free enumeration of the feasible set,
    the same for every draw, and the planner returns the split
    [{images: k, videos: 4 - k}] whose [k] sits in it at the drawn index,
    the draw being an index below its length: the indexes and the feasible
    [k] correspond one to one, so that every feasible [k] comes out for
    exactly one value of the index (a uniform draw gives a uniform [k]), and
    a single-type batch never comes out; otherwise four images, else four
    videos, else nothing. *)
Theorem chooseComposition_algorithm (imageCount videoCount : Z) :
  let out := fun g : rng => fst (chooseComposition imageCount videoCount g) in
  (imageCount + videoCount < 4 -> forall g, out g = None) /\
  (4 <= imageCount + videoCount -> 0 < imageCount -> 0 < videoCount ->
   (exists k, feasible imageCount videoCount k) ->
   exists enum : list Z,
     NoDup enum /\
     (forall k, In k enum <-> feasible imageCount videoCount k) /\
     (forall g : rng,
        let k := nth (Nat.modulo (g O) (length enum)) enum 0 in
        feasible imageCount videoCount k /\
        out g = Some {| images := k; videos := 4 - k |}) /\
     (forall k, feasible imageCount videoCount k ->
        exists r : nat,
          (r < length enum)%nat /\
          out (draws [r]) = Some {| images := k; videos := 4 - k |} /\
          forall r' : nat, (r' < length enum)%nat ->
            out (draws [r']) = Some {| images := k; videos := 4 - k |} -> r' = r)) /\
  (4 <= imageCount + videoCount ->
   ~ (0 < imageCount /\ 0 < videoCount /\ exists k, feasible imageCount videoCount k) ->
   forall g,
     out g = if 4 <=? imageCount then Some {| images := 4; videos := 0 |}
             else if 4 <=? videoCount then Some {| images := 0; videos := 4 |}
             else None).
Proof.
  cbv zeta.
  split; [|split].
  - intros Hlt g. unfold chooseComposition. apply Z.ltb_lt in Hlt. rewrite Hlt. reflexivity.
  - intros Hge Hi Hv [k0 Hk0].
    set (possible := possibleImageCounts imageCount videoCount).
    assert (Hin : In k0 possible) by (apply possibleImageCounts_feasible; exact Hk0).
    assert (Hlen : (0 < length possible)%nat).
    { destruct possible; [destruct Hin | simpl; lia]. }
    assert (Hnd : NoDup possible) by apply possibleImageCounts_NoDup.
    assert (Hat : forall r : nat, (r < length possible)%nat ->
              fst (chooseComposition imageCount videoCount (draws [r]))
              = Some {| images := nth r possible 0; videos := 4 - nth r possible 0 |}).
    { intros r Hr.
      destruct (chooseComposition_mixed imageCount videoCount (draws [r]) Hge Hi Hv Hlen)
        as [_ Hout].
      fold possible in Hout. rewrite Hout.
      change (draws [r] O) with r. rewrite (Nat.mod_small _ _ Hr). reflexivity. }
    exists possible. split; [exact Hnd|].
    split; [intros k; apply possibleImageCounts_feasible|]. split.
    + intros g. destruct (chooseComposition_mixed imageCount videoCount g Hge Hi Hv Hlen)
        as [Hk Hout].
      split; [apply possibleImageCounts_feasible; exact Hk | exact Hout].
    + intros k Hk. apply possibleImageCounts_feasible in Hk. fold possible in Hk.
      destruct (In_nth _ _ 0 Hk) as (r & Hr & Hnth).
      exists r. split; [exact Hr|]. split; [rewrite (Hat r Hr), Hnth; reflexivity|].
      intros r' Hr' Hout. rewrite (Hat r' Hr') in Hout. injection Hout as Heq _.
      apply NoDup_ListNoDup in Hnd.
      apply (proj1 (List.NoDup_nth possible 0) Hnd r' r Hr' Hr). congruence.
  - intros Hge Hno g. unfold chooseComposition.
    assert ((imageCount + videoCount <? 4) = false) as -> by (apply Z.ltb_ge; lia).
    destruct ((0 <? imageCount) && (0 <? videoCount)) eqn:Eboth; [|reflexivity].
    apply andb_true_iff in Eboth. destruct Eboth as [Hi Hv].
    apply Z.ltb_lt in Hi. apply Z.ltb_lt in Hv.
    exfalso. apply Hno. split; [exact Hi|]. split; [exact Hv|].
    apply possibleImageCounts_nonempty; lia.
Qed.

Lemma chooseComposition_algorithm_witness :
  fst (chooseComposition 1 1 (draws [7%nat])) = None /\
  (exists k, feasible 2 3 k /\
     fst (chooseComposition 2 3 (draws [7%nat])) = Some {| images := k; videos := 4 - k |}) /\
  fst (chooseComposition 5 0 (draws [7%nat])) = Some {| images := 4; videos := 0 |}.
Proof.
  split; [|split].
  - apply (proj1 (chooseComposition_algorithm 1 1)). lia.
  - destruct (proj1 (proj2 (chooseComposition_algorithm 2 3)))
      as (enum & _ & _ & Hdraw & _).
    + lia.
    + lia.
    + lia.
    + exists 1. unfold feasible. lia.
    + eexists. exact (Hdraw (draws [7%nat])).
  - apply (proj2 (proj2 (chooseComposition_algorithm 5 0))).
    + lia.
    + intros (_ & Hv & _). lia.
Defined.

(** The planner on the stocks of the specification's examples. *)
Example chooseComposition_1_1 (g : rng) : fst (chooseComposition 1 1 g) = None.
Proof. reflexivity. Qed.

Example chooseComposition_5_0 (g : rng) :
  fst (chooseComposition 5 0 g) = Some {| images := 4; videos := 0 |}.
Proof. reflexivity. Qed.

Example chooseComposition_1_5 (g : rng) :
  fst (chooseComposition 1 5 g) = Some {| images := 1; videos := 3 |}.
Proof. reflexivity. Qed.

Example chooseComposition_2_2 (g : rng) :
  exists c, fst (chooseComposition 2 2 g) = Some c /\ 0 < images c /\ 0 < videos c.
Proof.
  unfold chooseComposition, randomBelow. simpl.
  eexists. split; [reflexivity|]. simpl. lia.
Qed.

(** Every feasible split comes out for some draw. *)
Lemma chooseComposition_reaches (imageCount videoCount k : Z) :
  4 <= imageCount + videoCount -> 0 < imageCount -> 0 < videoCount ->
  feasible imageCount videoCount k ->
  exists r : nat,
    fst (chooseComposition imageCount videoCount (draws [r]))
    = Some {| images := k; videos := 4 - k |}.
Proof.
  intros Hge Hi Hv Hk.
  apply possibleImageCounts_feasible in Hk.
  destruct (In_nth _ _ 0 Hk) as (r & Hr & Hnth).
  exists r. unfold chooseComposition.
  assert ((imageCount + videoCount <? 4) = false) as -> by (apply Z.ltb_ge; lia).
  assert ((0 <? imageCount) = true) as -> by (apply Z.ltb_lt; lia).
  assert ((0 <? videoCount) = true) as -> by (apply Z.ltb_lt; lia).
  cbn [andb].
  assert ((0 <? length (possibleImageCounts imageCount videoCount))%nat = true) as ->
    by (apply Nat.ltb_lt; lia).
  pose proof (randomBelow_draws _ r [] Hr) as Hd.
  destruct (randomBelow _ (draws [r])) as [idx g'] eqn:E. simpl in Hd. subst idx.
  simpl. rewrite Hnth. reflexivity.
Qed.

(** ** MediaSelector *)

Section MediaSelectorFacts.
Context {A : Type}.
Implicit Types pool selected items : list A.

Lemma splice1_perm pool idx x :
  nth_error pool idx = Some x -> Permutation (x :: splice1 idx pool) pool.
Proof.
  revert idx. induction pool as [|y pool IH]; intros [|idx] Hx; simpl in Hx; try discriminate.
  - injection Hx as ->. unfold splice1. simpl. rewrite drop_0. reflexivity.
  - unfold splice1. simpl. rewrite perm_swap. apply perm_skip. apply IH. exact Hx.
Qed.

Lemma splice1_length pool idx x :
  nth_error pool idx = Some x -> S (length (splice1 idx pool)) = length pool.
Proof.
  intros Hx. apply splice1_perm in Hx. apply Permutation_length in Hx. exact Hx.
Qed.

(** Sampling without replacement: the loop appends [n] items that, together
    with what is left of the pool, are the pool. *)
Lemma pickLoop_sample (n : nat) pool selected (g : rng) :
  (n <= length pool)%nat ->
  exists sampled rest,
    fst (pickLoop n pool selected g) = selected ++ sampled /\
    length sampled = n /\
    Permutation (sampled ++ rest) pool.
Proof.
  revert pool selected g. induction n as [|n IH]; intros pool selected g Hn.
  - exists [], pool. simpl. rewrite app_nil_r. auto.
  - cbn [pickLoop].
    pose proof (randomBelow_lt (length pool) g ltac:(lia)) as Hidx.
    destruct (randomBelow (length pool) g) as [idx g'] eqn:E. cbn [fst] in Hidx.
    destruct (nth_error pool idx) as [x|] eqn:Ex.
    + pose proof (splice1_length _ _ _ Ex) as Hlen.
      destruct (IH (splice1 idx pool) (selected ++ [x]) g' ltac:(lia))
        as (sampled & rest & Heq & Hl & Hp).
      exists (x :: sampled), rest. rewrite Heq, <- app_assoc. simpl.
      split; [reflexivity|]. split; [lia|].
      rewrite Hp. apply splice1_perm. exact Ex.
    + apply nth_error_None in Ex. lia.
Qed.

Lemma pickRandomItems_sample items (count : Z) (g : rng) :
  count <= Z.of_nat (length items) ->
  exists sampled rest,
    fst (pickRandomItems items count g) = Ok sampled /\
    Z.of_nat (length sampled) = Z.max 0 count /\
    Permutation (sampled ++ rest) items.
Proof.
  intros Hc. unfold pickRandomItems.
  destruct (count <=? 0) eqn:E0.
  - apply Z.leb_le in E0. exists [], items. simpl. split; [reflexivity|]. split; [lia|reflexivity].
  - apply Z.leb_gt in E0.
    assert ((Z.of_nat (length items) <? count) = false) as -> by (apply Z.ltb_ge; lia).
    destruct (pickLoop_sample (Z.to_nat count) items [] g ltac:(lia))
      as (sampled & rest & Heq & Hl & Hp).
    destruct (pickLoop (Z.to_nat count) items [] g) as [sel g'] eqn:E. simpl in Heq. subst sel.
    exists sampled, rest. simpl. split; [reflexivity|]. split; [lia|exact Hp].
Qed.

Lemma pickRandomItems_throws items (count : Z) (g : rng) :
  (exists e, fst (pickRandomItems items count g) = Throw e) <->
  0 < count /\ Z.of_nat (length items) < count.
Proof.
  unfold pickRandomItems. split.
  - intros [e He]. destruct (count <=? 0) eqn:E0; [discriminate|].
    destruct (Z.of_nat (length items) <? count) eqn:E1.
    + apply Z.leb_gt in E0. apply Z.ltb_lt in E1. lia.
    + destruct (pickLoop _ _ _ _). discriminate.
  - intros [H0 H1].
    assert ((count <=? 0) = false) as -> by (apply Z.leb_gt; lia).
    assert ((Z.of_nat (length items) <? count) = true) as -> by (apply Z.ltb_lt; lia).
    eexists. reflexivity.
Qed.
End MediaSelectorFacts.

Lemma sample_NoDup {A : Type} (sampled rest items : list A) :
  Permutation (sampled ++ rest) items -> NoDup items -> NoDup sampled.
Proof.
  intros Hp Hnd. rewrite <- Hp in Hnd. apply NoDup_app in Hnd. tauto.
Qed.

Lemma sample_incl {A : Type} (sampled rest items : list A) :
  Permutation (sampled ++ rest) items -> incl sampled items.
Proof.
  intros Hp x Hx. apply (Permutation_in _ Hp). apply in_or_app. left. exact Hx.
Qed.

(** ** HashtagPicker: sampling *)

Lemma randomIntInclusive_range (min max : Z) (g : rng) :
  min <= max -> min <= fst (randomIntInclusive min max g) <= max.
Proof.
  intros Hle. unfold randomIntInclusive.
  pose proof (randomBelow_lt (Z.to_nat (max - min + 1)) g ltac:(lia)) as Hr.
  destruct (randomBelow _ g) as [r g']. simpl in *. lia.
Qed.

Lemma randomIntInclusive_draws (min max : Z) (r : nat) (rest : list nat) :
  Z.of_nat r <= max - min ->
  randomIntInclusive min max (draws (r :: rest)) = (min + Z.of_nat r, draws rest).
Proof.
  intros Hr. unfold randomIntInclusive.
  pose proof (randomBelow_draws (Z.to_nat (max - min + 1)) r rest ltac:(lia)) as Hd.
  destruct (randomBelow _ _) as [r' g'] eqn:E. simpl in Hd. subst r'.
  unfold randomBelow in E. injection E as _ <-. rewrite next_draws. f_equal. lia.
Qed.

(** Without the assumption on the bank: the selection is still taken out of
    the bank position by position. *)
Lemma pickHashtags_positions (bank : list string) (g : rng) :
  exists selected rest : list string,
    fst (pickHashtags bank g) = Ok selected /\
    Permutation (selected ++ rest) bank.
Proof.
  unfold pickHashtags. destruct (length bank =? 0)%nat eqn:E0.
  - exists [], bank. split; reflexivity.
  - apply Nat.eqb_neq in E0.
    set (n := Z.of_nat (length bank)).
    pose proof (randomIntInclusive_range (Z.min 3 (Z.min 5 n)) (Z.min 5 n) g ltac:(lia)) as Hr.
    destruct (randomIntInclusive _ _ g) as [pickCount g']. cbn [fst] in Hr.
    destruct (pickRandomItems_sample bank pickCount g' ltac:(lia))
      as (selected & rest & Heq & _ & Hp).
    exists selected, rest. auto.
Qed.

(** Every count of the range comes out for some draw. *)
Lemma pickHashtags_count_reaches (bank : list string) (c : Z) :
  bank <> [] ->
  Z.min 3 (Z.of_nat (length bank)) <= c <= Z.min 5 (Z.of_nat (length bank)) ->
  exists (r : nat) (selected : list string),
    fst (pickHashtags bank (draws [r])) = Ok selected /\ Z.of_nat (length selected) = c.
Proof.
  intros Hne Hc. set (n := Z.of_nat (length bank)) in *.
  assert (Hlen : (0 < length bank)%nat) by (destruct bank; [congruence | simpl; lia]).
  exists (Z.to_nat (c - Z.min 3 n)). unfold pickHashtags.
  assert ((length bank =? 0)%nat = false) as -> by (apply Nat.eqb_neq; lia).
  fold n. assert (Hmin : Z.min 3 (Z.min 5 n) = Z.min 3 n) by lia. rewrite Hmin.
  rewrite randomIntInclusive_draws by lia.
  destruct (pickRandomItems_sample bank (Z.min 3 n + Z.of_nat (Z.to_nat (c - Z.min 3 n)))
              (draws []) ltac:(lia)) as (selected & rest & Heq & Hl & _).
  exists selected. split; [exact Heq | lia].
Qed.

(** ** CaptionRotator: rotation *)

Section Rotation.
Context {I : Type}.
Implicit Types bank state : list (caption I).

Lemma unusedFrom_spec bank (k j : nat) :
  In j (unusedFrom k bank) <->
  exists i entry, j = (k + i)%nat /\ bank !! i = Some entry /\ used entry = false.
Proof.
  revert k. induction bank as [|e bank IH]; intros k; simpl.
  - split; [tauto|]. intros (i & entry & _ & Hl & _). discriminate.
  - destruct (used e) eqn:Eu; simpl; rewrite IH.
    + split.
      * intros (i & entry & -> & Hl & Hu). exists (S i), entry. split; [lia|auto].
      * intros ([|i] & entry & -> & Hl & Hu); simpl in Hl.
        -- congruence.
        -- exists i, entry. split; [lia|auto].
    + split.
      * intros [<- | (i & entry & -> & Hl & Hu)].
        -- exists O, e. split; [lia|auto].
        -- exists (S i), entry. split; [lia|auto].
      * intros ([|i] & entry & -> & Hl & Hu); simpl in Hl.
        -- left. lia.
        -- right. exists i, entry. split; [lia|auto].
Qed.

Lemma unusedIndexes_spec bank (i : nat) :
  In i (unusedIndexes bank) <-> exists entry, bank !! i = Some entry /\ used entry = false.
Proof.
  unfold unusedIndexes. rewrite unusedFrom_spec. split.
  - intros (i' & entry & -> & Hl). exists entry. exact Hl.
  - intros (entry & Hl). exists i, entry. split; [reflexivity | exact Hl].
Qed.

Lemma unusedFrom_NoDup bank (k : nat) : NoDup (unusedFrom k bank).
Proof.
  revert k. induction bank as [|e bank IH]; intros k; simpl; [apply NoDup_nil_2|].
  destruct (used e); [apply IH|].
  apply NoDup_cons. split; [|apply IH].
  rewrite list_elem_of_In, unusedFrom_spec. intros (i & _ & Hk & _). lia.
Qed.

Lemma unusedFrom_length_shift bank (k k' : nat) :
  length (unusedFrom k bank) = length (unusedFrom k' bank).
Proof.
  revert k k'. induction bank as [|e bank IH]; intros k k'; simpl; [reflexivity|].
  destruct (used e); simpl; rewrite (IH (S k) (S k')); reflexivity.
Qed.

Lemma unusedFrom_reset bank (k : nat) :
  unusedFrom k (map resetEntry bank) = seq k (length bank).
Proof.
  revert k. induction bank as [|e bank IH]; intros k; simpl; [reflexivity|].
  rewrite IH. reflexivity.
Qed.

(** Marking an unused entry takes exactly one index out of the unused ones. *)
Lemma unusedFrom_mark bank (k i : nat) (now : string) entry :
  bank !! i = Some entry -> used entry = false ->
  S (length (unusedFrom k (alter (markUsed now) i bank))) = length (unusedFrom k bank).
Proof.
  revert k i. induction bank as [|e bank IH]; intros k [|i] Hl Hu; simpl in Hl; try discriminate.
  - injection Hl as ->. simpl. rewrite Hu. reflexivity.
  - simpl. destruct (used e); simpl; rewrite <- (IH (S k) i Hl Hu); reflexivity.
Qed.

Lemma unusedCount_empty bank : unusedCount bank = O <-> Forall (fun e => used e = true) bank.
Proof.
  unfold unusedCount. rewrite Forall_forall. split.
  - intros H0 e He. destruct (used e) eqn:Eu; [reflexivity|].
    apply list_elem_of_lookup in He. destruct He as [i Hi].
    assert (Hin : In i (unusedIndexes bank)) by (apply unusedIndexes_spec; eauto).
    destruct (unusedIndexes bank); [destruct Hin | discriminate].
  - intros Hall. destruct (unusedIndexes bank) as [|i l] eqn:E; [reflexivity|].
    assert (Hin : In i (unusedIndexes bank)) by (rewrite E; left; reflexivity).
    apply unusedIndexes_spec in Hin. destruct Hin as (e & Hl & Hu).
    rewrite (Hall e) in Hu; [discriminate|].
    apply list_elem_of_lookup. eauto.
Qed.

Lemma available_length bank : length (available bank) = length bank.
Proof. unfold available. destruct (resets bank); [apply length_map | reflexivity]. Qed.

Lemma available_candidates bank :
  bank <> [] -> unusedIndexes (available bank) <> [].
Proof.
  intros Hne. unfold available, resets.
  destruct (length (unusedIndexes bank) =? 0)%nat eqn:E.
  - unfold unusedIndexes. rewrite unusedFrom_reset.
    destruct bank; [congruence | discriminate].
  - apply Nat.eqb_neq in E. destruct (unusedIndexes bank); [simpl in E; lia | discriminate].
Qed.

(** [pickCaption], unfolded on a bank with at least one entry. *)
Lemma pickCaption_selects (now : string) bank (g : rng) :
  bank <> [] ->
  let candidates := unusedIndexes (available bank) in
  let i := nth (Nat.modulo (g O) (length candidates)) candidates O in
  exists entry,
    In i candidates /\
    available bank !! i = Some entry /\ used entry = false /\
    pickCaption now bank g
    = (Ok {| captionText := text entry;
             nextCaptions := alter (markUsed now) i (available bank) |}, next g).
Proof.
  intros Hne candidates i.
  pose proof (available_candidates bank Hne) as Hc. fold candidates in Hc.
  assert (Hlen : (0 < length candidates)%nat) by (destruct candidates; [congruence | simpl; lia]).
  assert (Hin : In i candidates).
  { apply nth_In. apply Nat.mod_upper_bound. lia. }
  pose proof Hin as Hin'. apply unusedIndexes_spec in Hin'. destruct Hin' as (entry & Hl & Hu).
  exists entry. split; [exact Hin|]. split; [exact Hl|]. split; [exact Hu|].
  unfold pickCaption.
  assert (Hstate : (if (length (unusedIndexes bank) =? 0)%nat
                    then (map resetEntry bank, seq 0 (length bank))
                    else (bank, unusedIndexes bank))
                   = (available bank, candidates)).
  { unfold candidates, available, resets.
    destruct (length (unusedIndexes bank) =? 0)%nat; [|reflexivity].
    unfold unusedIndexes. rewrite unusedFrom_reset. reflexivity. }
  rewrite Hstate.
  assert ((length candidates =? 0)%nat = false) as -> by (apply Nat.eqb_neq; lia).
  unfold randomBelow. destruct (length candidates) as [|n] eqn:En; [lia|].
  fold i. rewrite list_lookup_alter_eq, Hl. reflexivity.
Qed.

Lemma pickCaption_empty (now : string) (g : rng) :
  pickCaption now ([] : list (caption I)) g = (Throw emptyBank, g).
Proof. reflexivity. Qed.
End Rotation.

Section RotationExhaustive.
Context {I : Type}.
Implicit Types bank : list (caption I).

Lemma resets_false bank : (0 < unusedCount bank)%nat -> resets bank = false.
Proof. unfold resets, unusedCount. intros Hu. apply Nat.eqb_neq. lia. Qed.

Lemma resets_true bank : unusedCount bank = O -> resets bank = true.
Proof. unfold resets, unusedCount. intros Hu. apply Nat.eqb_eq. exact Hu. Qed.

Lemma unused_nonempty bank : (0 < unusedCount bank)%nat -> bank <> [].
Proof. intros Hu ->. unfold unusedCount in Hu. simpl in Hu. lia. Qed.

(** One pick while something is unused: no reset, one unused entry becomes
    used, every other entry is as it was. *)
Lemma pickCaption_marks_one (now : string) bank (g : rng) :
  (0 < unusedCount bank)%nat ->
  exists (i : nat) entry,
    bank !! i = Some entry /\ used entry = false /\
    pickCaption now bank g
    = (Ok {| captionText := text entry;
             nextCaptions := alter (markUsed now) i bank |}, next g) /\
    S (unusedCount (alter (markUsed now) i bank)) = unusedCount bank.
Proof.
  intros Hu.
  destruct (pickCaption_selects now bank g (unused_nonempty bank Hu))
    as (entry & _ & Hl & Hused & Heq).
  unfold available in *. rewrite (resets_false bank Hu) in *.
  eexists _, entry. split; [exact Hl|]. split; [exact Hused|]. split; [exact Heq|].
  unfold unusedCount, unusedIndexes. eapply unusedFrom_mark; eauto.
Qed.

Lemma repeatedPicks_exhaustive (nows : list string) bank (g : rng) :
  (length nows <= unusedCount bank)%nat ->
  exists final,
    fst (repeatedPicks nows bank g) = Ok (repeat false (length nows), final) /\
    length final = length bank /\
    (unusedCount final + length nows)%nat = unusedCount bank /\
    (forall i entry, bank !! i = Some entry -> used entry = true ->
                     final !! i = Some entry).
Proof.
  revert bank g. induction nows as [|now later IH]; intros bank g Hle.
  - exists bank. simpl. auto.
  - simpl in Hle.
    destruct (pickCaption_marks_one now bank g ltac:(lia))
      as (i & entry & Hl & Hu & Heq & Hcount).
    destruct (IH (alter (markUsed now) i bank) (next g) ltac:(lia))
      as (final & Hrec & Hlen & Hcnt & Hkeep).
    exists final. cbn [repeatedPicks]. rewrite Heq. cbn [nextCaptions].
    destruct (repeatedPicks later _ (next g)) as [[[flags fin]|e] g''];
      cbn [fst] in Hrec; [|discriminate].
    injection Hrec as -> ->. cbn [fst].
    rewrite (resets_false bank ltac:(lia)).
    split; [reflexivity|]. split; [rewrite Hlen; apply length_alter|].
    split; [simpl; lia|].
    intros j e Hj Hused. apply Hkeep; [|exact Hused].
    destruct (decide (i = j)) as [->|Hne].
    + congruence.
    + rewrite list_lookup_alter_ne by exact Hne. exact Hj.
Qed.

End RotationExhaustive.


(** ** Strings *)

Lemma isEmpty_true (s : string) : isEmpty s = true <-> s = EmptyString.
Proof. destruct s; simpl; split; congruence. Qed.

Lemma trimEnd_idem (s : string) : trimEnd (trimEnd s) = trimEnd s.
Proof.
  induction s as [|c s IH]; [reflexivity|]. simpl.
  destruct (isWhiteSpace c && isEmpty (trimEnd s)) eqn:E; [reflexivity|].
  simpl. rewrite IH, E. reflexivity.
Qed.

Lemma trimStart_fixed (c : ascii) (s : string) :
  isWhiteSpace c = false -> trimStart (String c s) = String c s.
Proof. intros Hc. simpl. rewrite Hc. reflexivity. Qed.

Lemma trimStart_head (s : string) :
  trimStart s = EmptyString \/
  exists c s', trimStart s = String c s' /\ isWhiteSpace c = false.
Proof.
  induction s as [|c s IH]; [left; reflexivity|]. simpl.
  destruct (isWhiteSpace c) eqn:E; [exact IH|]. right. eauto.
Qed.

Lemma trim_head (s : string) :
  trim s = EmptyString \/ exists c s', trim s = String c s' /\ isWhiteSpace c = false.
Proof.
  unfold trim. destruct (trimStart_head s) as [-> | (c & s' & -> & Hc)].
  - left. reflexivity.
  - right. simpl. rewrite Hc. simpl. eauto.
Qed.

Lemma trim_idem (s : string) : trim (trim s) = trim s.
Proof.
  destruct (trim_head s) as [-> | (c & s' & Heq & Hc)]; [reflexivity|].
  unfold trim at 1. rewrite Heq, (trimStart_fixed _ _ Hc), <- Heq.
  unfold trim. apply trimEnd_idem.
Qed.

Lemma removeWhiteSpace_clean (s : string) : hasWhiteSpace (removeWhiteSpace s) = false.
Proof.
  induction s as [|c s IH]; [reflexivity|]. simpl.
  destruct (isWhiteSpace c) eqn:E; [exact IH|]. simpl. rewrite E, IH. reflexivity.
Qed.

Lemma hasWhiteSpace_hash (s : string) :
  hasWhiteSpace ("#" +:+ s) = hasWhiteSpace s.
Proof. reflexivity. Qed.

Lemma startsWithHash_hash (s : string) : startsWithHash ("#" +:+ s) = true.
Proof. reflexivity. Qed.

(** ** Stable sorting by id *)

Section SortById.
Implicit Types l sorted : list (caption Z).

Lemma insertById_perm (x : caption Z) sorted : Permutation (insertById x sorted) (x :: sorted).
Proof.
  induction sorted as [|y rest IH]; simpl; [reflexivity|].
  destruct (id x <=? id y); [reflexivity|].
  rewrite IH. apply perm_swap.
Qed.

Lemma sortById_perm l : Permutation (sortById l) l.
Proof.
  induction l as [|x l IH]; simpl; [reflexivity|].
  rewrite insertById_perm. apply perm_skip. exact IH.
Qed.

Lemma insertById_sorted (x : caption Z) sorted :
  StronglySorted idLe sorted -> StronglySorted idLe (insertById x sorted).
Proof.
  induction sorted as [|y rest IH]; intros Hs; simpl.
  - constructor; constructor.
  - inversion Hs as [|? ? Hrest Hall]; subst.
    destruct (id x <=? id y) eqn:E.
    + apply Z.leb_le in E. constructor; [exact Hs|].
      constructor; [exact E|].
      eapply Forall_impl; [exact Hall|]. unfold idLe. intros; lia.
    + apply Z.leb_gt in E. constructor; [apply IH; exact Hrest|].
      rewrite insertById_perm. constructor; [unfold idLe; lia | exact Hall].
Qed.

Lemma sortById_sorted l : StronglySorted idLe (sortById l).
Proof.
  induction l as [|x l IH]; simpl; [constructor|].
  apply insertById_sorted. exact IH.
Qed.

(** Entries of equal id keep their order. *)
Lemma insertById_stable (k : Z) (x : caption Z) sorted :
  StronglySorted idLe sorted ->
  filter (fun c => id c = k) (insertById x sorted)
  = filter (fun c => id c = k) (x :: sorted).
Proof.
  induction sorted as [|y rest IH]; intros Hs; simpl; [reflexivity|].
  inversion Hs as [|? ? Hrest Hall]; subst.
  destruct (id x <=? id y) eqn:E; [reflexivity|].
  apply Z.leb_gt in E.
  rewrite !filter_cons. rewrite IH by exact Hrest. rewrite filter_cons.
  destruct (decide (id y = k)), (decide (id x = k)); try reflexivity. lia.
Qed.

Lemma sortById_stable (k : Z) l :
  filter (fun c => id c = k) (sortById l) = filter (fun c => id c = k) l.
Proof.
  induction l as [|x l IH]; simpl; [reflexivity|].
  rewrite insertById_stable by apply sortById_sorted.
  rewrite !filter_cons, IH. reflexivity.
Qed.

Lemma sortById_fixed l : StronglySorted idLe l -> sortById l = l.
Proof.
  induction l as [|x l IH]; intros Hs; [reflexivity|].
  inversion Hs as [|? ? Hrest Hall]; subst. simpl. rewrite IH by exact Hrest.
  destruct l as [|y l]; [reflexivity|]. simpl.
  inversion Hall as [|? ? Hxy _]; subst. unfold idLe in Hxy.
  apply Z.leb_le in Hxy. rewrite Hxy. reflexivity.
Qed.
End SortById.

(** ** The wizard's caption normalisation *)

Section WizardCaptionFacts.
Context `{Builtins}.

Lemma plusOne_ge (x : Z) : x <= plusOne x.
Proof.
  unfold plusOne. destruct (x <? 2 ^ 53); [lia|].
  destruct (x <? 2 ^ 54); [|lia]. destruct (Z.even (x / 2)); lia.
Qed.

Lemma plusOne_safe (x : Z) : x < 2 ^ 53 -> plusOne x = x + 1.
Proof. intros Hx. unfold plusOne. apply Z.ltb_lt in Hx. rewrite Hx. reflexivity. Qed.

Lemma normalizeStep_kept (fallbackId : Z) (normalized : list (caption Z)) (entry : value) :
  hasText entry = true ->
  normalizeStep (fallbackId, normalized) entry
  = (Z.max fallbackId (plusOne (id (captionOf entry fallbackId))),
     normalized ++ [captionOf entry fallbackId]).
Proof.
  unfold hasText, normalizeStep, captionOf, declaredId, entryText, entryUsed, entryUsedAt, entryId.
  intros Hk. apply andb_true_iff in Hk. destruct Hk as [Hkind Htext].
  apply negb_true_iff in Htext.
  destruct (isString entry) eqn:Es.
  - rewrite Htext. cbn [id]. f_equal. symmetry. apply Z.max_r, plusOne_ge.
  - simpl in Hkind. apply andb_true_iff in Hkind. destruct Hkind as [-> ->].
    cbn [negb orb]. rewrite Htext. cbn [id].
    destruct (toNumber (get entry "id")) as [|p|]; try reflexivity.
    destruct (0 <? p); reflexivity.
Qed.

Lemma normalizeStep_dropped (acc : Z * list (caption Z)) (entry : value) :
  hasText entry = false -> normalizeStep acc entry = acc.
Proof.
  unfold hasText, normalizeStep, entryText. destruct acc as [fallbackId normalized].
  intros Hk. destruct (isString entry) eqn:Es.
  - simpl in Hk. apply negb_false_iff in Hk. rewrite Hk. reflexivity.
  - simpl in Hk. destruct (truthy entry && isObjectType entry) eqn:Eo.
    + apply andb_true_iff in Eo. destruct Eo as [-> ->]. simpl in *.
      apply negb_false_iff in Hk. rewrite Hk. reflexivity.
    + apply andb_false_iff in Eo. destruct Eo as [-> | ->]; simpl;
        [reflexivity | rewrite orb_true_r; reflexivity].
Qed.

(** The loop drops the entries without text and numbers the others. *)
Lemma normalize_loop (items : list value) (fallbackId : Z) (normalized : list (caption Z)) :
  snd (fold_left normalizeStep items (fallbackId, normalized))
  = normalized ++ assignIds fallbackId (filter (fun e => hasText e = true) items).
Proof.
  revert fallbackId normalized.
  induction items as [|entry items IH]; intros fallbackId normalized.
  - simpl. rewrite app_nil_r. reflexivity.
  - cbn [fold_left]. rewrite filter_cons. destruct (decide (hasText entry = true)) as [Hk|Hk].
    + rewrite normalizeStep_kept by exact Hk. rewrite IH, <- app_assoc. reflexivity.
    + apply not_true_is_false in Hk. rewrite normalizeStep_dropped by exact Hk. apply IH.
Qed.

Lemma assignIds_length (fallbackId : Z) (kept : list value) :
  length (assignIds fallbackId kept) = length kept.
Proof.
  revert fallbackId. induction kept as [|e kept IH]; intros fb; simpl; [reflexivity|].
  rewrite IH. reflexivity.
Qed.

Lemma maxId_cons (c : caption Z) (l : list (caption Z)) :
  maxId (c :: l) = Z.max (id c) (maxId l).
Proof. reflexivity. Qed.

Lemma maxId_nonneg (l : list (caption Z)) : 0 <= maxId l.
Proof. induction l as [|c l IH]; [reflexivity|]. rewrite maxId_cons. lia. Qed.

(** The [j]-th kept entry becomes the [j]-th record; its fallback id is the
    one that the records before it leave. *)
Lemma assignIds_lookup (fallbackId : Z) (kept : list value) (j : nat) (entry : value) :
  kept !! j = Some entry ->
  assignIds fallbackId kept !! j
  = Some (captionOf entry (fallbackAfter fallbackId (take j (assignIds fallbackId kept)))).
Proof.
  revert fallbackId j. induction kept as [|e kept IH]; intros fb j Hj; [discriminate|].
  destruct j as [|j]; simpl in Hj.
  - injection Hj as ->. reflexivity.
  - cbn [assignIds]. cbn [lookup list_lookup].
    rewrite (IH (Z.max fb (plusOne (id (captionOf e fb)))) j Hj). reflexivity.
Qed.

(** As long as the ids are below [2^53], the fallback id is one more than
    the largest id before it (and at least the starting one). *)
Lemma fallbackAfter_safe (start : Z) (earlier : list (caption Z)) :
  1 <= start -> Forall safeId earlier ->
  fallbackAfter start earlier = Z.max start (1 + maxId earlier).
Proof.
  intros Hstart Hsafe. revert start Hstart.
  induction Hsafe as [|c earlier Hc Hsafe IH]; intros start Hstart.
  - unfold fallbackAfter, maxId. simpl. lia.
  - unfold fallbackAfter in *. cbn [fold_left]. rewrite IH by lia. rewrite maxId_cons.
    rewrite (plusOne_safe _ Hc). pose proof (maxId_nonneg earlier). lia.
Qed.

Lemma renumberFrom_length {I : Type} (k : nat) (l : list (caption I)) :
  length (renumberFrom k l) = length l.
Proof. revert k. induction l as [|c l IH]; intros k; simpl; [reflexivity | rewrite IH; reflexivity]. Qed.

Lemma renumberFrom_lookup {I : Type} (k j : nat) (l : list (caption I)) (c : caption I) :
  l !! j = Some c ->
  renumberFrom k l !! j
  = Some {| id := Z.of_nat (k + j) + 1; text := text c; used := used c; used_at := used_at c |}.
Proof.
  revert k j. induction l as [|x l IH]; intros k j Hj; [discriminate|].
  destruct j as [|j]; simpl in Hj.
  - injection Hj as ->. simpl. rewrite Nat.add_0_r. reflexivity.
  - simpl. rewrite (IH (S k) j Hj). f_equal. f_equal. lia.
Qed.

Lemma renumberFrom_ids {I : Type} (k : nat) (l : list (caption I)) :
  map id (renumberFrom k l) = map (fun i => Z.of_nat i + 1) (seq k (length l)).
Proof.
  revert k. induction l as [|x l IH]; intros k; simpl; [reflexivity|].
  rewrite IH. reflexivity.
Qed.

Lemma reindexCaptions_dense {I : Type} (l : list (caption I)) :
  denseIds num (reindexCaptions l).
Proof.
  unfold denseIds, reindexCaptions. rewrite renumberFrom_length.
  rewrite <- (map_map id num), renumberFrom_ids, map_map. reflexivity.
Qed.
End WizardCaptionFacts.

(** ** The engine's caption normalisation *)

Lemma mapFrom_lookup {A B : Type} (f : A -> nat -> result B) (k : nat) (l : list A)
      (out : list B) :
  mapFrom f k l = Ok out ->
  length out = length l /\
  forall j x, l !! j = Some x -> exists y, out !! j = Some y /\ f x (k + j)%nat = Ok y.
Proof.
  revert k out. induction l as [|x l IH]; intros k out Hm; simpl in Hm.
  - injection Hm as <-. split; [reflexivity|]. intros j x Hj. discriminate.
  - destruct (f x k) as [y|e] eqn:Ef; [|discriminate].
    destruct (mapFrom f (S k) l) as [ys|e] eqn:Em; [|discriminate].
    injection Hm as <-. destruct (IH _ _ Em) as [Hlen Hlook].
    split; [simpl; congruence|].
    intros [|j] x' Hj; simpl in Hj.
    + injection Hj as <-. exists y. rewrite Nat.add_0_r. auto.
    + destruct (Hlook j x' Hj) as (y' & Hy & Hf). exists y'. split; [exact Hy|].
      rewrite <- Hf. f_equal. lia.
Qed.

Lemma mapFrom_throws {A B : Type} (f : A -> nat -> result B) (k : nat) (l : list A)
      (j : nat) (x : A) (e : error) :
  l !! j = Some x -> f x (k + j)%nat = Throw e -> exists e', mapFrom f k l = Throw e'.
Proof.
  revert k j. induction l as [|y l IH]; intros k j Hj Hf; [discriminate|].
  simpl. destruct (f y k) as [z|e0] eqn:Ey; [|eauto].
  destruct j as [|j]; simpl in Hj.
  - injection Hj as ->. rewrite Nat.add_0_r in Hf. congruence.
  - destruct (IH (S k) j Hj) as [e' He'].
    + rewrite <- Hf. f_equal. lia.
    + rewrite He'. eauto.
Qed.

Lemma mapFrom_all {A B : Type} (f : A -> nat -> result B) (k : nat) (l : list A)
      (out : list B) :
  length out = length l ->
  (forall j x y, l !! j = Some x -> out !! j = Some y -> f x (k + j)%nat = Ok y) ->
  mapFrom f k l = Ok out.
Proof.
  revert k out. induction l as [|x l IH]; intros k [|y out] Hlen Hall; try discriminate.
  - reflexivity.
  - simpl. rewrite <- (Nat.add_0_r k) at 1. rewrite (Hall O x y eq_refl eq_refl).
    rewrite (IH (S k) out); [reflexivity | simpl in Hlen; lia |].
    intros j x' y' Hx Hy. rewrite <- (Hall (S j) x' y' Hx Hy). f_equal. lia.
Qed.

Lemma normalizeCaptionEntry_string (s : string) (index : nat) :
  normalizeCaptionEntry (VStr s) index
  = Ok {| id := num (Z.of_nat index + 1); text := trim s; used := false; used_at := VNull |}.
Proof. reflexivity. Qed.

Lemma normalizeCaptionEntry_record (entry : value) (index : nat) :
  isRecord entry = true ->
  normalizeCaptionEntry entry index
  = if isEmpty (trim (textCandidate entry)) then Throw (noText index)
    else Ok {| id := get entry "id" ?? num (Z.of_nat index + 1);
               text := trim (textCandidate entry);
               used := truthy (get entry "used");
               used_at := get entry "used_at" ?? VNull |}.
Proof.
  unfold isRecord, normalizeCaptionEntry. intros Hr.
  apply andb_true_iff in Hr. destruct Hr as [Hr Ho].
  apply andb_true_iff in Hr. destruct Hr as [Hs Ht].
  apply negb_true_iff in Hs. rewrite Hs, Ht, Ho. reflexivity.
Qed.

Lemma normalizeCaptionEntry_other (entry : value) (index : nat) :
  isString entry = false -> isRecord entry = false ->
  normalizeCaptionEntry entry index = Throw (invalidEntry index).
Proof.
  unfold isRecord, normalizeCaptionEntry. intros Hs Hr. rewrite Hs in *. simpl in Hr.
  destruct (truthy entry); simpl in *; [|reflexivity]. rewrite Hr. reflexivity.
Qed.

Lemma normalizeCaptionEntry_ok (entry : value) (index : nat) (c : caption value) :
  normalizeCaptionEntry entry index = Ok c ->
  id c = (if isString entry then num (Z.of_nat index + 1)
          else get entry "id" ?? num (Z.of_nat index + 1)) /\
  text c = trim (entryText entry) /\
  used c = entryUsed entry /\
  used_at c = entryUsedAt entry /\
  (isString entry = true \/ isEmpty (text c) = false).
Proof.
  unfold entryText, entryUsed, entryUsedAt. intros Hn.
  destruct (isString entry) eqn:Es.
  - destruct entry; try discriminate. rewrite normalizeCaptionEntry_string in Hn.
    injection Hn as <-. simpl. repeat split; auto.
  - destruct (isRecord entry) eqn:Er.
    + rewrite normalizeCaptionEntry_record in Hn by exact Er.
      destruct (isEmpty (trim (textCandidate entry))) eqn:Et; [discriminate|].
      injection Hn as <-. simpl. repeat split; auto.
    + rewrite normalizeCaptionEntry_other in Hn by assumption. discriminate.
Qed.

Section CaptionNormalization.
Context `{Builtins}.

Lemma hasText_text (entry : value) :
  hasText entry = true -> isEmpty (trim (entryText entry)) = false.
Proof.
  unfold hasText. intros Hk. apply andb_true_iff in Hk. destruct Hk as [_ Hk].
  apply negb_true_iff in Hk. exact Hk.
Qed.

(** What the wizard's normalisation does to an array. *)
Lemma normalizeCaptions_array (items : list value) :
  let kept := filter (fun e => hasText e = true) items in
  let out := normalizeCaptions (VArr items) in
  exists normalized sorted : list (caption Z),
    length normalized = length kept /\
    (forall j entry, kept !! j = Some entry ->
       exists c, normalized !! j = Some c /\
                 text c = trim (entryText entry) /\
                 isEmpty (text c) = false /\
                 used c = entryUsed entry /\
                 used_at c = entryUsedAt entry /\
                 id c = match declaredId entry with
                        | Some p => p
                        | None => fallbackAfter 1 (take j normalized)
                        end /\
                 (Forall safeId (take j normalized) ->
                  fallbackAfter 1 (take j normalized) = 1 + maxId (take j normalized))) /\
    Permutation sorted normalized /\
    StronglySorted idLe sorted /\
    (forall k, filter (fun c => id c = k) sorted = filter (fun c => id c = k) normalized) /\
    length out = length sorted /\
    (forall j c, sorted !! j = Some c ->
       out !! j = Some {| id := Z.of_nat j + 1; text := text c;
                          used := used c; used_at := used_at c |}) /\
    denseIds num out.
Proof.
  intros kept out.
  exists (assignIds 1 kept), (sortById (assignIds 1 kept)).
  assert (Hout : out = reindexCaptions (sortById (assignIds 1 kept))).
  { unfold out, normalizeCaptions.
    pose proof (normalize_loop items 1 []) as Hloop.
    destruct (fold_left normalizeStep items (1, [])) as [fb normalized].
    simpl in Hloop. subst normalized. reflexivity. }
  split; [apply assignIds_length|].
  split.
  { intros j entry Hj. rewrite (assignIds_lookup 1 kept j entry Hj).
    eexists. split; [reflexivity|].
    assert (Hk : hasText entry = true).
    { apply list_elem_of_lookup_2 in Hj. apply list_elem_of_filter in Hj. tauto. }
    cbn [captionOf text used used_at id].
    split; [reflexivity|]. split; [apply hasText_text; exact Hk|].
    split; [reflexivity|]. split; [reflexivity|]. split; [reflexivity|].
    intros Hsafe. rewrite (fallbackAfter_safe 1 _ ltac:(lia) Hsafe).
    pose proof (maxId_nonneg (take j (assignIds 1 kept))). lia. }
  split; [apply sortById_perm|].
  split; [apply sortById_sorted|].
  split; [intros k; apply sortById_stable|].
  rewrite Hout. unfold reindexCaptions.
  split; [apply renumberFrom_length|].
  split; [intros j c Hj; rewrite (renumberFrom_lookup O j _ c Hj); reflexivity|].
  apply reindexCaptions_dense.
Qed.

Lemma normalizeCaptions_not_array (raw : value) :
  (forall items, raw <> VArr items) -> normalizeCaptions raw = [].
Proof. intros Hn. destruct raw; try reflexivity. destruct (Hn items eq_refl). Qed.

(** What the engine's normalisation does to an array it accepts, and when
    it refuses one. *)
Lemma normalizeCaptionEntries_array (items : list value) (out : list (caption value)) :
  (forall s, In (VStr s) items -> isEmpty (trim s) = false) ->
  normalizeCaptionEntries (VArr items) = Ok out ->
  length out = length items /\
  forall j entry, items !! j = Some entry ->
    exists c, out !! j = Some c /\
      id c = (if isString entry then num (Z.of_nat j + 1)
              else get entry "id" ?? num (Z.of_nat j + 1)) /\
      text c = trim (entryText entry) /\
      isEmpty (text c) = false /\
      used c = entryUsed entry /\
      used_at c = entryUsedAt entry.
Proof.
  unfold normalizeCaptionEntries. intros Hstr Hm.
  destruct (mapFrom_lookup _ _ _ _ Hm) as [Hlen Hlook].
  split; [exact Hlen|]. intros j entry Hj.
  destruct (Hlook j entry Hj) as (c & Hc & Hn). exists c. split; [exact Hc|].
  apply normalizeCaptionEntry_ok in Hn. destruct Hn as (Hid & Ht & Hu & Hua & Hne).
  repeat (split; [assumption|]). split; [|split; assumption].
  destruct Hne as [Hs | Hne]; [|exact Hne].
  destruct entry; try discriminate. rewrite Ht. unfold entryText. simpl.
  apply Hstr. apply list_elem_of_In. eapply list_elem_of_lookup_2; exact Hj.
Qed.

Lemma normalizeCaptionEntries_no_text (items : list value) (j : nat) (entry : value) :
  items !! j = Some entry -> isRecord entry = true ->
  isEmpty (trim (textCandidate entry)) = true ->
  exists e, normalizeCaptionEntries (VArr items) = Throw e.
Proof.
  intros Hj Hr Ht. unfold normalizeCaptionEntries.
  eapply mapFrom_throws; [exact Hj|].
  rewrite normalizeCaptionEntry_record by exact Hr. rewrite Ht. reflexivity.
Qed.

End CaptionNormalization.



(** At [2^53] adding one changes nothing: the entry without id is given
    [2^53] too and stays between the two that declare it. *)
Example normalizeCaptions_large_ids :
  map text (@normalizeCaptions sampleBuiltins rawLargeIds) = ["A"; "B"; "C"]%string.
Proof. vm_compute. reflexivity. Qed.

(** ** Normalising a normalised bank *)

Lemma nullish_null_idem (a : value) : (a ?? VNull) ?? VNull = a ?? VNull.
Proof. destruct a; reflexivity. Qed.

Lemma nullish_num_idem (a : value) (z z' : Z) : (a ?? num z) ?? num z' = a ?? num z.
Proof. destruct a; reflexivity. Qed.

Section WizardIdempotence.
Context `{Builtins}.

Lemma captionOf_trimmed (entry : value) (fallbackId : Z) :
  hasText entry = true -> trimmedText (captionOf entry fallbackId).
Proof.
  intros Hk. unfold trimmedText, captionOf. cbn [text used_at].
  split; [apply trim_idem|]. split; [apply hasText_text; exact Hk|].
  unfold entryUsedAt. destruct (isString entry); [reflexivity | apply nullish_null_idem].
Qed.

Lemma assignIds_trimmed (fallbackId : Z) (kept : list value) :
  Forall (fun e => hasText e = true) kept ->
  Forall trimmedText (assignIds fallbackId kept).
Proof.
  intros Hall. revert fallbackId. induction Hall as [|e kept He Hall IH]; intros fb; simpl.
  - constructor.
  - constructor; [apply captionOf_trimmed; exact He | apply IH].
Qed.

Lemma renumberFrom_canon (k : nat) (l : list (caption Z)) :
  Forall trimmedText l -> canonFrom k (renumberFrom k l).
Proof.
  intros Hall. revert k. induction Hall as [|c l Hc Hall IH]; intros k; simpl; [exact I|].
  destruct Hc as (Ht & He & Hu). auto.
Qed.

Lemma normalizeCaptions_unfold (items : list value) :
  normalizeCaptions (VArr items)
  = reindexCaptions (sortById (assignIds 1 (filter (fun e => hasText e = true) items))).
Proof.
  unfold normalizeCaptions.
  pose proof (normalize_loop items 1 []) as Hloop.
  destruct (fold_left normalizeStep items (1, [])) as [fb normalized].
  simpl in Hloop. subst normalized. reflexivity.
Qed.

Lemma normalizeCaptions_canon (raw : value) : canonFrom O (normalizeCaptions raw).
Proof.
  destruct raw; try exact I. rewrite normalizeCaptions_unfold.
  apply renumberFrom_canon.
  rewrite sortById_perm. apply assignIds_trimmed.
  apply Forall_forall. intros e He. apply list_elem_of_filter in He. tauto.
Qed.

Lemma canon_hasText (k : nat) (bank : list (caption Z)) :
  canonFrom k bank ->
  filter (fun e => hasText e = true) (map (captionToValue num) bank)
  = map (captionToValue num) bank.
Proof.
  revert k. induction bank as [|c bank IH]; intros k Hc; [reflexivity|].
  destruct Hc as (_ & Ht & He & _ & Hrest). simpl. rewrite filter_cons.
  rewrite (IH _ Hrest).
  assert (Hk : hasText (captionToValue num c) = true).
  { unfold hasText, captionToValue, entryText, textCandidate. simpl. rewrite Ht, He. reflexivity. }
  destruct (decide (hasText (captionToValue num c) = true)); [reflexivity | contradiction].
Qed.

Lemma canon_captionOf (c : caption Z) (fallbackId : Z) :
  0 < id c -> trim (text c) = text c -> used_at c ?? VNull = used_at c ->
  captionOf (captionToValue num c) fallbackId = c.
Proof.
  intros Hid Ht Hu. destruct c as [i t u ua]. simpl in *.
  unfold captionOf, declaredId, entryText, entryUsed, entryUsedAt, textCandidate. simpl.
  assert ((0 <? i) = true) as -> by (apply Z.ltb_lt; exact Hid).
  rewrite Ht, Hu. destruct u; reflexivity.
Qed.

Lemma canon_assignIds (k : nat) (fallbackId : Z) (bank : list (caption Z)) :
  canonFrom k bank -> assignIds fallbackId (map (captionToValue num) bank) = bank.
Proof.
  revert k fallbackId. induction bank as [|c bank IH]; intros k fb Hc; [reflexivity|].
  destruct Hc as (Hid & Ht & He & Hu & Hrest). simpl.
  rewrite (canon_captionOf c fb) by (try assumption; lia).
  rewrite (IH _ _ Hrest). reflexivity.
Qed.

Lemma canon_ids_above (k : nat) (bank : list (caption Z)) :
  canonFrom k bank -> Forall (fun c => Z.of_nat k < id c) bank.
Proof.
  revert k. induction bank as [|c bank IH]; intros k Hc; constructor.
  - destruct Hc as (Hid & _). lia.
  - destruct Hc as (_ & _ & _ & _ & Hrest). apply IH in Hrest.
    eapply Forall_impl; [exact Hrest|]. simpl. intros; lia.
Qed.

Lemma canon_sorted (k : nat) (bank : list (caption Z)) :
  canonFrom k bank -> StronglySorted idLe bank.
Proof.
  revert k. induction bank as [|c bank IH]; intros k Hc; constructor.
  - destruct Hc as (_ & _ & _ & _ & Hrest). eapply IH; exact Hrest.
  - destruct Hc as (Hid & _ & _ & _ & Hrest). apply canon_ids_above in Hrest.
    eapply Forall_impl; [exact Hrest|]. unfold idLe. simpl. intros; lia.
Qed.

Lemma canon_renumber (k : nat) (bank : list (caption Z)) :
  canonFrom k bank -> renumberFrom k bank = bank.
Proof.
  revert k. induction bank as [|c bank IH]; intros k Hc; [reflexivity|].
  destruct Hc as (Hid & _ & _ & _ & Hrest). simpl. rewrite (IH _ Hrest).
  destruct c as [i t u ua]. simpl in *. subst i. reflexivity.
Qed.

(** The wizard's normalisation is idempotent, on every input. *)
Lemma normalizeCaptions_idempotent (raw : value) :
  normalizeCaptions (bankToValue num (normalizeCaptions raw)) = normalizeCaptions raw.
Proof.
  pose proof (normalizeCaptions_canon raw) as Hc.
  unfold bankToValue. rewrite normalizeCaptions_unfold.
  rewrite (canon_hasText _ _ Hc), (canon_assignIds _ _ _ Hc).
  rewrite (sortById_fixed _ (canon_sorted _ _ Hc)).
  apply canon_renumber. exact Hc.
Qed.
End WizardIdempotence.

(** The engine's normalisation gives back a bank it has produced, provided
    no plain string of the input was blank. *)
Lemma normalizeCaptionEntries_idempotent_on (items : list value) (out : list (caption value)) :
  (forall s, In (VStr s) items -> isEmpty (trim s) = false) ->
  normalizeCaptionEntries (VArr items) = Ok out ->
  normalizeCaptionEntries (bankToValue (fun v => v) out) = Ok out.
Proof.
  intros Hstr Hn. unfold normalizeCaptionEntries in *.
  destruct (mapFrom_lookup _ _ _ _ Hn) as [Hlen Hlook].
  unfold bankToValue. apply mapFrom_all; [rewrite length_map; reflexivity|].
  intros j x c Hx Hc. rewrite list_lookup_fmap in Hx.
  rewrite Hc in Hx. simpl in Hx. injection Hx as <-.
  destruct (lookup_lt_is_Some_2 items j) as [entry Hentry].
  { rewrite <- Hlen. eapply lookup_lt_Some; exact Hc. }
  destruct (Hlook j entry Hentry) as (c' & Hc' & Hok).
  rewrite Hc in Hc'. injection Hc' as <-. simpl in Hok.
  pose proof (normalizeCaptionEntry_ok _ _ _ Hok) as (Hid & Ht & Hu & Hua & Hne).
  assert (Hnonempty : isEmpty (text c) = false).
  { destruct Hne as [Hs | Hne]; [|exact Hne].
    destruct entry; try discriminate. rewrite Ht. unfold entryText. simpl.
    apply Hstr. apply list_elem_of_In. eapply list_elem_of_lookup_2; exact Hentry. }
  rewrite normalizeCaptionEntry_record by reflexivity.
  unfold textCandidate, captionToValue. simpl.
  assert (Htrim : trim (text c) = text c) by (rewrite Ht; apply trim_idem).
  rewrite Htrim, Hnonempty.
  destruct c as [i t u ua]. simpl in *.
  assert (Hi : i ?? num (Z.of_nat j + 1) = i).
  { rewrite Hid. destruct (isString entry); [reflexivity | apply nullish_num_idem]. }
  assert (Ha : ua ?? VNull = ua).
  { rewrite Hua. unfold entryUsedAt.
    destruct (isString entry); [reflexivity | apply nullish_null_idem]. }
  rewrite Hi, Ha. destruct u; reflexivity.
Qed.

(** C9 at a bank holding a blank plain string: the engine accepts it, with an
    empty text, and then refuses its own output. *)
Theorem normalizeCaptionEntries_blank_string :
  normalizeCaptionEntries rawBlankString = Ok [blankCaption] /\
  normalizeCaptionEntries (bankToValue (fun v => v) [blankCaption]) = Throw (noText 0).
Proof. split; reflexivity. Qed.

(** ** Hashtag normalisation *)

Section FirstByKey.
Variable key : string -> string.
Implicit Types tags out : list string.

Lemma firstByKey_sublist (seen : gset string) tags : sublist (firstByKey key seen tags) tags.
Proof.
  revert seen. induction tags as [|t tags IH]; intros seen; simpl; [constructor|].
  destruct (decide (key t ∈ seen)); [apply sublist_cons | apply sublist_skip]; apply IH.
Qed.

Lemma firstByKey_fresh (seen : gset string) tags t :
  t ∈ firstByKey key seen tags -> key t ∉ seen.
Proof.
  revert seen. induction tags as [|x tags IH]; intros seen Ht; simpl in Ht.
  - apply elem_of_nil in Ht. destruct Ht.
  - destruct (decide (key x ∈ seen)) as [Hin|Hnin].
    + apply IH. exact Ht.
    + apply elem_of_cons in Ht. destruct Ht as [-> | Ht]; [exact Hnin|].
      apply IH in Ht. intros Hin. apply Ht. apply elem_of_union. right. exact Hin.
Qed.

Lemma firstByKey_NoDup (seen : gset string) tags :
  NoDup (map key (firstByKey key seen tags)).
Proof.
  revert seen. induction tags as [|t tags IH]; intros seen; simpl; [apply NoDup_nil_2|].
  destruct (decide (key t ∈ seen)); [apply IH|].
  simpl. apply NoDup_cons. split; [|apply IH].
  intros Hin. apply list_elem_of_fmap in Hin. destruct Hin as (t' & Hk & Ht').
  apply firstByKey_fresh in Ht'. rewrite <- Hk in Ht'.
  apply Ht'. apply elem_of_union. left. apply elem_of_singleton. reflexivity.
Qed.

Lemma firstByKey_covers (seen : gset string) tags t :
  t ∈ tags -> key t ∈ seen \/ key t ∈ map key (firstByKey key seen tags).
Proof.
  revert seen. induction tags as [|x tags IH]; intros seen Ht.
  - apply elem_of_nil in Ht. destruct Ht.
  - simpl. apply elem_of_cons in Ht.
    destruct (decide (key x ∈ seen)) as [Hin|Hnin].
    + destruct Ht as [-> | Ht]; [left; exact Hin | apply IH; exact Ht].
    + simpl. destruct Ht as [-> | Ht]; [right; left|].
      destruct (IH ({[key x]} ∪ seen) Ht) as [Hs | Ho].
      * apply elem_of_union in Hs. destruct Hs as [Hs | Hs]; [|left; exact Hs].
        apply elem_of_singleton in Hs. rewrite Hs. right. left.
      * right. right. exact Ho.
Qed.

(** The tag kept for a key is the first one that has it. *)
Lemma firstByKey_first (seen : gset string) (before after : list string) t :
  key t ∉ seen -> key t ∉ map key before ->
  t ∈ firstByKey key seen (before ++ t :: after).
Proof.
  revert seen. induction before as [|x before IH]; intros seen Hs Hb; simpl.
  - destruct (decide (key t ∈ seen)); [contradiction | left].
  - simpl in Hb. apply not_elem_of_cons in Hb. destruct Hb as [Hne Hb].
    destruct (decide (key x ∈ seen)).
    + apply IH; assumption.
    + right. apply IH; [|exact Hb].
      intros Hin. apply elem_of_union in Hin. destruct Hin as [Hin | Hin]; [|contradiction].
      apply elem_of_singleton in Hin. congruence.
Qed.
End FirstByKey.

Lemma uniqueFrom_firstByKey (seen : gset string) (tags : list string) :
  uniqueFrom seen tags = firstByKey (fun t => t) seen tags.
Proof.
  revert seen. induction tags as [|t tags IH]; intros seen; simpl; [reflexivity|].
  destruct (decide (t ∈ seen)); rewrite IH; reflexivity.
Qed.

Lemma hashPrefixed_hash (tag : string) : startsWithHash (hashPrefixed tag) = true.
Proof. unfold hashPrefixed. destruct (startsWithHash tag) eqn:E; [exact E | reflexivity]. Qed.

Lemma hashPrefixed_clean (tag : string) :
  startsWithHash tag = false -> hasWhiteSpace (hashPrefixed tag) = false.
Proof.
  unfold hashPrefixed. intros ->. rewrite hasWhiteSpace_hash. apply removeWhiteSpace_clean.
Qed.

Section WizardHashtagFacts.
Context `{Builtins}.

Lemma normalizeHashtag_canonical (rawTag : value) :
  Wizard.normalizeHashtag rawTag = EmptyString \/ canonicalTag (Wizard.normalizeHashtag rawTag).
Proof.
  unfold Wizard.normalizeHashtag, canonicalTag.
  destruct (isEmpty (trim _)); [left; reflexivity|].
  destruct (isEmpty (removeWhiteSpace _)); [left; reflexivity|].
  right. destruct (startsWithHash (removeWhiteSpace _)) eqn:E.
  - split; [exact E | apply removeWhiteSpace_clean].
  - split; [reflexivity|]. rewrite hasWhiteSpace_hash. apply removeWhiteSpace_clean.
Qed.

(** The wizard's loop keeps the first occurrence of every lower-cased key
    among the non-empty normalised candidates. *)
Lemma hashtag_loop (items : list value) (seen : gset string) (result : list string) :
  snd (fold_left Wizard.hashtagStep items (seen, result))
  = result ++ firstByKey toLowerCase seen
      (filter (fun t => isEmpty t = false)
         (map (fun e => Wizard.normalizeHashtag (Wizard.candidate e)) items)).
Proof.
  revert seen result. induction items as [|e items IH]; intros seen result; simpl.
  - rewrite app_nil_r. reflexivity.
  - rewrite filter_cons. unfold Wizard.hashtagStep at 1.
    destruct (isEmpty (Wizard.normalizeHashtag (Wizard.candidate e))) eqn:Ee.
    + destruct (decide (true = false)); [discriminate|]. apply IH.
    + destruct (decide (false = false)); [|contradiction]. simpl.
      destruct (decide (toLowerCase (Wizard.normalizeHashtag (Wizard.candidate e)) ∈ seen)).
      * apply IH.
      * rewrite IH, <- app_assoc. reflexivity.
Qed.
End WizardHashtagFacts.

Section HashtagNormalization.
Context `{Builtins}.

Lemma wizard_normalizeHashtags_array (items : list value) :
  let cands := filter (fun t => isEmpty t = false)
                 (map (fun e => Wizard.normalizeHashtag (Wizard.candidate e)) items) in
  let out := Wizard.normalizeHashtags (VArr items) in
  Forall canonicalTag out /\
  NoDup (map toLowerCase out) /\
  sublist out cands /\
  (forall t, t ∈ cands -> toLowerCase t ∈ map toLowerCase out) /\
  (forall before t after,
     cands = before ++ t :: after ->
     toLowerCase t ∉ map toLowerCase before -> t ∈ out).
Proof.
  intros cands out.
  assert (Hout : out = firstByKey toLowerCase ∅ cands).
  { unfold out, Wizard.normalizeHashtags. rewrite hashtag_loop. reflexivity. }
  assert (Hsub : sublist out cands) by (rewrite Hout; apply firstByKey_sublist).
  split.
  { apply Forall_forall. intros t Ht.
    apply (fun Hin => elem_of_sublist _ _ _ Hin Hsub) in Ht. unfold cands in Ht.
    apply list_elem_of_filter in Ht. destruct Ht as [Hne Ht].
    apply list_elem_of_fmap in Ht. destruct Ht as (e & -> & _).
    destruct (normalizeHashtag_canonical (Wizard.candidate e)) as [He | Hc]; [|exact Hc].
    rewrite He in Hne. discriminate. }
  split; [rewrite Hout; apply firstByKey_NoDup|].
  split; [exact Hsub|].
  split.
  { intros t Ht. rewrite Hout.
    destruct (firstByKey_covers toLowerCase ∅ cands t Ht) as [Hs | Ho]; [|exact Ho].
    apply not_elem_of_empty in Hs. destruct Hs. }
  intros before t after Hc Hb. rewrite Hout, Hc.
  apply firstByKey_first; [apply not_elem_of_empty | exact Hb].
Qed.

Lemma engine_normalizeHashtags_array (items : list value) (out : list string) :
  normalizeHashtags (VArr items) = Ok out ->
  let tags := map hashPrefixed
                (filter (fun tag => negb (isEmpty tag)) (map trim (map hashtagText items))) in
  Forall (fun t => startsWithHash t = true) out /\
  NoDup out /\
  sublist out tags /\
  (forall t, t ∈ tags -> t ∈ out).
Proof.
  intros Hn tags. unfold normalizeHashtags in Hn. injection Hn as <-. fold tags.
  rewrite uniqueFrom_firstByKey.
  pose proof (firstByKey_sublist (fun t => t) ∅ tags) as Hsub.
  split.
  { apply Forall_forall. intros t Ht. apply (fun Hin => elem_of_sublist _ _ _ Hin Hsub) in Ht.
    unfold tags in Ht. apply list_elem_of_fmap in Ht. destruct Ht as (t0 & -> & _).
    apply hashPrefixed_hash. }
  split.
  { pose proof (firstByKey_NoDup (fun t => t) ∅ tags) as Hnd.
    rewrite map_id in Hnd. exact Hnd. }
  split; [exact Hsub|].
  intros t Ht.
  destruct (firstByKey_covers (fun t => t) ∅ tags t Ht) as [Hs | Ho].
  - apply not_elem_of_empty in Hs. destruct Hs.
  - rewrite map_id in Ho. exact Ho.
Qed.

End HashtagNormalization.

(** C5. [pickHashtags] gives the empty selection on the empty bank, without
    an error; on a bank of [n > 0] tags it gives between [min(3, n)] and
    [min(5, n)] tags, the count being the least one plus the draw reduced
    modulo the size of the range (so a uniform draw gives a uniform count);
    the tags are taken out of the bank without replacement, so they are
    pairwise distinct, the bank being duplicate-free, as every bank that the
    engine's [normalizeHashtags] returns is. *)
Theorem pickHashtags_sample (bank : list string) (g : rng) :
  pickHashtags [] g = (Ok [], g) /\
  (forall raw, normalizeHashtags raw = Ok bank -> NoDup bank) /\
  (bank <> [] -> NoDup bank ->
   let n := Z.of_nat (length bank) in
   exists selected rest : list string,
     fst (pickHashtags bank g) = Ok selected /\
     Z.min 3 n <= Z.of_nat (length selected) <= Z.min 5 n /\
     Z.of_nat (length selected)
       = Z.min 3 n + Z.of_nat (Nat.modulo (g O) (Z.to_nat (Z.min 5 n - Z.min 3 n + 1))) /\
     Permutation (selected ++ rest) bank /\
     incl selected bank /\
     NoDup selected).
Proof.
  split; [reflexivity|]. split.
  { intros raw Hraw. destruct raw; try discriminate.
    apply (engine_normalizeHashtags_array items bank Hraw). }
  intros Hne Hnd n. unfold pickHashtags.
  assert (Hlen : (0 < length bank)%nat) by (destruct bank; [congruence | simpl; lia]).
  assert ((length bank =? 0)%nat = false) as -> by (apply Nat.eqb_neq; lia).
  fold n.
  assert (Hmin : Z.min 3 (Z.min 5 n) = Z.min 3 n) by lia. rewrite Hmin.
  pose proof (randomIntInclusive_range (Z.min 3 n) (Z.min 5 n) g ltac:(lia)) as Hrange.
  assert (Hcount : fst (randomIntInclusive (Z.min 3 n) (Z.min 5 n) g)
                   = Z.min 3 n + Z.of_nat (Nat.modulo (g O) (Z.to_nat (Z.min 5 n - Z.min 3 n + 1)))).
  { unfold randomIntInclusive, randomBelow.
    destruct (Z.to_nat (Z.min 5 n - Z.min 3 n + 1)) eqn:E; [lia|]. simpl. lia. }
  destruct (randomIntInclusive (Z.min 3 n) (Z.min 5 n) g) as [pickCount g'].
  cbn [fst] in Hrange, Hcount.
  destruct (pickRandomItems_sample bank pickCount g' ltac:(lia))
    as (selected & rest & Heq & Hl & Hp).
  exists selected, rest. split; [exact Heq|].
  split; [lia|]. split; [lia|]. split; [exact Hp|].
  split; [eapply sample_incl; exact Hp | eapply sample_NoDup; eauto].
Qed.

Lemma pickHashtags_sample_witness :
  fst (pickHashtags ["#x"; "#y"; "#z"]%string (draws [0; 2; 0; 0]%nat))
  = Ok ["#z"; "#x"; "#y"]%string.
Proof.
  destruct (proj2 (proj2 (pickHashtags_sample ["#x"; "#y"; "#z"]%string
                            (draws [0; 2; 0; 0]%nat))))
    as (selected & rest & Heq & _).
  - discriminate.
  - repeat (apply NoDup_cons; split; [rewrite list_elem_of_In; simpl; intuition discriminate|]).
    apply NoDup_nil_2.
  - reflexivity.
Defined.




(** * The engine at work *)

(** ** The monad *)

Section MonadFacts.
Context {A B : Type}.

Lemma bind_ok (m : M A) (f : A -> M B) (w w' : world) (a : A) (es : list event) :
  m w = (Ok a, w', es) ->
  (m ≫= f) w = (resultOf (f a w'), worldOf (f a w'), es ++ eventsOf (f a w')).
Proof.
  intros Hm. unfold mbind, M_bind, bind. rewrite Hm.
  destruct (f a w') as [[r w''] es']. reflexivity.
Qed.

Lemma bind_throw (m : M A) (f : A -> M B) (w w' : world) (e : error) (es : list event) :
  m w = (Throw e, w', es) -> (m ≫= f) w = (Throw e, w', es).
Proof. intros Hm. unfold mbind, M_bind, bind. rewrite Hm. reflexivity. Qed.

Lemma bind_events (m : M A) (f : A -> M B) (w : world) :
  eventsOf ((m ≫= f) w)
  = eventsOf (m w) ++ match resultOf (m w) with
                      | Ok a => eventsOf (f a (worldOf (m w)))
                      | Throw _ => []
                      end.
Proof.
  destruct (m w) as [[[a|e] w'] es] eqn:Hm.
  - rewrite (bind_ok _ _ _ _ _ _ Hm). reflexivity.
  - rewrite (bind_throw _ _ _ _ _ _ Hm). unfold eventsOf. simpl. rewrite app_nil_r. reflexivity.
Qed.

Lemma bind_result (m : M A) (f : A -> M B) (w : world) :
  resultOf ((m ≫= f) w)
  = match resultOf (m w) with
    | Ok a => resultOf (f a (worldOf (m w)))
    | Throw e => Throw e
    end.
Proof.
  destruct (m w) as [[[a|e] w'] es] eqn:Hm.
  - rewrite (bind_ok _ _ _ _ _ _ Hm). reflexivity.
  - rewrite (bind_throw _ _ _ _ _ _ Hm). reflexivity.
Qed.

Lemma bind_world (m : M A) (f : A -> M B) (w : world) :
  worldOf ((m ≫= f) w)
  = match resultOf (m w) with
    | Ok a => worldOf (f a (worldOf (m w)))
    | Throw e => worldOf (m w)
    end.
Proof.
  destruct (m w) as [[[a|e] w'] es] eqn:Hm.
  - rewrite (bind_ok _ _ _ _ _ _ Hm). reflexivity.
  - rewrite (bind_throw _ _ _ _ _ _ Hm). reflexivity.
Qed.
End MonadFacts.

Section Respects.
Variable P : event -> Prop.
Variable E : error -> Prop.

Lemma respects_ret {A : Type} (a : A) : respects P E (mret a).
Proof. intros w. split; [constructor | discriminate]. Qed.

Lemma respects_throw {A : Type} (e : error) : E e -> respects P E (@throw A e).
Proof. intros He w. split; [constructor|]. intros e' [= <-]. exact He. Qed.

Lemma respects_bind {A B : Type} (m : M A) (f : A -> M B) :
  respects P E m -> (forall a, respects P E (f a)) -> respects P E (m ≫= f).
Proof.
  intros Hm Hf w. destruct (Hm w) as [Hes Herr].
  rewrite bind_events, bind_result.
  destruct (resultOf (m w)) as [a|e] eqn:Hr.
  - destruct (Hf a (worldOf (m w))) as [Hes' Herr'].
    split; [apply Forall_app; split; assumption | exact Herr'].
  - split; [rewrite app_nil_r; exact Hes|].
    intros e' [= <-]. apply Herr. reflexivity.
Qed.

Lemma respects_catching {A : Type} (m : M A) :
  E OutOfFuel -> respects P E m -> respects P E (catching m).
Proof.
  intros Hfuel Hm w. destruct (Hm w) as [Hes Herr]. unfold catching.
  destruct (m w) as [[[a|e] w'] es]; [split; [exact Hes | discriminate]|].
  destruct e; (split; [exact Hes|]); try discriminate.
  intros e' [= <-]. exact Hfuel.
Qed.

Lemma respects_finally {A : Type} (m : M A) (cleanup : M unit) :
  respects P E m -> respects P E cleanup -> respects P E (finally m cleanup).
Proof.
  intros Hm Hc w. destruct (Hm w) as [Hes Herr]. unfold finally.
  destruct (m w) as [[r w'] es]. unfold eventsOf, resultOf in *. simpl in *.
  destruct (Hc w') as [Hes' Herr'].
  assert (Hgo : let x := match cleanup w' with
                         | (Ok _, w'', es') => (r, w'', es ++ es')
                         | (Throw e, w'', es') => (Throw e, w'', es ++ es')
                         end in
                Forall P (snd x) /\ (forall e, fst (fst x) = Throw e -> E e)).
  { destruct (cleanup w') as [[[u|e] w''] es']; unfold eventsOf, resultOf in *; simpl in *.
    - split; [apply Forall_app; split; assumption | exact Herr].
    - split; [apply Forall_app; split; assumption|].
      intros e' [= <-]. apply Herr'. reflexivity. }
  destruct r as [a|e]; [exact Hgo|].
  destruct e; try exact Hgo. simpl. split; [exact Hes | exact Herr].
Qed.

Lemma respects_syscall {A : Type} (c : call) (perform : world -> (string + A) * world) :
  (forall f, P {| what := c; failed := f |}) ->
  (forall code, E (SysError code)) ->
  respects P E (syscall c perform).
Proof.
  intros Hp He w. unfold syscall.
  destruct (faults w) as [|[code|] later].
  - destruct (perform _) as [[code|a] w']; (split; [repeat constructor; apply Hp|]);
      [intros e [= <-]; apply He | discriminate].
  - split; [repeat constructor; apply Hp | intros e [= <-]; apply He].
  - destruct (perform _) as [[code|a] w']; (split; [repeat constructor; apply Hp|]);
      [intros e [= <-]; apply He | discriminate].
Qed.

Lemma respects_liftRand {A : Type} (m : Rand A) : respects P E (liftRand m).
Proof.
  intros w. unfold liftRand. destruct (m (random w)). split; [constructor | discriminate].
Qed.

Lemma respects_liftResult {A : Type} (r : result A) :
  (forall e, r = Throw e -> E e) -> respects P E (liftResult r).
Proof. intros Hr w. split; [constructor | exact Hr]. Qed.

Lemma respects_newDate : respects P E newDate.
Proof. intros w. split; [constructor | discriminate]. Qed.

Lemma respects_getPid : respects P E getPid.
Proof. intros w. split; [constructor | discriminate]. Qed.

Lemma respects_existsSync (path : string) :
  (forall f, P {| what := ExistsSync path; failed := f |}) ->
  respects P E (existsSync path).
Proof.
  intros Hp w. unfold existsSync.
  destruct (faults w) as [|[code|] later];
    (split; [repeat constructor; apply Hp | discriminate]).
Qed.

Lemma respects_consoleLog (line : string) :
  P (succeeded (ConsoleLog line)) -> respects P E (consoleLog line).
Proof. intros Hp w. split; [repeat constructor; exact Hp | discriminate]. Qed.

Lemma respects_forEach {A : Type} (l : list A) (body : A -> M unit) :
  (forall x, respects P E (body x)) -> respects P E (forEach l body).
Proof.
  intros Hb. induction l as [|x l IH]; simpl.
  - apply respects_ret.
  - apply respects_bind; [apply Hb | intros _; exact IH].
Qed.
End Respects.

Lemma prefix3_notCannotPick (e : error) : prefix3 e <> "Can"%string -> notCannotPick e.
Proof. intros Hp count len ->. apply Hp. reflexivity. Qed.

Lemma respects_bind_catching {A B : Type} (P : event -> Prop) (E : error -> Prop)
      (m : M A) (k : result A -> M B) :
  E OutOfFuel -> respects P E m ->
  (forall r, (forall e, r = Throw e -> E e) -> respects P E (k r)) ->
  respects P E (catching m ≫= k).
Proof.
  intros Hfuel Hm Hk w. destruct (Hm w) as [Hes Herr].
  rewrite bind_events, bind_result.
  unfold catching. destruct (m w) as [[[a|e] w'] es]; unfold eventsOf, resultOf, worldOf in *;
    simpl in *.
  - destruct (Hk (Ok a) ltac:(discriminate) w') as [Hes' Herr'].
    split; [apply Forall_app; split; assumption | exact Herr'].
  - assert (Hcaught : let x := (Ok (Throw e) : result (result A), w', es) in
                      Forall P (snd x ++ match fst (fst x) with
                                         | Ok r => snd (k r (snd (fst x)))
                                         | Throw _ => []
                                         end) /\
                      (forall e0, match fst (fst x) with
                                  | Ok r => fst (fst (k r (snd (fst x))))
                                  | Throw e1 => Throw e1
                                  end = Throw e0 -> E e0)).
    { simpl. destruct (Hk (Throw e) ltac:(intros e0 [= <-]; apply Herr; reflexivity) w')
        as [Hes' Herr'].
      split; [apply Forall_app; split; assumption | exact Herr']. }
    destruct e; try exact Hcaught. simpl. rewrite app_nil_r.
    split; [exact Hes | intros e0 [= <-]; exact Hfuel].
Qed.

Lemma respects_bind_liftRand {A B : Type} (P : event -> Prop) (E : error -> Prop)
      (m : Rand A) (k : A -> M B) (Q : A -> Prop) :
  (forall g, Q (fst (m g))) ->
  (forall a, Q a -> respects P E (k a)) ->
  respects P E (liftRand m ≫= k).
Proof.
  intros Hq Hk w. rewrite bind_events, bind_result. unfold liftRand.
  pose proof (Hq (random w)) as Ha. destruct (m (random w)) as [a g]. simpl in *.
  destruct (Hk a Ha (withRandom g w)) as [Hes Herr].
  split; [exact Hes | exact Herr].
Qed.

(** ** The parts of the engine that write no file *)

Section QuietParts.
Context `{Builtins}.
Variable rootDir : string.
Variable P : event -> Prop.
Variable E : error -> Prop.
Hypothesis HP : forall ev, notWriteFile ev -> P ev.
Hypothesis HE : forall e, prefix3 e <> "Can"%string -> E e.

Lemma E_system (code : string) : E (SysError code).
Proof. apply HE. discriminate. Qed.

Lemma E_fuel : E OutOfFuel.
Proof. apply HE. discriminate. Qed.

Ltac quiet_call :=
  apply respects_syscall;
  [ intros f; apply HP; intros path' content'; simpl; discriminate
  | intros code; apply E_system ].

Lemma mkdir_quiet (path : string) (recursive : bool) : respects P E (mkdir path recursive).
Proof. quiet_call. Qed.

Lemma openWx_quiet (path : string) : respects P E (openWx path).
Proof. quiet_call. Qed.

Lemma handleWrite_quiet (path payload : string) : respects P E (handleWrite path payload).
Proof. quiet_call. Qed.

Lemma handleClose_quiet (path : string) : respects P E (handleClose path).
Proof. quiet_call. Qed.

Lemma readFile_quiet (path : string) : respects P E (readFile path).
Proof. quiet_call. Qed.

Lemma kill_quiet (target : Z) : respects P E (kill target).
Proof. quiet_call. Qed.

Lemma rm_quiet (path : string) : respects P E (rm path).
Proof. quiet_call. Qed.

Lemma access_quiet (path : string) : respects P E (access path).
Proof. quiet_call. Qed.

Lemma rename_quiet (src dst : string) : respects P E (rename src dst).
Proof. quiet_call. Qed.

Lemma copyFileExcl_quiet (src dst : string) : respects P E (copyFileExcl src dst).
Proof. quiet_call. Qed.

Lemma unlink_quiet (path : string) : respects P E (unlink path).
Proof. quiet_call. Qed.

Lemma readdir_quiet (path : string) : respects P E (readdir path).
Proof. quiet_call. Qed.

Lemma log_quiet (message : string) : respects P E (log message).
Proof.
  unfold log. apply respects_bind; [apply respects_newDate|].
  intros now. apply respects_consoleLog. apply HP. intros path content. discriminate.
Qed.

Lemma ensureDirectories_quiet : respects P E (ensureDirectories rootDir).
Proof.
  unfold ensureDirectories.
  repeat (apply respects_bind; [apply mkdir_quiet | intros _]). apply mkdir_quiet.
Qed.

Lemma isProcessAlive_quiet (activePid : jsnum) : respects P E (isProcessAlive activePid).
Proof.
  unfold isProcessAlive. destruct activePid as [|p|]; try apply respects_ret.
  destruct (p <=? 0); [apply respects_ret|].
  apply respects_bind_catching; [apply E_fuel | apply kill_quiet|].
  intros [u|e] He; [apply respects_ret|].
  destruct (hasCode e "ESRCH"); [apply respects_ret|].
  destruct (hasCode e "EPERM"); [apply respects_ret|].
  apply respects_throw. apply He. reflexivity.
Qed.

Lemma writeLock_quiet (payload : string) : respects P E (writeLock rootDir payload).
Proof.
  unfold writeLock.
  apply respects_bind; [apply openWx_quiet | intros _].
  apply respects_bind; [apply handleWrite_quiet | intros _].
  apply handleClose_quiet.
Qed.

Lemma holderAlive_quiet : respects P E (holderAlive rootDir).
Proof.
  unfold holderAlive. apply respects_bind; [apply readFile_quiet|].
  intros existing. apply isProcessAlive_quiet.
Qed.

Lemma reclaimLock_quiet (payload : string) : respects P E (reclaimLock rootDir payload).
Proof.
  unfold reclaimLock.
  apply respects_bind; [apply rm_quiet | intros _].
  apply respects_bind; [apply writeLock_quiet | intros _].
  apply respects_ret.
Qed.

Lemma acquireLock_quiet : respects P E (acquireLock rootDir).
Proof.
  unfold acquireLock.
  apply respects_bind; [apply respects_getPid | intros p].
  apply respects_bind; [apply respects_newDate | intros now].
  apply respects_bind_catching; [apply E_fuel | apply writeLock_quiet|].
  intros [u|e] He; [apply respects_ret|].
  destruct (hasCode e "EEXIST"); simpl; [|apply respects_throw; apply He; reflexivity].
  apply respects_bind_catching; [apply E_fuel | apply holderAlive_quiet|].
  intros [[|]|e'] _; try apply reclaimLock_quiet. apply respects_ret.
Qed.

Lemma releaseLock_quiet : respects P E (releaseLock rootDir).
Proof. apply rm_quiet. Qed.

Lemma readJsonFile_quiet (filePath : string) : respects P E (readJsonFile filePath).
Proof.
  unfold readJsonFile. apply respects_bind; [apply readFile_quiet|].
  intros content. destruct (JSON_parse content); [apply respects_ret|].
  apply respects_throw. apply HE. discriminate.
Qed.

Lemma walk_quiet (fuel : nat) (extensionSet queue results : list string) :
  respects P E (walk fuel extensionSet queue results).
Proof.
  revert queue results. induction fuel as [|fuel IH]; intros queue results.
  - destruct queue; simpl; [apply respects_ret | apply respects_throw; apply E_fuel].
  - destruct queue as [|current queue]; simpl; [apply respects_ret|].
    apply respects_bind; [apply readdir_quiet|]. intros entries.
    destruct (fold_left _ entries (queue, results)) as [queue' results']. apply IH.
Qed.

Lemma collectFilesRecursive_quiet (fuel : nat) (root : string) (extensionSet : list string) :
  respects P E (collectFilesRecursive fuel root extensionSet).
Proof.
  unfold collectFilesRecursive.
  apply respects_bind.
  - apply respects_existsSync. intros f. apply HP. intros path content. discriminate.
  - intros present. destruct present; simpl; [|apply respects_ret].
    apply respects_bind; [apply walk_quiet | intros results; apply respects_ret].
Qed.

Lemma uniqueDirectoryLoop_quiet (fuel : nat) (baseDir desiredName : string) (attempt : nat) :
  respects P E (uniqueDirectoryLoop fuel baseDir desiredName attempt).
Proof.
  revert attempt. induction fuel as [|fuel IH]; intros attempt; simpl.
  - apply respects_throw. apply E_fuel.
  - apply respects_bind_catching; [apply E_fuel | apply mkdir_quiet|].
    intros [u|e] He; [apply respects_ret|].
    destruct (hasCode e "EEXIST"); simpl; [apply IH|].
    apply respects_throw. apply He. reflexivity.
Qed.

Lemma uniqueFileLoop_quiet (fuel : nat) (targetDir : string) (parsed : string * string)
      (attempt : nat) :
  respects P E (uniqueFileLoop fuel targetDir parsed attempt).
Proof.
  revert attempt. induction fuel as [|fuel IH]; intros attempt; simpl.
  - apply respects_throw. apply E_fuel.
  - apply respects_bind_catching; [apply E_fuel | apply access_quiet|].
    intros [u|e] He; [apply IH | apply respects_ret].
Qed.

Lemma moveFileSafe_quiet (sourcePath destinationPath : string) :
  respects P E (moveFileSafe sourcePath destinationPath).
Proof.
  unfold moveFileSafe.
  apply respects_bind_catching; [apply E_fuel | apply rename_quiet|].
  intros [u|e] He; [apply respects_ret|].
  destruct (hasCode e "EXDEV"); simpl; [|apply respects_throw; apply He; reflexivity].
  apply respects_bind; [apply copyFileExcl_quiet | intros _; apply unlink_quiet].
Qed.

Lemma moveSelected_quiet (fuel : nat) (jobDir : string) (selectedMedia : list string) :
  respects P E (moveSelected fuel jobDir selectedMedia).
Proof.
  unfold moveSelected. apply respects_forEach. intros sourcePath.
  apply respects_bind; [apply uniqueFileLoop_quiet|].
  intros destinationPath. apply moveFileSafe_quiet.
Qed.
End QuietParts.

(** ** What the pure parts can throw *)

Lemma mapFrom_error {A B : Type} (f : A -> nat -> result B) (k : nat) (l : list A) (e : error) :
  mapFrom f k l = Throw e -> exists j x, f x j = Throw e.
Proof.
  revert k. induction l as [|x l IH]; intros k Hm; simpl in Hm; [discriminate|].
  destruct (f x k) as [y|e0] eqn:Ef.
  - destruct (mapFrom f (S k) l) as [ys|e1] eqn:Em; [discriminate|].
    injection Hm as ->. eapply IH; exact Em.
  - injection Hm as ->. eauto.
Qed.

Lemma normalizeCaptionEntries_errors (raw : value) (e : error) :
  normalizeCaptionEntries raw = Throw e -> prefix3 e <> "Can"%string.
Proof.
  unfold normalizeCaptionEntries. intros Hn.
  destruct raw; try (injection Hn as <-; discriminate).
  apply mapFrom_error in Hn. destruct Hn as (j & x & Hx).
  unfold normalizeCaptionEntry in Hx.
  destruct (isString x); [discriminate|].
  destruct (negb (truthy x) || negb (isObjectType x)); [injection Hx as <-; discriminate|].
  destruct (isEmpty _); [injection Hx as <-; discriminate | discriminate].
Qed.

Lemma normalizeHashtags_errors (raw : value) (e : error) :
  normalizeHashtags raw = Throw e -> prefix3 e <> "Can"%string.
Proof.
  unfold normalizeHashtags. intros Hn.
  destruct raw; try (injection Hn as <-; discriminate). discriminate.
Qed.

Lemma pickCaption_errors {I : Type} (now : string) (bank : list (caption I)) (g : rng)
      (e : error) :
  fst (pickCaption now bank g) = Throw e -> prefix3 e <> "Can"%string.
Proof.
  intros Hp. destruct bank as [|c bank].
  - rewrite pickCaption_empty in Hp. injection Hp as <-. discriminate.
  - destruct (pickCaption_selects now (c :: bank) g ltac:(discriminate))
      as (entry & _ & _ & _ & Heq).
    rewrite Heq in Hp. discriminate.
Qed.

(** A composition never asks for more than the stock. *)
Lemma chooseComposition_within (imageCount videoCount : Z) (g : rng) (c : composition) :
  0 <= imageCount -> 0 <= videoCount ->
  fst (chooseComposition imageCount videoCount g) = Some c ->
  0 <= images c <= imageCount /\ 0 <= videos c <= videoCount /\ images c + videos c = 4.
Proof.
  intros Hi Hv. unfold chooseComposition.
  destruct (imageCount + videoCount <? 4) eqn:Et; [discriminate|].
  assert (Hsingle : forall c',
             (if 4 <=? imageCount then Some {| images := 4; videos := 0 |}
              else if 4 <=? videoCount then Some {| images := 0; videos := 4 |} else None)
             = Some c' ->
             0 <= images c' <= imageCount /\ 0 <= videos c' <= videoCount /\
             images c' + videos c' = 4).
  { intros c'. destruct (4 <=? imageCount) eqn:E4.
    - intros [= <-]. apply Z.leb_le in E4. simpl. lia.
    - destruct (4 <=? videoCount) eqn:E5; [|discriminate].
      intros [= <-]. apply Z.leb_le in E5. simpl. lia. }
  destruct ((0 <? imageCount) && (0 <? videoCount)); [|apply Hsingle].
  destruct (0 <? length (possibleImageCounts imageCount videoCount))%nat eqn:El; [|apply Hsingle].
  apply Nat.ltb_lt in El.
  pose proof (randomBelow_lt _ g El) as Hidx.
  destruct (randomBelow _ g) as [idx g']. cbn [fst] in *. intros [= <-]. cbn [images videos].
  assert (Hk : feasible imageCount videoCount
                 (nth idx (possibleImageCounts imageCount videoCount) 0)).
  { apply possibleImageCounts_feasible. apply nth_In. exact Hidx. }
  unfold feasible in Hk. lia.
Qed.

Lemma sampling_safe {A : Type} (P : event -> Prop) (E : error -> Prop) (m : Rand (result A)) :
  (forall g e, fst (m g) = Throw e -> E e) ->
  respects P E (liftRand m ≫= liftResult).
Proof.
  intros Hm.
  apply (respects_bind_liftRand P E m liftResult (fun r => forall e, r = Throw e -> E e)).
  - intros g e. apply Hm.
  - intros r Hr. apply respects_liftResult. exact Hr.
Qed.

(** ** The run never finds [pickRandomItems] short of items *)

Section RunSafe.
Context `{Builtins}.
Variable rootDir : string.

Let P : event -> Prop := fun _ => True.
Let E : error -> Prop := fun e => prefix3 e <> "Can"%string.

Let HP : forall ev, notWriteFile ev -> P ev := fun _ _ => I.
Let HE : forall e, prefix3 e <> "Can"%string -> E e := fun _ He => He.

Lemma writeFile_safe (path content : string) : respects P E (writeFile path content).
Proof. apply respects_syscall; [intros f; exact I | intros code; discriminate]. Qed.

Lemma assemble_safe (fuel : nat) (imageFiles videoFiles : list string) (c : composition) :
  images c <= Z.of_nat (length imageFiles) ->
  videos c <= Z.of_nat (length videoFiles) ->
  respects P E (assemble rootDir fuel imageFiles videoFiles c).
Proof.
  intros Hi Hv. unfold assemble.
  apply respects_bind.
  { apply sampling_safe. intros g e He.
    destruct (pickRandomItems_sample imageFiles (images c) g Hi) as (l & r & Heq & _).
    rewrite Heq in He. discriminate. }
  intros selectedImages. apply respects_bind.
  { apply sampling_safe. intros g e He.
    destruct (pickRandomItems_sample videoFiles (videos c) g Hv) as (l & r & Heq & _).
    rewrite Heq in He. discriminate. }
  intros selectedVideos.
  apply respects_bind; [apply (readJsonFile_quiet P E HP HE) | intros captionsRaw].
  apply respects_bind;
    [apply respects_liftResult; apply normalizeCaptionEntries_errors | intros normalized].
  apply respects_bind; [apply respects_newDate | intros stamp].
  apply respects_bind; [apply sampling_safe; intros g e; apply pickCaption_errors | intros chosen].
  apply respects_bind; [apply (readJsonFile_quiet P E HP HE) | intros hashtagsRaw].
  apply respects_bind;
    [apply respects_liftResult; apply normalizeHashtags_errors | intros hashtags].
  apply respects_bind.
  { apply sampling_safe. intros g e He.
    destruct (pickHashtags_positions hashtags g) as (l & r & Heq & _).
    rewrite Heq in He. discriminate. }
  intros selectedHashtags.
  apply respects_bind; [apply respects_newDate | intros now].
  apply respects_bind; [apply (uniqueDirectoryLoop_quiet P E HP HE) | intros jobDir].
  apply respects_bind; [apply (moveSelected_quiet P E HP HE) | intros _].
  apply respects_bind; [apply writeFile_safe | intros _].
  apply respects_bind; [apply writeFile_safe | intros _].
  apply (log_quiet P E HP).
Qed.

Lemma run_safe (fuel : nat) : respects P E (run rootDir fuel).
Proof.
  unfold run.
  apply respects_bind; [apply (ensureDirectories_quiet rootDir P E HP HE) | intros _].
  apply respects_bind; [apply (acquireLock_quiet rootDir P E HP HE) | intros lockAcquired].
  destruct lockAcquired; simpl; [|apply (log_quiet P E HP)].
  apply respects_finally; [|apply (releaseLock_quiet rootDir P E HP HE)].
  apply respects_bind; [apply (collectFilesRecursive_quiet P E HP HE) | intros imageFiles].
  apply respects_bind; [apply (collectFilesRecursive_quiet P E HP HE) | intros videoFiles].
  apply (respects_bind_liftRand P E _ _
           (fun oc => forall c, oc = Some c ->
                                images c <= Z.of_nat (length imageFiles) /\
                                videos c <= Z.of_nat (length videoFiles))).
  - intros g c Hc. apply chooseComposition_within in Hc; lia.
  - intros [c|] Hc; [|apply (log_quiet P E HP)].
    destruct (Hc c eq_refl). apply assemble_safe; assumption.
Qed.
End RunSafe.

(** C10. A composition that [chooseComposition] returns for the lengths of
    the two stocks fits them: its counts are within the lengths (and sum to
    four), so both calls of [pickRandomItems] return a selection of that many
    items; a mixed split is feasible whenever both stocks are non-empty and
    hold four media together; and no run ends in the error of
    [pickRandomItems]. *)
Theorem composition_within_stock `{Builtins} (imageFiles videoFiles : list string) :
  let imageCount := Z.of_nat (length imageFiles) in
  let videoCount := Z.of_nat (length videoFiles) in
  (forall (g : rng) (c : composition),
     fst (chooseComposition imageCount videoCount g) = Some c ->
     0 <= images c <= imageCount /\ 0 <= videos c <= videoCount /\
     images c + videos c = 4 /\
     (forall g', exists selected,
        fst (pickRandomItems imageFiles (images c) g') = Ok selected /\
        Z.of_nat (length selected) = images c) /\
     (forall g', exists selected,
        fst (pickRandomItems videoFiles (videos c) g') = Ok selected /\
        Z.of_nat (length selected) = videos c)) /\
  (0 < imageCount -> 0 < videoCount -> 4 <= imageCount + videoCount ->
   exists k, feasible imageCount videoCount k) /\
  (forall (rootDir : string) (fuel : nat) (w : world) (count : Z) (len : nat),
     resultOf (run rootDir fuel w) <> Throw (cannotPick count len)).
Proof.
  intros imageCount videoCount. split; [|split].
  - intros g c Hc.
    apply chooseComposition_within in Hc; [|unfold imageCount; lia | unfold videoCount; lia].
    destruct Hc as (Hi & Hv & Hsum). repeat (split; [lia|]).
    split; intros g'.
    + destruct (pickRandomItems_sample imageFiles (images c) g' ltac:(lia))
        as (selected & rest & Heq & Hlen & _).
      exists selected. split; [exact Heq | lia].
    + destruct (pickRandomItems_sample videoFiles (videos c) g' ltac:(lia))
        as (selected & rest & Heq & Hlen & _).
      exists selected. split; [exact Heq | lia].
  - apply possibleImageCounts_nonempty.
  - intros rootDir fuel w count len Hr.
    destruct (run_safe rootDir fuel w) as [_ Herr].
    apply (Herr _ Hr). reflexivity.
Qed.

Lemma composition_within_stock_witness :
  0 <= 2 <= 2 /\ 0 <= 2 <= 3 /\ 2 + 2 = 4 /\
  exists k, feasible 2 3 k.
Proof.
  pose proof (@composition_within_stock sampleBuiltins ["a"; "b"]%string ["c"; "d"; "e"]%string)
    as (Hfit & Hmix & _).
  destruct (Hfit (draws [7%nat]) {| images := 2; videos := 2 |} eq_refl)
    as (Hi & Hv & Hsum & _).
  split; [exact Hi|]. split; [exact Hv|]. split; [exact Hsum|].
  apply Hmix; simpl; lia.
Defined.

(** ** The bank is written last *)

Lemma lastChar_append (a b : string) :
  b <> EmptyString -> lastChar (a +:+ b) = lastChar b.
Proof.
  intros Hb. induction a as [|c a IH]; [reflexivity|].
  change (String c a +:+ b) with (String c (a +:+ b)). cbn [lastChar]. rewrite IH.
  destruct b as [|d b]; [congruence|]. cbn [lastChar]. destruct (lastChar b); reflexivity.
Qed.

Lemma caption_txt_not_bank (jobDir dataDirectory : string) :
  join jobDir "caption.txt" <> join dataDirectory "captions.json".
Proof.
  unfold join. intros Heq. apply (f_equal lastChar) in Heq.
  rewrite !lastChar_append in Heq by discriminate. discriminate.
Qed.

Lemma syscall_outcome {A : Type} (c : call) (perform : world -> (string + A) * world)
      (w : world) :
  (exists a, resultOf (syscall c perform w) = Ok a /\
             eventsOf (syscall c perform w) = [succeeded c]) \/
  (exists code, resultOf (syscall c perform w) = Throw (SysError code) /\
                eventsOf (syscall c perform w) = [{| what := c; failed := Some code |}]).
Proof.
  unfold syscall. destruct (faults w) as [|[code|] later].
  - destruct (perform _) as [[code|a] w']; [right | left]; eauto.
  - right. eauto.
  - destruct (perform _) as [[code|a] w']; [right | left]; eauto.
Qed.

Section BankWrittenLast.
Context `{Builtins}.
Variable rootDir : string.
Variable Sel : list string -> Prop.

Abbreviation quietBank := (respects (notBankWrite rootDir) (fun _ => True)).

Lemma notWriteFile_notBankWrite (ev : event) : notWriteFile ev -> notBankWrite rootDir ev.
Proof. intros Hn [content Hc]. exact (Hn _ _ Hc). Qed.

Lemma movedInto_mono (jobDir src : string) (a b : list event) :
  movedInto jobDir src b -> movedInto jobDir src (a ++ b).
Proof.
  intros (k & Hm). exists k. cbv zeta in *.
  destruct Hm as [Hr | [Hc Hu]]; [left | right; split]; apply in_or_app; right; assumption.
Qed.

Lemma movedInto_mono_r (jobDir src : string) (a b : list event) :
  movedInto jobDir src a -> movedInto jobDir src (a ++ b).
Proof.
  intros (k & Hm). exists k. cbv zeta in *.
  destruct Hm as [Hr | [Hc Hu]]; [left | right; split]; apply in_or_app; left; assumption.
Qed.

Lemma packaged_mono (selectedMedia : list string) (a b : list event) :
  packaged rootDir selectedMedia b -> packaged rootDir selectedMedia (a ++ b).
Proof.
  intros (jobDir & content & Hdir & Hmoved & Hcap).
  exists jobDir, content. split; [exact Hdir|]. split.
  - intros src Hsrc. apply movedInto_mono. apply Hmoved. exact Hsrc.
  - apply in_or_app. right. exact Hcap.
Qed.

Lemma guarded_quiet (es : list event) :
  Forall (notBankWrite rootDir) es -> guarded rootDir Sel es.
Proof. intros Hq. left. exact Hq. Qed.

Lemma guarded_after (a b : list event) :
  Forall (notBankWrite rootDir) a -> guarded rootDir Sel b -> guarded rootDir Sel (a ++ b).
Proof.
  intros Ha [Hb | (pre & ev & post & media & -> & Hev & Hpre & Hsel & Hpack & Hpost)].
  - left. apply Forall_app. split; assumption.
  - right. exists (a ++ pre), ev, post, media. rewrite <- app_assoc.
    split; [reflexivity|]. split; [exact Hev|].
    split; [apply Forall_app; split; assumption|]. split; [exact Hsel|].
    split; [apply packaged_mono; exact Hpack | exact Hpost].
Qed.

Lemma guarded_before (a b : list event) :
  guarded rootDir Sel a -> Forall (notBankWrite rootDir) b -> guarded rootDir Sel (a ++ b).
Proof.
  intros [Ha | (pre & ev & post & media & -> & Hev & Hpre & Hsel & Hpack & Hpost)] Hb.
  - left. apply Forall_app. split; assumption.
  - right. exists pre, ev, (post ++ b), media. rewrite <- app_assoc.
    split; [reflexivity|]. split; [exact Hev|]. split; [exact Hpre|]. split; [exact Hsel|].
    split; [exact Hpack | apply Forall_app; split; assumption].
Qed.

Lemma guarded_finally {A : Type} (m : M A) (cleanup : M unit) (w : world) :
  guarded rootDir Sel (eventsOf (m w)) -> quietBank cleanup ->
  guarded rootDir Sel (eventsOf (finally m cleanup w)).
Proof.
  intros Hg Hc. unfold finally.
  destruct (m w) as [[r w'] es]. unfold eventsOf in *. simpl in Hg.
  destruct (Hc w') as [Hes' _]. unfold eventsOf in Hes'.
  assert (Hgo : guarded rootDir Sel
                  (snd (match cleanup w' with
                        | (Ok _, w'', es') => (r, w'', es ++ es')
                        | (Throw e, w'', es') => (Throw e, w'', es ++ es')
                        end))).
  { destruct (cleanup w') as [[[u|e] w''] es']; simpl in *; apply guarded_before; assumption. }
  destruct r as [a|e]; [exact Hgo|]. destruct e; try exact Hgo. exact Hg.
Qed.

Lemma ensures_quiet {A : Type} (m : M A) : quietBank m -> ensuresGuarded rootDir Sel m.
Proof. intros Hm w. apply guarded_quiet. apply Hm. Qed.

Lemma ensures_bind {A B : Type} (m : M A) (f : A -> M B) (Q : A -> Prop) :
  quietBank m ->
  (forall w a, resultOf (m w) = Ok a -> Q a) ->
  (forall a, Q a -> ensuresGuarded rootDir Sel (f a)) ->
  ensuresGuarded rootDir Sel (m ≫= f).
Proof.
  intros Hm Hq Hf w. rewrite bind_events. destruct (Hm w) as [Hes _].
  destruct (resultOf (m w)) as [a|e] eqn:Hr.
  - apply guarded_after; [exact Hes|]. apply Hf. eapply Hq; exact Hr.
  - rewrite app_nil_r. apply guarded_quiet. exact Hes.
Qed.

Lemma ensures_finally {A : Type} (m : M A) (cleanup : M unit) :
  ensuresGuarded rootDir Sel m -> quietBank cleanup ->
  ensuresGuarded rootDir Sel (finally m cleanup).
Proof. intros Hm Hc w. apply guarded_finally; [apply Hm | exact Hc]. Qed.
End BankWrittenLast.

Lemma catching_result {A : Type} (m : M A) (w : world) :
  resultOf (catching m w)
  = match resultOf (m w) with
    | Ok a => Ok (Ok a)
    | Throw OutOfFuel => Throw OutOfFuel
    | Throw e => Ok (Throw e)
    end.
Proof. unfold catching. destruct (m w) as [[[a|[msg|code|]] w'] es]; reflexivity. Qed.

Lemma catching_events {A : Type} (m : M A) (w : world) :
  eventsOf (catching m w) = eventsOf (m w).
Proof. unfold catching. destruct (m w) as [[[a|[msg|code|]] w'] es]; reflexivity. Qed.

Lemma catching_world {A : Type} (m : M A) (w : world) :
  worldOf (catching m w) = worldOf (m w).
Proof. unfold catching. destruct (m w) as [[[a|[msg|code|]] w'] es]; reflexivity. Qed.

Lemma rename_outcome (src dst : string) (w : world) :
  (exists a, resultOf (rename src dst w) = Ok a /\
             eventsOf (rename src dst w) = [succeeded (Rename src dst)]) \/
  (exists code, resultOf (rename src dst w) = Throw (SysError code) /\
                eventsOf (rename src dst w) = [{| what := Rename src dst; failed := Some code |}]).
Proof. apply syscall_outcome. Qed.

Lemma copyFileExcl_outcome (src dst : string) (w : world) :
  (exists a, resultOf (copyFileExcl src dst w) = Ok a /\
             eventsOf (copyFileExcl src dst w) = [succeeded (CopyFileExcl src dst)]) \/
  (exists code, resultOf (copyFileExcl src dst w) = Throw (SysError code) /\
                eventsOf (copyFileExcl src dst w)
                = [{| what := CopyFileExcl src dst; failed := Some code |}]).
Proof. apply syscall_outcome. Qed.

Lemma unlink_outcome (path : string) (w : world) :
  (exists a, resultOf (unlink path w) = Ok a /\
             eventsOf (unlink path w) = [succeeded (Unlink path)]) \/
  (exists code, resultOf (unlink path w) = Throw (SysError code) /\
                eventsOf (unlink path w) = [{| what := Unlink path; failed := Some code |}]).
Proof. apply syscall_outcome. Qed.

Lemma writeFile_outcome (path content : string) (w : world) :
  (exists a, resultOf (writeFile path content w) = Ok a /\
             eventsOf (writeFile path content w) = [succeeded (WriteFile path content)]) \/
  (exists code, resultOf (writeFile path content w) = Throw (SysError code) /\
                eventsOf (writeFile path content w)
                = [{| what := WriteFile path content; failed := Some code |}]).
Proof. apply syscall_outcome. Qed.

Lemma uniqueFileLoop_result (fuel : nat) (targetDir : string) (parsed : string * string)
      (attempt : nat) (w : world) (p : string) :
  resultOf (uniqueFileLoop fuel targetDir parsed attempt w) = Ok p ->
  exists k, (attempt <= k)%nat /\ p = join targetDir (candidateName parsed k).
Proof.
  revert attempt w. induction fuel as [|fuel IH]; intros attempt w Hr; [discriminate|].
  cbn [uniqueFileLoop] in Hr. rewrite bind_result, catching_result, catching_world in Hr.
  destruct (resultOf (access _ w)) as [u|e] eqn:Ha.
  - apply IH in Hr. destruct Hr as (k & Hk & ->). exists k. split; [lia | reflexivity].
  - destruct e; try discriminate; injection Hr as <-; exists attempt; auto.
Qed.

Lemma moveFileSafe_moved (src dst : string) (w : world) (u : unit) :
  resultOf (moveFileSafe src dst w) = Ok u ->
  In (succeeded (Rename src dst)) (eventsOf (moveFileSafe src dst w)) \/
  (In (succeeded (CopyFileExcl src dst)) (eventsOf (moveFileSafe src dst w)) /\
   In (succeeded (Unlink src)) (eventsOf (moveFileSafe src dst w))).
Proof.
  unfold moveFileSafe. rewrite bind_result, bind_events.
  rewrite catching_result, catching_events, catching_world.
  destruct (rename_outcome src dst w) as [(a & Hres & Hev) | (code & Hres & Hev)];
    rewrite Hres, Hev.
  - intros _. left. left. reflexivity.
  - destruct (hasCode (SysError code) "EXDEV"); simpl; [|discriminate].
    set (w1 := worldOf _). rewrite bind_result, bind_events.
    destruct (copyFileExcl_outcome src dst w1) as [(a & Hc & Hce) | (c2 & Hc & Hce)];
      rewrite Hc, Hce; [|discriminate].
    set (w2 := worldOf _).
    destruct (unlink_outcome src w2) as [(a' & Hu & Hue) | (c3 & Hu & Hue)];
      rewrite Hu, Hue; [|discriminate].
    intros _. right. simpl. auto.
Qed.

Section Packaging.
Context `{Builtins}.
Variable rootDir : string.

Lemma moveSelected_moved (fuel : nat) (jobDir : string) (selectedMedia : list string)
      (w : world) (u : unit) :
  resultOf (moveSelected fuel jobDir selectedMedia w) = Ok u ->
  forall src, In src selectedMedia ->
    movedInto jobDir src (eventsOf (moveSelected fuel jobDir selectedMedia w)).
Proof.
  unfold moveSelected. revert w.
  induction selectedMedia as [|x rest IH]; intros w Hr src Hsrc; [destruct Hsrc|].
  cbn [forEach] in *. rewrite bind_result in Hr. rewrite bind_events.
  set (body := uniqueFilePath fuel jobDir (basename x) ≫= _) in *.
  destruct (resultOf (body w)) as [u0|e] eqn:Hb; [|discriminate].
  destruct Hsrc as [<- | Hin].
  - apply movedInto_mono_r. clear Hr IH. unfold body in *.
    rewrite bind_result in Hb. rewrite bind_events.
    unfold uniqueFilePath in *.
    destruct (resultOf (uniqueFileLoop fuel jobDir (parse (basename x)) 0 w)) as [dst|e] eqn:Hd;
      [|discriminate].
    destruct (uniqueFileLoop_result _ _ _ _ _ _ Hd) as (k & _ & ->).
    apply moveFileSafe_moved in Hb. exists k. cbv zeta.
    destruct Hb as [Hb | [Hc Hu]]; [left | right; split]; apply in_or_app; right; assumption.
  - apply movedInto_mono. eapply IH; [exact Hr | exact Hin].
Qed.

(** The end of [assemble]: move, write [caption.txt], write the bank, log. *)
Lemma packaging_guarded (Sel : list string -> Prop) (fuel : nat) (jobDir : string)
      (selectedMedia : list string) (content : string) (bank : list (caption value))
      (message : string) :
  Sel selectedMedia ->
  (exists name, jobDir = join (outputJobsDir rootDir) name) ->
  ensuresGuarded rootDir Sel
    (moveSelected fuel jobDir selectedMedia;;
     writeFile (join jobDir "caption.txt") content;;
     writeJsonFile (captionsPath rootDir) (bankToValue (fun v => v) bank);;
     log message).
Proof.
  intros Hsel Hdir w. rewrite bind_events.
  pose proof (moveSelected_quiet (notBankWrite rootDir) (fun _ => True)
                (notWriteFile_notBankWrite rootDir) (fun _ _ => I) fuel jobDir selectedMedia w)
    as [Hmq _].
  destruct (resultOf (moveSelected fuel jobDir selectedMedia w)) as [u|e] eqn:Hm.
  2:{ rewrite app_nil_r. left. exact Hmq. }
  pose proof (moveSelected_moved _ _ _ _ _ Hm) as Hmoved.
  set (em := eventsOf (moveSelected fuel jobDir selectedMedia w)) in *.
  set (w1 := worldOf _). rewrite bind_events.
  destruct (writeFile_outcome (join jobDir "caption.txt") content w1)
    as [(a & Hc & Hce) | (code & Hc & Hce)]; rewrite Hc, Hce.
  2:{ left. apply Forall_app. split; [exact Hmq|]. rewrite app_nil_r.
      repeat constructor. intros [c' Hw]. simpl in Hw. injection Hw as Hp _.
      exact (caption_txt_not_bank _ _ Hp). }
  set (w2 := worldOf _). rewrite bind_events. unfold writeJsonFile.
  set (bankFile := JSON_stringify (bankToValue (fun v => v) bank) +:+ newline).
  assert (Hlog : forall w', Forall (notBankWrite rootDir) (eventsOf (log message w'))).
  { intros w'. apply (log_quiet (notBankWrite rootDir) (fun _ => True)
                        (notWriteFile_notBankWrite rootDir)). }
  assert (Hquiet : Forall (notBankWrite rootDir)
                     (em ++ [succeeded (WriteFile (join jobDir "caption.txt") content)])).
  { apply Forall_app. split; [exact Hmq|]. repeat constructor.
    intros [c' Hw]. simpl in Hw. injection Hw as Hp _. exact (caption_txt_not_bank _ _ Hp). }
  assert (Hpack : packaged rootDir selectedMedia
                    (em ++ [succeeded (WriteFile (join jobDir "caption.txt") content)])).
  { exists jobDir, content. split; [exact Hdir|]. split.
    - intros src Hsrc. apply movedInto_mono_r. apply Hmoved. exact Hsrc.
    - apply in_or_app. right. left. reflexivity. }
  right. exists (em ++ [succeeded (WriteFile (join jobDir "caption.txt") content)]).
  destruct (writeFile_outcome (captionsPath rootDir) bankFile w2)
    as [(a' & Hb & Hbe) | (code & Hb & Hbe)]; rewrite Hb, Hbe.
  - eexists _, _, selectedMedia. split; [rewrite <- app_assoc; reflexivity|].
    split; [exists bank; reflexivity|]. split; [exact Hquiet|]. split; [exact Hsel|].
    split; [exact Hpack | apply Hlog].
  - eexists _, [], selectedMedia. split; [rewrite <- app_assoc; reflexivity|].
    split; [exists bank; reflexivity|]. split; [exact Hquiet|]. split; [exact Hsel|].
    split; [exact Hpack | constructor].
Qed.
End Packaging.

Lemma split_at_unique {A : Type} (P : A -> Prop) (pre post pre' post' : list A) (ev ev' : A) :
  pre ++ ev :: post = pre' ++ ev' :: post' ->
  Forall (fun x => ~ P x) pre' -> Forall (fun x => ~ P x) post' -> P ev ->
  pre = pre' /\ ev = ev' /\ post = post'.
Proof.
  revert pre. induction pre' as [|y pre' IH]; intros pre Heq Hpre Hpost Hev.
  - destruct pre as [|x pre]; simpl in Heq.
    + injection Heq as -> ->. auto.
    + injection Heq as -> <-. exfalso.
      rewrite Forall_forall in Hpost. apply (Hpost ev); [|exact Hev].
      apply list_elem_of_In. apply in_or_app. right. left. reflexivity.
  - apply Forall_cons in Hpre. destruct Hpre as [Hy Hpre].
    destruct pre as [|x pre]; simpl in Heq.
    + injection Heq as -> _. contradiction.
    + injection Heq as -> Heq. destruct (IH pre Heq Hpre Hpost Hev) as (-> & -> & ->). auto.
Qed.

(** ** LockGuard *)

Lemma withFaults_calm (w : world) : calm w -> withFaults (tail (faults w)) w = w.
Proof. unfold calm. destruct w. simpl. intros ->. reflexivity. Qed.

Lemma syscall_calm {A : Type} (c : call) (perform : world -> (string + A) * world) (w : world) :
  calm w ->
  syscall c perform w
  = match perform w with
    | (inr a, w') => (Ok a, w', [succeeded c])
    | (inl code, w') => (Throw (SysError code), w', [{| what := c; failed := Some code |}])
    end.
Proof.
  intros Hc. unfold syscall. rewrite (withFaults_calm w Hc). rewrite Hc. reflexivity.
Qed.

Lemma syscall_fault {A : Type} (c : call) (perform : world -> (string + A) * world) (w : world)
      (code : string) (later : list (option string)) :
  faults w = Some code :: later ->
  syscall c perform w
  = (Throw (SysError code), withFaults later w, [{| what := c; failed := Some code |}]).
Proof. intros Hf. unfold syscall. rewrite Hf. reflexivity. Qed.

Lemma syscall_pass {A : Type} (c : call) (perform : world -> (string + A) * world) (w : world)
      (later : list (option string)) :
  faults w = None :: later ->
  syscall c perform w
  = match perform (withFaults later w) with
    | (inr a, w') => (Ok a, w', [succeeded c])
    | (inl code, w') => (Throw (SysError code), w', [{| what := c; failed := Some code |}])
    end.
Proof. intros Hf. unfold syscall. rewrite Hf. reflexivity. Qed.

Lemma pathExists_file (w : world) (p content : string) :
  files w !! p = Some content -> pathExists w p = true.
Proof.
  intros Hf. unfold pathExists. rewrite bool_decide_eq_true_2; [reflexivity|]. eauto.
Qed.

Lemma pathExists_false (w : world) (p : string) :
  pathExists w p = false <-> files w !! p = None /\ p ∉ dirs w.
Proof.
  unfold pathExists. rewrite orb_false_iff, !bool_decide_eq_false.
  rewrite <- eq_None_not_Some. reflexivity.
Qed.

Section LockGuard.
Context `{Builtins}.
Variable rootDir : string.

Abbreviation lock := (lockFilePath rootDir).

Lemma opens_app (a b : list event) : opens (a ++ b) = (opens a + opens b)%nat.
Proof. unfold opens. rewrite filter_app, length_app. reflexivity. Qed.

Lemma opens_none (es : list event) : Forall noOpen es -> opens es = O.
Proof.
  unfold opens, noOpen. induction 1 as [|ev es Hev Hes IH]; [reflexivity|].
  rewrite filter_cons. destruct (decide (isOpenWx ev = true)); [congruence | exact IH].
Qed.

Ltac plain_call :=
  apply respects_syscall; [intros ?; reflexivity | intros ?; exact I].

Lemma holderAlive_noOpen : respects noOpen (fun _ => True) (holderAlive rootDir).
Proof.
  unfold holderAlive. apply respects_bind; [plain_call|]. intros existing.
  unfold isProcessAlive. destruct (StringToNumber _) as [|p|]; try apply respects_ret.
  destruct (p <=? 0); [apply respects_ret|].
  apply respects_bind_catching; [exact I | plain_call|].
  intros [u|e] _; [apply respects_ret|].
  destruct (hasCode e "ESRCH"); [apply respects_ret|].
  destruct (hasCode e "EPERM"); [apply respects_ret | apply respects_throw; exact I].
Qed.

Lemma openWx_event (path : string) (w : world) :
  exists f, eventsOf (openWx path w) = [{| what := OpenWx path; failed := f |}].
Proof.
  destruct (syscall_outcome (A := unit) (OpenWx path)
              (fun w => if pathExists w path then (inl "EEXIST"%string, w)
                        else (inr tt, withFiles (<[path := ""%string]> (files w)) w)) w)
    as [(a & _ & He) | (code & _ & He)]; eexists; exact He.
Qed.

Lemma writeLock_events (payload : string) (w : world) :
  exists f rest,
    eventsOf (writeLock rootDir payload w) = {| what := OpenWx lock; failed := f |} :: rest /\
    Forall noOpen rest.
Proof.
  unfold writeLock. rewrite bind_events.
  destruct (openWx_event lock w) as [f Hf]. rewrite Hf.
  exists f. eexists. split; [reflexivity|].
  destruct (resultOf (openWx lock w)); [|constructor].
  rewrite bind_events. apply Forall_app. split.
  - assert (Hq : respects noOpen (fun _ => True) (handleWrite lock payload)) by plain_call.
    apply Hq.
  - destruct (resultOf (handleWrite _ _ _)); [|constructor].
    assert (Hq : respects noOpen (fun _ => True) (handleClose lock)) by plain_call.
    apply Hq.
Qed.

Lemma writeLock_opens (payload : string) (w : world) :
  opens (eventsOf (writeLock rootDir payload w)) = 1%nat.
Proof.
  destruct (writeLock_events payload w) as (f & rest & -> & Hrest).
  change ({| what := OpenWx lock; failed := f |} :: rest)
    with ([{| what := OpenWx lock; failed := f |}] ++ rest).
  rewrite opens_app, (opens_none rest Hrest). reflexivity.
Qed.

Lemma reclaimLock_opens (payload : string) (w : world) :
  (opens (eventsOf (reclaimLock rootDir payload w)) <= 1)%nat.
Proof.
  unfold reclaimLock. rewrite bind_events, opens_app.
  assert (Hrm : respects noOpen (fun _ => True) (rm lock)) by plain_call.
  rewrite (opens_none _ (proj1 (Hrm w))).
  destruct (resultOf (rm lock w)); [|unfold opens; simpl; lia].
  rewrite bind_events, opens_app, writeLock_opens.
  destruct (resultOf (writeLock _ _ _)); unfold opens; simpl; lia.
Qed.

(** The first thing [acquireLock] does is the exclusive creation, and it
    attempts it twice at most. *)
Lemma acquireLock_attempts (w : world) :
  (exists f rest,
     eventsOf (acquireLock rootDir w) = {| what := OpenWx lock; failed := f |} :: rest) /\
  (opens (eventsOf (acquireLock rootDir w)) <= 2)%nat.
Proof.
  unfold acquireLock.
  rewrite bind_events. cbn [getPid eventsOf resultOf worldOf fst snd app].
  rewrite bind_events. cbn [newDate eventsOf resultOf worldOf fst snd app].
  set (w0 := withClock _ w). set (payload := lockPayload (pid w) (clock w O)).
  rewrite bind_events, catching_events, catching_result, catching_world.
  destruct (writeLock_events payload w0) as (f & rest & Hev & Hrest).
  pose proof (writeLock_opens payload w0) as Hopens.
  split.
  - rewrite Hev. simpl. eauto.
  - rewrite opens_app, Hopens.
    destruct (resultOf (writeLock rootDir payload w0)) as [u|e]; [unfold opens; simpl; lia|].
    assert (Hafter : forall e',
               (opens (eventsOf ((if negb (hasCode e' "EEXIST") then throw e'
                                  else alive ← catching (holderAlive rootDir);
                                       match alive with
                                       | Ok true => mret false
                                       | _ => reclaimLock rootDir payload
                                       end) (worldOf (writeLock rootDir payload w0))))
                <= 1)%nat).
    { intros e'. destruct (hasCode e' "EEXIST"); simpl; [|unfold opens; simpl; lia].
      rewrite bind_events, catching_events, catching_result, catching_world, opens_app.
      rewrite (opens_none _ (proj1 (holderAlive_noOpen _))).
      destruct (resultOf (holderAlive rootDir _)) as [[|]|e'']; try apply reclaimLock_opens.
      - unfold opens; simpl; lia.
      - destruct e''; try apply reclaimLock_opens. unfold opens; simpl; lia. }
    destruct e as [msg|code|]; [| |unfold opens; simpl; lia].
    + specialize (Hafter (Error msg)). lia.
    + specialize (Hafter (SysError code)). lia.
Qed.
End LockGuard.

Section LockStates.
Context `{Builtins}.
Variable rootDir : string.

Abbreviation lock := (lockFilePath rootDir).

Lemma writeLock_free (payload : string) (w : world) :
  calm w -> pathExists w lock = false ->
  writeLock rootDir payload w
  = (Ok tt,
     withFiles (<[lock := payload]> (<[lock := ""%string]> (files w))) w,
     lockWritten rootDir payload).
Proof.
  intros Hc Hfree. unfold writeLock.
  assert (H1 : openWx lock w
               = (Ok tt, withFiles (<[lock := ""%string]> (files w)) w, [succeeded (OpenWx lock)])).
  { unfold openWx. rewrite (syscall_calm _ _ _ Hc), Hfree. reflexivity. }
  rewrite (bind_ok _ _ _ _ _ _ H1).
  set (w1 := withFiles _ w).
  assert (H2 : handleWrite lock payload w1
               = (Ok tt, withFiles (<[lock := payload]> (files w1)) w1,
                  [succeeded (HandleWrite lock payload)])).
  { unfold handleWrite. rewrite (syscall_calm _ _ w1 Hc). reflexivity. }
  rewrite (bind_ok _ _ _ _ _ _ H2).
  set (w2 := withFiles _ w1).
  assert (H3 : handleClose lock w2 = (Ok tt, w2, [succeeded (HandleClose lock)])).
  { unfold handleClose. rewrite (syscall_calm _ _ w2 Hc). reflexivity. }
  rewrite H3. reflexivity.
Qed.

Lemma writeLock_taken (payload : string) (w : world) :
  calm w -> pathExists w lock = true ->
  writeLock rootDir payload w
  = (Throw (SysError "EEXIST"), w, [{| what := OpenWx lock; failed := Some "EEXIST"%string |}]).
Proof.
  intros Hc Htaken. unfold writeLock.
  apply bind_throw. unfold openWx. rewrite (syscall_calm _ _ _ Hc), Htaken. reflexivity.
Qed.

Lemma reclaimLock_calm (payload : string) (w : world) :
  calm w -> lock ∉ dirs w ->
  resultOf (reclaimLock rootDir payload w) = Ok true /\
  eventsOf (reclaimLock rootDir payload w) = succeeded (Rm lock) :: lockWritten rootDir payload /\
  files (worldOf (reclaimLock rootDir payload w)) = <[lock := payload]> (files w) /\
  dirs (worldOf (reclaimLock rootDir payload w)) = dirs w.
Proof.
  intros Hc Hnd. unfold reclaimLock.
  assert (H1 : rm lock w = (Ok tt, withFiles (delete lock (files w)) w, [succeeded (Rm lock)])).
  { unfold rm. rewrite (syscall_calm _ _ _ Hc).
    rewrite bool_decide_eq_false_2 by exact Hnd. reflexivity. }
  rewrite (bind_ok _ _ _ _ _ _ H1).
  set (w1 := withFiles _ w).
  assert (Hfree : pathExists w1 lock = false).
  { apply pathExists_false. split; [apply lookup_delete_eq | exact Hnd]. }
  assert (H2 := writeLock_free payload w1 Hc Hfree).
  rewrite (bind_ok _ _ _ _ _ _ H2).
  unfold resultOf, eventsOf, worldOf. simpl.
  split; [reflexivity|]. split; [reflexivity|]. split; [|reflexivity].
  rewrite insert_insert_eq. apply insert_delete_eq.
Qed.

(** In a calm world, the probe of the recorded holder answers by the
    record and the process table, and changes nothing. *)
Lemma holderAlive_calm (w : world) (content : string) :
  calm w -> files w !! lock = Some content ->
  exists es,
    holderAlive rootDir w = (Ok (liveHolder w content), w, es) /\
    Forall noOpen es /\
    ~ In (succeeded (Rm lock)) es.
Proof.
  intros Hc Hf. unfold holderAlive, liveHolder, recordedHolder.
  assert (H1 : readFile lock w = (Ok content, w, [succeeded (ReadFile lock)])).
  { unfold readFile. rewrite (syscall_calm _ _ _ Hc), Hf. reflexivity. }
  rewrite (bind_ok _ _ _ _ _ _ H1).
  unfold isProcessAlive.
  destruct (StringToNumber (trim (firstLine content))) as [|p|].
  - eexists. split; [reflexivity|]. split; [repeat constructor|].
    simpl. intros [Hx | []]. discriminate.
  - destruct (p <=? 0) eqn:Ep.
    + assert ((0 <? p) = false) as -> by (apply Z.ltb_ge; apply Z.leb_le in Ep; lia).
      eexists. split; [reflexivity|]. split; [repeat constructor|].
      simpl. intros [Hx | []]. discriminate.
    + assert ((0 <? p) = true) as -> by (apply Z.ltb_lt; apply Z.leb_gt in Ep; lia).
      unfold mbind, M_bind, bind, catching, kill.
      rewrite (syscall_calm _ _ _ Hc).
      destruct (procs w p); simpl; (eexists; split; [reflexivity|]);
        (split; [repeat constructor|]); simpl; intros [Hx | [Hx | []]]; discriminate.
  - eexists. split; [reflexivity|]. split; [repeat constructor|].
    simpl. intros [Hx | []]. discriminate.
Qed.
End LockStates.

Lemma triple_eta {A : Type} (x : result A * world * list event) :
  (resultOf x, worldOf x, eventsOf x) = x.
Proof. destruct x as [[r w] es]. reflexivity. Qed.

Section LockProtocol.
Context `{Builtins}.
Variable rootDir : string.

Abbreviation lock := (lockFilePath rootDir).

Lemma acquireLock_unfold (w : world) :
  acquireLock rootDir w
  = (created ← catching (writeLock rootDir (lockPayload (pid w) (clock w O)));
     match created with
     | Ok _ => mret true
     | Throw e =>
         if negb (hasCode e "EEXIST") then throw e
         else
           alive ← catching (holderAlive rootDir);
           match alive with
           | Ok true => mret false
           | _ => reclaimLock rootDir (lockPayload (pid w) (clock w O))
           end
     end) (started w).
Proof.
  unfold acquireLock.
  rewrite (bind_ok getPid _ w w (pid w) [] eq_refl).
  rewrite (bind_ok newDate _ w (started w) (clock w O) [] eq_refl).
  cbn [resultOf worldOf eventsOf fst snd app]. apply triple_eta.
Qed.

Lemma acquireLock_free (w : world) :
  calm w -> pathExists w lock = false ->
  let payload := lockPayload (pid w) (clock w O) in
  resultOf (acquireLock rootDir w) = Ok true /\
  eventsOf (acquireLock rootDir w) = lockWritten rootDir payload /\
  files (worldOf (acquireLock rootDir w)) = <[lock := payload]> (files w) /\
  dirs (worldOf (acquireLock rootDir w)) = dirs w /\
  procs (worldOf (acquireLock rootDir w)) = procs w /\
  calm (worldOf (acquireLock rootDir w)).
Proof.
  intros Hc Hfree payload. rewrite acquireLock_unfold. fold payload.
  assert (H1 : catching (writeLock rootDir payload) (started w)
               = (Ok (Ok tt),
                  withFiles (<[lock := payload]> (<[lock := ""%string]> (files w))) (started w),
                  lockWritten rootDir payload)).
  { unfold catching. rewrite (writeLock_free rootDir payload (started w) Hc Hfree). reflexivity. }
  rewrite (bind_ok _ _ _ _ _ _ H1).
  unfold resultOf, eventsOf, worldOf. simpl.
  split; [reflexivity|]. split; [reflexivity|].
  split; [apply insert_insert_eq|]. split; [reflexivity|]. split; [reflexivity | exact Hc].
Qed.

Lemma acquireLock_held (w : world) (content : string) :
  calm w -> files w !! lock = Some content ->
  exists es,
    Forall noOpen es /\ ~ In (succeeded (Rm lock)) es /\
    acquireLock rootDir w
    = if liveHolder w content
      then (Ok false, started w,
            {| what := OpenWx lock; failed := Some "EEXIST"%string |} :: es)
      else (resultOf (reclaimLock rootDir (lockPayload (pid w) (clock w O)) (started w)),
            worldOf (reclaimLock rootDir (lockPayload (pid w) (clock w O)) (started w)),
            {| what := OpenWx lock; failed := Some "EEXIST"%string |}
              :: es ++ eventsOf (reclaimLock rootDir (lockPayload (pid w) (clock w O))
                                   (started w))).
Proof.
  intros Hc Hf.
  destruct (holderAlive_calm rootDir (started w) content Hc Hf) as (es & Hh & Hno & Hrm).
  exists es. split; [exact Hno|]. split; [exact Hrm|].
  rewrite acquireLock_unfold. set (payload := lockPayload (pid w) (clock w O)).
  assert (H1 : catching (writeLock rootDir payload) (started w)
               = (Ok (Throw (SysError "EEXIST")), started w,
                  [{| what := OpenWx lock; failed := Some "EEXIST"%string |}])).
  { unfold catching.
    rewrite (writeLock_taken rootDir payload (started w) Hc (pathExists_file _ _ _ Hf)).
    reflexivity. }
  rewrite (bind_ok _ _ _ _ _ _ H1). cbn [hasCode String.eqb Ascii.eqb Bool.eqb negb].
  assert (H2 : catching (holderAlive rootDir) (started w)
               = (Ok (Ok (liveHolder w content)), started w, es)).
  { unfold catching. rewrite Hh. reflexivity. }
  rewrite (bind_ok _ _ _ _ _ _ H2).
  destruct (liveHolder w content).
  - unfold resultOf, worldOf, eventsOf. simpl. rewrite app_nil_r. reflexivity.
  - reflexivity.
Qed.
End LockProtocol.

Section LockFaults.
Context `{Builtins}.
Variable rootDir : string.

Abbreviation lock := (lockFilePath rootDir).

(** The record is there but cannot be read. *)
Lemma acquireLock_unreadable (w : world) (content code : string) :
  files w !! lock = Some content -> lock ∉ dirs w ->
  faults w = [None; Some code] ->
  let payload := lockPayload (pid w) (clock w O) in
  resultOf (acquireLock rootDir w) = Ok true /\
  eventsOf (acquireLock rootDir w)
  = {| what := OpenWx lock; failed := Some "EEXIST"%string |}
      :: {| what := ReadFile lock; failed := Some code |}
      :: succeeded (Rm lock) :: lockWritten rootDir payload /\
  files (worldOf (acquireLock rootDir w)) = <[lock := payload]> (files w).
Proof.
  intros Hf Hnd Hfaults payload. rewrite acquireLock_unfold. fold payload. fold (started w).
  set (w1 := withFaults [Some code] (started w)).
  assert (H1 : catching (writeLock rootDir payload) (started w)
               = (Ok (Throw (SysError "EEXIST")), w1,
                  [{| what := OpenWx lock; failed := Some "EEXIST"%string |}])).
  { unfold catching, writeLock.
    assert (Ho : openWx lock (started w)
                 = (Throw (SysError "EEXIST"), w1,
                    [{| what := OpenWx lock; failed := Some "EEXIST"%string |}])).
    { unfold openWx. rewrite (syscall_pass _ _ (started w) [Some code] Hfaults).
      fold w1. rewrite (pathExists_file w1 lock content Hf). reflexivity. }
    rewrite (bind_throw _ _ _ _ _ _ Ho). reflexivity. }
  rewrite (bind_ok _ _ _ _ _ _ H1). cbn [hasCode String.eqb Ascii.eqb Bool.eqb negb].
  set (w2 := withFaults [] w1).
  assert (H2 : catching (holderAlive rootDir) w1
               = (Ok (Throw (SysError code)), w2, [{| what := ReadFile lock; failed := Some code |}])).
  { unfold catching, holderAlive.
    assert (Hr : readFile lock w1
                 = (Throw (SysError code), w2, [{| what := ReadFile lock; failed := Some code |}])).
    { unfold readFile. apply syscall_fault. reflexivity. }
    rewrite (bind_throw _ _ _ _ _ _ Hr). reflexivity. }
  rewrite (bind_ok _ _ _ _ _ _ H2).
  destruct (reclaimLock_calm rootDir payload w2 eq_refl Hnd) as (Hres & Hev & Hfiles & _).
  unfold resultOf, worldOf, eventsOf in *. simpl.
  destruct (reclaimLock rootDir payload w2) as [[r w3] es]. simpl in *. subst r es.
  split; [reflexivity|]. split; [reflexivity | exact Hfiles].
Qed.

(** The creation is refused because a record exists, and the record is gone
    when it is read. *)
Lemma acquireLock_missing (w : world) :
  pathExists w lock = false ->
  faults w = [Some "EEXIST"%string] ->
  let payload := lockPayload (pid w) (clock w O) in
  resultOf (acquireLock rootDir w) = Ok true /\
  eventsOf (acquireLock rootDir w)
  = {| what := OpenWx lock; failed := Some "EEXIST"%string |}
      :: {| what := ReadFile lock; failed := Some "ENOENT"%string |}
      :: succeeded (Rm lock) :: lockWritten rootDir payload /\
  files (worldOf (acquireLock rootDir w)) = <[lock := payload]> (files w).
Proof.
  intros Hfree Hfaults payload. rewrite acquireLock_unfold. fold payload. fold (started w).
  apply pathExists_false in Hfree. destruct Hfree as [Hnone Hnd].
  set (w1 := withFaults [] (started w)).
  assert (H1 : catching (writeLock rootDir payload) (started w)
               = (Ok (Throw (SysError "EEXIST")), w1,
                  [{| what := OpenWx lock; failed := Some "EEXIST"%string |}])).
  { unfold catching, writeLock.
    assert (Ho : openWx lock (started w)
                 = (Throw (SysError "EEXIST"), w1,
                    [{| what := OpenWx lock; failed := Some "EEXIST"%string |}])).
    { unfold openWx. apply syscall_fault. exact Hfaults. }
    rewrite (bind_throw _ _ _ _ _ _ Ho). reflexivity. }
  rewrite (bind_ok _ _ _ _ _ _ H1). cbn [hasCode String.eqb Ascii.eqb Bool.eqb negb].
  assert (H2 : catching (holderAlive rootDir) w1
               = (Ok (Throw (SysError "ENOENT")), w1,
                  [{| what := ReadFile lock; failed := Some "ENOENT"%string |}])).
  { unfold catching, holderAlive.
    assert (Hr : readFile lock w1
                 = (Throw (SysError "ENOENT"), w1,
                    [{| what := ReadFile lock; failed := Some "ENOENT"%string |}])).
    { unfold readFile. rewrite (syscall_calm _ _ w1 eq_refl).
      change (files w1) with (files w). change (dirs w1) with (dirs w).
      rewrite Hnone. rewrite bool_decide_eq_false_2 by exact Hnd. reflexivity. }
    rewrite (bind_throw _ _ _ _ _ _ Hr). reflexivity. }
  rewrite (bind_ok _ _ _ _ _ _ H2).
  destruct (reclaimLock_calm rootDir payload w1 eq_refl Hnd) as (Hres & Hev & Hfiles & _).
  unfold resultOf, worldOf, eventsOf in *. simpl.
  destruct (reclaimLock rootDir payload w1) as [[r w3] es]. simpl in *. subst r es.
  split; [reflexivity|]. split; [reflexivity | exact Hfiles].
Qed.

(** The probe is refused the permission to look: the holder counts as alive. *)
Lemma holderAlive_eperm (w : world) (content : string) (p : Z) :
  calm w -> files w !! lock = Some content ->
  recordedHolder content = NInt p -> 0 < p -> procs w p = NotPermitted ->
  liveHolder w content = true /\
  holderAlive rootDir w
  = (Ok true, w, [succeeded (ReadFile lock); {| what := Kill p; failed := Some "EPERM"%string |}]).
Proof.
  intros Hc Hf Hp Hpos Hprobe. unfold liveHolder. rewrite Hp, Hprobe.
  assert ((0 <? p) = true) as -> by (apply Z.ltb_lt; exact Hpos).
  split; [reflexivity|].
  unfold holderAlive.
  assert (H1 : readFile lock w = (Ok content, w, [succeeded (ReadFile lock)])).
  { unfold readFile. rewrite (syscall_calm _ _ _ Hc), Hf. reflexivity. }
  rewrite (bind_ok _ _ _ _ _ _ H1).
  unfold recordedHolder in Hp. rewrite Hp. unfold isProcessAlive.
  assert ((p <=? 0) = false) as -> by (apply Z.leb_gt; exact Hpos).
  unfold mbind, M_bind, bind, catching, kill.
  rewrite (syscall_calm _ _ _ Hc), Hprobe. reflexivity.
Qed.
End LockFaults.

Section LockTheorem.
Context `{Builtins}.
Variable rootDir : string.

Abbreviation lock := (lockFilePath rootDir).

Lemma opens_cons_open (path : string) (f : option string) (es : list event) :
  opens ({| what := OpenWx path; failed := f |} :: es) = S (opens es).
Proof. reflexivity. Qed.

Lemma opens_lockWritten (payload : string) : opens (lockWritten rootDir payload) = 1%nat.
Proof. reflexivity. Qed.

Lemma acquireLock_live (w : world) (content : string) :
  calm w -> files w !! lock = Some content -> liveHolder w content = true ->
  resultOf (acquireLock rootDir w) = Ok false /\
  files (worldOf (acquireLock rootDir w)) = files w /\
  opens (eventsOf (acquireLock rootDir w)) = 1%nat.
Proof.
  intros Hc Hf Hlive.
  destruct (acquireLock_held rootDir w content Hc Hf) as (es & Hno & _ & Heq).
  rewrite Heq, Hlive. unfold resultOf, worldOf, eventsOf. simpl.
  split; [reflexivity|]. split; [reflexivity|].
  rewrite opens_cons_open, (opens_none es Hno). reflexivity.
Qed.

Lemma acquireLock_stale (w : world) (content : string) :
  calm w -> lock ∉ dirs w -> files w !! lock = Some content -> liveHolder w content = false ->
  resultOf (acquireLock rootDir w) = Ok true /\
  files (worldOf (acquireLock rootDir w))
  = <[lock := lockPayload (pid w) (clock w O)]> (files w) /\
  In (succeeded (Rm lock)) (eventsOf (acquireLock rootDir w)) /\
  opens (eventsOf (acquireLock rootDir w)) = 2%nat.
Proof.
  intros Hc Hnd Hf Hdead.
  destruct (acquireLock_held rootDir w content Hc Hf) as (es & Hno & _ & Heq).
  rewrite Heq, Hdead.
  destruct (reclaimLock_calm rootDir (lockPayload (pid w) (clock w O)) (started w) Hc Hnd)
    as (Hres & Hev & Hfiles & _).
  fold (started w). unfold resultOf, worldOf, eventsOf in *. simpl.
  destruct (reclaimLock rootDir _ (started w)) as [[r w3] es3]. simpl in *. subst r es3.
  split; [reflexivity|]. split; [exact Hfiles|].
  split.
  - right. apply in_or_app. right. left. reflexivity.
  - rewrite opens_cons_open, opens_app, (opens_none es Hno). reflexivity.
Qed.

Lemma acquireLock_eperm (w : world) (content : string) (p : Z) :
  calm w -> files w !! lock = Some content ->
  recordedHolder content = NInt p -> 0 < p -> procs w p = NotPermitted ->
  resultOf (acquireLock rootDir w) = Ok false /\
  In {| what := Kill p; failed := Some "EPERM"%string |} (eventsOf (acquireLock rootDir w)).
Proof.
  intros Hc Hf Hp Hpos Hprobe.
  destruct (holderAlive_eperm rootDir (started w) content p Hc Hf Hp Hpos Hprobe) as [_ Hh].
  rewrite acquireLock_unfold. set (payload := lockPayload (pid w) (clock w O)).
  assert (H1 : catching (writeLock rootDir payload) (started w)
               = (Ok (Throw (SysError "EEXIST")), started w,
                  [{| what := OpenWx lock; failed := Some "EEXIST"%string |}])).
  { unfold catching.
    rewrite (writeLock_taken rootDir payload (started w) Hc (pathExists_file _ _ _ Hf)).
    reflexivity. }
  rewrite (bind_ok _ _ _ _ _ _ H1). cbn [hasCode String.eqb Ascii.eqb Bool.eqb negb].
  assert (H2 : catching (holderAlive rootDir) (started w)
               = (Ok (Ok true), started w,
                  [succeeded (ReadFile lock);
                   {| what := Kill p; failed := Some "EPERM"%string |}])).
  { unfold catching. fold (started w) in Hh. rewrite Hh. reflexivity. }
  rewrite (bind_ok _ _ _ _ _ _ H2).
  unfold resultOf, eventsOf. simpl. split; [reflexivity|]. right. right. left. reflexivity.
Qed.

(** C6. [acquireLock] starts with the exclusive creation of a fresh record
    (the process id, the time) and attempts a creation twice at most.  When
    no record exists it succeeds.  When a record exists and the holder it
    names is alive -- the probe finds the process, or is refused the
    permission to look ([EPERM]) -- it returns [false] and leaves the record
    alone; a second call after a successful one, the holder alive, fails so.
    When the holder is not alive or the record names none, when the record
    cannot be read, or when it is gone by the time it is read, the lock is
    stale: the record is removed, the creation is attempted once more, and
    the fresh record is in place. *)
Theorem acquireLock_protocol (w : world) :
  let payload := lockPayload (pid w) (clock w O) in
  let out := acquireLock rootDir w in
  (exists f rest, eventsOf out = {| what := OpenWx lock; failed := f |} :: rest) /\
  (opens (eventsOf out) <= 2)%nat /\
  (calm w -> pathExists w lock = false ->
   resultOf out = Ok true /\
   eventsOf out = lockWritten rootDir payload /\
   files (worldOf out) = <[lock := payload]> (files w)) /\
  (calm w -> forall content,
     files w !! lock = Some content -> liveHolder w content = true ->
     resultOf out = Ok false /\ files (worldOf out) = files w /\
     opens (eventsOf out) = 1%nat) /\
  (calm w -> forall content p,
     files w !! lock = Some content ->
     recordedHolder content = NInt p -> 0 < p -> procs w p = NotPermitted ->
     resultOf out = Ok false /\
     In {| what := Kill p; failed := Some "EPERM"%string |} (eventsOf out)) /\
  (calm w -> pathExists w lock = false ->
   liveHolder (worldOf out) payload = true ->
   resultOf (acquireLock rootDir (worldOf out)) = Ok false) /\
  (calm w -> lock ∉ dirs w -> forall content,
     files w !! lock = Some content -> liveHolder w content = false ->
     resultOf out = Ok true /\
     files (worldOf out) = <[lock := payload]> (files w) /\
     In (succeeded (Rm lock)) (eventsOf out) /\
     opens (eventsOf out) = 2%nat) /\
  (lock ∉ dirs w -> forall content code,
     files w !! lock = Some content -> faults w = [None; Some code] ->
     resultOf out = Ok true /\
     files (worldOf out) = <[lock := payload]> (files w) /\
     In (succeeded (Rm lock)) (eventsOf out) /\
     opens (eventsOf out) = 2%nat) /\
  (pathExists w lock = false -> faults w = [Some "EEXIST"%string] ->
   resultOf out = Ok true /\
   files (worldOf out) = <[lock := payload]> (files w) /\
   In (succeeded (Rm lock)) (eventsOf out) /\
   opens (eventsOf out) = 2%nat).
Proof.
  intros payload out.
  split; [apply acquireLock_attempts|].
  split; [apply acquireLock_attempts|].
  split.
  { intros Hc Hfree. destruct (acquireLock_free rootDir w Hc Hfree) as (H1 & H2 & H3 & _).
    auto. }
  split; [intros Hc content; apply acquireLock_live; exact Hc|].
  split; [intros Hc content p; apply acquireLock_eperm; exact Hc|].
  split.
  { intros Hc Hfree Hlive.
    destruct (acquireLock_free rootDir w Hc Hfree) as (_ & _ & Hfiles & _ & _ & Hcalm).
    apply (acquireLock_live (worldOf out) payload Hcalm); [|exact Hlive].
    unfold out. rewrite Hfiles. apply lookup_insert_eq. }
  split; [intros Hc Hnd content; apply acquireLock_stale; assumption|].
  split.
  { intros Hnd content code Hf Hfaults.
    destruct (acquireLock_unreadable rootDir w content code Hf Hnd Hfaults) as (Hr & He & Hfs).
    split; [exact Hr|]. split; [exact Hfs|]. unfold out. rewrite He.
    split; [right; right; left; reflexivity | reflexivity]. }
  intros Hfree Hfaults.
  destruct (acquireLock_missing rootDir w Hfree Hfaults) as (Hr & He & Hfs).
  split; [exact Hr|]. split; [exact Hfs|]. unfold out. rewrite He.
  split; [right; right; left; reflexivity | reflexivity].
Qed.
End LockTheorem.

Lemma acquireLock_protocol_witness :
  resultOf (@acquireLock sampleBuiltins "/r" sampleWorld) = Ok true /\
  resultOf (@acquireLock sampleBuiltins "/r"
              (worldOf (@acquireLock sampleBuiltins "/r" sampleWorld))) = Ok false /\
  resultOf (@acquireLock sampleBuiltins "/r" staleWorld) = Ok true.
Proof.
  pose proof (@acquireLock_protocol sampleBuiltins "/r" sampleWorld)
    as (_ & _ & Hfree & _ & _ & Htwice & _).
  pose proof (@acquireLock_protocol sampleBuiltins "/r" staleWorld)
    as (_ & _ & _ & _ & _ & _ & Hstale & _).
  split; [apply Hfree; [reflexivity | vm_compute; reflexivity]|].
  split; [apply Htwice; [reflexivity | vm_compute; reflexivity | vm_compute; reflexivity]|].
  apply (Hstale eq_refl (not_elem_of_empty _) staleRecord);
    [vm_compute; reflexivity | vm_compute; reflexivity].
Defined.

(** ** JobPackager: names *)

Lemma append_cons (c : ascii) (a b : string) : String c a +:+ b = String c (a +:+ b).
Proof. reflexivity. Qed.

Lemma append_empty_r (s : string) : s +:+ "" = s.
Proof. induction s as [|c s IH]; [reflexivity|]. rewrite append_cons. f_equal. exact IH. Qed.

Lemma append_assoc (a b c : string) : (a +:+ b) +:+ c = a +:+ (b +:+ c).
Proof.
  induction a as [|x a IH]; [reflexivity|]. rewrite !append_cons. f_equal. exact IH.
Qed.

Lemma append_length (a b : string) :
  String.length (a +:+ b) = (String.length a + String.length b)%nat.
Proof.
  induction a as [|x a IH]; [reflexivity|]. rewrite append_cons. simpl. f_equal. exact IH.
Qed.

Lemma append_cancel_l (a b c : string) : a +:+ b = a +:+ c -> b = c.
Proof.
  induction a as [|x a IH]; intros Heq; [exact Heq|].
  rewrite !append_cons in Heq. injection Heq as Heq. apply IH. exact Heq.
Qed.

Lemma append_cancel_r (a b c : string) : a +:+ c = b +:+ c -> a = b.
Proof.
  revert b. induction a as [|x a IH]; intros b Heq.
  - destruct b as [|y b]; [reflexivity|].
    apply (f_equal String.length) in Heq. rewrite !append_length in Heq. simpl in Heq. lia.
  - destruct b as [|y b].
    + apply (f_equal String.length) in Heq. rewrite !append_length in Heq. simpl in Heq. lia.
    + rewrite !append_cons in Heq. injection Heq as -> Heq. f_equal. apply IH. exact Heq.
Qed.

Lemma showNat_inj (j k : nat) : showNat j = showNat k -> j = k.
Proof.
  unfold showNat. intros Heq.
  apply (f_equal NilEmpty.uint_of_string) in Heq. rewrite !NilEmpty.usu in Heq.
  injection Heq as Heq. apply (f_equal Nat.of_uint) in Heq.
  rewrite !Unsigned.of_to in Heq. exact Heq.
Qed.

Lemma splitLastDot_concat (s : string) :
  fst (splitLastDot s) +:+ snd (splitLastDot s) = s.
Proof.
  induction s as [|c s IH]; [reflexivity|]. cbn [splitLastDot].
  destruct (containsDot s).
  - destruct (splitLastDot s) as [name ext]. cbn [fst snd] in *. rewrite append_cons.
    f_equal. exact IH.
  - destruct (Ascii.eqb c "."); cbn [fst snd]; [reflexivity | apply append_empty_r].
Qed.

(** [path.parse] splits the name: the stem, then the extension. *)
Lemma parse_concat (base : string) : fst (parse base) +:+ snd (parse base) = base.
Proof.
  unfold parse. destruct base as [|c rest]; [reflexivity|].
  destruct (String.eqb (String c rest) ".."); [apply append_empty_r|].
  destruct (containsDot rest); [|apply append_empty_r].
  pose proof (splitLastDot_concat rest) as Hs.
  destruct (splitLastDot rest) as [name ext]. cbn [fst snd] in *. rewrite append_cons.
  f_equal. exact Hs.
Qed.

Lemma candidateName_first (base : string) : candidateName (parse base) O = base.
Proof. unfold candidateName. cbn [Nat.eqb]. apply parse_concat. Qed.

Lemma candidateName_suffixed (parsed : string * string) (k : nat) :
  (0 < k)%nat ->
  candidateName parsed k = fst parsed +:+ "_" +:+ showNat k +:+ snd parsed.
Proof.
  intros Hk. unfold candidateName. destruct k as [|k]; [lia|]. cbn [Nat.eqb].
  rewrite append_assoc. reflexivity.
Qed.

Lemma candidateName_inj (parsed : string * string) (j k : nat) :
  candidateName parsed j = candidateName parsed k -> j = k.
Proof.
  unfold candidateName. intros Heq. apply append_cancel_l, append_cancel_r in Heq.
  destruct j as [|j], k as [|k]; cbn [Nat.eqb] in Heq; try reflexivity; try discriminate.
  rewrite !append_cons in Heq. injection Heq as Heq. apply showNat_inj. exact Heq.
Qed.

Lemma join_inj (dir a b : string) : join dir a = join dir b -> a = b.
Proof. unfold join. intros Heq. apply append_cancel_l, append_cancel_l in Heq. exact Heq. Qed.

(** ** JobPackager: a free name is found, and nothing is overwritten *)

Lemma pathExists_existing (w : world) (p : string) :
  pathExists w p = true <-> p ∈ existing w.
Proof.
  unfold pathExists, existing.
  rewrite orb_true_iff, !bool_decide_eq_true, elem_of_union, elem_of_dom. reflexivity.
Qed.

Lemma access_calm (p : string) (w : world) :
  calm w ->
  access p w
  = if pathExists w p then (Ok tt, w, [succeeded (Access p)])
    else (Throw (SysError "ENOENT"), w, [{| what := Access p; failed := Some "ENOENT"%string |}]).
Proof.
  intros Hc. unfold access. rewrite (syscall_calm _ _ _ Hc).
  destruct (pathExists w p); reflexivity.
Qed.

Section FreeName.
Variable targetDir : string.
Variable parsed : string * string.

Abbreviation cand := (fun k => join targetDir (candidateName parsed k)).

Lemma cand_inj (j k : nat) : cand j = cand k -> j = k.
Proof. intros Heq. apply join_inj, candidateName_inj in Heq. exact Heq. Qed.

(** The loop probes the candidates in order and stops at the first free one. *)
Lemma uniqueFileLoop_calm (w : world) (fuel attempt : nat) :
  calm w ->
  worldOf (uniqueFileLoop fuel targetDir parsed attempt w) = w /\
  ((exists k, (attempt <= k < attempt + fuel)%nat /\
              pathExists w (cand k) = false /\
              (forall j, (attempt <= j < k)%nat -> pathExists w (cand j) = true) /\
              resultOf (uniqueFileLoop fuel targetDir parsed attempt w) = Ok (cand k)) \/
   ((forall j, (attempt <= j < attempt + fuel)%nat -> pathExists w (cand j) = true) /\
    resultOf (uniqueFileLoop fuel targetDir parsed attempt w) = Throw OutOfFuel)).
Proof.
  intros Hc. revert attempt. induction fuel as [|fuel IH]; intros attempt.
  - split; [reflexivity|]. right. split; [intros j Hj; lia | reflexivity].
  - cbn [uniqueFileLoop].
    destruct (pathExists w (cand attempt)) eqn:Ep.
    + assert (H1 : catching (access (cand attempt)) w
                   = (Ok (Ok tt), w, [succeeded (Access (cand attempt))])).
      { unfold catching. rewrite (access_calm _ _ Hc), Ep. reflexivity. }
      rewrite (bind_ok _ _ _ _ _ _ H1). unfold resultOf, worldOf. cbn [fst snd].
      destruct (IH (S attempt)) as [Hw Hcases]. unfold resultOf, worldOf in *.
      split; [exact Hw|].
      destruct Hcases as [(k & Hk & Hfree & Hbefore & Hres) | (Hall & Hres)].
      * left. exists k. split; [lia|]. split; [exact Hfree|]. split; [|exact Hres].
        intros j Hj. destruct (decide (j = attempt)) as [->|Hne]; [exact Ep|].
        apply Hbefore. lia.
      * right. split; [|exact Hres].
        intros j Hj. destruct (decide (j = attempt)) as [->|Hne]; [exact Ep|].
        apply Hall. lia.
    + assert (H1 : catching (access (cand attempt)) w
                   = (Ok (Throw (SysError "ENOENT")), w,
                      [{| what := Access (cand attempt); failed := Some "ENOENT"%string |}])).
      { unfold catching. rewrite (access_calm _ _ Hc), Ep. reflexivity. }
      rewrite (bind_ok _ _ _ _ _ _ H1). unfold resultOf, worldOf. cbn [fst snd].
      split; [reflexivity|]. left. exists attempt.
      split; [lia|]. split; [exact Ep|]. split; [intros j Hj; lia | reflexivity].
Qed.

Lemma bounded_search (P : nat -> bool) (n : nat) :
  (exists k, (k < n)%nat /\ P k = false) \/ (forall k, (k < n)%nat -> P k = true).
Proof.
  induction n as [|n IH]; [right; intros k Hk; lia|].
  destruct IH as [(k & Hk & Hf) | Hall]; [left; exists k; split; [lia | exact Hf]|].
  destruct (P n) eqn:Ep.
  - right. intros k Hk. destruct (decide (k = n)) as [->|Hne]; [exact Ep | apply Hall; lia].
  - left. exists n. split; [lia | exact Ep].
Qed.

(** Among more candidates than there are paths, one is free. *)
Lemma free_candidate (w : world) :
  exists k, (k < S (size (existing w)))%nat /\ pathExists w (cand k) = false.
Proof.
  destruct (bounded_search (fun k => pathExists w (cand k)) (S (size (existing w))))
    as [Hfound | Hall]; [exact Hfound|]. exfalso.
  set (n := size (existing w)) in *.
  set (l := map cand (seq 0 (S n))).
  assert (Hnd : NoDup l).
  { unfold l. apply NoDup_fmap_2; [intros j k; apply cand_inj | apply NoDup_seq]. }
  assert (Hsub : (list_to_set l : gset string) ⊆ existing w).
  { intros p Hp. apply elem_of_list_to_set in Hp. unfold l in Hp.
    apply list_elem_of_fmap in Hp. destruct Hp as (k & -> & Hk).
    apply elem_of_seq in Hk. apply pathExists_existing. apply Hall. lia. }
  apply subseteq_size in Hsub. rewrite (size_list_to_set l Hnd) in Hsub.
  unfold l in Hsub. rewrite length_map, length_seq in Hsub. fold n in Hsub. lia.
Qed.

(** With fuel beyond the number of paths, the loop returns. *)
Lemma uniqueFileLoop_returns (w : world) :
  calm w ->
  exists k,
    resultOf (uniqueFileLoop (S (size (existing w))) targetDir parsed O w) = Ok (cand k) /\
    pathExists w (cand k) = false /\
    (forall j, (j < k)%nat -> pathExists w (cand j) = true) /\
    worldOf (uniqueFileLoop (S (size (existing w))) targetDir parsed O w) = w.
Proof.
  intros Hc.
  destruct (uniqueFileLoop_calm w (S (size (existing w))) O Hc) as [Hw Hcases].
  destruct Hcases as [(k & Hk & Hfree & Hbefore & Hres) | (Hall & _)].
  - exists k. split; [exact Hres|]. split; [exact Hfree|]. split; [|exact Hw].
    intros j Hj. apply Hbefore. lia.
  - exfalso. destruct (free_candidate w) as (k & Hk & Hfree).
    rewrite (Hall k) in Hfree; [discriminate | lia].
Qed.
End FreeName.

(** [moveFileSafe] onto a free path, in a calm world, by cases. *)
Lemma moveFileSafe_absent (src dst : string) (w : world) :
  calm w -> files w !! src = None ->
  moveFileSafe src dst w
  = (Throw (SysError "ENOENT"), w, [{| what := Rename src dst; failed := Some "ENOENT"%string |}]).
Proof.
  intros Hc Hs. unfold moveFileSafe.
  assert (H1 : catching (rename src dst) w
               = (Ok (Throw (SysError "ENOENT")), w,
                  [{| what := Rename src dst; failed := Some "ENOENT"%string |}])).
  { unfold catching, rename. rewrite (syscall_calm _ _ _ Hc), Hs. reflexivity. }
  rewrite (bind_ok _ _ _ _ _ _ H1). reflexivity.
Qed.

Lemma moveFileSafe_renamed (src dst content : string) (w : world) :
  calm w -> files w !! src = Some content -> device w src = device w dst ->
  pathExists w dst = false ->
  moveFileSafe src dst w
  = (Ok tt, withFiles (<[dst := content]> (delete src (files w))) w,
     [succeeded (Rename src dst)]).
Proof.
  intros Hc Hs Hdev Hfree. apply pathExists_false in Hfree. destruct Hfree as [_ Hnd].
  unfold moveFileSafe.
  assert (H1 : catching (rename src dst) w
               = (Ok (Ok tt), withFiles (<[dst := content]> (delete src (files w))) w,
                  [succeeded (Rename src dst)])).
  { unfold catching, rename. rewrite (syscall_calm _ _ _ Hc), Hs, Hdev, Nat.eqb_refl.
    cbn [negb]. rewrite bool_decide_eq_false_2 by exact Hnd. reflexivity. }
  rewrite (bind_ok _ _ _ _ _ _ H1). reflexivity.
Qed.

(** Across devices the rename is refused with [EXDEV]; the copy that follows
    is exclusive: it goes through onto a free path only. *)
Lemma moveFileSafe_copied (src dst content : string) (w : world) :
  calm w -> files w !! src = Some content -> device w src <> device w dst ->
  pathExists w dst = false ->
  moveFileSafe src dst w
  = (Ok tt, withFiles (delete src (<[dst := content]> (files w))) w,
     [{| what := Rename src dst; failed := Some "EXDEV"%string |};
      succeeded (CopyFileExcl src dst); succeeded (Unlink src)]).
Proof.
  intros Hc Hs Hdev Hfree. unfold moveFileSafe.
  assert (Hne : src <> dst).
  { intros ->. apply pathExists_false in Hfree. destruct Hfree as [Hn _]. congruence. }
  assert (H1 : catching (rename src dst) w
               = (Ok (Throw (SysError "EXDEV")), w,
                  [{| what := Rename src dst; failed := Some "EXDEV"%string |}])).
  { unfold catching, rename. rewrite (syscall_calm _ _ _ Hc), Hs.
    apply Nat.eqb_neq in Hdev. rewrite Hdev. reflexivity. }
  rewrite (bind_ok _ _ _ _ _ _ H1). cbn [hasCode String.eqb Ascii.eqb Bool.eqb negb].
  assert (H2 : copyFileExcl src dst w
               = (Ok tt, withFiles (<[dst := content]> (files w)) w,
                  [succeeded (CopyFileExcl src dst)])).
  { unfold copyFileExcl. rewrite (syscall_calm _ _ _ Hc), Hs, Hfree. reflexivity. }
  rewrite (bind_ok _ _ _ _ _ _ H2).
  set (w1 := withFiles _ w).
  assert (H3 : unlink src w1
               = (Ok tt, withFiles (delete src (files w1)) w1, [succeeded (Unlink src)])).
  { unfold unlink. rewrite (syscall_calm _ _ w1 Hc).
    change (files w1) with (<[dst := content]> (files w)).
    rewrite lookup_insert_ne by congruence. rewrite Hs. reflexivity. }
  rewrite H3. reflexivity.
Qed.

Lemma moveFileSafe_exclusive (src dst content : string) (w : world) :
  calm w -> files w !! src = Some content -> device w src <> device w dst ->
  pathExists w dst = true ->
  moveFileSafe src dst w
  = (Throw (SysError "EEXIST"), w,
     [{| what := Rename src dst; failed := Some "EXDEV"%string |};
      {| what := CopyFileExcl src dst; failed := Some "EEXIST"%string |}]).
Proof.
  intros Hc Hs Hdev Htaken. unfold moveFileSafe.
  assert (H1 : catching (rename src dst) w
               = (Ok (Throw (SysError "EXDEV")), w,
                  [{| what := Rename src dst; failed := Some "EXDEV"%string |}])).
  { unfold catching, rename. rewrite (syscall_calm _ _ _ Hc), Hs.
    apply Nat.eqb_neq in Hdev. rewrite Hdev. reflexivity. }
  rewrite (bind_ok _ _ _ _ _ _ H1). cbn [hasCode String.eqb Ascii.eqb Bool.eqb negb].
  assert (H2 : copyFileExcl src dst w
               = (Throw (SysError "EEXIST"), w,
                  [{| what := CopyFileExcl src dst; failed := Some "EEXIST"%string |}])).
  { unfold copyFileExcl. rewrite (syscall_calm _ _ _ Hc), Hs, Htaken. reflexivity. }
  rewrite (bind_throw _ _ _ _ _ _ H2). reflexivity.
Qed.

(** Whatever the case, a move onto a free path leaves every other file as
    it was. *)
Lemma moveFileSafe_keeps (src dst : string) (w : world) :
  calm w -> pathExists w dst = false ->
  calm (worldOf (moveFileSafe src dst w)) /\
  forall p content, files w !! p = Some content -> p <> src ->
                    files (worldOf (moveFileSafe src dst w)) !! p = Some content.
Proof.
  intros Hc Hfree.
  destruct (files w !! src) as [c|] eqn:Hs.
  - assert (Hdst : forall p content, files w !! p = Some content -> p <> dst).
    { intros p content Hp ->. apply pathExists_false in Hfree. destruct Hfree. congruence. }
    destruct (decide (device w src = device w dst)) as [Hdev|Hdev].
    + rewrite (moveFileSafe_renamed src dst c w Hc Hs Hdev Hfree).
      split; [exact Hc|]. intros p content Hp Hne. unfold worldOf. cbn.
      rewrite lookup_insert_ne by (intros <-; exact (Hdst _ _ Hp eq_refl)).
      rewrite lookup_delete_ne by congruence. exact Hp.
    + rewrite (moveFileSafe_copied src dst c w Hc Hs Hdev Hfree).
      split; [exact Hc|]. intros p content Hp Hne. unfold worldOf. cbn.
      rewrite lookup_delete_ne by congruence.
      rewrite lookup_insert_ne by (intros <-; exact (Hdst _ _ Hp eq_refl)). exact Hp.
  - rewrite (moveFileSafe_absent src dst w Hc Hs). split; [exact Hc|]. auto.
Qed.

Section Materialize.

Lemma moveOne_keeps (fuel : nat) (jobDir sourcePath : string) (w : world) :
  calm w ->
  let moveOne := (destinationPath ← uniqueFilePath fuel jobDir (basename sourcePath);
                  moveFileSafe sourcePath destinationPath) in
  calm (worldOf (moveOne w)) /\
  forall p content, files w !! p = Some content -> p <> sourcePath ->
                    files (worldOf (moveOne w)) !! p = Some content.
Proof.
  intros Hc moveOne. unfold moveOne. rewrite bind_world. unfold uniqueFilePath.
  destruct (uniqueFileLoop_calm jobDir (parse (basename sourcePath)) w fuel O Hc)
    as [Hw Hcases].
  rewrite Hw.
  destruct Hcases as [(k & _ & Hfree & _ & Hres) | (_ & Hres)]; rewrite Hres.
  - apply moveFileSafe_keeps; assumption.
  - split; [exact Hc | auto].
Qed.

(** The loop over the selected media never touches a file that is not one
    of them. *)
Lemma moveSelected_keeps (fuel : nat) (jobDir : string) (selectedMedia : list string)
      (w : world) :
  calm w ->
  forall p content, files w !! p = Some content -> ~ In p selectedMedia ->
                    files (worldOf (moveSelected fuel jobDir selectedMedia w)) !! p
                    = Some content.
Proof.
  unfold moveSelected. revert w.
  induction selectedMedia as [|x rest IH]; intros w Hc p content Hp Hnin; [exact Hp|].
  cbn [forEach]. rewrite bind_world.
  destruct (moveOne_keeps fuel jobDir x w Hc) as [Hc1 Hkeep].
  assert (Hp1 := Hkeep p content Hp ltac:(intros ->; apply Hnin; left; reflexivity)).
  destruct (resultOf _); [|exact Hp1].
  apply IH; [exact Hc1 | exact Hp1|]. intros Hin. apply Hnin. right. exact Hin.
Qed.
End Materialize.

(** When no call to the system fails: the name tried first in the job
    directory is the base name of the source; the names tried after a
    collision carry [_1], [_2], ... between the stem and the extension and
    differ from one another; [uniqueFilePath] returns the first of these
    names that is free, having changed nothing.  When the rename is refused
    for crossing devices, the file is copied with [COPYFILE_EXCL] and the
    source unlinked; the copy fails, and changes nothing, if the destination
    exists.  So the loop over the selected media leaves every file that is
    not one of them as it was. *)
Theorem materialize_never_overwrites (w : world) (jobDir : string) :
  calm w ->
  (forall base,
     candidateName (parse base) O = base /\
     (forall k, (0 < k)%nat ->
                candidateName (parse base) k
                = fst (parse base) +:+ "_" +:+ showNat k +:+ snd (parse base)) /\
     (forall j k, candidateName (parse base) j = candidateName (parse base) k -> j = k)) /\
  (forall base, exists k,
     resultOf (uniqueFilePath (S (size (existing w))) jobDir base w)
     = Ok (join jobDir (candidateName (parse base) k)) /\
     pathExists w (join jobDir (candidateName (parse base) k)) = false /\
     (forall j, (j < k)%nat ->
                pathExists w (join jobDir (candidateName (parse base) j)) = true) /\
     worldOf (uniqueFilePath (S (size (existing w))) jobDir base w) = w) /\
  (forall src dst content,
     files w !! src = Some content -> device w src <> device w dst ->
     (pathExists w dst = false ->
      moveFileSafe src dst w
      = (Ok tt, withFiles (delete src (<[dst := content]> (files w))) w,
         [{| what := Rename src dst; failed := Some "EXDEV"%string |};
          succeeded (CopyFileExcl src dst); succeeded (Unlink src)])) /\
     (pathExists w dst = true ->
      moveFileSafe src dst w
      = (Throw (SysError "EEXIST"), w,
         [{| what := Rename src dst; failed := Some "EXDEV"%string |};
          {| what := CopyFileExcl src dst; failed := Some "EEXIST"%string |}]))) /\
  (forall fuel selectedMedia p content,
     files w !! p = Some content -> ~ In p selectedMedia ->
     files (worldOf (moveSelected fuel jobDir selectedMedia w)) !! p = Some content).
Proof.
  intros Hc. split; [|split; [|split]].
  - intros base. split; [apply candidateName_first|].
    split; [intros k; apply candidateName_suffixed | apply candidateName_inj].
  - intros base. unfold uniqueFilePath.
    apply (uniqueFileLoop_returns jobDir (parse base) w Hc).
  - intros src dst content Hs Hdev. split; intros Hd.
    + apply moveFileSafe_copied; assumption.
    + apply (moveFileSafe_exclusive src dst content); assumption.
  - intros fuel selectedMedia. apply moveSelected_keeps. exact Hc.
Qed.

Lemma materialize_never_overwrites_witness :
  resultOf (@uniqueFilePath 10 "/job" "a.jpg" collisionWorld) = Ok "/job/a_2.jpg"%string /\
  files (worldOf (@moveSelected 10 "/job" ["/in/a.jpg"%string] collisionWorld))
    !! "/job/a.jpg"%string = Some "old"%string.
Proof.
  pose proof (materialize_never_overwrites collisionWorld "/job" eq_refl)
    as (_ & _ & _ & Hkeep).
  split; [vm_compute; reflexivity|].
  apply (Hkeep 10%nat ["/in/a.jpg"%string] "/job/a.jpg"%string "old"%string);
    [vm_compute; reflexivity|].
  intros [Heq | []]. discriminate.
Defined.

(** The probe of [uniqueFilePath] takes every failure for a name that is
    free: when [fs.access] is rejected, for whatever reason, the name probed
    is returned, taken or not. *)
Lemma uniqueFilePath_probe_rejected (fuel : nat) (targetDir baseName code : string)
      (later : list (option string)) (w : world) :
  faults w = Some code :: later ->
  uniqueFilePath (S fuel) targetDir baseName w
  = (Ok (join targetDir baseName), withFaults later w,
     [{| what := Access (join targetDir baseName); failed := Some code |}]).
Proof.
  intros Hf. unfold uniqueFilePath. cbn [uniqueFileLoop]. rewrite candidateName_first.
  assert (H1 : catching (access (join targetDir baseName)) w
               = (Ok (Throw (SysError code)), withFaults later w,
                  [{| what := Access (join targetDir baseName); failed := Some code |}])).
  { unfold catching, access, syscall. rewrite Hf. reflexivity. }
  rewrite (bind_ok _ _ _ _ _ _ H1). reflexivity.
Qed.

(** [fs.rename] onto a regular file of the same device replaces it. *)
Lemma moveFileSafe_replaces (src dst content old : string) (w : world) :
  calm w -> files w !! src = Some content -> files w !! dst = Some old ->
  dst ∉ dirs w -> device w src = device w dst ->
  moveFileSafe src dst w
  = (Ok tt, withFiles (<[dst := content]> (delete src (files w))) w,
     [succeeded (Rename src dst)]).
Proof.
  intros Hc Hs Hd Hnd Hdev. unfold moveFileSafe.
  assert (H1 : catching (rename src dst) w
               = (Ok (Ok tt), withFiles (<[dst := content]> (delete src (files w))) w,
                  [succeeded (Rename src dst)])).
  { unfold catching, rename. rewrite (syscall_calm _ _ _ Hc), Hs, Hdev, Nat.eqb_refl.
    cbn [negb]. rewrite bool_decide_eq_false_2 by exact Hnd. reflexivity. }
  rewrite (bind_ok _ _ _ _ _ _ H1). reflexivity.
Qed.

(** C7, at two media of the same name when the probe for the second fails
    with [EIO]: [uniqueFilePath] returns [/job/a.jpg], where the first medium
    has just been put, and the rename replaces it.  The run goes on as if
    nothing had happened, the first medium is lost. *)
Theorem failed_probe_overwrites :
  let r := moveSelected 8 "/job" ["/in/a.jpg"; "/in2/a.jpg"]%string failedProbeWorld in
  files failedProbeWorld !! "/in/a.jpg"%string = Some "one"%string /\
  files failedProbeWorld !! "/in2/a.jpg"%string = Some "two"%string /\
  resultOf r = Ok tt /\
  eventsOf r
  = [ {| what := Access "/job/a.jpg"; failed := Some "ENOENT"%string |};
      succeeded (Rename "/in/a.jpg" "/job/a.jpg");
      {| what := Access "/job/a.jpg"; failed := Some "EIO"%string |};
      succeeded (Rename "/in2/a.jpg" "/job/a.jpg") ] /\
  files (worldOf r) = {[ "/job/a.jpg"%string := "two"%string ]}.
Proof. vm_compute. repeat split. Qed.

(** * Further properties *)

(** ** Sampling *)

Lemma randomBelow_draws_full (n r : nat) (rest : list nat) :
  (r < n)%nat -> randomBelow n (draws (r :: rest)) = (r, draws rest).
Proof.
  intros Hr. unfold randomBelow. destruct n as [|n']; [lia|].
  unfold draws at 1. cbn [nth]. rewrite Nat.mod_small by exact Hr. reflexivity.
Qed.

Lemma pickLoop_reaches {A : Type} (sel pool acc : list A) :
  (exists rest, Permutation (sel ++ rest) pool) ->
  exists ds : list nat,
    length ds = length sel /\
    forall later, pickLoop (length sel) pool acc (draws (ds ++ later))
                  = (acc ++ sel, draws later).
Proof.
  revert pool acc. induction sel as [|x sel IH]; intros pool acc [rest Hperm].
  - exists []. split; [reflexivity|]. intros later. simpl. rewrite app_nil_r. reflexivity.
  - assert (Hin : In x pool).
    { apply (Permutation_in _ Hperm). left. reflexivity. }
    apply In_nth_error in Hin. destruct Hin as [idx Hidx].
    assert (Hlt : (idx < length pool)%nat) by (apply nth_error_Some; congruence).
    destruct (IH (splice1 idx pool) (acc ++ [x])) as (ds & Hlen & Hrun).
    { exists rest. apply (Permutation_cons_inv (a := x)).
      rewrite (splice1_perm pool idx x Hidx). exact Hperm. }
    exists (idx :: ds). split; [simpl; congruence|]. intros later.
    cbn [length pickLoop]. change ((idx :: ds) ++ later) with (idx :: ds ++ later).
    rewrite (randomBelow_draws_full _ idx (ds ++ later) Hlt), Hidx, Hrun, <- app_assoc.
    reflexivity.
Qed.

(** X1. [pickRandomItems] returns the empty list for a count that is not
    positive, throws exactly when the count exceeds the number of items, and
    otherwise returns exactly [count] items which, with the items left in
    the pool, are the items given: no item is picked twice. *)
Theorem pickRandomItems_contract {A : Type} (items : list A) (count : Z) (g : rng) :
  (count <= 0 -> pickRandomItems items count g = (Ok [], g)) /\
  (0 < count -> Z.of_nat (length items) < count ->
   pickRandomItems items count g = (Throw (cannotPick count (length items)), g)) /\
  (0 < count <= Z.of_nat (length items) ->
   exists sampled rest,
     fst (pickRandomItems items count g) = Ok sampled /\
     Z.of_nat (length sampled) = count /\
     Permutation (sampled ++ rest) items).
Proof.
  split; [|split].
  - intros Hc. unfold pickRandomItems.
    assert ((count <=? 0) = true) as -> by (apply Z.leb_le; exact Hc). reflexivity.
  - intros Hpos Hbig. unfold pickRandomItems.
    assert ((count <=? 0) = false) as -> by (apply Z.leb_gt; exact Hpos).
    assert ((Z.of_nat (length items) <? count) = true) as -> by (apply Z.ltb_lt; exact Hbig).
    reflexivity.
  - intros Hc.
    destruct (pickRandomItems_sample items count g ltac:(lia)) as (sampled & rest & H1 & H2 & H3).
    exists sampled, rest. split; [exact H1|]. split; [lia | exact H3].
Qed.

Lemma pickRandomItems_contract_witness :
  fst (pickRandomItems ["a"; "b"; "c"]%string 2 (draws [2; 0]%nat)) = Ok ["c"; "a"]%string /\
  exists e, fst (pickRandomItems ["a"; "b"; "c"]%string 4 (draws [])) = Throw e.
Proof.
  pose proof (pickRandomItems_contract ["a"; "b"; "c"]%string 2 (draws [2; 0]%nat))
    as (_ & _ & Hok).
  pose proof (pickRandomItems_contract ["a"; "b"; "c"]%string 4 (draws []))
    as (_ & Hthrow & _).
  split.
  - destruct (Hok ltac:(simpl; lia)) as (sampled & rest & Heq & _). reflexivity.
  - eexists. rewrite (Hthrow ltac:(lia) ltac:(simpl; lia)). reflexivity.
Defined.

(** X2. Every selection can come out of [pickRandomItems]: whatever list is
    taken out of the items (in any order), some draws make the function
    return exactly that list. *)
Theorem pickRandomItems_reaches {A : Type} (items sel : list A) :
  (exists rest, Permutation (sel ++ rest) items) ->
  exists ds : list nat,
    fst (pickRandomItems items (Z.of_nat (length sel)) (draws ds)) = Ok sel.
Proof.
  intros Hsub. destruct sel as [|x sel].
  - exists []. reflexivity.
  - destruct (pickLoop_reaches (x :: sel) items [] Hsub) as (ds & _ & Hrun).
    exists ds. unfold pickRandomItems.
    assert ((Z.of_nat (length (x :: sel)) <=? 0) = false) as ->
      by (apply Z.leb_gt; simpl; lia).
    assert (Hlen : (length (x :: sel) <= length items)%nat).
    { destruct Hsub as [rest Hp]. apply Permutation_length in Hp.
      rewrite length_app in Hp. lia. }
    assert ((Z.of_nat (length items) <? Z.of_nat (length (x :: sel))) = false) as ->
      by (apply Z.ltb_ge; lia).
    rewrite Nat2Z.id. specialize (Hrun []). rewrite app_nil_r in Hrun. rewrite Hrun.
    reflexivity.
Qed.

Lemma pickRandomItems_reaches_witness :
  exists ds : list nat,
    fst (pickRandomItems ["a"; "b"; "c"]%string 2 (draws ds)) = Ok ["c"; "a"]%string.
Proof.
  apply (pickRandomItems_reaches ["a"; "b"; "c"]%string ["c"; "a"]%string).
  exists ["b"%string]. simpl.
  apply perm_trans with (l' := ["a"; "c"; "b"]%string); [apply perm_swap|].
  apply perm_skip. apply perm_swap.
Defined.

(** X3. [randomIntInclusive(min, max)], for [min <= max], returns an integer
    of the range, and every integer of the range for some draw. *)
Theorem randomIntInclusive_covers (min max : Z) :
  min <= max ->
  (forall g, min <= fst (randomIntInclusive min max g) <= max) /\
  (forall v, min <= v <= max ->
             exists r : nat, fst (randomIntInclusive min max (draws [r])) = v).
Proof.
  intros Hle. split.
  - intros g. apply randomIntInclusive_range. exact Hle.
  - intros v Hv. exists (Z.to_nat (v - min)).
    rewrite randomIntInclusive_draws by lia. simpl. lia.
Qed.

Lemma randomIntInclusive_covers_witness :
  3 <= fst (randomIntInclusive 3 5 (draws [7%nat])) <= 5.
Proof. apply (proj1 (randomIntInclusive_covers 3 5 ltac:(lia))). Defined.

(** ** Rotation and the caption bank *)

Lemma map_alter_same {A B : Type} (h : A -> B) (f : A -> A) (i : nat) (l : list A) :
  (forall x, h (f x) = h x) -> map h (alter f i l) = map h l.
Proof.
  intros Hf. revert i. induction l as [|x l IH]; intros [|i]; simpl; try reflexivity.
  - rewrite Hf. reflexivity.
  - f_equal. apply IH.
Qed.

Lemma map_resetEntry_same {I B : Type} (h : caption I -> B) (l : list (caption I)) :
  (forall x, h (resetEntry x) = h x) -> map h (map resetEntry l) = map h l.
Proof. intros Hf. rewrite map_map. apply map_ext. exact Hf. Qed.

Lemma available_same {I B : Type} (h : caption I -> B) (bank : list (caption I)) :
  (forall x, h (resetEntry x) = h x) -> map h (available bank) = map h bank.
Proof.
  intros Hf. unfold available. destruct (resets bank); [|reflexivity].
  apply map_resetEntry_same. exact Hf.
Qed.

(** What a successful pick returns. *)
Lemma pickCaption_next {I : Type} (now : string) (bank : list (caption I)) (g : rng)
      (p : picked I) :
  fst (pickCaption now bank g) = Ok p ->
  exists i entry,
    available bank !! i = Some entry /\ used entry = false /\
    captionText p = text entry /\
    nextCaptions p = alter (markUsed now) i (available bank).
Proof.
  intros Hp. destruct bank as [|c bank].
  - rewrite pickCaption_empty in Hp. discriminate.
  - destruct (pickCaption_selects now (c :: bank) g ltac:(discriminate))
      as (entry & _ & Hl & Hu & Heq).
    rewrite Heq in Hp. injection Hp as <-.
    eexists _, entry. split; [exact Hl|]. split; [exact Hu|]. split; reflexivity.
Qed.

(** X4. A pick changes nothing of the bank but the flags: the bank it
    returns has the ids and the texts of the bank it was given, in the same
    order, and the text it returns is that of an entry which the new bank
    marks as used at the time of the call. *)
Theorem pickCaption_keeps_entries {I : Type} (now : string) (bank : list (caption I))
        (g : rng) (p : picked I) :
  fst (pickCaption now bank g) = Ok p ->
  map id (nextCaptions p) = map id bank /\
  map text (nextCaptions p) = map text bank /\
  exists i entry,
    nextCaptions p !! i = Some entry /\
    text entry = captionText p /\ used entry = true /\ used_at entry = VStr now.
Proof.
  intros Hp. destruct (pickCaption_next now bank g p Hp) as (i & entry & Hl & _ & Ht & Hn).
  rewrite Hn. split; [|split].
  - rewrite map_alter_same by reflexivity. apply available_same. reflexivity.
  - rewrite map_alter_same by reflexivity. apply available_same. reflexivity.
  - exists i, (markUsed now entry). split.
    + rewrite list_lookup_alter_eq, Hl. reflexivity.
    + simpl. auto.
Qed.

Lemma pickCaption_keeps_entries_witness :
  exists p, fst (pickCaption "t1" threeCaptions (draws [1%nat])) = Ok p /\
            map text (nextCaptions p) = ["a"; "b"; "c"]%string.
Proof.
  eexists. split; [reflexivity|].
  apply (pickCaption_keeps_entries "t1" threeCaptions (draws [1%nat])). reflexivity.
Defined.

Lemma settled_accepted (bank : list (caption value)) :
  Forall settled bank ->
  normalizeCaptionEntries (bankToValue (fun v => v) bank) = Ok bank.
Proof.
  intros Hall. unfold normalizeCaptionEntries, bankToValue.
  apply mapFrom_all; [rewrite length_map; reflexivity|].
  intros j x c Hx Hc. rewrite list_lookup_fmap, Hc in Hx. simpl in Hx. injection Hx as <-.
  rewrite Forall_lookup in Hall. destruct (Hall j c Hc) as (Ht & Hne & Hid & Hua).
  rewrite normalizeCaptionEntry_record by reflexivity.
  unfold textCandidate, captionToValue. simpl. rewrite Ht, Hne.
  destruct c as [i t u ua]. simpl in *. rewrite Hid, Hua. destruct u; reflexivity.
Qed.

Lemma normalized_settled (raw : value) (bank : list (caption value)) :
  normalizeCaptionEntries raw = Ok bank ->
  Forall (fun c => isEmpty (text c) = false) bank ->
  Forall settled bank.
Proof.
  intros Hn Hne. destruct raw as [| | | | |items|]; try discriminate.
  unfold normalizeCaptionEntries in Hn.
  destruct (mapFrom_lookup _ _ _ _ Hn) as [Hlen Hlook].
  rewrite Forall_lookup in Hne. apply Forall_lookup. intros j c Hc.
  destruct (lookup_lt_is_Some_2 items j) as [entry Hentry].
  { rewrite <- Hlen. eapply lookup_lt_Some; exact Hc. }
  destruct (Hlook j entry Hentry) as (c' & Hc' & Hok).
  rewrite Hc in Hc'. injection Hc' as <-.
  pose proof (normalizeCaptionEntry_ok _ _ _ Hok) as (Hid & Ht & _ & Hua & _).
  split; [rewrite Ht; apply trim_idem|]. split; [exact (Hne j c Hc)|]. split.
  - intros fallback. rewrite Hid. destruct (isString entry); [reflexivity|].
    destruct (get entry "id"); reflexivity.
  - rewrite Hua. unfold entryUsedAt. destruct (isString entry); [reflexivity|].
    apply nullish_null_idem.
Qed.

Lemma settled_next (now : string) (bank : list (caption value)) (g : rng)
      (p : picked value) :
  Forall settled bank ->
  fst (pickCaption now bank g) = Ok p ->
  Forall settled (nextCaptions p).
Proof.
  intros Hall Hp. destruct (pickCaption_next now bank g p Hp) as (i & entry & _ & _ & _ & Hn).
  rewrite Hn. apply Forall_alter.
  - unfold available. destruct (resets bank); [|exact Hall].
    apply Forall_fmap. eapply Forall_impl; [exact Hall|].
    intros c (Ht & Hne & Hid & _). repeat split; assumption.
  - intros c _ (Ht & Hne & Hid & _). repeat split; assumption.
Qed.

(** X5. The bank that a run saves is read back as it is by the next run:
    when [normalizeCaptionEntries] has accepted a file and none of the
    texts is empty, the bank that [pickCaption] returns, given again to
    [normalizeCaptionEntries] as the array of its records, comes back
    unchanged, ids and flags included. *)
Theorem rotated_bank_round_trip (raw : value) (now : string)
        (bank : list (caption value)) (g : rng) (p : picked value) :
  normalizeCaptionEntries raw = Ok bank ->
  Forall (fun c => isEmpty (text c) = false) bank ->
  fst (pickCaption now bank g) = Ok p ->
  normalizeCaptionEntries (bankToValue (fun v => v) (nextCaptions p)) = Ok (nextCaptions p).
Proof.
  intros Hn Hne Hp. apply settled_accepted.
  apply (settled_next now bank g p); [|exact Hp].
  apply (normalized_settled raw); assumption.
Qed.

Lemma rotated_bank_round_trip_witness :
  exists p,
    fst (pickCaption "t1" twoCaptions (draws [0%nat])) = Ok p /\
    normalizeCaptionEntries (bankToValue (fun v => v) (nextCaptions p)) = Ok (nextCaptions p).
Proof.
  eexists. split; [reflexivity|].
  apply (rotated_bank_round_trip rawTwo "t1" twoCaptions (draws [0%nat])).
  - reflexivity.
  - repeat constructor.
  - reflexivity.
Defined.

Section WizardToEngine.
Context `{Builtins}.

Lemma canon_settled (k : nat) (bank : list (caption Z)) :
  canonFrom k bank -> Forall settled (asEngineBank bank).
Proof.
  revert k. induction bank as [|c bank IH]; intros k Hc; [constructor|].
  destruct Hc as (_ & Ht & Hne & Hua & Hrest). constructor; [|eapply IH; exact Hrest].
  repeat split; assumption.
Qed.

Lemma asEngineBank_value (bank : list (caption Z)) :
  bankToValue (fun v => v) (asEngineBank bank) = bankToValue num bank.
Proof. unfold bankToValue, asEngineBank. rewrite map_map. reflexivity. Qed.

(** X6. The engine accepts every bank that the wizard's normalisation
    produces, record for record; and unless that bank is empty, a pick on
    it succeeds with a text that is not empty. *)
Theorem engine_accepts_wizard_captions (raw : value) (now : string) (g : rng) :
  let bank := normalizeCaptions raw in
  normalizeCaptionEntries (bankToValue num bank) = Ok (asEngineBank bank) /\
  (bank <> [] ->
   exists p, fst (pickCaption now (asEngineBank bank) g) = Ok p /\
             isEmpty (captionText p) = false).
Proof.
  intros bank. pose proof (normalizeCaptions_canon raw) as Hc. fold bank in Hc.
  pose proof (canon_settled _ _ Hc) as Hs. split.
  - rewrite <- asEngineBank_value. apply settled_accepted. exact Hs.
  - intros Hne.
    assert (Hne' : asEngineBank bank <> []) by (destruct bank; [congruence | discriminate]).
    destruct (pickCaption_selects now (asEngineBank bank) g Hne')
      as (entry & _ & Hl & _ & Heq).
    eexists. rewrite Heq. split; [reflexivity|]. simpl.
    assert (Hin : In (text entry) (map text (available (asEngineBank bank)))).
    { apply in_map. apply list_elem_of_In. eapply list_elem_of_lookup_2; exact Hl. }
    rewrite available_same in Hin by reflexivity.
    apply in_map_iff in Hin. destruct Hin as (c & <- & Hin).
    apply list_elem_of_In in Hin. rewrite Forall_forall in Hs.
    apply (Hs c Hin).
Qed.
End WizardToEngine.

Lemma engine_accepts_wizard_captions_witness :
  exists p,
    fst (pickCaption "t1" (asEngineBank (@normalizeCaptions sampleBuiltins rawMixed))
           (draws [0%nat])) = Ok p /\
    isEmpty (captionText p) = false.
Proof.
  apply (proj2 (@engine_accepts_wizard_captions sampleBuiltins rawMixed "t1" (draws [0%nat]))).
  vm_compute. discriminate.
Defined.

(** ** Hashtag banks read again *)

Lemma trimEnd_clean (s : string) : hasWhiteSpace s = false -> trimEnd s = s.
Proof.
  induction s as [|c s IH]; [reflexivity|]. simpl. intros Hw.
  apply orb_false_iff in Hw. destruct Hw as [Hc Hs]. rewrite Hc, (IH Hs). reflexivity.
Qed.

Lemma trim_clean (s : string) : hasWhiteSpace s = false -> trim s = s.
Proof.
  intros Hw. unfold trim. destruct s as [|c s]; [reflexivity|].
  simpl in Hw. apply orb_false_iff in Hw. destruct Hw as [Hc Hs].
  rewrite (trimStart_fixed _ _ Hc). apply trimEnd_clean. simpl. rewrite Hc, Hs. reflexivity.
Qed.

Lemma removeWhiteSpace_fixed (s : string) : hasWhiteSpace s = false -> removeWhiteSpace s = s.
Proof.
  induction s as [|c s IH]; [reflexivity|]. simpl. intros Hw.
  apply orb_false_iff in Hw. destruct Hw as [Hc Hs]. rewrite Hc, (IH Hs). reflexivity.
Qed.

Lemma startsWithHash_nonempty (s : string) : startsWithHash s = true -> isEmpty s = false.
Proof. destruct s; [discriminate | reflexivity]. Qed.

Lemma firstByKey_fixed (key : string -> string) (seen : gset string) (tags : list string) :
  NoDup (map key tags) -> (forall t, t ∈ tags -> key t ∉ seen) ->
  firstByKey key seen tags = tags.
Proof.
  revert seen. induction tags as [|t tags IH]; intros seen Hnd Hs; [reflexivity|].
  simpl in *. apply NoDup_cons in Hnd. destruct Hnd as [Hnin Hnd].
  destruct (decide (key t ∈ seen)) as [Hin|_].
  - exfalso. apply (Hs t); [left | exact Hin].
  - f_equal. apply IH; [exact Hnd|]. intros t' Ht' Hin.
    apply elem_of_union in Hin. destruct Hin as [Hin | Hin].
    + apply elem_of_singleton in Hin. apply Hnin. rewrite <- Hin.
      apply list_elem_of_fmap. exists t'. split; [reflexivity | exact Ht'].
    + apply (Hs t'); [right; exact Ht' | exact Hin].
Qed.

(** The engine's pipeline on an array of trimmed tags that start with [#]. *)
Lemma engine_pipeline_fixed (tags : list string) :
  Forall (fun t => startsWithHash t = true /\ trim t = t) tags ->
  map hashPrefixed
    (filter (fun tag => negb (isEmpty tag)) (map trim (map hashtagText (map VStr tags))))
  = tags.
Proof.
  induction 1 as [|t tags [Hh Ht] Hall IH]; [reflexivity|].
  cbn [map]. change (hashtagText (VStr t)) with t. rewrite Ht, filter_cons.
  rewrite (startsWithHash_nonempty t Hh). simpl.
  destruct (decide (Is_true true)) as [_|Hn]; [|exfalso; apply Hn; exact I].
  cbn [map]. rewrite IH. unfold hashPrefixed. rewrite Hh. reflexivity.
Qed.

Lemma engine_tags_trimmed (items : list value) (out : list string) :
  normalizeHashtags (VArr items) = Ok out ->
  Forall (fun t => startsWithHash t = true /\ trim t = t) out.
Proof.
  intros Hn. destruct (engine_normalizeHashtags_array items out Hn) as (_ & _ & Hsub & _).
  apply Forall_forall. intros t Ht.
  apply (fun Hin => elem_of_sublist _ _ _ Hin Hsub) in Ht.
  apply list_elem_of_fmap in Ht. destruct Ht as (s & -> & Hs).
  apply list_elem_of_filter in Hs. destruct Hs as [_ Hs].
  apply list_elem_of_fmap in Hs. destruct Hs as (s0 & -> & _).
  split; [apply hashPrefixed_hash|].
  unfold hashPrefixed. destruct (startsWithHash (trim s0)) eqn:E; [apply trim_idem|].
  apply trim_clean. rewrite hasWhiteSpace_hash. apply removeWhiteSpace_clean.
Qed.

(** X7. The engine's [normalizeHashtags] is idempotent: the list it returns,
    given to it again as an array of strings, comes back unchanged. *)
Theorem engine_normalizeHashtags_idempotent (raw : value) (out : list string) :
  normalizeHashtags raw = Ok out ->
  normalizeHashtags (tagsToValue out) = Ok out.
Proof.
  intros Hn. destruct raw as [| | | | |items|]; try discriminate.
  pose proof (engine_tags_trimmed items out Hn) as Hfix.
  destruct (engine_normalizeHashtags_array items out Hn) as (_ & Hnd & _ & _).
  unfold normalizeHashtags, tagsToValue.
  rewrite (engine_pipeline_fixed out Hfix), uniqueFrom_firstByKey. f_equal.
  apply firstByKey_fixed; [rewrite map_id; exact Hnd|].
  intros t _. apply not_elem_of_empty.
Qed.

Lemma engine_normalizeHashtags_idempotent_witness :
  normalizeHashtags (tagsToValue ["#my tag"; "#x"]%string) = Ok ["#my tag"; "#x"]%string.
Proof.
  apply (engine_normalizeHashtags_idempotent (VArr [VStr " #my tag"; VStr "x"; VStr "#x"])).
  reflexivity.
Defined.

Section WizardHashtagsAgain.
Context `{Builtins}.

Lemma normalizeHashtag_fixed (t : string) :
  canonicalTag t -> Wizard.normalizeHashtag (Wizard.candidate (VStr t)) = t.
Proof.
  intros [Hh Hw]. unfold Wizard.candidate, Wizard.normalizeHashtag. simpl.
  rewrite (trim_clean t Hw), (removeWhiteSpace_fixed t Hw), (startsWithHash_nonempty t Hh), Hh.
  reflexivity.
Qed.

Lemma wizard_candidates_fixed (tags : list string) :
  Forall canonicalTag tags ->
  filter (fun t => isEmpty t = false)
    (map (fun e => Wizard.normalizeHashtag (Wizard.candidate e)) (map VStr tags))
  = tags.
Proof.
  induction 1 as [|t tags Hc Hall IH]; [reflexivity|].
  cbn [map]. rewrite (normalizeHashtag_fixed t Hc), filter_cons.
  destruct (decide (isEmpty t = false)) as [_|Hn].
  - rewrite IH. reflexivity.
  - exfalso. apply Hn. apply startsWithHash_nonempty. apply Hc.
Qed.

Lemma wizard_tags_canonical (raw : value) :
  Forall canonicalTag (Wizard.normalizeHashtags raw) /\
  NoDup (map toLowerCase (Wizard.normalizeHashtags raw)).
Proof.
  destruct raw as [| | | | |items|]; try (split; [constructor | apply NoDup_nil_2]).
  destruct (wizard_normalizeHashtags_array items) as (Hc & Hnd & _). split; assumption.
Qed.

(** X8. The wizard's [normalizeHashtags] is idempotent on every input: the
    list it returns, given to it again as an array of strings, comes back
    unchanged. *)
Theorem wizard_normalizeHashtags_idempotent (raw : value) :
  Wizard.normalizeHashtags (tagsToValue (Wizard.normalizeHashtags raw))
  = Wizard.normalizeHashtags raw.
Proof.
  destruct (wizard_tags_canonical raw) as [Hc Hnd].
  unfold tagsToValue. unfold Wizard.normalizeHashtags at 1.
  rewrite hashtag_loop, (wizard_candidates_fixed _ Hc). simpl.
  apply firstByKey_fixed; [exact Hnd|]. intros t _. apply not_elem_of_empty.
Qed.

(** X9. The engine reads the wizard's hashtag bank as it is: on the list
    that the wizard's [normalizeHashtags] returns, the engine's
    [normalizeHashtags] changes nothing and drops nothing. *)
Theorem engine_accepts_wizard_hashtags (raw : value) :
  normalizeHashtags (tagsToValue (Wizard.normalizeHashtags raw))
  = Ok (Wizard.normalizeHashtags raw).
Proof.
  destruct (wizard_tags_canonical raw) as [Hc Hnd].
  unfold normalizeHashtags, tagsToValue.
  rewrite engine_pipeline_fixed.
  - rewrite uniqueFrom_firstByKey. f_equal. apply firstByKey_fixed.
    + rewrite map_id. eapply NoDup_fmap_1. exact Hnd.
    + intros t _. apply not_elem_of_empty.
  - eapply Forall_impl; [exact Hc|]. intros t [Hh Hw].
    split; [exact Hh | apply trim_clean; exact Hw].
Qed.
End WizardHashtagsAgain.

(** ** The lock, taken and given back *)

Section LockAgain.
Context `{Builtins}.
Variable rootDir : string.

Abbreviation lock := (lockFilePath rootDir).

Ltac harmless_call :=
  apply respects_syscall; [intros ?; exact I | intros ?; exact I].

Lemma isProcessAlive_positive (activePid : jsnum) :
  respects probesPositive (fun _ => True) (isProcessAlive activePid).
Proof.
  unfold isProcessAlive. destruct activePid as [|p|]; try apply respects_ret.
  destruct (p <=? 0) eqn:Ep; [apply respects_ret|].
  apply respects_bind_catching; [exact I | |].
  - apply respects_syscall; [|intros ?; exact I].
    intros f. unfold probesPositive. simpl. apply Z.leb_gt. exact Ep.
  - intros [u|e] _; [apply respects_ret|].
    destruct (hasCode e "ESRCH"); [apply respects_ret|].
    destruct (hasCode e "EPERM"); [apply respects_ret | apply respects_throw; exact I].
Qed.

Lemma writeLock_positive (payload : string) :
  respects probesPositive (fun _ => True) (writeLock rootDir payload).
Proof.
  unfold writeLock.
  apply respects_bind; [harmless_call | intros _].
  apply respects_bind; [harmless_call | intros _].
  harmless_call.
Qed.

(** X10. Whatever the lock file holds and whatever fails, [acquireLock]
    sends the probing signal only to a process id that is a positive
    integer: never to [0] or to a negative id, which would address a group
    of processes. *)
Theorem acquireLock_probes_positive (w : world) :
  Forall probesPositive (eventsOf (acquireLock rootDir w)).
Proof.
  assert (Hr : respects probesPositive (fun _ => True) (acquireLock rootDir)).
  { unfold acquireLock.
    apply respects_bind; [apply respects_getPid | intros p].
    apply respects_bind; [apply respects_newDate | intros now].
    apply respects_bind_catching; [exact I | apply writeLock_positive|].
    intros [u|e] _; [apply respects_ret|].
    destruct (negb (hasCode e "EEXIST")); [apply respects_throw; exact I|].
    apply respects_bind_catching; [exact I | |].
    - unfold holderAlive. apply respects_bind; [harmless_call | intros existing].
      apply isProcessAlive_positive.
    - intros alive _.
      assert (Hrec : respects probesPositive (fun _ => True)
                       (reclaimLock rootDir (lockPayload p now))).
      { unfold reclaimLock. apply respects_bind; [harmless_call | intros _].
        apply respects_bind; [apply writeLock_positive | intros _]. apply respects_ret. }
      destruct alive as [[|]|e']; [apply respects_ret | exact Hrec | exact Hrec]. }
  apply (Hr w).
Qed.

Lemma releaseLock_calm (w : world) :
  calm w -> lock ∉ dirs w ->
  releaseLock rootDir w
  = (Ok tt, withFiles (delete lock (files w)) w, [succeeded (Rm lock)]).
Proof.
  intros Hc Hnd. unfold releaseLock, rm. rewrite (syscall_calm _ _ _ Hc).
  rewrite bool_decide_eq_false_2 by exact Hnd. reflexivity.
Qed.


End LockAgain.


(** ** Moving a file, whatever fails *)

Lemma syscall_cases {A : Type} (c : call) (perform : world -> (string + A) * world) (w : world) :
  (exists code later,
     faults w = Some code :: later /\
     syscall c perform w
     = (Throw (SysError code), withFaults later w, [{| what := c; failed := Some code |}])) \/
  syscall c perform w
  = match perform (withFaults (tail (faults w)) w) with
    | (inr a, w') => (Ok a, w', [succeeded c])
    | (inl code, w') => (Throw (SysError code), w', [{| what := c; failed := Some code |}])
    end.
Proof.
  unfold syscall. destruct (faults w) as [|[code|] later]; [right; reflexivity | | right; reflexivity].
  left. exists code, later. split; reflexivity.
Qed.

Lemma rename_step (src dst content : string) (w : world) :
  files w !! src = Some content ->
  (resultOf (rename src dst w) = Ok tt /\
   files (worldOf (rename src dst w)) = <[dst := content]> (delete src (files w))) \/
  (exists code, resultOf (rename src dst w) = Throw (SysError code) /\
                files (worldOf (rename src dst w)) = files w /\
                dirs (worldOf (rename src dst w)) = dirs w).
Proof.
  intros Hsrc. unfold rename.
  destruct (syscall_cases (A := unit) (Rename src dst)
              (fun w => match files w !! src with
                        | None => (inl "ENOENT"%string, w)
                        | Some content =>
                            if negb (device w src =? device w dst)%nat then (inl "EXDEV"%string, w)
                            else if bool_decide (dst ∈ dirs w) then (inl "EISDIR"%string, w)
                            else (inr tt, withFiles (<[dst := content]> (delete src (files w))) w)
                        end) w)
    as [(code & later & _ & ->) | ->].
  - right. exists code. repeat split; reflexivity.
  - cbn [files withFaults]. rewrite Hsrc. cbn [device dirs withFaults].
    destruct (negb _); [right; eexists; repeat split; reflexivity|].
    destruct (bool_decide _); [right; eexists; repeat split; reflexivity|].
    left. split; reflexivity.
Qed.

Lemma copyFileExcl_step (src dst content : string) (w : world) :
  files w !! src = Some content ->
  (resultOf (copyFileExcl src dst w) = Ok tt /\
   pathExists w dst = false /\
   files (worldOf (copyFileExcl src dst w)) = <[dst := content]> (files w) /\
   dirs (worldOf (copyFileExcl src dst w)) = dirs w) \/
  (exists code, resultOf (copyFileExcl src dst w) = Throw (SysError code) /\
                files (worldOf (copyFileExcl src dst w)) = files w /\
                dirs (worldOf (copyFileExcl src dst w)) = dirs w).
Proof.
  intros Hsrc. unfold copyFileExcl.
  destruct (syscall_cases (A := unit) (CopyFileExcl src dst)
              (fun w => match files w !! src with
                        | None => (inl "ENOENT"%string, w)
                        | Some content =>
                            if pathExists w dst then (inl "EEXIST"%string, w)
                            else (inr tt, withFiles (<[dst := content]> (files w)) w)
                        end) w)
    as [(code & later & _ & ->) | ->].
  - right. exists code. repeat split; reflexivity.
  - cbn [files withFaults]. rewrite Hsrc.
    change (pathExists (withFaults (tail (faults w)) w) dst) with (pathExists w dst).
    destruct (pathExists w dst) eqn:Ed; [right; eexists; repeat split; reflexivity|].
    left. repeat split; reflexivity.
Qed.

Lemma unlink_step (path : string) (w : world) :
  (resultOf (unlink path w) = Ok tt /\
   files (worldOf (unlink path w)) = delete path (files w)) \/
  (exists code, resultOf (unlink path w) = Throw (SysError code) /\
                files (worldOf (unlink path w)) = files w).
Proof.
  unfold unlink.
  destruct (syscall_cases (A := unit) (Unlink path)
              (fun w => match files w !! path with
                        | Some _ => (inr tt, withFiles (delete path (files w)) w)
                        | None => if bool_decide (path ∈ dirs w) then (inl "EISDIR"%string, w)
                                  else (inl "ENOENT"%string, w)
                        end) w)
    as [(code & later & _ & ->) | ->].
  - right. exists code. split; reflexivity.
  - cbn [files dirs withFaults]. destruct (files w !! path).
    + left. split; reflexivity.
    + destruct (bool_decide _); right; eexists; split; reflexivity.
Qed.

(** X12. [moveFileSafe] never loses the file, whatever call fails and at
    whatever point: afterwards the content is at the source or at the
    destination.  When the move succeeds, the content is at the destination;
    and no other file is touched. *)
Theorem moveFileSafe_never_loses (src dst content : string) (w : world) :
  files w !! src = Some content ->
  let after := moveFileSafe src dst w in
  (files (worldOf after) !! src = Some content \/
   files (worldOf after) !! dst = Some content) /\
  (resultOf after = Ok tt -> files (worldOf after) !! dst = Some content) /\
  (forall p, p <> src -> p <> dst -> files (worldOf after) !! p = files w !! p).
Proof.
  intros Hsrc after. unfold after, moveFileSafe.
  rewrite bind_world, bind_result, catching_result, catching_world.
  destruct (rename_step src dst content w Hsrc) as [(Hr & Hf) | (code & Hr & Hf & Hd)];
    rewrite Hr.
  { cbn [resultOf worldOf fst snd mret M_ret ret]. rewrite Hf.
    split; [right; apply lookup_insert_eq|]. split; [intros _; apply lookup_insert_eq|].
    intros p Hps Hpd. rewrite lookup_insert_ne by congruence.
    apply lookup_delete_ne. congruence. }
  set (w1 := worldOf (rename src dst w)) in *.
  destruct (negb (hasCode (SysError code) "EXDEV")).
  { cbn [resultOf worldOf fst snd throw]. rewrite Hf.
    split; [left; exact Hsrc|]. split; [discriminate | reflexivity]. }
  assert (Hsrc1 : files w1 !! src = Some content) by (rewrite Hf; exact Hsrc).
  rewrite bind_world, bind_result.
  destruct (copyFileExcl_step src dst content w1 Hsrc1)
    as [(Hc & Hfree & Hfc & Hdc) | (code' & Hc & Hfc & Hdc)]; rewrite Hc.
  2:{ rewrite Hfc, Hf. split; [left; exact Hsrc|]. split; [discriminate | reflexivity]. }
  set (w2 := worldOf (copyFileExcl src dst w1)) in *.
  assert (Hne : src <> dst).
  { intros <-. apply pathExists_false in Hfree. destruct Hfree as [Hnone _]. congruence. }
  destruct (unlink_step src w2) as [(Hu & Hfu) | (code' & Hu & Hfu)]; rewrite Hu, Hfu, Hfc, Hf.
  - split; [right|split; [intros _|]].
    + rewrite lookup_delete_ne by congruence. apply lookup_insert_eq.
    + rewrite lookup_delete_ne by congruence. apply lookup_insert_eq.
    + intros p Hps Hpd. rewrite lookup_delete_ne by congruence.
      apply lookup_insert_ne. congruence.
  - split; [right; apply lookup_insert_eq|]. split; [discriminate|].
    intros p Hps Hpd. apply lookup_insert_ne. congruence.
Qed.

Lemma moveFileSafe_never_loses_witness :
  files (worldOf (moveFileSafe "/in/a.jpg" "/job/a_2.jpg" interruptedWorld)) !! "/in/a.jpg"
  = Some "new"%string \/
  files (worldOf (moveFileSafe "/in/a.jpg" "/job/a_2.jpg" interruptedWorld)) !! "/job/a_2.jpg"
  = Some "new"%string.
Proof.
  apply (moveFileSafe_never_loses "/in/a.jpg" "/job/a_2.jpg" "new" interruptedWorld).
  reflexivity.
Defined.

(** ** The scan of the stock *)

Lemma prefix_append_self (a c : string) : String.prefix a (a +:+ c) = true.
Proof.
  induction a as [|x a IH]; [destruct c; reflexivity|].
  rewrite append_cons. simpl. destruct (Ascii.ascii_dec x x); [exact IH | contradiction].
Qed.

Lemma prefix_append (a b c : string) :
  String.prefix a b = true -> String.prefix a (b +:+ c) = true.
Proof.
  revert b. induction a as [|x a IH]; intros b Hp; [destruct (b +:+ c); reflexivity|].
  destruct b as [|y b]; [discriminate|]. rewrite append_cons. simpl in *.
  destruct (Ascii.ascii_dec x y); [apply IH; exact Hp | discriminate].
Qed.

Lemma substring_all (p : string) : substring 0 (String.length p) p = p.
Proof. induction p as [|c p IH]; [reflexivity|]. simpl. f_equal. exact IH. Qed.

Lemma prefix_split (a p : string) :
  String.prefix a p = true ->
  p = a +:+ substring (String.length a) (String.length p - String.length a) p.
Proof.
  revert p. induction a as [|x a IH]; intros p Hp.
  - cbn [String.length]. rewrite Nat.sub_0_r, substring_all. reflexivity.
  - destruct p as [|y p]; [discriminate|]. simpl in Hp.
    destruct (Ascii.ascii_dec x y) as [->|]; [|discriminate].
    rewrite append_cons. simpl. f_equal. apply IH. exact Hp.
Qed.

Lemma childName_join (d p n : string) :
  childName d p = Some n ->
  p = join d n /\ containsSlash n = false /\ isEmpty n = false.
Proof.
  unfold childName. destruct (String.prefix (d +:+ "/") p) eqn:Ep; [|discriminate].
  destruct (isEmpty _ || containsSlash _) eqn:En; [discriminate|].
  intros [= <-]. apply orb_false_iff in En. destruct En as [He Hs].
  split; [|split; assumption].
  pose proof (prefix_split _ _ Ep) as Hsplit.
  rewrite append_length in Hsplit. simpl in Hsplit.
  unfold join. rewrite <- append_assoc. exact Hsplit.
Qed.

Lemma containsSlash_append (a b : string) :
  containsSlash (a +:+ "/" +:+ b) = true.
Proof.
  induction a as [|c a IH]; [reflexivity|].
  rewrite append_cons. simpl. rewrite IH. apply orb_true_r.
Qed.

Lemma basename_join (d n : string) : containsSlash n = false -> basename (join d n) = n.
Proof.
  intros Hn. unfold join. induction d as [|c d IH].
  - change ("" +:+ "/" +:+ n) with (String "/" n). cbn [basename]. rewrite Hn. reflexivity.
  - rewrite append_cons. cbn [basename]. rewrite containsSlash_append. exact IH.
Qed.

Lemma under_join_root (root n : string) : under root (join root n).
Proof. unfold under, join. rewrite <- append_assoc. apply prefix_append_self. Qed.

Lemma under_join (root d n : string) : under root d -> under root (join d n).
Proof. unfold under, join. apply prefix_append. Qed.

Lemma readdir_step (d : string) (w : world) (entries : list dirent) :
  resultOf (readdir d w) = Ok entries ->
  entries = children w d /\
  files (worldOf (readdir d w)) = files w /\ dirs (worldOf (readdir d w)) = dirs w.
Proof.
  unfold readdir.
  destruct (syscall_cases (A := list dirent) (Readdir d)
              (fun w => if bool_decide (d ∈ dirs w) then (inr (children w d), w)
                        else if bool_decide (is_Some (files w !! d)) then (inl "ENOTDIR"%string, w)
                        else (inl "ENOENT"%string, w)) w)
    as [(code & later & _ & ->) | ->]; [discriminate|].
  cbn [files dirs withFaults].
  destruct (bool_decide (d ∈ dirs w)).
  - intros [= <-]. repeat split; reflexivity.
  - destruct (bool_decide _); discriminate.
Qed.

Lemma children_inv (w : world) (d : string) (entry : dirent) :
  entry ∈ children w d ->
  containsSlash (entryName entry) = false /\
  match entryKind entry with
  | IsFile => is_Some (files w !! join d (entryName entry))
  | IsDirectory => join d (entryName entry) ∈ dirs w
  | IsOther => False
  end.
Proof.
  unfold children. intros Hin. apply elem_of_app in Hin. destruct Hin as [Hin | Hin];
    apply list_elem_of_omap in Hin; destruct Hin as (p & Hp & Hn);
    destruct (childName d p) as [n|] eqn:En; try discriminate;
    simpl in Hn; injection Hn as <-;
    apply childName_join in En; destruct En as (-> & Hs & _); simpl; (split; [exact Hs|]).
  - apply list_elem_of_fmap in Hp. destruct Hp as ([k v] & -> & Hkv).
    apply elem_of_map_to_list in Hkv. simpl. rewrite Hkv. eauto.
  - apply elem_of_elements in Hp. exact Hp.
Qed.

Section Scan.
Context `{Builtins}.
Variables (w : world) (root : string) (exts : list string).

Lemma visit_state (current : string) (entries : list dirent) (queue results : list string) :
  current = root \/ under root current ->
  Forall (fun entry => entry ∈ children w current) entries ->
  scanState w root exts queue results ->
  scanState w root exts (fst (fold_left (visit exts current) entries (queue, results)))
            (snd (fold_left (visit exts current) entries (queue, results))).
Proof.
  intros Hcur Hall. revert queue results.
  induction Hall as [|entry entries Hentry Hall IH]; intros queue results Hs; [exact Hs|].
  cbn [fold_left]. destruct Hs as [Hq Hr].
  assert (Hund : under root (join current (entryName entry))).
  { destruct Hcur as [-> | Hcur]; [apply under_join_root | apply under_join; exact Hcur]. }
  destruct (children_inv _ _ _ Hentry) as [Hslash Hkind].
  set (acc := visit exts current (queue, results) entry).
  assert (Hacc : scanState w root exts (fst acc) (snd acc)).
  { unfold acc, visit. destruct (entryKind entry).
    - split; [|exact Hr]. apply Forall_app. split; [exact Hq|].
      constructor; [right; exact Hund | constructor].
    - destruct (bool_decide (toLowerCase (extname (entryName entry)) ∈ exts)) eqn:Eext.
      + split; [exact Hq|]. apply Forall_app. split; [exact Hr|].
        constructor; [|constructor]. split; [exact Hkind|]. split; [exact Hund|].
        rewrite basename_join by exact Hslash. apply bool_decide_eq_true_1 in Eext. exact Eext.
      + split; assumption.
    - destruct Hkind. }
  destruct acc as [queue' results']. apply IH. exact Hacc.
Qed.
End Scan.

Section ScanWalk.
Context `{Builtins}.

Lemma walk_sound (fuel : nat) (root : string) (exts queue results : list string) (w : world)
      (out : list string) :
  scanState w root exts queue results ->
  resultOf (walk fuel exts queue results w) = Ok out ->
  Forall (scannable w root exts) out /\
  files (worldOf (walk fuel exts queue results w)) = files w /\
  dirs (worldOf (walk fuel exts queue results w)) = dirs w.
Proof.
  revert queue results w. induction fuel as [|fuel IH]; intros queue results w Hs Hout.
  - destruct queue; simpl in Hout; [|discriminate]. injection Hout as <-.
    split; [apply Hs | split; reflexivity].
  - destruct queue as [|current queue].
    { simpl in Hout. injection Hout as <-. split; [apply Hs | split; reflexivity]. }
    cbn [walk] in *. rewrite bind_result in Hout. rewrite bind_world.
    destruct (resultOf (readdir current w)) as [entries|e] eqn:Er; [|discriminate].
    destruct (readdir_step _ _ _ Er) as (Hentries & Hf & Hd).
    destruct Hs as [Hq Hr]. apply Forall_cons in Hq. destruct Hq as [Hcur Hq].
    assert (Hstate := visit_state w root exts current entries queue results Hcur
                        ltac:(rewrite Hentries; apply Forall_forall; auto)
                        (conj Hq Hr)).
    destruct (fold_left (visit exts current) entries (queue, results)) as [queue' results'].
    set (w1 := worldOf (readdir current w)) in *.
    assert (Hs1 : scanState w1 root exts queue' results').
    { destruct Hstate as [Hq' Hr']. split; [exact Hq'|].
      eapply Forall_impl; [exact Hr'|]. intros p (Hp & Hu & He).
      split; [rewrite Hf; exact Hp | split; assumption]. }
    destruct (IH queue' results' w1 Hs1 Hout) as (Hall & Hf' & Hd').
    split; [|split; congruence].
    eapply Forall_impl; [exact Hall|]. intros p (Hp & Hu & He).
    split; [rewrite <- Hf; exact Hp | split; assumption].
Qed.

Lemma insertPath_perm (x : string) (sorted : list string) :
  Permutation (insertPath x sorted) (x :: sorted).
Proof.
  induction sorted as [|y sorted IH]; [reflexivity|]. simpl.
  destruct (localeCompare x y <=? 0); [reflexivity|].
  rewrite IH. apply perm_swap.
Qed.

Lemma sortPaths_perm (l : list string) : Permutation (sortPaths l) l.
Proof.
  induction l as [|x l IH]; [reflexivity|]. simpl.
  rewrite insertPath_perm. apply perm_skip. exact IH.
Qed.

Lemma existsSync_store (path : string) (w : world) :
  files (worldOf (existsSync path w)) = files w /\
  dirs (worldOf (existsSync path w)) = dirs w /\
  (resultOf (existsSync path w) = Ok true \/ resultOf (existsSync path w) = Ok false).
Proof.
  unfold existsSync. destruct (faults w) as [|[code|] later]; simpl;
    (split; [reflexivity|]); (split; [reflexivity|]); auto;
    destruct (pathExists w path); auto.
Qed.

(** X13. Whatever the scan returns is a regular file of the store, under
    the root it was given, with an extension that, in lower case, is one
    of the extensions asked for; and the scan changes neither the files nor
    the directories, whatever fails on the way. *)
Theorem collectFilesRecursive_sound (fuel : nat) (root : string) (exts : list string)
        (w : world) (out : list string) :
  resultOf (collectFilesRecursive fuel root exts w) = Ok out ->
  Forall (scannable w root exts) out /\
  files (worldOf (collectFilesRecursive fuel root exts w)) = files w /\
  dirs (worldOf (collectFilesRecursive fuel root exts w)) = dirs w.
Proof.
  unfold collectFilesRecursive. intros Hout.
  rewrite bind_result in Hout. rewrite bind_world.
  destruct (existsSync_store root w) as (Hf & Hd & [Hr | Hr]); rewrite Hr in *;
    cbn [negb] in *.
  2:{ injection Hout as <-. split; [constructor | split; assumption]. }
  set (w1 := worldOf (existsSync root w)) in *.
  rewrite bind_result in Hout. rewrite bind_world.
  destruct (resultOf (walk fuel exts [root] [] w1)) as [results|e] eqn:Ew; [|discriminate].
  injection Hout as <-.
  assert (Hs : scanState w1 root exts [root] []).
  { split; [constructor; [left; reflexivity | constructor] | constructor]. }
  destruct (walk_sound fuel root exts [root] [] w1 results Hs Ew) as (Hall & Hf' & Hd').
  cbn [worldOf mret M_ret ret fst snd]. split; [|split; congruence].
  apply Forall_forall. intros p Hp.
  rewrite (sortPaths_perm results) in Hp.
  rewrite Forall_forall in Hall. destruct (Hall p Hp) as (Hfile & Hu & He).
  split; [rewrite <- Hf; exact Hfile | split; assumption].
Qed.

Lemma insertPath_sorted (x : string) (sorted : list string) :
  (forall a b, localeLe a b \/ localeLe b a) ->
  Sorted localeLe sorted -> Sorted localeLe (insertPath x sorted).
Proof.
  intros Htotal Hs. induction Hs as [|y sorted Hs IH Hhd]; simpl.
  - constructor; constructor.
  - destruct (localeCompare x y <=? 0) eqn:Ex.
    + constructor; [constructor; assumption|]. constructor. apply Z.leb_le. exact Ex.
    + assert (Hyx : localeLe y x).
      { destruct (Htotal x y) as [Hxy | Hyx]; [|exact Hyx].
        apply Z.leb_gt in Ex. unfold localeLe in Hxy. lia. }
      constructor; [exact IH|].
      destruct sorted as [|z sorted]; simpl; [constructor; exact Hyx|].
      destruct (localeCompare x z <=? 0); constructor; [exact Hyx|].
      apply HdRel_inv in Hhd. exact Hhd.
Qed.

Lemma sortPaths_sorted (l : list string) :
  (forall a b, localeLe a b \/ localeLe b a) -> Sorted localeLe (sortPaths l).
Proof.
  intros Htotal. induction l as [|x l IH]; [constructor|].
  simpl. apply insertPath_sorted; assumption.
Qed.

(** X14. Provided [localeCompare] compares any two paths one way or the
    other, the scan returns its paths in the order of [localeCompare],
    whatever order the directories list their entries in. *)
Theorem collectFilesRecursive_sorted (fuel : nat) (root : string) (exts : list string)
        (w : world) (out : list string) :
  (forall a b, localeLe a b \/ localeLe b a) ->
  resultOf (collectFilesRecursive fuel root exts w) = Ok out ->
  Sorted localeLe out.
Proof.
  intros Htotal. unfold collectFilesRecursive. rewrite bind_result.
  destruct (resultOf (existsSync root w)) as [[|]|e]; cbn [negb]; [| |discriminate].
  - rewrite bind_result.
    destruct (resultOf (walk _ _ _ _ _)) as [results|e]; [|discriminate].
    intros [= <-]. apply sortPaths_sorted. exact Htotal.
  - intros [= <-]. constructor.
Qed.

(** X15. The edges of the scan, when nothing fails: a root that does not
    exist gives the empty list, not an error, and no directory is read; a
    root that is a regular file makes the scan fail with [ENOTDIR]. *)
Theorem collectFilesRecursive_edges (fuel : nat) (root : string) (exts : list string)
        (w : world) :
  calm w ->
  (pathExists w root = false ->
   collectFilesRecursive (S fuel) root exts w = (Ok [], w, [succeeded (ExistsSync root)])) /\
  (is_Some (files w !! root) -> root ∉ dirs w ->
   resultOf (collectFilesRecursive (S fuel) root exts w) = Throw (SysError "ENOTDIR")).
Proof.
  intros Hc. unfold calm in Hc.
  assert (He : existsSync root w = (Ok (pathExists w root), w, [succeeded (ExistsSync root)])).
  { unfold existsSync. rewrite Hc. cbn [tail]. rewrite <- Hc.
    destruct w; reflexivity. }
  unfold collectFilesRecursive. rewrite (bind_ok _ _ _ _ _ _ He). split.
  - intros ->. reflexivity.
  - intros Hfile Hnd.
    assert (pathExists w root = true) as ->
      by (destruct Hfile as [c Hc']; apply (pathExists_file w root c Hc')).
    cbn [negb resultOf fst]. rewrite bind_result. cbn [walk]. rewrite bind_result.
    unfold readdir. rewrite (syscall_calm _ _ _ Hc).
    rewrite bool_decide_eq_false_2 by exact Hnd.
    rewrite bool_decide_eq_true_2 by exact Hfile. reflexivity.
Qed.
End ScanWalk.

Lemma sample_localeCompare_total (a b : string) :
  @localeLe sampleBuiltins a b \/ @localeLe sampleBuiltins b a.
Proof.
  unfold localeLe. simpl. rewrite (String.compare_antisym a b).
  destruct (String.compare b a); simpl; lia.
Qed.

Lemma collectFilesRecursive_sound_witness :
  Forall (@scannable sampleBuiltins scanWorld "/r/source_media/images" IMAGE_EXTENSIONS)
         ["/r/source_media/images/a.jpg"; "/r/source_media/images/b.jpg";
          "/r/source_media/images/old/Z.JPG"]%string.
Proof.
  apply (@collectFilesRecursive_sound sampleBuiltins 5 "/r/source_media/images"
           IMAGE_EXTENSIONS scanWorld).
  vm_compute. reflexivity.
Defined.

Lemma collectFilesRecursive_sorted_witness :
  Sorted (@localeLe sampleBuiltins)
         ["/r/source_media/images/a.jpg"; "/r/source_media/images/b.jpg";
          "/r/source_media/images/old/Z.JPG"]%string.
Proof.
  apply (@collectFilesRecursive_sorted sampleBuiltins 5 "/r/source_media/images"
           IMAGE_EXTENSIONS scanWorld).
  - exact sample_localeCompare_total.
  - vm_compute. reflexivity.
Defined.

Lemma collectFilesRecursive_edges_witness :
  @collectFilesRecursive sampleBuiltins 1 "/r/source_media/images" IMAGE_EXTENSIONS sampleWorld
  = (Ok [], sampleWorld, [succeeded (ExistsSync "/r/source_media/images")]) /\
  resultOf (@collectFilesRecursive sampleBuiltins 1 "/r/data/captions.json" IMAGE_EXTENSIONS
              sampleWorld)
  = Throw (SysError "ENOTDIR").
Proof.
  pose proof (@collectFilesRecursive_edges sampleBuiltins 0 "/r/source_media/images"
                IMAGE_EXTENSIONS sampleWorld eq_refl) as [Hmissing _].
  pose proof (@collectFilesRecursive_edges sampleBuiltins 0 "/r/data/captions.json"
                IMAGE_EXTENSIONS sampleWorld eq_refl) as [_ Hfile].
  split.
  - apply Hmissing. reflexivity.
  - apply Hfile; [vm_compute; eauto | apply not_elem_of_empty].
Defined.

(** *** The scan misses nothing *)

Lemma substring_append (a n : string) :
  substring (String.length a) (String.length (a +:+ n) - String.length a) (a +:+ n) = n.
Proof.
  induction a as [|c a IH].
  - change ("" +:+ n) with n. cbn [String.length]. rewrite Nat.sub_0_r. apply substring_all.
  - rewrite append_cons. cbn [String.length substring Nat.sub]. exact IH.
Qed.

Lemma childName_of_join (d n : string) : plainName n -> childName d (join d n) = Some n.
Proof.
  intros [He Hs]. unfold childName, join.
  rewrite <- append_assoc, prefix_append_self.
  replace (String.length d + 1)%nat with (String.length (d +:+ "/"))
    by (rewrite append_length; reflexivity).
  rewrite substring_append, He, Hs. reflexivity.
Qed.

Lemma children_dir (w : world) (d n : string) :
  join d n ∈ dirs w -> plainName n ->
  {| entryName := n; entryKind := IsDirectory |} ∈ children w d.
Proof.
  intros Hd Hn. unfold children. apply elem_of_app. right.
  apply list_elem_of_omap. exists (join d n). split; [apply elem_of_elements; exact Hd|].
  rewrite (childName_of_join d n Hn). reflexivity.
Qed.

Lemma children_file (w : world) (d n : string) :
  is_Some (files w !! join d n) -> plainName n ->
  {| entryName := n; entryKind := IsFile |} ∈ children w d.
Proof.
  intros [content Hf] Hn. unfold children. apply elem_of_app. left.
  apply list_elem_of_omap. exists (join d n). split.
  - apply list_elem_of_fmap. exists (join d n, content). split; [reflexivity|].
    apply elem_of_map_to_list. exact Hf.
  - rewrite (childName_of_join d n Hn). reflexivity.
Qed.

Lemma below_trans (w : world) (a b c : string) : below w a b -> below w b c -> below w a c.
Proof.
  intros Hab Hbc. induction Hbc as [|d n Hbd IH Hd Hn]; [exact Hab|].
  apply below_child; assumption.
Qed.

Lemma below_first (w : world) (q d : string) :
  below w q d ->
  d = q \/ exists n, join q n ∈ dirs w /\ plainName n /\ below w (join q n) d.
Proof.
  induction 1 as [|d n Hqd IH Hd Hn]; [left; reflexivity|]. right.
  destruct IH as [-> | (n0 & Hd0 & Hn0 & Hrest)].
  - exists n. split; [exact Hd|]. split; [exact Hn | apply below_root].
  - exists n0. split; [exact Hd0|]. split; [exact Hn0|]. apply below_child; assumption.
Qed.

Section ScanComplete.
Context `{Builtins}.
Variables (w : world) (root : string) (exts : list string).

Lemma visit_grows (current : string) (entries : list dirent) (queue results : list string) :
  (forall q, q ∈ queue -> q ∈ fst (fold_left (visit exts current) entries (queue, results))) /\
  (forall r, r ∈ results -> r ∈ snd (fold_left (visit exts current) entries (queue, results))).
Proof.
  revert queue results. induction entries as [|entry entries IH]; intros queue results.
  - split; auto.
  - cbn [fold_left]. unfold visit at 2 4.
    destruct (entryKind entry); [| |apply IH].
    + destruct (IH (queue ++ [join current (entryName entry)]) results) as [IHq IHr].
      split; [|exact IHr]. intros q Hq. apply IHq. apply elem_of_app. left. exact Hq.
    + destruct (bool_decide _); [|apply IH].
      destruct (IH queue (results ++ [join current (entryName entry)])) as [IHq IHr].
      split; [exact IHq|]. intros r Hr. apply IHr. apply elem_of_app. left. exact Hr.
Qed.

Lemma visit_finds (current : string) (entries : list dirent) (queue results : list string)
      (entry : dirent) :
  entry ∈ entries ->
  match entryKind entry with
  | IsDirectory =>
      join current (entryName entry)
      ∈ fst (fold_left (visit exts current) entries (queue, results))
  | IsFile =>
      toLowerCase (extname (entryName entry)) ∈ exts ->
      join current (entryName entry)
      ∈ snd (fold_left (visit exts current) entries (queue, results))
  | IsOther => True
  end.
Proof.
  revert queue results. induction entries as [|e entries IH]; intros queue results Hin.
  - apply elem_of_nil in Hin. destruct Hin.
  - apply elem_of_cons in Hin. cbn [fold_left].
    set (acc := visit exts current (queue, results) e).
    destruct Hin as [<- | Hin].
    + destruct (entryKind entry) eqn:Ek; [| |exact I].
      * assert (Hacc : join current (entryName entry) ∈ fst acc).
        { unfold acc, visit. rewrite Ek. apply elem_of_app. right. left. }
        destruct acc as [q' r']. apply (visit_grows current entries q' r'). exact Hacc.
      * intros Hext.
        assert (Hacc : join current (entryName entry) ∈ snd acc).
        { unfold acc, visit. rewrite Ek, (bool_decide_eq_true_2 _ Hext).
          apply elem_of_app. right. left. }
        destruct acc as [q' r']. apply (visit_grows current entries q' r'). exact Hacc.
    + destruct acc as [q' r']. apply IH. exact Hin.
Qed.

Lemma readdir_calm (d : string) :
  calm w ->
  readdir d w
  = if bool_decide (d ∈ dirs w) then (Ok (children w d), w, [succeeded (Readdir d)])
    else if bool_decide (is_Some (files w !! d))
         then (Throw (SysError "ENOTDIR"), w, [{| what := Readdir d; failed := Some "ENOTDIR"%string |}])
         else (Throw (SysError "ENOENT"), w, [{| what := Readdir d; failed := Some "ENOENT"%string |}]).
Proof.
  intros Hc. unfold readdir. rewrite (syscall_calm _ _ _ Hc).
  destruct (bool_decide (d ∈ dirs w)); [reflexivity|].
  destruct (bool_decide _); reflexivity.
Qed.

Lemma walk_complete (fuel : nat) (queue results out : list string) :
  calm w ->
  scanCovers w root exts queue results ->
  resultOf (walk fuel exts queue results w) = Ok out ->
  forall d n, below w root d -> eligibleIn w exts d n -> join d n ∈ out.
Proof.
  intros Hc. revert queue results. induction fuel as [|fuel IH]; intros queue results Hcov Hout.
  - destruct queue; simpl in Hout; [|discriminate]. injection Hout as <-.
    intros d n Hd Hn. destruct (Hcov d Hd) as [(q & Hq & _) | Hdone]; [|apply Hdone; exact Hn].
    apply elem_of_nil in Hq. destruct Hq.
  - destruct queue as [|current queue].
    { simpl in Hout. injection Hout as <-.
      intros d n Hd Hn. destruct (Hcov d Hd) as [(q & Hq & _) | Hdone]; [|apply Hdone; exact Hn].
      apply elem_of_nil in Hq. destruct Hq. }
    cbn [walk] in Hout. rewrite bind_result, (readdir_calm current Hc) in Hout.
    destruct (bool_decide (current ∈ dirs w)); [|destruct (bool_decide _); discriminate].
    cbn [resultOf worldOf fst snd] in Hout.
    pose proof (visit_grows current (children w current) queue results) as [Hgq Hgr].
    pose proof (fun e => visit_finds current (children w current) queue results e) as Hfind.
    destruct (fold_left (visit exts current) (children w current) (queue, results))
      as [queue' results'].
    cbn [fst snd] in *. apply (IH queue' results'); [|exact Hout].
    intros d Hd. destruct (Hcov d Hd) as [(q & Hq & Hqd) | Hdone].
    2:{ right. intros n Hn. apply Hgr. apply Hdone. exact Hn. }
    apply elem_of_cons in Hq. destruct Hq as [-> | Hq].
    2:{ left. exists q. split; [apply Hgq; exact Hq | exact Hqd]. }
    destruct (below_first w current d Hqd) as [-> | (n0 & Hd0 & Hn0 & Hrest)].
    + right. intros n (Hfile & Hplain & Hext).
      apply (Hfind _ (children_file w current n Hfile Hplain)). exact Hext.
    + left. exists (join current n0). split; [|exact Hrest].
      apply (Hfind _ (children_dir w current n0 Hd0 Hn0)).
Qed.
End ScanComplete.

(** X16. When nothing fails, the scan misses nothing: if it returns, its
    result holds every regular file with one of the extensions asked for
    (compared in lower case) that is in the root or in a directory below
    it, at any depth. *)
Theorem collectFilesRecursive_complete `{Builtins} (fuel : nat) (root : string)
        (exts : list string) (w : world) (out : list string) :
  calm w -> root ∈ dirs w ->
  resultOf (collectFilesRecursive fuel root exts w) = Ok out ->
  forall d n, below w root d -> eligibleIn w exts d n -> join d n ∈ out.
Proof.
  intros Hc Hroot Hout d n Hd Hn. unfold collectFilesRecursive in Hout.
  assert (He : existsSync root w = (Ok true, w, [succeeded (ExistsSync root)])).
  { unfold existsSync. rewrite Hc. cbn [tail]. rewrite <- Hc.
    assert (pathExists w root = true) as ->.
    { unfold pathExists. rewrite (bool_decide_eq_true_2 _ Hroot). apply orb_true_r. }
    destruct w; reflexivity. }
  rewrite (bind_ok _ _ _ _ _ _ He) in Hout. cbn [negb resultOf fst] in Hout.
  rewrite bind_result in Hout.
  destruct (resultOf (walk fuel exts [root] [] w)) as [results|e] eqn:Ew; [|discriminate].
  injection Hout as <-.
  rewrite (sortPaths_perm results).
  apply (walk_complete w root exts fuel [root] [] results Hc); try assumption.
  intros d' Hd'. left. exists root. split; [left | exact Hd'].
Qed.

Lemma collectFilesRecursive_complete_witness :
  ("/r/source_media/images/old/Z.JPG" : string)
  ∈ ["/r/source_media/images/a.jpg"; "/r/source_media/images/b.jpg";
     "/r/source_media/images/old/Z.JPG"]%string.
Proof.
  apply (@collectFilesRecursive_complete sampleBuiltins 5 "/r/source_media/images"
           IMAGE_EXTENSIONS scanWorld _ eq_refl
           ltac:(apply elem_of_union; left; apply elem_of_singleton; reflexivity)
           ltac:(vm_compute; reflexivity)
           "/r/source_media/images/old" "Z.JPG").
  - apply (below_child scanWorld "/r/source_media/images" "/r/source_media/images" "old").
    + apply below_root.
    + apply elem_of_union. right. apply elem_of_singleton. reflexivity.
    + split; reflexivity.
  - split; [vm_compute; eauto|]. split; [split; reflexivity|].
    vm_compute. left.
Defined.

(** ** The job directory *)

Lemma string_of_uint_length (d : Decimal.uint) :
  String.length (NilEmpty.string_of_uint d) = Decimal.nb_digits d.
Proof. induction d; simpl; congruence. Qed.

Lemma string_of_uint_inj (d d' : Decimal.uint) :
  NilEmpty.string_of_uint d = NilEmpty.string_of_uint d' -> d = d'.
Proof.
  intros Heq. apply (f_equal NilEmpty.uint_of_string) in Heq.
  rewrite !NilEmpty.usu in Heq. injection Heq as Heq. exact Heq.
Qed.

Lemma padStart2_uint (d : Decimal.uint) :
  exists padded,
    padStart2 (NilEmpty.string_of_uint d) = NilEmpty.string_of_uint padded /\
    Decimal.unorm padded = Decimal.unorm d.
Proof.
  unfold padStart2. rewrite string_of_uint_length.
  destruct d as [|d|d|d|d|d|d|d|d|d|d];
    try (destruct d; [eexists (Decimal.D0 _); split; [reflexivity | apply DecimalFacts.unorm_D0]
                     | eexists; split; reflexivity ..]).
  exists (Decimal.D0 (Decimal.D0 Decimal.Nil)). split; reflexivity.
Qed.

Lemma to_uint_normal (n : nat) : Decimal.unorm (Nat.to_uint n) = Nat.to_uint n.
Proof. rewrite <- Unsigned.to_of, Unsigned.of_to. reflexivity. Qed.

Lemma padStart2_showNat_inj (j k : nat) :
  padStart2 (showNat j) = padStart2 (showNat k) -> j = k.
Proof.
  unfold showNat. intros Heq.
  destruct (padStart2_uint (Nat.to_uint j)) as (pj & Hj & Hnj).
  destruct (padStart2_uint (Nat.to_uint k)) as (pk & Hk & Hnk).
  rewrite Hj, Hk in Heq. apply string_of_uint_inj in Heq. subst pk.
  apply Unsigned.to_uint_inj. rewrite <- (to_uint_normal j), <- (to_uint_normal k). congruence.
Qed.

Lemma directoryCandidate_inj (baseDir desiredName : string) (j k : nat) :
  directoryCandidate baseDir desiredName j = directoryCandidate baseDir desiredName k -> j = k.
Proof.
  unfold directoryCandidate. intros Heq. apply join_inj, append_cancel_l in Heq.
  destruct j as [|j], k as [|k]; cbn [Nat.eqb] in Heq; try reflexivity; try discriminate.
  rewrite !append_cons in Heq. injection Heq as Heq.
  change ("" +:+ ?s) with s in Heq. apply padStart2_showNat_inj. exact Heq.
Qed.

Lemma containsSlash_app (a b : string) :
  containsSlash (a +:+ b) = containsSlash a || containsSlash b.
Proof.
  induction a as [|c a IH]; [reflexivity|].
  change (String c a +:+ b) with (String c (a +:+ b)). cbn [containsSlash].
  rewrite IH, orb_assoc. reflexivity.
Qed.

Lemma parentOf_join (d n : string) : containsSlash n = false -> parentOf (join d n) = d.
Proof.
  intros Hn. unfold join. induction d as [|c d IH].
  - change ("" +:+ "/" +:+ n) with (String "/" n). cbn [parentOf]. rewrite Hn. reflexivity.
  - rewrite append_cons. cbn [parentOf]. rewrite containsSlash_append, IH. reflexivity.
Qed.

(** A name is made in a directory that is there. *)
Lemma missingParent_join (w : world) (d n : string) :
  d ∈ dirs w -> containsSlash n = false -> missingParent w (join d n) = None.
Proof.
  intros Hd Hn. unfold missingParent. rewrite (parentOf_join _ _ Hn).
  destruct (isEmpty d); [reflexivity|]. rewrite bool_decide_eq_true_2 by exact Hd. reflexivity.
Qed.

Lemma containsSlash_uint (u : Decimal.uint) :
  containsSlash (NilEmpty.string_of_uint u) = false.
Proof. induction u; cbn; auto. Qed.

Lemma containsSlash_padStart2 (k : nat) : containsSlash (padStart2 (showNat k)) = false.
Proof.
  unfold showNat. destruct (padStart2_uint (Nat.to_uint k)) as (p & -> & _).
  apply containsSlash_uint.
Qed.

Lemma mkdir_calm (path : string) (w : world) :
  calm w -> missingParent w path = None ->
  mkdir path false w
  = if pathExists w path
    then (Throw (SysError "EEXIST"), w, [{| what := Mkdir path false; failed := Some "EEXIST"%string |}])
    else (Ok tt, withStore (files w) ({[path]} ∪ dirs w) w, [succeeded (Mkdir path false)]).
Proof.
  intros Hc Hp. unfold mkdir. rewrite (syscall_calm _ _ _ Hc). cbn beta iota. rewrite Hp.
  destruct (pathExists w path); reflexivity.
Qed.

Section FreeDirectory.
Context (baseDir desiredName : string).

Abbreviation dirCand := (directoryCandidate baseDir desiredName).

Lemma directoryCandidate_parent (w : world) (k : nat) :
  baseDir ∈ dirs w -> containsSlash desiredName = false ->
  missingParent w (dirCand k) = None.
Proof.
  intros Hb Hn. unfold directoryCandidate. apply missingParent_join; [exact Hb|].
  rewrite containsSlash_app, Hn. destruct (k =? 0)%nat; [reflexivity|].
  rewrite containsSlash_app, containsSlash_padStart2. reflexivity.
Qed.

(** The loop tries the candidates in order and creates the first free one. *)
Lemma uniqueDirectoryLoop_calm (w : world) (fuel attempt : nat) :
  calm w ->
  (forall k, missingParent w (dirCand k) = None) ->
  let r := uniqueDirectoryLoop fuel baseDir desiredName attempt w in
  (exists k, (attempt <= k < attempt + fuel)%nat /\
             pathExists w (dirCand k) = false /\
             (forall j, (attempt <= j < k)%nat -> pathExists w (dirCand j) = true) /\
             r = (Ok (dirCand k), withStore (files w) ({[dirCand k]} ∪ dirs w) w,
                  map (fun j => {| what := Mkdir (dirCand j) false;
                                   failed := Some "EEXIST"%string |})
                      (seq attempt (k - attempt))
                  ++ [succeeded (Mkdir (dirCand k) false)])) \/
  ((forall j, (attempt <= j < attempt + fuel)%nat -> pathExists w (dirCand j) = true) /\
   resultOf r = Throw OutOfFuel /\ worldOf r = w).
Proof.
  intros Hc Hparent. revert attempt. induction fuel as [|fuel IH]; intros attempt r.
  - right. split; [intros j Hj; lia | split; reflexivity].
  - unfold r. cbn [uniqueDirectoryLoop]. fold (dirCand attempt).
    change (join baseDir (desiredName +:+ (if (attempt =? 0)%nat then ""%string
                                           else "_" +:+ padStart2 (showNat attempt))))
      with (dirCand attempt).
    destruct (pathExists w (dirCand attempt)) eqn:Ep.
    + assert (H1 : catching (mkdir (dirCand attempt) false) w
                   = (Ok (Throw (SysError "EEXIST")), w,
                      [{| what := Mkdir (dirCand attempt) false;
                          failed := Some "EEXIST"%string |}])).
      { unfold catching. rewrite (mkdir_calm _ _ Hc (Hparent attempt)), Ep. reflexivity. }
      rewrite (bind_ok _ _ _ _ _ _ H1). cbn [hasCode String.eqb Ascii.eqb Bool.eqb negb].
      destruct (IH (S attempt)) as [(k & Hk & Hfree & Hbefore & Hres) | (Hall & Hres & Hw)].
      * left. exists k. split; [lia|]. split; [exact Hfree|]. split.
        { intros j Hj. destruct (decide (j = attempt)) as [->|Hne]; [exact Ep|].
          apply Hbefore. lia. }
        rewrite Hres. unfold resultOf, worldOf, eventsOf. cbn [fst snd].
        replace (k - attempt)%nat with (S (k - S attempt)) by lia. reflexivity.
      * right. split; [|split; [exact Hres | exact Hw]].
        intros j Hj. destruct (decide (j = attempt)) as [->|Hne]; [exact Ep|].
        apply Hall. lia.
    + assert (H1 : catching (mkdir (dirCand attempt) false) w
                   = (Ok (Ok tt), withStore (files w) ({[dirCand attempt]} ∪ dirs w) w,
                      [succeeded (Mkdir (dirCand attempt) false)])).
      { unfold catching. rewrite (mkdir_calm _ _ Hc (Hparent attempt)), Ep. reflexivity. }
      rewrite (bind_ok _ _ _ _ _ _ H1). left. exists attempt.
      split; [lia|]. split; [exact Ep|]. split; [intros j Hj; lia|].
      rewrite Nat.sub_diag. reflexivity.
Qed.

Lemma free_directoryCandidate (w : world) :
  exists k, (k < S (size (existing w)))%nat /\ pathExists w (dirCand k) = false.
Proof.
  destruct (bounded_search (fun k => pathExists w (dirCand k)) (S (size (existing w))))
    as [Hfound | Hall]; [exact Hfound|]. exfalso.
  set (n := size (existing w)) in *.
  set (l := map dirCand (seq 0 (S n))).
  assert (Hnd : NoDup l).
  { unfold l. apply NoDup_fmap_2; [intros j k; apply directoryCandidate_inj | apply NoDup_seq]. }
  assert (Hsub : (list_to_set l : gset string) ⊆ existing w).
  { intros p Hp. apply elem_of_list_to_set in Hp. unfold l in Hp.
    apply list_elem_of_fmap in Hp. destruct Hp as (k & -> & Hk).
    apply elem_of_seq in Hk. apply pathExists_existing. apply Hall. lia. }
  apply subseteq_size in Hsub. rewrite (size_list_to_set l Hnd) in Hsub.
  unfold l in Hsub. rewrite length_map, length_seq in Hsub. fold n in Hsub. lia.
Qed.

End FreeDirectory.


(** ** The directories of the engine *)

Example ancestors_of_images :
  ancestors "/r/source_media/images" = ["/r"; "/r/source_media"]%string /\
  parentOf "/r/source_media/images" = "/r/source_media"%string /\
  parentOf "/r" = ""%string.
Proof. repeat split. Qed.

Lemma mkdir_recursive_there (path : string) (w : world) :
  calm w -> path ∈ dirs w ->
  mkdir path true w = (Ok tt, w, [succeeded (Mkdir path true)]).
Proof.
  intros Hc Hin. unfold mkdir. rewrite (syscall_calm _ _ _ Hc). cbn beta iota.
  rewrite bool_decide_eq_true_2 by exact Hin. reflexivity.
Qed.

Lemma existsb_isFileOf (w : world) (l : list string) :
  (forall a, a ∈ l -> files w !! a = None) -> existsb (isFileOf w) l = false.
Proof.
  intros Hl. induction l as [|a l IH]; [reflexivity|]. cbn [existsb].
  unfold isFileOf at 1. rewrite bool_decide_eq_false_2.
  - apply IH. intros b Hb. apply Hl. right. exact Hb.
  - rewrite (Hl a) by left. intros [x Hx]. discriminate.
Qed.

Lemma mkdir_recursive_calm (path : string) (w : world) :
  calm w -> clearWay w path -> path ∉ dirs w ->
  mkdir path true w
  = (Ok tt, withStore (files w) ({[path]} ∪ list_to_set (ancestors path) ∪ dirs w) w,
     [succeeded (Mkdir path true)]).
Proof.
  intros Hc [Hnone Habove] Hout. unfold mkdir. rewrite (syscall_calm _ _ _ Hc). cbn beta iota.
  rewrite bool_decide_eq_false_2 by exact Hout.
  rewrite bool_decide_eq_false_2 by (rewrite Hnone; intros [x Hx]; discriminate).
  rewrite (existsb_isFileOf _ _ Habove). reflexivity.
Qed.

Lemma mkdir_recursive_store (path : string) (w : world) :
  calm w -> clearWay w path ->
  let w' := worldOf (mkdir path true w) in
  resultOf (mkdir path true w) = Ok tt /\
  calm w' /\ files w' = files w /\
  path ∈ dirs w' /\ dirs w ⊆ dirs w' /\
  (forall d, d ∈ dirs w' -> d ∈ dirs w \/ d = path \/ d ∈ ancestors path) /\
  (path ∉ dirs w -> forall a, a ∈ ancestors path -> a ∈ dirs w').
Proof.
  intros Hc Hclear w'. unfold w'. destruct (decide (path ∈ dirs w)) as [Hin | Hout].
  - rewrite (mkdir_recursive_there _ _ Hc Hin). cbn [resultOf worldOf fst snd].
    repeat split; try assumption; try reflexivity; [auto | contradiction].
  - rewrite (mkdir_recursive_calm _ _ Hc Hclear Hout).
    unfold resultOf, worldOf. cbn [fst snd withStore dirs files].
    split; [reflexivity|]. split; [exact Hc|]. split; [reflexivity|].
    split; [set_solver|]. split; [set_solver|]. split.
    + intros d Hd. rewrite !elem_of_union, elem_of_singleton, elem_of_list_to_set in Hd. tauto.
    + intros _ a Ha. rewrite !elem_of_union, elem_of_list_to_set. tauto.
Qed.

Lemma mkdir_recursive_refused (path a : string) (w : world) :
  calm w -> path ∉ dirs w -> files w !! path = None ->
  a ∈ ancestors path -> is_Some (files w !! a) ->
  mkdir path true w
  = (Throw (SysError "ENOTDIR"), w, [{| what := Mkdir path true; failed := Some "ENOTDIR"%string |}]).
Proof.
  intros Hc Hout Hnone Ha Hfile. unfold mkdir. rewrite (syscall_calm _ _ _ Hc). cbn beta iota.
  rewrite bool_decide_eq_false_2 by exact Hout.
  rewrite bool_decide_eq_false_2 by (rewrite Hnone; intros [x Hx]; discriminate).
  replace (existsb (isFileOf w) (ancestors path)) with true; [reflexivity|].
  symmetry. apply existsb_exists. exists a. split.
  - apply list_elem_of_In. exact Ha.
  - unfold isFileOf. apply bool_decide_eq_true_2. exact Hfile.
Qed.

Lemma clearWay_intro (w : world) (p : string) :
  files w !! p = None -> existsb (isFileOf w) (ancestors p) = false -> clearWay w p.
Proof.
  intros Hp Hall. split; [exact Hp|]. intros a Ha.
  destruct (files w !! a) as [content|] eqn:Efile; [exfalso | reflexivity].
  assert (Hsome : existsb (isFileOf w) (ancestors p) = true); [|congruence].
  apply existsb_exists. exists a. split; [apply list_elem_of_In; exact Ha|].
  unfold isFileOf. apply bool_decide_eq_true_2. rewrite Efile. eauto.
Qed.

Lemma clearWay_files (w w' : world) (p : string) :
  files w' = files w -> clearWay w p -> clearWay w' p.
Proof. unfold clearWay. intros ->. auto. Qed.

Section Directories.
Variable rootDir : string.

Lemma baseDirectories_elem (p : string) :
  p = sourceImageDir rootDir \/ p = sourceVideoDir rootDir \/
  p = outputJobsDir rootDir \/ p = dataDir rootDir ->
  p ∈ baseDirectories rootDir.
Proof. unfold baseDirectories. rewrite !elem_of_cons. tauto. Qed.

(** X18. When nothing fails and no regular file is in the way (at one of
    the four paths or above it), [ensureDirectories] succeeds and changes no
    file; the four directories are there then, with every directory above
    the image directory when that one had to be made; no directory is
    removed, and one that is new is one of the four or lies above one of
    them.  Run again, it changes nothing at all.  With a regular file above
    the image directory, which is not there, the first [fs.mkdir] is refused
    ([ENOTDIR]) and the store is left as it was. *)
Theorem ensureDirectories_idempotent (w : world) :
  calm w ->
  (Forall (clearWay w) (baseDirectories rootDir) ->
   let w1 := worldOf (ensureDirectories rootDir w) in
   resultOf (ensureDirectories rootDir w) = Ok tt /\
   files w1 = files w /\
   (forall p, p ∈ baseDirectories rootDir -> p ∈ dirs w1) /\
   (sourceImageDir rootDir ∉ dirs w ->
    forall a, a ∈ ancestors (sourceImageDir rootDir) -> a ∈ dirs w1) /\
   dirs w ⊆ dirs w1 /\
   (forall d, d ∈ dirs w1 ->
      d ∈ dirs w \/ exists p, p ∈ baseDirectories rootDir /\ (d = p \/ d ∈ ancestors p)) /\
   resultOf (ensureDirectories rootDir w1) = Ok tt /\
   files (worldOf (ensureDirectories rootDir w1)) = files w1 /\
   dirs (worldOf (ensureDirectories rootDir w1)) = dirs w1) /\
  (forall a,
     sourceImageDir rootDir ∉ dirs w -> files w !! sourceImageDir rootDir = None ->
     a ∈ ancestors (sourceImageDir rootDir) -> is_Some (files w !! a) ->
     resultOf (ensureDirectories rootDir w) = Throw (SysError "ENOTDIR") /\
     files (worldOf (ensureDirectories rootDir w)) = files w /\
     dirs (worldOf (ensureDirectories rootDir w)) = dirs w).
Proof.
  intros Hc. split.
  - intros Hclear w1. unfold baseDirectories in Hclear.
    apply Forall_cons in Hclear as [C1 Hclear]. apply Forall_cons in Hclear as [C2 Hclear].
    apply Forall_cons in Hclear as [C3 Hclear]. apply Forall_cons in Hclear as [C4 _].
    assert (Hrun : resultOf (ensureDirectories rootDir w) = Ok tt /\
                   calm w1 /\ files w1 = files w /\
                   (forall p, p ∈ baseDirectories rootDir -> p ∈ dirs w1) /\
                   (sourceImageDir rootDir ∉ dirs w ->
                    forall a, a ∈ ancestors (sourceImageDir rootDir) -> a ∈ dirs w1) /\
                   dirs w ⊆ dirs w1 /\
                   (forall d, d ∈ dirs w1 ->
                      d ∈ dirs w \/
                      exists p, p ∈ baseDirectories rootDir /\ (d = p \/ d ∈ ancestors p))).
    { unfold w1, ensureDirectories.
      destruct (mkdir_recursive_store _ w Hc C1) as (Hr1 & Hc1 & Hf1 & Hi1 & Hs1 & Hn1 & Ha1).
      rewrite bind_result, bind_world, Hr1. cbn beta iota.
      set (wa := worldOf (mkdir (sourceImageDir rootDir) true w)) in *.
      apply (clearWay_files w wa _ Hf1) in C2, C3, C4.
      destruct (mkdir_recursive_store _ wa Hc1 C2) as (Hr2 & Hc2 & Hf2 & Hi2 & Hs2 & Hn2 & _).
      rewrite bind_result, bind_world, Hr2. cbn beta iota.
      set (wb := worldOf (mkdir (sourceVideoDir rootDir) true wa)) in *.
      apply (clearWay_files wa wb _ Hf2) in C3, C4.
      destruct (mkdir_recursive_store _ wb Hc2 C3) as (Hr3 & Hc3 & Hf3 & Hi3 & Hs3 & Hn3 & _).
      rewrite bind_result, bind_world, Hr3. cbn beta iota.
      set (wc := worldOf (mkdir (outputJobsDir rootDir) true wb)) in *.
      apply (clearWay_files wb wc _ Hf3) in C4.
      destruct (mkdir_recursive_store _ wc Hc3 C4) as (Hr4 & Hc4 & Hf4 & Hi4 & Hs4 & Hn4 & _).
      set (wd := worldOf (mkdir (dataDir rootDir) true wc)) in *.
      split; [exact Hr4|]. split; [exact Hc4|]. split; [congruence|]. split.
      { intros p Hp. unfold baseDirectories in Hp.
        rewrite !elem_of_cons in Hp. destruct Hp as [-> | [-> | [-> | [-> | Hp]]]].
        - apply Hs4, Hs3, Hs2, Hi1.
        - apply Hs4, Hs3, Hi2.
        - apply Hs4, Hi3.
        - exact Hi4.
        - inversion Hp. }
      split; [intros Hout a Ha; apply Hs4, Hs3, Hs2, (Ha1 Hout a Ha)|].
      split; [intros d Hd; apply Hs4, Hs3, Hs2, Hs1, Hd|].
      intros d Hd. unfold baseDirectories.
      destruct (Hn4 d Hd) as [Hd3 | Hnew4].
      2: { right. exists (dataDir rootDir). split; [apply baseDirectories_elem; tauto | exact Hnew4]. }
      destruct (Hn3 d Hd3) as [Hd2 | Hnew3].
      2: { right. exists (outputJobsDir rootDir).
           split; [apply baseDirectories_elem; tauto | exact Hnew3]. }
      destruct (Hn2 d Hd2) as [Hd1 | Hnew2].
      2: { right. exists (sourceVideoDir rootDir).
           split; [apply baseDirectories_elem; tauto | exact Hnew2]. }
      destruct (Hn1 d Hd1) as [Hd0 | Hnew1]; [left; exact Hd0|].
      right. exists (sourceImageDir rootDir).
      split; [apply baseDirectories_elem; tauto | exact Hnew1]. }
    destruct Hrun as (Hr & Hc1 & Hf & Hin & Habove & Hsub & Hnew).
    split; [exact Hr|]. split; [exact Hf|]. split; [exact Hin|]. split; [exact Habove|].
    split; [exact Hsub|]. split; [exact Hnew|].
    assert (Hagain : ensureDirectories rootDir w1
                     = (Ok tt, w1,
                        [succeeded (Mkdir (sourceImageDir rootDir) true);
                         succeeded (Mkdir (sourceVideoDir rootDir) true);
                         succeeded (Mkdir (outputJobsDir rootDir) true);
                         succeeded (Mkdir (dataDir rootDir) true)])).
    { unfold ensureDirectories.
      assert (H1 : sourceImageDir rootDir ∈ dirs w1)
        by (apply Hin, baseDirectories_elem; tauto).
      assert (H2 : sourceVideoDir rootDir ∈ dirs w1)
        by (apply Hin, baseDirectories_elem; tauto).
      assert (H3 : outputJobsDir rootDir ∈ dirs w1)
        by (apply Hin, baseDirectories_elem; tauto).
      assert (H4 : dataDir rootDir ∈ dirs w1)
        by (apply Hin, baseDirectories_elem; tauto).
      rewrite (bind_ok _ _ _ _ _ _ (mkdir_recursive_there _ _ Hc1 H1)).
      rewrite (bind_ok _ _ _ _ _ _ (mkdir_recursive_there _ _ Hc1 H2)).
      rewrite (bind_ok _ _ _ _ _ _ (mkdir_recursive_there _ _ Hc1 H3)).
      rewrite (mkdir_recursive_there _ _ Hc1 H4).
      reflexivity. }
    rewrite Hagain. repeat split.
  - intros a Hout Hnone Ha Hfile. unfold ensureDirectories.
    rewrite (bind_throw _ _ _ _ _ _ (mkdir_recursive_refused _ _ _ Hc Hout Hnone Ha Hfile)).
    repeat split.
Qed.
End Directories.

Lemma ensureDirectories_idempotent_witness :
  ("/r/source_media"%string ∈ dirs (worldOf (ensureDirectories "/r" sampleWorld)) /\
   dirs (worldOf (ensureDirectories "/r" (worldOf (ensureDirectories "/r" sampleWorld))))
   = dirs (worldOf (ensureDirectories "/r" sampleWorld))) /\
  resultOf (ensureDirectories "/r" blockedWorld) = Throw (SysError "ENOTDIR").
Proof.
  split.
  - assert (Hclear : Forall (clearWay sampleWorld) (baseDirectories "/r")).
    { unfold baseDirectories.
      repeat (apply Forall_cons; split; [apply clearWay_intro; vm_compute; reflexivity|]).
      apply Forall_nil. exact I. }
    destruct (proj1 (ensureDirectories_idempotent "/r" sampleWorld eq_refl) Hclear)
      as (_ & _ & _ & Habove & _ & _ & _ & _ & Hsame).
    split; [|exact Hsame].
    apply Habove; [apply not_elem_of_empty|]. apply list_elem_of_In. vm_compute. tauto.
  - apply (proj2 (ensureDirectories_idempotent "/r" blockedWorld eq_refl)
             "/r/source_media"%string).
    + apply not_elem_of_empty.
    + reflexivity.
    + apply list_elem_of_In. vm_compute. tauto.
    + vm_compute. eauto.
Defined.

(** ** A run that stops on bad data has packaged nothing *)

Section AbortsEarly.
Context `{Builtins}.
Variable rootDir : string.

Abbreviation prep := (preparatory rootDir).
Abbreviation anyError := (fun _ : error => True).
Abbreviation anyEvent := (fun _ : event => True).

Ltac prep_call :=
  apply respects_syscall; [intros ?; first [exact I | reflexivity] | intros ?; exact I].

Lemma early_bind {A B : Type} (m : M A) (f : A -> M B) :
  respects prep anyError m -> (forall a, abortsEarly rootDir (f a)) ->
  abortsEarly rootDir (m ≫= f).
Proof.
  intros Hm Hf w. rewrite bind_events, bind_result. destruct (Hm w) as [Hes _].
  destruct (resultOf (m w)) as [a|e].
  - destruct (Hf a (worldOf (m w))) as [Hprep | Hsys]; [left | right; exact Hsys].
    apply Forall_app. split; assumption.
  - left. rewrite app_nil_r. exact Hes.
Qed.

Lemma late {A : Type} (m : M A) : respects anyEvent fromSystem m -> abortsEarly rootDir m.
Proof.
  intros Hm w. right. destruct (Hm w) as [_ Herr]. unfold noDataError.
  destruct (resultOf (m w)) as [a|e]; [exact I | apply Herr; reflexivity].
Qed.

Lemma early {A : Type} (m : M A) : respects prep anyError m -> abortsEarly rootDir m.
Proof. intros Hm w. left. apply (Hm w). Qed.

Lemma abortsEarly_finally {A : Type} (m : M A) (cleanup : M unit) :
  abortsEarly rootDir m -> respects prep fromSystem cleanup ->
  abortsEarly rootDir (finally m cleanup).
Proof.
  intros Hm Hc w. specialize (Hm w). unfold finally.
  destruct (m w) as [[r w'] es]. unfold resultOf, eventsOf in Hm. cbn [fst snd] in Hm.
  destruct (Hc w') as [Hces Hcerr].
  assert (Hrun : Forall prep (eventsOf (match cleanup w' with
                   | (Ok _, w'', es') => (r, w'', es ++ es')
                   | (Throw e, w'', es') => (Throw e, w'', es ++ es')
                   end)) \/
                 noDataError (resultOf (match cleanup w' with
                   | (Ok _, w'', es') => (r, w'', es ++ es')
                   | (Throw e, w'', es') => (Throw e, w'', es ++ es')
                   end))).
  { destruct (cleanup w') as [[[u|e] w''] es'] eqn:Ec;
      unfold resultOf, eventsOf in *; cbn [fst snd] in *.
    - destruct Hm as [Hprep | Hsys]; [left | right; exact Hsys].
      apply Forall_app. split; assumption.
    - right. apply Hcerr. reflexivity. }
  destruct r as [a|[msg|code|]]; try exact Hrun. right. exact I.
Qed.

(** *** The preparation *)

Lemma ensureDirectories_prep : respects prep anyError (ensureDirectories rootDir).
Proof.
  unfold ensureDirectories.
  repeat (apply respects_bind; [prep_call | intros _]). prep_call.
Qed.

Lemma writeLock_prep (payload : string) : respects prep anyError (writeLock rootDir payload).
Proof.
  unfold writeLock.
  apply respects_bind; [prep_call | intros _].
  apply respects_bind; [prep_call | intros _].
  prep_call.
Qed.

Lemma isProcessAlive_prep (activePid : jsnum) : respects prep anyError (isProcessAlive activePid).
Proof.
  unfold isProcessAlive. destruct activePid as [|p|]; try apply respects_ret.
  destruct (p <=? 0); [apply respects_ret|].
  apply respects_bind_catching; [exact I | prep_call|].
  intros [u|e] _; [apply respects_ret|].
  destruct (hasCode e "ESRCH"); [apply respects_ret|].
  destruct (hasCode e "EPERM"); [apply respects_ret | apply respects_throw; exact I].
Qed.

Lemma acquireLock_prep : respects prep anyError (acquireLock rootDir).
Proof.
  unfold acquireLock.
  apply respects_bind; [apply respects_getPid | intros p].
  apply respects_bind; [apply respects_newDate | intros now].
  apply respects_bind_catching; [exact I | apply writeLock_prep|].
  intros [u|e] _; [apply respects_ret|].
  destruct (negb (hasCode e "EEXIST")); [apply respects_throw; exact I|].
  apply respects_bind_catching; [exact I | |].
  - unfold holderAlive. apply respects_bind; [prep_call | intros existing].
    apply isProcessAlive_prep.
  - intros alive _.
    assert (Hrec : respects prep anyError (reclaimLock rootDir (lockPayload p now))).
    { unfold reclaimLock. apply respects_bind; [prep_call | intros _].
      apply respects_bind; [apply writeLock_prep | intros _]. apply respects_ret. }
    destruct alive as [[|]|e']; [apply respects_ret | exact Hrec | exact Hrec].
Qed.

Lemma log_prep (message : string) : respects prep anyError (log message).
Proof.
  unfold log. apply respects_bind; [apply respects_newDate | intros now].
  apply respects_consoleLog. exact I.
Qed.

Lemma walk_prep (fuel : nat) (exts queue results : list string) :
  respects prep anyError (walk fuel exts queue results).
Proof.
  revert queue results. induction fuel as [|fuel IH]; intros queue results.
  - destruct queue; simpl; [apply respects_ret | apply respects_throw; exact I].
  - destruct queue as [|current queue]; simpl; [apply respects_ret|].
    apply respects_bind; [prep_call | intros entries].
    destruct (fold_left _ entries (queue, results)) as [queue' results']. apply IH.
Qed.

Lemma collectFilesRecursive_prep (fuel : nat) (root : string) (exts : list string) :
  respects prep anyError (collectFilesRecursive fuel root exts).
Proof.
  unfold collectFilesRecursive. apply respects_bind.
  - apply respects_existsSync. intros f. exact I.
  - intros present. destruct present; simpl; [|apply respects_ret].
    apply respects_bind; [apply walk_prep | intros results; apply respects_ret].
Qed.

Lemma readJsonFile_prep (filePath : string) : respects prep anyError (readJsonFile filePath).
Proof.
  unfold readJsonFile. apply respects_bind; [prep_call | intros content].
  destruct (JSON_parse content); [apply respects_ret | apply respects_throw; exact I].
Qed.

Lemma sampling_prep {A : Type} (m : Rand (result A)) :
  respects prep anyError (liftRand m ≫= liftResult).
Proof. apply sampling_safe. intros g e _. exact I. Qed.

(** *** The packaging *)

Ltac late_call :=
  apply respects_syscall; [intros ?; exact I | intros ?; exact I].

Lemma uniqueDirectoryLoop_late (fuel : nat) (baseDir desiredName : string) (attempt : nat) :
  respects anyEvent fromSystem (uniqueDirectoryLoop fuel baseDir desiredName attempt).
Proof.
  revert attempt. induction fuel as [|fuel IH]; intros attempt; simpl.
  - apply respects_throw. exact I.
  - apply respects_bind_catching; [exact I | late_call|].
    intros [u|e] He; [apply respects_ret|].
    destruct (negb (hasCode e "EEXIST")); [|apply IH].
    apply respects_throw. apply He. reflexivity.
Qed.

Lemma uniqueFileLoop_late (fuel : nat) (targetDir : string) (parsed : string * string)
      (attempt : nat) :
  respects anyEvent fromSystem (uniqueFileLoop fuel targetDir parsed attempt).
Proof.
  revert attempt. induction fuel as [|fuel IH]; intros attempt; simpl.
  - apply respects_throw. exact I.
  - apply respects_bind_catching; [exact I | late_call|].
    intros [u|e] _; [apply IH | apply respects_ret].
Qed.

Lemma moveFileSafe_late (sourcePath destinationPath : string) :
  respects anyEvent fromSystem (moveFileSafe sourcePath destinationPath).
Proof.
  unfold moveFileSafe.
  apply respects_bind_catching; [exact I | late_call|].
  intros [u|e] He; [apply respects_ret|].
  destruct (negb (hasCode e "EXDEV")); [apply respects_throw; apply He; reflexivity|].
  apply respects_bind; [late_call | intros _]. late_call.
Qed.

Lemma moveSelected_late (fuel : nat) (jobDir : string) (selectedMedia : list string) :
  respects anyEvent fromSystem (moveSelected fuel jobDir selectedMedia).
Proof.
  unfold moveSelected. apply respects_forEach. intros sourcePath.
  apply respects_bind; [apply uniqueFileLoop_late | intros destinationPath].
  apply moveFileSafe_late.
Qed.

Lemma log_late (message : string) : respects anyEvent fromSystem (log message).
Proof.
  unfold log. apply respects_bind; [apply respects_newDate | intros now].
  apply respects_consoleLog. exact I.
Qed.

Lemma assemble_abortsEarly (fuel : nat) (imageFiles videoFiles : list string) (c : composition) :
  abortsEarly rootDir (assemble rootDir fuel imageFiles videoFiles c).
Proof.
  unfold assemble.
  apply early_bind; [apply sampling_prep | intros selectedImages].
  apply early_bind; [apply sampling_prep | intros selectedVideos].
  apply early_bind; [apply readJsonFile_prep | intros captionsRaw].
  apply early_bind; [apply respects_liftResult; intros; exact I | intros normalized].
  apply early_bind; [apply respects_newDate | intros stamp].
  apply early_bind; [apply sampling_prep | intros chosen].
  apply early_bind; [apply readJsonFile_prep | intros hashtagsRaw].
  apply early_bind; [apply respects_liftResult; intros; exact I | intros hashtags].
  apply early_bind; [apply sampling_prep | intros selectedHashtags].
  apply early_bind; [apply respects_newDate | intros now].
  apply late.
  apply respects_bind; [apply uniqueDirectoryLoop_late | intros jobDir].
  apply respects_bind; [apply moveSelected_late | intros _].
  apply respects_bind; [late_call | intros _].
  apply respects_bind; [unfold writeJsonFile; late_call | intros _].
  apply log_late.
Qed.

Lemma run_abortsEarly (fuel : nat) : abortsEarly rootDir (run rootDir fuel).
Proof.
  unfold run.
  apply early_bind; [apply ensureDirectories_prep | intros _].
  apply early_bind; [apply acquireLock_prep | intros lockAcquired].
  destruct lockAcquired; simpl; [|apply early; apply log_prep].
  apply abortsEarly_finally.
  2:{ unfold releaseLock. apply respects_syscall; [intros ?; reflexivity | intros ?; exact I]. }
  apply early_bind; [apply collectFilesRecursive_prep | intros imageFiles].
  apply early_bind; [apply collectFilesRecursive_prep | intros videoFiles].
  apply early_bind; [apply respects_liftRand | intros composition].
  destruct composition as [c|]; [apply assemble_abortsEarly | apply early; apply log_prep].
Qed.

(** X19. A run that ends in an [Error] thrown by the program itself (a bank
    that is not valid JSON, not an array, without a usable entry, ...) has
    packaged nothing: up to then it has made the base directories, handled
    the lock file, read and listed, but it has created no job directory
    and has moved, copied, removed and written no file. *)
Theorem run_data_error_packages_nothing (fuel : nat) (w : world) (message : string) :
  resultOf (run rootDir fuel w) = Throw (Error message) ->
  Forall (preparatory rootDir) (eventsOf (run rootDir fuel w)).
Proof.
  intros Hres. destruct (run_abortsEarly fuel w) as [Hprep | Hsys]; [exact Hprep|].
  rewrite Hres in Hsys. destruct Hsys.
Qed.
End AbortsEarly.

Lemma run_data_error_packages_nothing_witness :
  resultOf (@run sampleBuiltins "/r" 10 brokenBankWorld) = Throw (Error "SyntaxError") /\
  Forall (preparatory "/r") (eventsOf (@run sampleBuiltins "/r" 10 brokenBankWorld)).
Proof.
  split; [vm_compute; reflexivity|].
  apply (@run_data_error_packages_nothing sampleBuiltins "/r" 10 brokenBankWorld "SyntaxError").
  vm_compute. reflexivity.
Defined.

(** ** The lock is given back *)

Lemma finally_events {A : Type} (m : M A) (cleanup : M unit) (w : world) :
  resultOf (finally m cleanup w) <> Throw OutOfFuel ->
  eventsOf (finally m cleanup w) = eventsOf (m w) ++ eventsOf (cleanup (worldOf (m w))).
Proof.
  unfold finally. destruct (m w) as [[r w'] es]. unfold resultOf, worldOf, eventsOf.
  cbn [fst snd].
  destruct r as [a|[msg|code|]]; try (destruct (cleanup w') as [[[u|e] w''] es']; reflexivity).
  intros Hne. exfalso. apply Hne. reflexivity.
Qed.

Lemma finally_world {A : Type} (m : M A) (cleanup : M unit) (w : world) :
  resultOf (finally m cleanup w) <> Throw OutOfFuel ->
  worldOf (finally m cleanup w) = worldOf (cleanup (worldOf (m w))).
Proof.
  unfold finally. destruct (m w) as [[r w'] es]. unfold resultOf, worldOf, eventsOf.
  cbn [fst snd].
  destruct r as [a|[msg|code|]]; try (destruct (cleanup w') as [[[u|e] w''] es']; reflexivity).
  intros Hne. exfalso. apply Hne. reflexivity.
Qed.

Section Released.
Context `{Builtins}.
Variable rootDir : string.

Abbreviation lock := (lockFilePath rootDir).
Abbreviation kept := (notRelease rootDir).
Abbreviation anyError := (fun _ : error => True).

Ltac kept_call :=
  apply respects_syscall; [intros ?; discriminate | intros ?; exact I].

Lemma writeLock_kept (payload : string) : respects kept anyError (writeLock rootDir payload).
Proof.
  unfold writeLock.
  apply respects_bind; [kept_call | intros _].
  apply respects_bind; [kept_call | intros _].
  kept_call.
Qed.

Lemma holderAlive_kept : respects kept anyError (holderAlive rootDir).
Proof.
  unfold holderAlive. apply respects_bind; [kept_call | intros existing].
  unfold isProcessAlive. destruct (StringToNumber _) as [|p|]; try apply respects_ret.
  destruct (p <=? 0); [apply respects_ret|].
  apply respects_bind_catching; [exact I | kept_call|].
  intros [u|e] _; [apply respects_ret|].
  destruct (hasCode e "ESRCH"); [apply respects_ret|].
  destruct (hasCode e "EPERM"); [apply respects_ret | apply respects_throw; exact I].
Qed.

Lemma reclaimLock_result (payload : string) (w : world) :
  resultOf (reclaimLock rootDir payload w) <> Ok false.
Proof.
  unfold reclaimLock. rewrite bind_result.
  destruct (resultOf (rm lock w)); [|discriminate].
  rewrite bind_result. destruct (resultOf (writeLock _ _ _)); discriminate.
Qed.

(** A lock that is denied has not been removed. *)
Lemma acquireLock_denied (w : world) :
  resultOf (acquireLock rootDir w) = Ok false ->
  Forall kept (eventsOf (acquireLock rootDir w)).
Proof.
  rewrite acquireLock_unfold.
  set (payload := lockPayload (pid w) (clock w O)). set (ws := started w).
  rewrite bind_result, bind_events, catching_result, catching_events, catching_world.
  destruct (writeLock_kept payload ws) as [Hwl _].
  destruct (resultOf (writeLock rootDir payload ws)) as [u|e]; [discriminate|].
  set (w1 := worldOf (writeLock rootDir payload ws)).
  assert (Hrest : forall e0 : error,
            resultOf ((if negb (hasCode e0 "EEXIST") then throw e0
                       else alive ← catching (holderAlive rootDir);
                            match alive with
                            | Ok true => mret false
                            | _ => reclaimLock rootDir payload
                            end) w1) = Ok false ->
            Forall kept (eventsOf ((if negb (hasCode e0 "EEXIST") then throw e0
                       else alive ← catching (holderAlive rootDir);
                            match alive with
                            | Ok true => mret false
                            | _ => reclaimLock rootDir payload
                            end) w1))).
  { intros e0. destruct (negb (hasCode e0 "EEXIST")); [discriminate|].
    rewrite bind_result, bind_events, catching_result, catching_events, catching_world.
    destruct (holderAlive_kept w1) as [Hha _].
    destruct (resultOf (holderAlive rootDir w1)) as [[|]|[msg|code|]].
    - intros _. rewrite app_nil_r. exact Hha.
    - intros Hr. exfalso. exact (reclaimLock_result _ _ Hr).
    - intros Hr. exfalso. exact (reclaimLock_result _ _ Hr).
    - intros Hr. exfalso. exact (reclaimLock_result _ _ Hr).
    - discriminate. }
  destruct e as [msg|code|]; [| |discriminate].
  - intros Hr. apply Forall_app. split; [exact Hwl | exact (Hrest (Error msg) Hr)].
  - intros Hr. apply Forall_app. split; [exact Hwl | exact (Hrest (SysError code) Hr)].
Qed.

(** X20. Once the run holds the lock and its two scans have returned, it
    gives the lock back whatever happens then, errors included: unless the
    run does not end, the last call it makes is the removal of the lock
    file, and when that call succeeds the lock file is not in the store the
    run leaves.  And a run that is denied the lock ends well without ever
    removing the lock file of the run that holds it. *)
Theorem run_releases_lock (fuel : nat) (w : world) :
  resultOf (ensureDirectories rootDir w) = Ok tt ->
  let w1 := worldOf (ensureDirectories rootDir w) in
  let w2 := worldOf (acquireLock rootDir w1) in
  let imageScan := collectFilesRecursive fuel (sourceImageDir rootDir) IMAGE_EXTENSIONS w2 in
  let videoScan :=
    collectFilesRecursive fuel (sourceVideoDir rootDir) VIDEO_EXTENSIONS (worldOf imageScan) in
  (resultOf (acquireLock rootDir w1) = Ok true ->
   (exists imageFiles, resultOf imageScan = Ok imageFiles) ->
   (exists videoFiles, resultOf videoScan = Ok videoFiles) ->
   resultOf (run rootDir fuel w) <> Throw OutOfFuel ->
   exists es f,
     eventsOf (run rootDir fuel w) = es ++ [{| what := Rm lock; failed := f |}] /\
     (f = None -> files (worldOf (run rootDir fuel w)) !! lock = None)) /\
  (resultOf (acquireLock rootDir w1) = Ok false ->
   resultOf (run rootDir fuel w) = Ok tt /\
   Forall kept (eventsOf (run rootDir fuel w))).
Proof.
  intros Hens w1 w2 imageScan videoScan. unfold run.
  rewrite bind_result, bind_events, bind_world, Hens. cbn beta iota. fold w1.
  rewrite bind_result, bind_events, bind_world.
  assert (Hek : Forall kept (eventsOf (ensureDirectories rootDir w))).
  { assert (Hr : respects kept anyError (ensureDirectories rootDir)).
    { unfold ensureDirectories.
      repeat (apply respects_bind; [kept_call | intros _]). kept_call. }
    apply (Hr w). }
  split.
  - intros Hacq _ _. rewrite Hacq. cbn [negb]. intros Hne.
    rewrite (finally_events _ _ _ Hne), (finally_world _ _ _ Hne).
    set (body := (imageFiles ← collectFilesRecursive fuel (sourceImageDir rootDir) IMAGE_EXTENSIONS; _)).
    fold w2. set (wb := worldOf (body w2)).
    unfold releaseLock, rm.
    destruct (syscall_cases (A := unit) (Rm lock)
                (fun w => if bool_decide (lock ∈ dirs w) then (inl "ERR_FS_EISDIR"%string, w)
                          else (inr tt, withFiles (delete lock (files w)) w)) wb)
      as [(code & later & _ & ->) | ->].
    + eexists _, _. rewrite !app_assoc. split; [reflexivity | discriminate].
    + cbn beta iota. destruct (bool_decide _).
      * eexists _, _. rewrite !app_assoc. split; [reflexivity | discriminate].
      * eexists _, _. rewrite !app_assoc. split; [reflexivity|]. intros _.
        cbn. apply lookup_delete_eq.
  - intros Hacq. rewrite Hacq. cbn [negb]. split; [reflexivity|].
    apply Forall_app. split; [exact Hek|]. apply Forall_app.
    split; [apply acquireLock_denied; exact Hacq|].
    repeat constructor. discriminate.
Qed.
End Released.

Lemma run_releases_lock_witness :
  (exists es f,
     eventsOf (@run sampleBuiltins "/r" 10 sampleWorld)
     = es ++ [{| what := Rm (lockFilePath "/r"); failed := f |}] /\
     (f = None ->
      files (worldOf (@run sampleBuiltins "/r" 10 sampleWorld)) !! lockFilePath "/r" = None)) /\
  (resultOf (@run sampleBuiltins "/r" 10 heldWorld) = Ok tt /\
   Forall (notRelease "/r") (eventsOf (@run sampleBuiltins "/r" 10 heldWorld))).
Proof.
  split.
  - apply (@run_releases_lock sampleBuiltins "/r" 10 sampleWorld).
    + vm_compute. reflexivity.
    + vm_compute. reflexivity.
    + eexists. vm_compute. reflexivity.
    + eexists. vm_compute. reflexivity.
    + vm_compute. discriminate.
  - apply (@run_releases_lock sampleBuiltins "/r" 10 heldWorld).
    + vm_compute. reflexivity.
    + vm_compute. reflexivity.
Defined.

(** ** The wizard *)

Section Fulfils.
Variable P : event -> Prop.
Variable E : error -> Prop.

Lemma fulfils_ret {A : Type} (Q : A -> Prop) (a : A) : Q a -> fulfils P E Q (mret a).
Proof. intros Hq w. split; [constructor | exact Hq]. Qed.

Lemma fulfils_throw {A : Type} (Q : A -> Prop) (e : error) : E e -> fulfils P E Q (@throw A e).
Proof. intros He w. split; [constructor | exact He]. Qed.

Lemma fulfils_bind {A B : Type} (Q1 : A -> Prop) (Q2 : B -> Prop) (m : M A) (f : A -> M B) :
  fulfils P E Q1 m -> (forall a, Q1 a -> fulfils P E Q2 (f a)) -> fulfils P E Q2 (m ≫= f).
Proof.
  intros Hm Hf w. destruct (Hm w) as [Hes Hr].
  rewrite bind_events, bind_result.
  destruct (resultOf (m w)) as [a|e].
  - destruct (Hf a Hr (worldOf (m w))) as [Hes' Hr'].
    split; [apply Forall_app; split; assumption | exact Hr'].
  - split; [rewrite app_nil_r; exact Hes | exact Hr].
Qed.

Lemma fulfils_respects {A : Type} (m : M A) :
  respects P E m -> fulfils P E (fun _ => True) m.
Proof.
  intros Hm w. destruct (Hm w) as [Hes Herr]. split; [exact Hes|].
  destruct (resultOf (m w)) as [a|e]; [exact I | apply Herr; reflexivity].
Qed.

Lemma fulfils_then {A B : Type} (Q : B -> Prop) (m : M A) (f : A -> M B) :
  respects P E m -> (forall a, fulfils P E Q (f a)) -> fulfils P E Q (m ≫= f).
Proof.
  intros Hm Hf. apply (fulfils_bind (fun _ => True)); [apply fulfils_respects; exact Hm|].
  intros a _. apply Hf.
Qed.

Lemma fulfils_weaken {A : Type} (Q Q' : A -> Prop) (m : M A) :
  (forall a, Q a -> Q' a) -> fulfils P E Q m -> fulfils P E Q' m.
Proof.
  intros Hq Hm w. destruct (Hm w) as [Hes Hr]. split; [exact Hes|].
  destruct (resultOf (m w)); [apply Hq; exact Hr | exact Hr].
Qed.

Lemma fulfils_events {A : Type} (Q : A -> Prop) (m : M A) :
  fulfils P E Q m -> respects P E m.
Proof.
  intros Hm w. destruct (Hm w) as [Hes Hr]. split; [exact Hes|].
  intros e He. rewrite He in Hr. exact Hr.
Qed.
End Fulfils.

Lemma trimmed_renumber (k : nat) (l : list (caption Z)) :
  Forall trimmedText l -> Forall trimmedText (renumberFrom k l).
Proof.
  intros Hall. revert k. induction Hall as [|c l Hc Hall IH]; intros k; simpl; constructor.
  - exact Hc.
  - apply IH.
Qed.

Lemma canon_trimmed (k : nat) (bank : list (caption Z)) :
  canonFrom k bank -> Forall trimmedText bank.
Proof.
  revert k. induction bank as [|c bank IH]; intros k Hc; constructor.
  - destruct Hc as (_ & Ht & He & Hu & _). repeat split; assumption.
  - destruct Hc as (_ & _ & _ & _ & Hrest). eapply IH; exact Hrest.
Qed.

Lemma findIndexFrom_none {A : Type} (test : A -> nat -> bool) (k : nat) (l : list A) :
  WizardIO.findIndexFrom test k l = None ->
  forall j x, l !! j = Some x -> test x (k + j)%nat = false.
Proof.
  revert k. induction l as [|y l IH]; intros k Hn j x Hj; [discriminate|].
  simpl in Hn. destruct (test y k) eqn:Et; [discriminate|].
  destruct j as [|j]; simpl in Hj.
  - injection Hj as <-. rewrite Nat.add_0_r. exact Et.
  - replace (k + S j)%nat with (S k + j)%nat by lia. apply (IH (S k) Hn j x Hj).
Qed.

Lemma elem_of_insert_cases {A : Type} (l : list A) (i : nat) (r y : A) :
  y ∈ <[i := r]> l -> y = r \/ y ∈ l.
Proof.
  revert i. induction l as [|x l IH]; intros i Hy; [right; exact Hy|].
  destruct i as [|i]; simpl in Hy; apply elem_of_cons in Hy.
  - destruct Hy as [-> | Hy]; [left; reflexivity | right; right; exact Hy].
  - destruct Hy as [-> | Hy]; [right; left|].
    destruct (IH i Hy) as [-> | Hin]; [left; reflexivity | right; right; exact Hin].
Qed.

Lemma NoDup_insert_key {A K : Type} (key : A -> K) (l : list A) (i : nat) (r : A) :
  NoDup (map key l) ->
  (forall j x, l !! j = Some x -> j <> i -> key x <> key r) ->
  NoDup (map key (<[i := r]> l)).
Proof.
  revert i. induction l as [|x l IH]; intros i Hnd Hother; [exact Hnd|].
  simpl in Hnd. apply NoDup_cons in Hnd. destruct Hnd as [Hx Hnd].
  destruct i as [|i]; simpl; apply NoDup_cons.
  - split; [|exact Hnd]. intros Hin. apply list_elem_of_fmap in Hin.
    destruct Hin as (y & Hk & Hy). apply list_elem_of_lookup in Hy. destruct Hy as [j Hj].
    apply (Hother (S j) y Hj); [lia | congruence].
  - split.
    + intros Hin. apply list_elem_of_fmap in Hin. destruct Hin as (y & Hk & Hy).
      destruct (elem_of_insert_cases _ _ _ _ Hy) as [-> | Hy'].
      * apply (Hother O x eq_refl); [lia | exact Hk].
      * apply Hx. rewrite Hk. apply list_elem_of_fmap. exists y. split; [reflexivity | exact Hy'].
    + apply IH; [exact Hnd|]. intros j y Hj Hne. apply (Hother (S j) y Hj). lia.
Qed.

Section WizardFacts.
Context `{Builtins}.
Variable rootDir : string.

Abbreviation did := (wizardEvent rootDir).

Lemma log_did (line : string) : respects did inRange (consoleLog line).
Proof. apply respects_consoleLog. exact I. Qed.

Lemma logs_did (lines : list string) : respects did inRange (forEach lines consoleLog).
Proof. apply respects_forEach. intros line. apply log_did. Qed.

Lemma question_did (prompt : string) (answers : list string) :
  respects did inRange (WizardIO.question prompt answers).
Proof.
  destruct answers; simpl; [apply respects_throw; discriminate | apply respects_ret].
Qed.

Lemma askChoice_fulfils (prompt : string) (validChoices answers : list string) :
  fulfils did inRange (fun r => fst r ∈ validChoices)
          (WizardIO.askChoice prompt validChoices answers).
Proof.
  induction answers as [|line rest IH]; simpl.
  - apply fulfils_throw. discriminate.
  - destruct (bool_decide (trim line ∈ validChoices)) eqn:Ev.
    + apply fulfils_ret. apply bool_decide_eq_true in Ev. exact Ev.
    + apply fulfils_then; [apply log_did | intros _; exact IH].
Qed.

Lemma indexOf_range (answer : string) (max index : nat) :
  WizardIO.indexOf answer max = Some index -> (index < max)%nat.
Proof.
  unfold WizardIO.indexOf. destruct (StringToNumber answer) as [|value|]; try discriminate.
  destruct ((1 <=? value) && (value <=? Z.of_nat max)) eqn:Er; [|discriminate].
  intros [= <-]. apply andb_true_iff in Er. destruct Er as [H1 H2].
  apply Z.leb_le in H1, H2. lia.
Qed.

Lemma askIndex_fulfils (prompt : string) (max : nat) (answers : list string) :
  fulfils did inRange (fun r => forall index, fst r = Some index -> (index < max)%nat)
          (WizardIO.askIndex prompt max answers).
Proof.
  induction answers as [|line rest IH]; simpl.
  - apply fulfils_throw. discriminate.
  - destruct (isEmpty (trim line)); [apply fulfils_ret; discriminate|].
    destruct (WizardIO.indexOf (trim line) max) as [index|] eqn:Ei.
    + apply fulfils_ret. intros i [= <-]. apply (indexOf_range _ _ _ Ei).
    + apply fulfils_then; [apply log_did | intros _; exact IH].
Qed.

Lemma manageCaptionsLoop_fulfils (fuel : nat) (captions : list (caption Z))
      (answers : list string) :
  Forall trimmedText captions ->
  fulfils did inRange (fun r => Forall trimmedText (fst r))
          (WizardIO.manageCaptionsLoop fuel captions answers).
Proof.
  revert captions answers. induction fuel as [|fuel IH]; intros captions answers Hc.
  - apply fulfils_throw. discriminate.
  - cbn [WizardIO.manageCaptionsLoop].
    destruct (length captions =? 0)%nat; [apply fulfils_ret; exact Hc|].
    apply fulfils_then; [apply log_did | intros _].
    apply fulfils_then; [apply logs_did | intros _].
    do 4 (apply fulfils_then; [apply log_did | intros _]).
    eapply fulfils_bind; [apply askChoice_fulfils|]. intros [action answers1] _.
    destruct (String.eqb action "3"); [apply fulfils_ret; exact Hc|].
    eapply fulfils_bind; [apply askIndex_fulfils|]. intros [chosen answers2] Hi.
    destruct chosen as [index|]; [|apply IH; exact Hc].
    destruct (captions !! index) as [current|] eqn:El.
    2:{ exfalso. apply lookup_ge_None in El. specialize (Hi index eq_refl). lia. }
    assert (Hcur : trimmedText current).
    { rewrite Forall_lookup in Hc. apply (Hc index current El). }
    destruct (String.eqb action "1").
    + apply fulfils_then; [apply question_did | intros [line answers3]].
      destruct (isEmpty (trim line)) eqn:Ee.
      * apply fulfils_then; [apply log_did | intros _]. apply IH. exact Hc.
      * apply fulfils_then; [apply log_did | intros _]. apply IH.
        apply Forall_insert; [exact Hc|].
        destruct Hcur as (_ & _ & Hu). split; [apply trim_idem|]. split; [exact Ee | exact Hu].
    + apply fulfils_then; [apply log_did | intros _]. apply IH.
      apply trimmed_renumber. apply Forall_delete. exact Hc.
Qed.

Lemma addCaptions_fulfils (nextId : Z) (captions : list (caption Z)) (answers : list string) :
  Forall trimmedText captions ->
  fulfils did inRange (fun r => Forall trimmedText (fst r))
          (WizardIO.addCaptions nextId captions answers).
Proof.
  revert nextId captions. induction answers as [|inputText rest IH]; intros nextId captions Hc.
  - apply fulfils_throw. discriminate.
  - cbn [WizardIO.addCaptions]. destruct (isEmpty (trim inputText)) eqn:Ee.
    + apply fulfils_ret. exact Hc.
    + apply IH. apply Forall_app. split; [exact Hc|]. constructor; [|constructor].
      split; [apply trim_idem|]. split; [exact Ee | reflexivity].
Qed.

Lemma readJson_did (filePath : string) (fallbackValue : value) :
  filePath = captionsPath rootDir \/ filePath = hashtagsPath rootDir ->
  respects did inRange (WizardIO.readJson filePath fallbackValue).
Proof.
  intros Hpath. unfold WizardIO.readJson.
  apply respects_bind_catching; [discriminate | |].
  - apply respects_bind.
    + apply respects_syscall; [intros f; exact Hpath | intros code; discriminate].
    + intros content. destruct (JSON_parse content);
        [apply respects_ret | apply respects_throw; discriminate].
  - intros [v|e] He; [apply respects_ret|].
    destruct (hasCode e "ENOENT"); [apply respects_ret|].
    apply respects_throw. apply He. reflexivity.
Qed.

Lemma handleCaptions_did (answers : list string) :
  respects did inRange (WizardIO.handleCaptions rootDir answers).
Proof.
  unfold WizardIO.handleCaptions.
  apply respects_bind; [apply readJson_did; left; reflexivity | intros existingRaw].
  pose proof (canon_trimmed _ _ (normalizeCaptions_canon existingRaw)) as Hc.
  set (captions := normalizeCaptions existingRaw) in *.
  apply respects_bind; [apply log_did | intros _].
  apply respects_bind; [apply log_did | intros _].
  apply respects_bind; [apply question_did | intros [line answers1]].
  apply (fulfils_events _ _ (fun _ => True)).
  apply (fulfils_bind _ _ (fun r : list (caption Z) * list string => Forall trimmedText (fst r))).
  { destruct (WizardIO.isYes line); [apply fulfils_ret; constructor|].
    destruct (0 <? length captions)%nat; [|apply fulfils_ret; exact Hc].
    apply fulfils_then; [apply question_did | intros [line2 answers2]].
    assert (Hc2 : Forall trimmedText
                    (if WizardIO.isYes line2 then map resetEntry captions else captions)).
    { destruct (WizardIO.isYes line2); [|exact Hc]. apply Forall_fmap.
      eapply Forall_impl; [exact Hc|]. intros c (Ht & He & _). repeat split; assumption. }
    apply fulfils_then; [apply question_did | intros [line3 answers3]].
    destruct (WizardIO.isYes line3); [|apply fulfils_ret; exact Hc2].
    apply manageCaptionsLoop_fulfils. apply trimmed_renumber. exact Hc2. }
  intros [captions1 answers4] Hc1. cbn [fst] in Hc1.
  apply fulfils_then; [apply log_did | intros _].
  eapply fulfils_bind; [apply (addCaptions_fulfils _ _ _ Hc1)|].
  intros [captions2 answers5] Hc2. cbn [fst] in Hc2.
  set (final := reindexCaptions (sortById captions2)).
  destruct (length final =? 0)%nat eqn:El.
  - apply fulfils_then; [apply log_did | intros _]. apply fulfils_ret. exact I.
  - apply fulfils_then; [|intros _].
    + unfold WizardIO.writeJson. apply respects_syscall; [|intros code; discriminate].
      intros f. left. split; [reflexivity|]. exists final.
      split; [reflexivity|]. split.
      * intros Hnil. rewrite Hnil in El. discriminate.
      * apply renumberFrom_canon. rewrite sortById_perm. exact Hc2.
    + apply fulfils_then; [apply log_did | intros _]. apply fulfils_ret. exact I.
Qed.
End WizardFacts.

Section WizardHashtagFacts2.
Context `{Builtins}.
Variable rootDir : string.

Abbreviation did := (wizardEvent rootDir).

Lemma normalizeHashtag_nonempty (rawTag : value) :
  isEmpty (Wizard.normalizeHashtag rawTag) = false ->
  canonicalTag (Wizard.normalizeHashtag rawTag).
Proof.
  intros Hne. destruct (normalizeHashtag_canonical rawTag) as [He | Hc]; [|exact Hc].
  rewrite He in Hne. discriminate.
Qed.

Lemma tagsOk_delete (tags : list string) (index : nat) :
  tagsOk tags -> tagsOk (delete index tags).
Proof.
  intros [Hc Hnd]. split; [apply Forall_delete; exact Hc|].
  apply (sublist_NoDup (map toLowerCase (delete index tags)) (map toLowerCase tags));
    [exact Hnd | apply fmap_sublist, sublist_delete].
Qed.

Lemma tagsOk_insert (tags : list string) (index : nat) (replacement : string) :
  tagsOk tags -> canonicalTag replacement ->
  WizardIO.findIndexFrom (WizardIO.duplicates replacement index) O tags = None ->
  tagsOk (<[index := replacement]> tags).
Proof.
  intros [Hc Hnd] Hr Hnone. split; [apply Forall_insert; assumption|].
  apply NoDup_insert_key; [exact Hnd|].
  intros j tag Hj Hne Hkey.
  pose proof (findIndexFrom_none _ _ _ Hnone j tag Hj) as Ht.
  unfold WizardIO.duplicates in Ht. simpl in Ht.
  apply andb_false_iff in Ht. destruct Ht as [Ht | Ht].
  - apply negb_false_iff, Nat.eqb_eq in Ht. contradiction.
  - apply String.eqb_neq in Ht. contradiction.
Qed.

Lemma manageHashtagsLoop_fulfils (fuel : nat) (hashtags answers : list string) :
  tagsOk hashtags ->
  fulfils did inRange (fun r => tagsOk (fst r))
          (WizardIO.manageHashtagsLoop fuel hashtags answers).
Proof.
  revert hashtags answers. induction fuel as [|fuel IH]; intros hashtags answers Hok.
  - apply fulfils_throw. discriminate.
  - cbn [WizardIO.manageHashtagsLoop].
    destruct (length hashtags =? 0)%nat; [apply fulfils_ret; exact Hok|].
    apply fulfils_then; [apply log_did | intros _].
    apply fulfils_then; [apply logs_did | intros _].
    do 4 (apply fulfils_then; [apply log_did | intros _]).
    eapply fulfils_bind; [apply askChoice_fulfils|]. intros [action answers1] _.
    destruct (String.eqb action "3"); [apply fulfils_ret; exact Hok|].
    eapply fulfils_bind; [apply askIndex_fulfils|]. intros [chosen answers2] Hi.
    destruct chosen as [index|]; [|apply IH; exact Hok].
    destruct (hashtags !! index) as [removed|] eqn:El.
    2:{ exfalso. apply lookup_ge_None in El. specialize (Hi index eq_refl). lia. }
    destruct (String.eqb action "1").
    + apply fulfils_then; [apply question_did | intros [replacementRaw answers3]].
      destruct (isEmpty (Wizard.normalizeHashtag (VStr replacementRaw))) eqn:Ee.
      * apply fulfils_then; [apply log_did | intros _]. apply IH. exact Hok.
      * destruct (WizardIO.findIndexFrom _ O hashtags) as [duplicateIndex|] eqn:Ed.
        -- apply fulfils_then; [apply log_did | intros _]. apply IH. exact Hok.
        -- apply fulfils_then; [apply log_did | intros _]. apply IH.
           apply tagsOk_insert; [exact Hok | apply normalizeHashtag_nonempty; exact Ee | exact Ed].
    + apply fulfils_then; [apply log_did | intros _]. apply IH.
      apply tagsOk_delete. exact Hok.
Qed.

Lemma addHashtags_fulfils (seen : gset string) (hashtags answers : list string) :
  tagsOk hashtags ->
  (forall k, k ∈ map toLowerCase hashtags -> k ∈ seen) ->
  fulfils did inRange (fun r => tagsOk (fst r))
          (WizardIO.addHashtags seen hashtags answers).
Proof.
  revert seen hashtags. induction answers as [|inputTag rest IH]; intros seen hashtags Hok Hseen.
  - apply fulfils_throw. discriminate.
  - cbn [WizardIO.addHashtags].
    destruct (isEmpty (Wizard.normalizeHashtag (VStr inputTag))) eqn:Ee;
      [apply fulfils_ret; exact Hok|].
    destruct (decide (toLowerCase (Wizard.normalizeHashtag (VStr inputTag)) ∈ seen))
      as [Hin|Hnin].
    + apply fulfils_then; [apply log_did | intros _]. apply IH; assumption.
    + apply IH.
      * destruct Hok as [Hc Hnd]. split.
        -- apply Forall_app. split; [exact Hc|]. constructor; [|constructor].
           apply normalizeHashtag_nonempty. exact Ee.
        -- rewrite map_app. apply NoDup_app. split; [exact Hnd|]. split.
           ++ intros k Hk Hk'. simpl in Hk'. apply list_elem_of_singleton in Hk'. subst k.
              apply Hnin. apply Hseen. exact Hk.
           ++ simpl. apply NoDup_singleton.
      * intros k Hk. rewrite map_app in Hk. apply elem_of_app in Hk.
        apply elem_of_union. destruct Hk as [Hk | Hk]; [right; apply Hseen; exact Hk|].
        simpl in Hk. apply list_elem_of_singleton in Hk. left. apply elem_of_singleton. exact Hk.
Qed.

Lemma handleHashtags_did (answers : list string) :
  respects did inRange (WizardIO.handleHashtags rootDir answers).
Proof.
  unfold WizardIO.handleHashtags.
  apply respects_bind; [apply readJson_did; right; reflexivity | intros existingRaw].
  assert (Hok : tagsOk (Wizard.normalizeHashtags existingRaw)) by apply wizard_tags_canonical.
  set (hashtags := Wizard.normalizeHashtags existingRaw) in *.
  apply respects_bind; [apply log_did | intros _].
  apply respects_bind; [apply log_did | intros _].
  apply respects_bind; [apply question_did | intros [line answers1]].
  apply (fulfils_events _ _ (fun _ => True)).
  apply (fulfils_bind _ _ (fun r : list string * list string => tagsOk (fst r))).
  { destruct (WizardIO.isYes line).
    { apply fulfils_ret. split; [constructor | apply NoDup_nil_2]. }
    destruct (0 <? length hashtags)%nat; [|apply fulfils_ret; exact Hok].
    apply fulfils_then; [apply question_did | intros [line2 answers2]].
    destruct (WizardIO.isYes line2); [|apply fulfils_ret; exact Hok].
    apply manageHashtagsLoop_fulfils. exact Hok. }
  intros [hashtags1 answers3] Hok1. cbn [fst] in Hok1.
  apply fulfils_then; [apply log_did | intros _].
  eapply fulfils_bind.
  { apply (addHashtags_fulfils _ _ _ Hok1). intros k Hk.
    apply elem_of_list_to_set. exact Hk. }
  intros [hashtags2 answers4] Hok2. cbn [fst] in Hok2.
  destruct (length hashtags2 =? 0)%nat eqn:El.
  - apply fulfils_then; [apply log_did | intros _]. apply fulfils_ret. exact I.
  - apply fulfils_then; [|intros _].
    + unfold WizardIO.writeJson. apply respects_syscall; [|intros code; discriminate].
      intros f. right. split; [reflexivity|]. exists hashtags2.
      split; [reflexivity|]. split; [|exact Hok2].
      intros Hnil. rewrite Hnil in El. discriminate.
    + apply fulfils_then; [apply log_did | intros _]. apply fulfils_ret. exact I.
Qed.

Lemma wizard_run_did (answers : list string) :
  respects did inRange (WizardIO.run rootDir answers).
Proof.
  unfold WizardIO.run.
  apply respects_bind.
  { apply respects_syscall; [intros f; split; reflexivity | intros code; discriminate]. }
  intros _. apply respects_finally; [|apply respects_ret].
  do 8 (apply respects_bind; [apply log_did | intros _]).
  apply respects_bind.
  { eapply fulfils_events. apply askChoice_fulfils. }
  intros [mode answers1].
  destruct (String.eqb mode "4"); [apply log_did|].
  apply respects_bind.
  { destruct (String.eqb mode "1" || String.eqb mode "3"); [|apply respects_ret].
    apply respects_bind; [apply handleCaptions_did | intros [done answers2]].
    apply respects_ret. }
  intros [changed answers2].
  apply respects_bind.
  { destruct (String.eqb mode "2" || String.eqb mode "3"); [|apply respects_ret].
    apply respects_bind; [apply handleHashtags_did | intros [done answers3]].
    apply respects_ret. }
  intros [changed' answers3].
  destruct changed'.
  - do 2 (apply respects_bind; [apply log_did | intros _]). apply log_did.
  - apply log_did.
Qed.

(** X21. Whatever is typed and whatever the bank files hold, all that the
    wizard does to the store is to make the data directory, to read the two
    bank files and to write a bank: a write to [captions.json] is that of a
    bank in normal form that is not empty (ids [1..N] in order, trimmed
    texts that are not empty), a write to [hashtags.json] that of a list
    that is not empty, of canonical tags, no two equal up to case.  And an
    index that the user has given is always within the list it is used on. *)
Theorem wizard_writes_valid_banks (answers : list string) (w : world) :
  Forall (wizardEvent rootDir) (eventsOf (WizardIO.run rootDir answers w)) /\
  resultOf (WizardIO.run rootDir answers w) <> Throw WizardIO.outOfRange.
Proof.
  destruct (wizard_run_did answers w) as [Hes Herr]. split; [exact Hes|].
  intros Hr. apply (Herr _ Hr). reflexivity.
Qed.

(** X22. The engine reads what the wizard has written: every caption bank
    that the wizard writes is accepted by the engine's
    [normalizeCaptionEntries] record for record, and every hashtag bank it
    writes is returned as it is by the engine's [normalizeHashtags]. *)
Theorem wizard_banks_accepted (answers : list string) (w : world) (ev : event)
        (path content : string) :
  In ev (eventsOf (WizardIO.run rootDir answers w)) ->
  what ev = WriteFile path content ->
  (path = captionsPath rootDir /\
   exists bank : list (caption Z),
     content = JSON_stringify (bankToValue num bank) +:+ newline /\
     normalizeCaptionEntries (bankToValue num bank) = Ok (asEngineBank bank) /\
     asEngineBank bank <> []) \/
  (path = hashtagsPath rootDir /\
   exists tags : list string,
     content = JSON_stringify (tagsToValue tags) +:+ newline /\
     normalizeHashtags (tagsToValue tags) = Ok tags /\
     tags <> []).
Proof.
  intros Hin Hev. destruct (wizard_run_did answers w) as [Hes _].
  rewrite Forall_forall in Hes. apply list_elem_of_In in Hin. specialize (Hes ev Hin).
  unfold wizardEvent in Hes. rewrite Hev in Hes.
  destruct Hes as [(Hp & bank & Hc & Hne & Hcanon) | (Hp & tags & Hc & Hne & [Hcan Hnd])].
  - left. split; [exact Hp|]. exists bank. split; [exact Hc|]. split.
    + rewrite <- asEngineBank_value. apply settled_accepted.
      apply (canon_settled _ _ Hcanon).
    + destruct bank; [contradiction | discriminate].
  - right. split; [exact Hp|]. exists tags. split; [exact Hc|]. split; [|exact Hne].
    unfold normalizeHashtags, tagsToValue. rewrite engine_pipeline_fixed.
    + rewrite uniqueFrom_firstByKey. f_equal. apply firstByKey_fixed.
      * rewrite map_id. eapply NoDup_fmap_1. exact Hnd.
      * intros t _. apply not_elem_of_empty.
    + eapply Forall_impl; [exact Hcan|]. intros t [Hh Hw].
      split; [exact Hh | apply trim_clean; exact Hw].
Qed.
End WizardHashtagFacts2.

Lemma wizard_banks_accepted_witness :
  exists bank : list (caption Z),
    normalizeCaptionEntries (bankToValue num bank) = Ok (asEngineBank bank) /\
    asEngineBank bank <> [].
Proof.
  destruct (@wizard_banks_accepted sampleBuiltins "/r" wizardAnswers sampleWorld
              (nth 13 (eventsOf wizardSession) (succeeded (Rm "")))
              "/r/data/captions.json"
              (@JSON_stringify sampleBuiltins
                 (bankToValue num
                    [ {| id := 1; text := "Hi"; used := false; used_at := VNull |};
                      {| id := 2; text := "Baru"; used := false; used_at := VNull |} ])
                 +:+ newline))
    as [(_ & bank & _ & Hacc & Hne) | (Hpath & _)].
  - vm_compute. do 13 right. left. reflexivity.
  - vm_compute. reflexivity.
  - exists bank. split; assumption.
  - vm_compute in Hpath. discriminate.
Defined.

(** *** The questions *)

Section Questions.
Context `{Builtins}.

Lemma askChoice_result (prompt : string) (validChoices answers : list string) (w : world)
      (choice : string) (rest : list string) :
  resultOf (WizardIO.askChoice prompt validChoices answers w) = Ok (choice, rest) ->
  choice ∈ validChoices /\ (length rest < length answers)%nat.
Proof.
  revert w. induction answers as [|line answers IH]; intros w; simpl; [discriminate|].
  destruct (bool_decide (trim line ∈ validChoices)) eqn:Ev.
  - intros [= <- <-]. apply bool_decide_eq_true in Ev. split; [exact Ev | simpl; lia].
  - rewrite bind_result. cbn [resultOf consoleLog fst]. intros Hr.
    destruct (IH _ Hr) as [Hc Hl]. split; [exact Hc | simpl; lia].
Qed.

Lemma askIndex_result (prompt : string) (max : nat) (answers : list string) (w : world)
      (chosen : option nat) (rest : list string) :
  resultOf (WizardIO.askIndex prompt max answers w) = Ok (chosen, rest) ->
  (forall index, chosen = Some index -> (index < max)%nat) /\
  (length rest < length answers)%nat.
Proof.
  revert w. induction answers as [|line answers IH]; intros w; simpl; [discriminate|].
  destruct (isEmpty (trim line)).
  { intros [= <- <-]. split; [discriminate | simpl; lia]. }
  destruct (WizardIO.indexOf (trim line) max) as [index|] eqn:Ei.
  - intros [= <- <-]. split; [|simpl; lia].
    intros i [= <-]. apply (indexOf_range _ _ _ Ei).
  - rewrite bind_result. cbn [resultOf consoleLog fst]. intros Hr.
    destruct (IH _ Hr) as [Hc Hl]. split; [exact Hc | simpl; lia].
Qed.

(** X23. [askChoice] returns nothing but one of the valid choices, and
    [askIndex] nothing but [null] or an index below [max]: whatever is
    typed, numbers out of range, fractions and words included, the caller
    never gets an index outside its list.  Each returns having read at least
    one line. *)
Theorem questions_return_valid (prompt : string) (answers : list string) (w : world) :
  (forall validChoices choice rest,
     resultOf (WizardIO.askChoice prompt validChoices answers w) = Ok (choice, rest) ->
     choice ∈ validChoices /\ (length rest < length answers)%nat) /\
  (forall max chosen rest,
     resultOf (WizardIO.askIndex prompt max answers w) = Ok (chosen, rest) ->
     (forall index, chosen = Some index -> (index < max)%nat) /\
     (length rest < length answers)%nat).
Proof.
  split.
  - intros validChoices choice rest. apply askChoice_result.
  - intros max chosen rest. apply askIndex_result.
Qed.

Lemma question_result (prompt : string) (answers : list string) (w : world)
      (line : string) (rest : list string) :
  resultOf (WizardIO.question prompt answers w) = Ok (line, rest) ->
  (length rest < length answers)%nat.
Proof. destruct answers; simpl; [discriminate|]. intros [= <- <-]. simpl. lia. Qed.

Lemma bind_ext_on {A B : Type} (m : M A) (f g : A -> M B) (w : world) :
  (forall a, resultOf (m w) = Ok a -> f a (worldOf (m w)) = g a (worldOf (m w))) ->
  (m ≫= f) w = (m ≫= g) w.
Proof.
  unfold mbind, M_bind, bind, resultOf, worldOf.
  destruct (m w) as [[[a|e] w'] es]; cbn [fst snd]; intros Hfg; [|reflexivity].
  rewrite (Hfg a eq_refl). reflexivity.
Qed.

Lemma manageCaptionsLoop_bound (fuel fuel' : nat) (captions : list (caption Z))
      (answers : list string) (w : world) :
  (length answers < fuel)%nat -> (length answers < fuel')%nat ->
  WizardIO.manageCaptionsLoop fuel captions answers w
  = WizardIO.manageCaptionsLoop fuel' captions answers w.
Proof.
  revert fuel' captions answers w.
  induction fuel as [|fuel IH]; intros fuel' captions answers w Hf Hf'; [lia|].
  destruct fuel' as [|fuel']; [lia|]. cbn [WizardIO.manageCaptionsLoop].
  destruct (length captions =? 0)%nat; [reflexivity|].
  do 6 (apply bind_ext_on; intros ? _).
  apply bind_ext_on. intros [action answers1] Hr1.
  apply askChoice_result in Hr1. destruct Hr1 as [_ Hl1].
  destruct (String.eqb action "3"); [reflexivity|].
  apply bind_ext_on. intros [chosen answers2] Hr2.
  apply askIndex_result in Hr2. destruct Hr2 as [_ Hl2].
  destruct chosen as [index|]; [|apply IH; lia].
  destruct (captions !! index) as [current|]; [|reflexivity].
  destruct (String.eqb action "1").
  - apply bind_ext_on. intros [line answers3] Hr3. apply question_result in Hr3.
    destruct (isEmpty (trim line)); apply bind_ext_on; intros ? _; apply IH; lia.
  - apply bind_ext_on; intros ? _. apply IH; lia.
Qed.

Lemma manageHashtagsLoop_bound (fuel fuel' : nat) (hashtags answers : list string)
      (w : world) :
  (length answers < fuel)%nat -> (length answers < fuel')%nat ->
  WizardIO.manageHashtagsLoop fuel hashtags answers w
  = WizardIO.manageHashtagsLoop fuel' hashtags answers w.
Proof.
  revert fuel' hashtags answers w.
  induction fuel as [|fuel IH]; intros fuel' hashtags answers w Hf Hf'; [lia|].
  destruct fuel' as [|fuel']; [lia|]. cbn [WizardIO.manageHashtagsLoop].
  destruct (length hashtags =? 0)%nat; [reflexivity|].
  do 6 (apply bind_ext_on; intros ? _).
  apply bind_ext_on. intros [action answers1] Hr1.
  apply askChoice_result in Hr1. destruct Hr1 as [_ Hl1].
  destruct (String.eqb action "3"); [reflexivity|].
  apply bind_ext_on. intros [chosen answers2] Hr2.
  apply askIndex_result in Hr2. destruct Hr2 as [_ Hl2].
  destruct chosen as [index|]; [|apply IH; lia].
  destruct (hashtags !! index) as [removed|]; [|reflexivity].
  destruct (String.eqb action "1").
  - apply bind_ext_on. intros [line answers3] Hr3. apply question_result in Hr3.
    destruct (isEmpty _).
    + apply bind_ext_on; intros ? _; apply IH; lia.
    + destruct (WizardIO.findIndexFrom _ O hashtags);
        apply bind_ext_on; intros ? _; apply IH; lia.
  - apply bind_ext_on; intros ? _. apply IH; lia.
Qed.

(** X24. The bound on the rounds of [manageCaptions] and [manageHashtags]
    is never what stops them: every round reads a line, and with any bound
    above the number of lines left the two loops do the same.  They end when
    the user asks for it, when the list is empty, or when the input ends. *)
Theorem manage_loops_bound (fuel : nat) (answers : list string) (w : world) :
  (length answers < fuel)%nat ->
  (forall captions,
     WizardIO.manageCaptionsLoop fuel (reindexCaptions captions) answers w
     = WizardIO.manageCaptions captions answers w) /\
  (forall hashtags,
     WizardIO.manageHashtagsLoop fuel hashtags answers w
     = WizardIO.manageHashtags hashtags answers w).
Proof.
  intros Hf. split.
  - intros captions. unfold WizardIO.manageCaptions. apply manageCaptionsLoop_bound; lia.
  - intros hashtags. unfold WizardIO.manageHashtags. apply manageHashtagsLoop_bound; lia.
Qed.
End Questions.

Lemma questions_return_valid_witness :
  resultOf (@WizardIO.askIndex sampleBuiltins "Nomor: " 3 ["x"; "7"; " 2 "]%string sampleWorld)
  = Ok (Some 1%nat, []) /\
  (1 < 3)%nat.
Proof.
  split; [vm_compute; reflexivity|].
  destruct (proj2 (@questions_return_valid sampleBuiltins "Nomor: " ["x"; "7"; " 2 "]%string
                     sampleWorld) 3%nat (Some 1%nat) [] ltac:(vm_compute; reflexivity))
    as [Hindex _].
  apply Hindex. reflexivity.
Defined.

Lemma manage_loops_bound_witness :
  @WizardIO.manageCaptionsLoop sampleBuiltins 9 (reindexCaptions threeCaptions)
    ["2"; "1"; "3"]%string sampleWorld
  = @WizardIO.manageCaptions sampleBuiltins threeCaptions ["2"; "1"; "3"]%string sampleWorld.
Proof.
  apply (@manage_loops_bound sampleBuiltins 9 ["2"; "1"; "3"]%string sampleWorld).
  simpl. lia.
Defined.

(** *** Shortening a text for the screen *)

Lemma substring_length (n : nat) (s : string) :
  String.length (substring 0 n s) = Nat.min n (String.length s).
Proof.
  revert n. induction s as [|c s IH]; intros [|n]; simpl; try reflexivity.
  rewrite IH. reflexivity.
Qed.

(** X25. For a width of three or more, [truncateText] returns a text that
    fits the width: the trimmed text itself when it fits, and otherwise its
    first [max - 3] characters followed by three dots, [max] characters in
    all. *)
Theorem truncateText_fits (text : string) (max : Z) :
  3 <= max ->
  let shown := WizardIO.truncateText text max in
  Z.of_nat (String.length shown) <= max /\
  (Z.of_nat (String.length (trim text)) <= max -> shown = trim text) /\
  (max < Z.of_nat (String.length (trim text)) ->
   shown = substring 0 (Z.to_nat (max - 3)) (trim text) +:+ "..." /\
   Z.of_nat (String.length shown) = max).
Proof.
  intros Hmax shown. unfold shown, WizardIO.truncateText.
  destruct (Z.of_nat (String.length (trim text)) <=? max) eqn:Efit.
  - apply Z.leb_le in Efit. split; [exact Efit|]. split; [reflexivity | lia].
  - apply Z.leb_gt in Efit.
    assert (Hslice : WizardIO.sliceTo (trim text) (max - 3)
                     = substring 0 (Z.to_nat (max - 3)) (trim text)).
    { unfold WizardIO.sliceTo.
      assert ((max - 3 <? 0) = false) as -> by (apply Z.ltb_ge; lia).
      f_equal. lia. }
    rewrite Hslice.
    assert (Hlen : Z.of_nat (String.length (substring 0 (Z.to_nat (max - 3)) (trim text)
                                            +:+ "...")) = max).
    { rewrite append_length, substring_length. simpl. lia. }
    split; [lia|]. split; [lia|]. intros _. split; [reflexivity | exact Hlen].
Qed.

Lemma truncateText_fits_witness :
  WizardIO.truncateText "  abcdefghij " 6 = "abc..."%string.
Proof.
  apply (truncateText_fits "  abcdefghij " 6 ltac:(lia)). vm_compute. reflexivity.
Defined.

(** ** The caption file *)

Lemma cutLine_append (line after : string) :
  hasNewline line = false -> cutLine (line +:+ newline +:+ after) = Some (line, after).
Proof.
  induction line as [|c line IH]; intros Hn; [reflexivity|].
  simpl in Hn. apply orb_false_iff in Hn. destruct Hn as [Hc Hn].
  rewrite append_cons. cbn [cutLine]. rewrite Hc, (IH Hn). reflexivity.
Qed.

Lemma hasNewline_append (a b : string) :
  hasNewline (a +:+ b) = hasNewline a || hasNewline b.
Proof.
  induction a as [|c a IH]; [reflexivity|].
  rewrite append_cons. simpl. rewrite IH. apply orb_assoc.
Qed.

Lemma hasNewline_concat (tags : list string) :
  Forall (fun tag => hasNewline tag = false) tags ->
  hasNewline (String.concat " " tags) = false.
Proof.
  induction 1 as [|tag tags Htag Hall IH]; [reflexivity|].
  destruct tags as [|tag' tags]; [exact Htag|].
  change (String.concat " " (tag :: tag' :: tags))
    with (tag +:+ " " +:+ String.concat " " (tag' :: tags)).
  rewrite !hasNewline_append, Htag, IH. reflexivity.
Qed.

(** X26. When neither the caption nor a hashtag holds a line feed, the
    content of [caption.txt] is two lines, each ended by a line feed, and
    nothing more: the caption, then the hashtags with one space between
    them; without hashtags the second line is there and is empty. *)
Theorem captionFileContent_two_lines (captionText : string) (selectedHashtags : list string) :
  hasNewline captionText = false ->
  Forall (fun tag => hasNewline tag = false) selectedHashtags ->
  exists after,
    cutLine (captionFileContent captionText selectedHashtags) = Some (captionText, after) /\
    cutLine after = Some (String.concat " " selectedHashtags, ""%string) /\
    (selectedHashtags = [] -> after = newline).
Proof.
  intros Hc Htags. unfold captionFileContent. eexists. split; [|split].
  - apply cutLine_append. exact Hc.
  - rewrite <- (append_empty_r newline) at 1. apply cutLine_append.
    apply hasNewline_concat. exact Htags.
  - intros ->. reflexivity.
Qed.

Lemma captionFileContent_two_lines_witness :
  exists after,
    cutLine (captionFileContent "Hi" ["#x"; "#y"]%string) = Some ("Hi"%string, after) /\
    cutLine after = Some ("#x #y"%string, ""%string).
Proof.
  destruct (captionFileContent_two_lines "Hi" ["#x"; "#y"]%string eq_refl
              ltac:(repeat constructor)) as (after & H1 & H2 & _).
  exists after. split; assumption.
Defined.

(** ** The selected media arrive *)

Section Delivery.
Variable jobDir : string.

Lemma uniqueFilePath_free (fuel : nat) (base : string) (w : world) :
  calm w -> (size (existing w) < fuel)%nat ->
  exists k,
    uniqueFilePath fuel jobDir base w
    = (Ok (join jobDir (candidateName (parse base) k)), w,
       eventsOf (uniqueFilePath fuel jobDir base w)) /\
    pathExists w (join jobDir (candidateName (parse base) k)) = false.
Proof.
  intros Hc Hfuel. unfold uniqueFilePath.
  destruct (uniqueFileLoop_calm jobDir (parse base) w fuel O Hc) as [Hw Hcases].
  destruct Hcases as [(k & _ & Hfree & _ & Hres) | (Hall & _)].
  - exists k. split; [|exact Hfree].
    rewrite <- Hres, <- Hw at 1. symmetry.
    rewrite Hw at 1. rewrite <- Hw at 2. apply triple_eta.
  - exfalso. destruct (free_candidate jobDir (parse base) w) as (k & Hk & Hfree).
    rewrite (Hall k) in Hfree; [discriminate | lia].
Qed.

Lemma moveFileSafe_free (src dst content : string) (w : world) :
  calm w -> files w !! src = Some content -> pathExists w dst = false ->
  resultOf (moveFileSafe src dst w) = Ok tt /\
  calm (worldOf (moveFileSafe src dst w)) /\
  dirs (worldOf (moveFileSafe src dst w)) = dirs w /\
  files (worldOf (moveFileSafe src dst w)) = <[dst := content]> (delete src (files w)).
Proof.
  intros Hc Hsrc Hfree.
  destruct (decide (device w src = device w dst)) as [Hdev|Hdev].
  - rewrite (moveFileSafe_renamed src dst content w Hc Hsrc Hdev Hfree).
    repeat split; try reflexivity. exact Hc.
  - rewrite (moveFileSafe_copied src dst content w Hc Hsrc Hdev Hfree).
    repeat split; try reflexivity; [exact Hc|].
    cbn [worldOf fst snd files withFiles withStore].
    apply delete_insert_ne. intros <-.
    apply pathExists_false in Hfree. destruct Hfree as [Hnone _]. congruence.
Qed.

Lemma existing_after_move (w w' : world) (src dst content : string) :
  dirs w' = dirs w -> files w' = <[dst := content]> (delete src (files w)) ->
  (size (existing w') <= S (size (existing w)))%nat.
Proof.
  intros Hd Hf.
  assert (Hsub : existing w' ⊆ {[dst]} ∪ existing w).
  { unfold existing. rewrite Hd, Hf. intros p Hp.
    apply elem_of_union in Hp. destruct Hp as [Hp | Hp].
    - apply elem_of_dom in Hp. destruct (decide (p = dst)) as [->|Hne].
      + apply elem_of_union. left. apply elem_of_singleton. reflexivity.
      + rewrite lookup_insert_ne in Hp by congruence.
        apply elem_of_union. right. apply elem_of_union. left. apply elem_of_dom.
        destruct Hp as [c Hp]. apply lookup_delete_Some in Hp. destruct Hp as [_ Hp]. eauto.
    - apply elem_of_union. right. apply elem_of_union. right. exact Hp. }
  apply subseteq_size in Hsub.
  pose proof (size_union_alt ({[dst]} : gset string) (existing w)) as Hu.
  rewrite size_singleton in Hu.
  pose proof (subseteq_size (existing w ∖ {[dst]}) (existing w)
                ltac:(apply subseteq_difference_l; reflexivity)).
  lia.
Qed.

Lemma moveSelected_delivers_from (fuel : nat) (selectedMedia : list string) (w : world) :
  calm w -> NoDup selectedMedia ->
  (forall src, src ∈ selectedMedia -> is_Some (files w !! src)) ->
  (forall src name, src ∈ selectedMedia -> src <> join jobDir name) ->
  (size (existing w) + length selectedMedia < fuel)%nat ->
  let after := worldOf (moveSelected fuel jobDir selectedMedia w) in
  resultOf (moveSelected fuel jobDir selectedMedia w) = Ok tt /\
  calm after /\ dirs after = dirs w /\
  (forall src, src ∈ selectedMedia -> files after !! src = None) /\
  exists dests,
    Forall2 (deliveredAs jobDir w after) selectedMedia dests /\
    NoDup dests /\
    (forall p, p ∉ selectedMedia -> p ∉ dests -> files after !! p = files w !! p).
Proof.
  revert w. induction selectedMedia as [|x rest IH]; intros w Hc Hnd Hsrc Hout Hfuel after.
  { unfold after. cbn. split; [reflexivity|]. split; [exact Hc|]. split; [reflexivity|].
    split; [intros src Hin; apply elem_of_nil in Hin; destruct Hin|].
    exists []. split; [constructor|]. split; [apply NoDup_nil_2 | reflexivity]. }
  apply NoDup_cons in Hnd. destruct Hnd as [Hx Hnd].
  destruct (Hsrc x ltac:(left)) as [content Hcontent].
  destruct (uniqueFilePath_free fuel (basename x) w Hc ltac:(lia)) as (k & Hu & Hfree).
  set (dst := join jobDir (candidateName (parse (basename x)) k)) in *.
  destruct (moveFileSafe_free x dst content w Hc Hcontent Hfree) as (Hm & Hc1 & Hd1 & Hf1).
  assert (Hxd : x <> dst) by (apply Hout; left).
  set (w1 := worldOf (moveFileSafe x dst w)) in *.
  pose proof (bind_ok _ (fun destinationPath => moveFileSafe x destinationPath) _ _ _ _ Hu)
    as Hone.
  cbn beta in Hone. fold w1 in Hone. rewrite Hm in Hone.
  unfold after, moveSelected. cbn [forEach]. fold (moveSelected fuel jobDir rest).
  rewrite (bind_ok _ _ _ _ _ _ Hone). cbn [resultOf worldOf fst snd].
  fold (resultOf (moveSelected fuel jobDir rest w1)).
  fold (worldOf (moveSelected fuel jobDir rest w1)).
  assert (Hkeep : forall p, p <> x -> p <> dst -> files w1 !! p = files w !! p).
  { intros p Hpx Hpd. rewrite Hf1, lookup_insert_ne by congruence.
    apply lookup_delete_ne. congruence. }
  assert (Hrest : forall src, src ∈ rest -> src <> x /\ src <> dst).
  { intros src Hin. split; [intros ->; contradiction|].
    apply Hout. right. exact Hin. }
  destruct (IH w1 Hc1 Hnd) as (Hres & Hc2 & Hd2 & Hgone & dests & Hdel & Hndd & Hothers).
  { intros src Hin. destruct (Hrest src Hin) as [H1 H2].
    rewrite (Hkeep src H1 H2). apply Hsrc. right. exact Hin. }
  { intros src name Hin. apply Hout. right. exact Hin. }
  { pose proof (existing_after_move w w1 x dst content Hd1 Hf1). simpl in Hfuel. lia. }
  set (w2 := worldOf (moveSelected fuel jobDir rest w1)) in *.
  assert (Hdests : forall d, d ∈ dests -> (exists name, d = join jobDir name) /\
                                         pathExists w1 d = false).
  { intros d Hd. apply list_elem_of_lookup in Hd. destruct Hd as [i Hi].
    destruct (Forall2_lookup_r _ _ _ _ _ Hdel Hi) as (src & _ & (Hname & Hfr & _)).
    split; assumption. }
  assert (Hdst1 : files w1 !! dst = Some content) by (rewrite Hf1; apply lookup_insert_eq).
  assert (Hdstnot : dst ∉ dests).
  { intros Hin. destruct (Hdests dst Hin) as [_ Hfr].
    apply pathExists_false in Hfr. destruct Hfr as [Hnone _]. congruence. }
  assert (Hxnot : x ∉ dests).
  { intros Hin. destruct (Hdests x Hin) as [[name Hname] _].
    apply (Hout x name); [left | exact Hname]. }
  split; [exact Hres|]. split; [exact Hc2|]. split; [congruence|]. split.
  { intros src Hin. apply elem_of_cons in Hin. destruct Hin as [-> | Hin]; [|apply Hgone; exact Hin].
    rewrite (Hothers x Hx Hxnot), Hf1, lookup_insert_ne by congruence.
    apply lookup_delete_eq. }
  exists (dst :: dests). split; [|split].
  - constructor.
    + split; [eexists; reflexivity|]. split; [exact Hfree|].
      rewrite Hothers; [congruence | | exact Hdstnot].
      intros Hin. apply (Hout dst _ ltac:(right; exact Hin) eq_refl).
    + eapply Forall2_impl; [|intros src d Hsd; exact Hsd].
      apply Forall2_same_length_lookup. split; [eapply Forall2_length; exact Hdel|].
      intros i src d Hi Hj.
      destruct (Forall2_lookup_lr _ _ _ _ _ _ Hdel Hi Hj) as (Hname & Hfr & Hcont).
      assert (Hin : src ∈ rest) by (eapply list_elem_of_lookup_2; exact Hi).
      destruct (Hrest src Hin) as [Hsx Hsd].
      destruct Hname as [name ->].
      assert (Hdx : join jobDir name <> x).
      { intros Heq. apply (Hout x name); [left | congruence]. }
      assert (Hdd : join jobDir name <> dst).
      { intros Heq. apply Hdstnot. rewrite <- Heq. eapply list_elem_of_lookup_2; exact Hj. }
      split; [eexists; reflexivity|]. split.
      * apply pathExists_false in Hfr. destruct Hfr as [Hnone Hnotdir].
        apply pathExists_false. split; [|rewrite <- Hd1; exact Hnotdir].
        rewrite <- (Hkeep _ Hdx Hdd). exact Hnone.
      * rewrite Hcont. apply Hkeep; assumption.
  - apply NoDup_cons. split; assumption.
  - intros p Hp Hpd. apply not_elem_of_cons in Hp, Hpd.
    destruct Hp as [Hpx Hprest]. destruct Hpd as [Hpdst Hpdests].
    rewrite (Hothers p Hprest Hpdests). apply Hkeep; assumption.
Qed.
End Delivery.



(** ** The scan returns no path twice *)

Lemma NoDup_omap_inj {A B : Type} (f : A -> option B) (l : list A) :
  NoDup l ->
  (forall x y z, x ∈ l -> y ∈ l -> f x = Some z -> f y = Some z -> x = y) ->
  NoDup (omap f l).
Proof.
  induction 1 as [|x l Hx Hnd IH]; intros Hinj; [apply NoDup_nil_2|].
  cbn [omap list_omap]. destruct (f x) as [z|] eqn:Ef.
  - apply NoDup_cons. split.
    + intros Hin. apply list_elem_of_omap in Hin. destruct Hin as (y & Hy & Hfy).
      apply Hx. rewrite (Hinj x y z); [exact Hy | left | right; exact Hy | exact Ef | exact Hfy].
    + apply IH. intros a b c Ha Hb. apply Hinj; right; assumption.
  - apply IH. intros a b c Ha Hb. apply Hinj; right; assumption.
Qed.

Lemma omap_nothing {A B : Type} (f : A -> option B) (l : list A) :
  (forall x, x ∈ l -> f x = None) -> omap f l = [].
Proof.
  induction l as [|x l IH]; intros Hnone; [reflexivity|].
  cbn [omap list_omap]. rewrite (Hnone x) by left. apply IH.
  intros y Hy. apply Hnone. right. exact Hy.
Qed.

Lemma join_plain_inj (d d' n n' : string) :
  plainName n -> plainName n' -> join d n = join d' n' -> d = d' /\ n = n'.
Proof.
  intros [_ Hn] [_ Hn'] Heq.
  assert (Hname : n = n').
  { rewrite <- (basename_join d n Hn), <- (basename_join d' n' Hn'), Heq. reflexivity. }
  subst n'. split; [|reflexivity].
  unfold join in Heq. rewrite <- !append_assoc in Heq.
  apply append_cancel_r in Heq. apply append_cancel_r in Heq. exact Heq.
Qed.

Lemma join_longer (d n : string) : (String.length d < String.length (join d n))%nat.
Proof. unfold join. rewrite !append_length. simpl. lia. Qed.

Section ScanDistinct.
Context `{Builtins}.

Lemma fold_visit (exts : list string) (current : string) (entries : list dirent)
      (queue results : list string) :
  fold_left (visit exts current) entries (queue, results)
  = (queue ++ foundDirs current entries, results ++ foundFiles exts current entries).
Proof.
  revert queue results. induction entries as [|entry entries IH]; intros queue results.
  - simpl. rewrite !app_nil_r. reflexivity.
  - cbn [fold_left].
    assert (Hd : forall l, foundDirs current (entry :: l)
                           = foundDirs current [entry] ++ foundDirs current l).
    { intros l. unfold foundDirs. cbn [omap list_omap].
      destruct (entryKind entry); reflexivity. }
    assert (Hf : forall l, foundFiles exts current (entry :: l)
                           = foundFiles exts current [entry] ++ foundFiles exts current l).
    { intros l. unfold foundFiles. cbn [omap list_omap].
      destruct (entryKind entry); [|destruct (bool_decide _)|]; reflexivity. }
    assert (Hacc : visit exts current (queue, results) entry
                   = (queue ++ foundDirs current [entry],
                      results ++ foundFiles exts current [entry])).
    { unfold visit, foundDirs, foundFiles. cbn [omap list_omap].
      destruct (entryKind entry); [|destruct (bool_decide _)|];
        rewrite ?app_nil_r; reflexivity. }
    rewrite Hd, Hf, Hacc, IH, <- !app_assoc. reflexivity.
Qed.

Lemma children_files_part (w : world) (d : string) :
  let part := omap (fun p => n ← childName d p;
                             Some {| entryName := n; entryKind := IsFile |})
                   (map fst (map_to_list (files w))) in
  NoDup part /\ forall e, e ∈ part -> entryKind e = IsFile /\ plainName (entryName e).
Proof.
  intros part. split.
  - apply NoDup_omap_inj; [apply NoDup_fst_map_to_list|].
    intros p p' e _ _ Hp Hp'.
    destruct (childName d p) as [n|] eqn:En; [|discriminate].
    destruct (childName d p') as [n'|] eqn:En'; [|discriminate].
    simpl in Hp, Hp'. injection Hp as <-. injection Hp' as Hn.
    apply childName_join in En, En'. destruct En as [-> _], En' as [-> _]. congruence.
  - intros e He. apply list_elem_of_omap in He. destruct He as (p & _ & Hp).
    destruct (childName d p) as [n|] eqn:En; [|discriminate].
    simpl in Hp. injection Hp as <-. apply childName_join in En.
    destruct En as (_ & Hs & He). split; [reflexivity | split; assumption].
Qed.

Lemma children_dirs_part (w : world) (d : string) :
  let part := omap (fun p => n ← childName d p;
                             Some {| entryName := n; entryKind := IsDirectory |})
                   (elements (dirs w)) in
  NoDup part /\ forall e, e ∈ part -> entryKind e = IsDirectory /\ plainName (entryName e).
Proof.
  intros part. split.
  - apply NoDup_omap_inj; [apply NoDup_elements|].
    intros p p' e _ _ Hp Hp'.
    destruct (childName d p) as [n|] eqn:En; [|discriminate].
    destruct (childName d p') as [n'|] eqn:En'; [|discriminate].
    simpl in Hp, Hp'. injection Hp as <-. injection Hp' as Hn.
    apply childName_join in En, En'. destruct En as [-> _], En' as [-> _]. congruence.
  - intros e He. apply list_elem_of_omap in He. destruct He as (p & _ & Hp).
    destruct (childName d p) as [n|] eqn:En; [|discriminate].
    simpl in Hp. injection Hp as <-. apply childName_join in En.
    destruct En as (_ & Hs & He). split; [reflexivity | split; assumption].
Qed.

Lemma found_inj (current : string) (e e' : dirent) (k : kind) :
  entryKind e = k -> entryKind e' = k ->
  join current (entryName e) = join current (entryName e') -> e = e'.
Proof.
  intros Hk Hk' Heq. apply join_inj in Heq.
  destruct e as [n ke], e' as [n' ke']. simpl in *. congruence.
Qed.

Lemma foundDirs_children (w : world) (current : string) :
  NoDup (foundDirs current (children w current)) /\
  forall x, x ∈ foundDirs current (children w current) ->
            exists n, x = join current n /\ plainName n.
Proof.
  destruct (children_files_part w current) as [_ Hfiles].
  destruct (children_dirs_part w current) as [Hnd Hdirs].
  unfold children, foundDirs. rewrite omap_app.
  rewrite (omap_nothing _ (omap _ (map fst (map_to_list (files w))))).
  2:{ intros e He. destruct (Hfiles e He) as [-> _]. reflexivity. }
  cbn [app]. split.
  - apply NoDup_omap_inj; [exact Hnd|].
    intros e e' z He He' Hz Hz'.
    destruct (Hdirs e He) as [Hk _], (Hdirs e' He') as [Hk' _].
    rewrite Hk in Hz. rewrite Hk' in Hz'. injection Hz as <-. injection Hz' as Hz'.
    apply (found_inj current e e' IsDirectory); congruence.
  - intros x Hx. apply list_elem_of_omap in Hx. destruct Hx as (e & He & Hx).
    destruct (Hdirs e He) as [Hk Hplain]. rewrite Hk in Hx. injection Hx as <-. eauto.
Qed.

Lemma foundFiles_children (w : world) (exts : list string) (current : string) :
  NoDup (foundFiles exts current (children w current)) /\
  forall x, x ∈ foundFiles exts current (children w current) ->
            exists n, x = join current n /\ plainName n.
Proof.
  destruct (children_files_part w current) as [Hnd Hfiles].
  destruct (children_dirs_part w current) as [_ Hdirs].
  unfold children, foundFiles. rewrite omap_app.
  rewrite (omap_nothing _ (omap _ (elements (dirs w)))).
  2:{ intros e He. destruct (Hdirs e He) as [-> _]. reflexivity. }
  rewrite app_nil_r. split.
  - apply NoDup_omap_inj; [exact Hnd|].
    intros e e' z He He' Hz Hz'.
    destruct (Hfiles e He) as [Hk _], (Hfiles e' He') as [Hk' _].
    rewrite Hk in Hz. rewrite Hk' in Hz'.
    destruct (bool_decide _); [|discriminate]. destruct (bool_decide _); [|discriminate].
    injection Hz as <-. injection Hz' as Hz'.
    apply (found_inj current e e' IsFile); congruence.
  - intros x Hx. apply list_elem_of_omap in Hx. destruct Hx as (e & He & Hx).
    destruct (Hfiles e He) as [Hk Hplain]. rewrite Hk in Hx.
    destruct (bool_decide _); [|discriminate]. injection Hx as <-. eauto.
Qed.

Lemma childOf_grows (visited : list string) (c p : string) :
  childOf visited p -> childOf (visited ++ [c]) p.
Proof.
  intros (d & n & Hp & Hd & Hn). exists d, n. split; [exact Hp|].
  split; [apply elem_of_app; left; exact Hd | exact Hn].
Qed.

Lemma scanDistinct_step (w : world) (root : string) (exts : list string)
      (visited queue results : list string) (current : string) :
  scanDistinct root visited (current :: queue) results ->
  scanDistinct root (visited ++ [current])
               (queue ++ foundDirs current (children w current))
               (results ++ foundFiles exts current (children w current)).
Proof.
  intros (Hnd & Hres & Hshape & Hfrom).
  destruct (foundDirs_children w current) as [HndD HD].
  destruct (foundFiles_children w exts current) as [HndF HF].
  assert (Hcur : current ∉ visited).
  { apply NoDup_app in Hnd. destruct Hnd as (_ & Hdisj & _).
    intros Hin. apply (Hdisj current Hin). left. }
  assert (Hlen : (String.length root <= String.length current)%nat).
  { apply Hshape. apply elem_of_app. right. left. }
  assert (Hfresh : forall x n, x ∈ visited ++ current :: queue -> plainName n ->
                               x <> join current n).
  { intros x n Hx Hn ->. destruct (Hshape _ Hx) as [Hl [Hroot | (d & n' & Hp & Hd & Hn')]].
    - pose proof (join_longer current n). rewrite Hroot in H0. lia.
    - apply join_plain_inj in Hp; [|assumption..]. destruct Hp as [-> _]. contradiction. }
  assert (Hshift : forall D : list string,
            (visited ++ [current]) ++ queue ++ D = (visited ++ current :: queue) ++ D).
  { intros D. rewrite <- !app_assoc. reflexivity. }
  split; [|split; [|split]].
  - rewrite Hshift. apply NoDup_app.
    split; [exact Hnd|]. split; [|exact HndD].
    intros x Hx HxD. destruct (HD x HxD) as (n & -> & Hn).
    exact (Hfresh _ n Hx Hn eq_refl).
  - apply NoDup_app. split; [exact Hres|]. split; [|exact HndF].
    intros r Hr HrF. destruct (HF r HrF) as (n & -> & Hn).
    destruct (Hfrom _ Hr) as (d & n' & Hp & Hd & Hn').
    apply join_plain_inj in Hp; [|assumption..]. destruct Hp as [-> _]. contradiction.
  - intros x Hx. rewrite Hshift in Hx.
    apply elem_of_app in Hx. destruct Hx as [Hx | Hx].
    + destruct (Hshape x Hx) as [Hl Hform]. split; [exact Hl|].
      destruct Hform as [-> | Hchild]; [left; reflexivity | right].
      apply childOf_grows. exact Hchild.
    + destruct (HD x Hx) as (n & -> & Hn). split.
      * pose proof (join_longer current n). lia.
      * right. exists current, n. split; [reflexivity|].
        split; [apply elem_of_app; right; left | exact Hn].
  - intros r Hr. apply elem_of_app in Hr. destruct Hr as [Hr | Hr].
    + apply childOf_grows. apply Hfrom. exact Hr.
    + destruct (HF r Hr) as (n & -> & Hn). exists current, n. split; [reflexivity|].
      split; [apply elem_of_app; right; left | exact Hn].
Qed.

Lemma walk_distinct (fuel : nat) (root : string) (exts visited queue results : list string)
      (w : world) (out : list string) :
  scanDistinct root visited queue results ->
  resultOf (walk fuel exts queue results w) = Ok out ->
  NoDup out.
Proof.
  revert visited queue results w.
  induction fuel as [|fuel IH]; intros visited queue results w Hs Hout.
  - destruct queue; simpl in Hout; [|discriminate]. injection Hout as <-. apply Hs.
  - destruct queue as [|current queue].
    { simpl in Hout. injection Hout as <-. apply Hs. }
    cbn [walk] in Hout. rewrite bind_result in Hout.
    destruct (resultOf (readdir current w)) as [entries|e] eqn:Er; [|discriminate].
    destruct (readdir_step _ _ _ Er) as (-> & _ & _).
    rewrite fold_visit in Hout.
    apply (IH (visited ++ [current]) _ _ _ (scanDistinct_step w root exts _ _ _ _ Hs) Hout).
Qed.

(** X28. The scan returns no path twice, whatever the store holds: no
    directory is read twice and no file is listed twice, so that no medium
    can be selected two times. *)
Theorem collectFilesRecursive_distinct (fuel : nat) (root : string) (exts : list string)
        (w : world) (out : list string) :
  resultOf (collectFilesRecursive fuel root exts w) = Ok out -> NoDup out.
Proof.
  unfold collectFilesRecursive. rewrite bind_result.
  destruct (resultOf (existsSync root w)) as [[|]|e]; cbn [negb]; [| |discriminate].
  2:{ intros [= <-]. apply NoDup_nil_2. }
  rewrite bind_result.
  destruct (resultOf (walk fuel exts [root] [] _)) as [results|e] eqn:Ew; [|discriminate].
  intros [= <-]. rewrite (sortPaths_perm results).
  apply (walk_distinct fuel root exts [] [root] [] (worldOf (existsSync root w)) results);
    [|exact Ew].
  split; [|split; [|split]].
  - apply NoDup_singleton.
  - apply NoDup_nil_2.
  - intros x Hx. apply list_elem_of_singleton in Hx. subst x. split; [lia | left; reflexivity].
  - intros r Hr. apply elem_of_nil in Hr. destruct Hr.
Qed.
End ScanDistinct.

Lemma collectFilesRecursive_distinct_witness :
  NoDup ["/r/source_media/images/a.jpg"; "/r/source_media/images/b.jpg";
         "/r/source_media/images/old/Z.JPG"]%string.
Proof.
  apply (@collectFilesRecursive_distinct sampleBuiltins 5 "/r/source_media/images"
           IMAGE_EXTENSIONS scanWorld).
  vm_compute. reflexivity.
Defined.

(** ** A bank file that is missing, and a first session *)

Lemma bind_triple {A B : Type} (m : M A) (f : A -> M B) (w w1 w2 : world) (a : A)
      (r : result B) (es es' : list event) :
  m w = (Ok a, w1, es) -> f a w1 = (r, w2, es') -> (m ≫= f) w = (r, w2, es ++ es').
Proof. intros Hm Hf. rewrite (bind_ok _ _ _ _ _ _ Hm), Hf. reflexivity. Qed.

Lemma readFile_calm (path : string) (w : world) :
  calm w ->
  readFile path w
  = match files w !! path with
    | Some content => (Ok content, w, [succeeded (ReadFile path)])
    | None =>
        if bool_decide (path ∈ dirs w)
        then (Throw (SysError "EISDIR"), w, [{| what := ReadFile path; failed := Some "EISDIR"%string |}])
        else (Throw (SysError "ENOENT"), w, [{| what := ReadFile path; failed := Some "ENOENT"%string |}])
    end.
Proof.
  intros Hc. unfold readFile. rewrite (syscall_calm _ _ _ Hc).
  destruct (files w !! path); [reflexivity|]. destruct (bool_decide _); reflexivity.
Qed.

Section MissingBank.
Context `{Builtins}.

Lemma readJson_missing (path : string) (fallbackValue : value) (w : world) :
  calm w -> files w !! path = None -> path ∉ dirs w ->
  WizardIO.readJson path fallbackValue w
  = (Ok fallbackValue, w, [{| what := ReadFile path; failed := Some "ENOENT"%string |}]).
Proof.
  intros Hc Hnone Hnd. unfold WizardIO.readJson.
  assert (Hread : readFile path w
                  = (Throw (SysError "ENOENT"), w,
                     [{| what := ReadFile path; failed := Some "ENOENT"%string |}])).
  { rewrite (readFile_calm _ _ Hc), Hnone, bool_decide_eq_false_2 by exact Hnd. reflexivity. }
  assert (Hcatch : catching (content ← readFile path;
                             match JSON_parse content with
                             | Some v => mret v
                             | None => throw (Error "SyntaxError")
                             end) w
                   = (Ok (Throw (SysError "ENOENT")), w,
                      [{| what := ReadFile path; failed := Some "ENOENT"%string |}])).
  { unfold catching. rewrite (bind_throw _ _ _ _ _ _ Hread). reflexivity. }
  rewrite (bind_ok _ _ _ _ _ _ Hcatch). reflexivity.
Qed.

(** X29. A bank file that is missing: the wizard's [readJson] gives the
    fallback value and goes on, while the engine's [readJsonFile] fails with
    [ENOENT]; on a file that is no JSON both fail with the error of the
    parser, the wizard too. *)
Theorem missing_bank_file (path : string) (fallbackValue : value) (w : world) :
  calm w ->
  (files w !! path = None -> path ∉ dirs w ->
   resultOf (WizardIO.readJson path fallbackValue w) = Ok fallbackValue /\
   resultOf (readJsonFile path w) = Throw (SysError "ENOENT")) /\
  (forall content,
     files w !! path = Some content -> JSON_parse content = None ->
     resultOf (WizardIO.readJson path fallbackValue w) = Throw (Error "SyntaxError") /\
     resultOf (readJsonFile path w) = Throw (Error "SyntaxError")).
Proof.
  intros Hc. split.
  - intros Hnone Hnd. split; [rewrite readJson_missing by assumption; reflexivity|].
    unfold readJsonFile. rewrite bind_result, (readFile_calm _ _ Hc), Hnone.
    rewrite bool_decide_eq_false_2 by exact Hnd. reflexivity.
  - intros content Hsome Hparse.
    assert (Hbody : (c ← readFile path;
                     match JSON_parse c with
                     | Some v => mret v
                     | None => throw (Error "SyntaxError")
                     end) w
                    = (Throw (Error "SyntaxError"), w, [succeeded (ReadFile path)] ++ [])).
    { eapply bind_triple; [rewrite (readFile_calm _ _ Hc), Hsome; reflexivity|].
      rewrite Hparse. reflexivity. }
    split.
    + unfold WizardIO.readJson. rewrite bind_result, catching_result, Hbody. reflexivity.
    + unfold readJsonFile. rewrite Hbody. reflexivity.
Qed.

Lemma addCaptions_typed (index : nat) (captions : list (caption Z)) (lines more : list string)
      (w : world) :
  Forall notBlank lines ->
  WizardIO.addCaptions (Z.of_nat index + 1) captions (lines ++ ""%string :: more) w
  = (Ok (captions ++ typedFrom index lines, more), w, []).
Proof.
  intros Hall. revert index captions. induction Hall as [|line lines Hline Hall IH];
    intros index captions.
  - simpl. rewrite app_nil_r. reflexivity.
  - cbn [app WizardIO.addCaptions]. unfold notBlank in Hline. rewrite Hline.
    replace (Z.of_nat index + 1 + 1) with (Z.of_nat (S index) + 1) by lia.
    rewrite IH, <- app_assoc. reflexivity.
Qed.

Lemma typedFrom_canon (index : nat) (lines : list string) :
  Forall notBlank lines -> canonFrom index (typedFrom index lines).
Proof.
  intros Hall. revert index. induction Hall as [|line lines Hline Hall IH]; intros index.
  - exact I.
  - simpl. split; [reflexivity|]. split; [apply trim_idem|].
    split; [exact Hline|]. split; [reflexivity | apply IH].
Qed.

Lemma typedFrom_length (index : nat) (lines : list string) :
  length (typedFrom index lines) = length lines.
Proof.
  revert index. induction lines as [|line lines IH]; intros index; [reflexivity|].
  simpl. rewrite IH. reflexivity.
Qed.

(** X30. A first session of [handleCaptions], when nothing fails and the
    data directory is there (the wizard's [run] makes it first): with no bank
    file yet, when the user declines to replace and then types lines that
    are not blank, ended by an empty line, the bank written is that of the
    lines typed, trimmed, in the order typed, numbered from 1 and all
    unused; when no line is typed at all, nothing is written. *)
Theorem handleCaptions_first_session (rootDir : string) (lines more : list string)
        (w : world) :
  calm w ->
  dataDir rootDir ∈ dirs w ->
  files w !! captionsPath rootDir = None -> captionsPath rootDir ∉ dirs w ->
  Forall notBlank lines ->
  let r := WizardIO.handleCaptions rootDir ("n"%string :: lines ++ ""%string :: more) w in
  resultOf r = Ok (negb (length lines =? 0)%nat, more) /\
  files (worldOf r)
  = if (length lines =? 0)%nat then files w
    else <[captionsPath rootDir
           := JSON_stringify (bankToValue num (typedFrom O lines)) +:+ newline]> (files w).
Proof.
  intros Hc Hdata Hnone Hnd Hlines r.
  assert (Hcanon := typedFrom_canon O lines Hlines).
  assert (Hfinal : reindexCaptions (sortById ([] ++ typedFrom O lines)) = typedFrom O lines).
  { cbn [app]. rewrite (sortById_fixed _ (canon_sorted _ _ Hcanon)).
    apply (canon_renumber O). exact Hcanon. }
  assert (Hrun : exists es,
    r = (Ok (negb (length lines =? 0)%nat, more),
         (if (length lines =? 0)%nat then w
          else withFiles (<[captionsPath rootDir
                            := JSON_stringify (bankToValue num (typedFrom O lines)) +:+ newline]>
                            (files w)) w),
         es)).
  { unfold r, WizardIO.handleCaptions.
    destruct (length lines =? 0)%nat eqn:El; eexists;
      (eapply bind_triple; [apply readJson_missing; assumption|]);
      change (normalizeCaptions (VArr [])) with ([] : list (caption Z));
      (eapply bind_triple; [reflexivity|]); (eapply bind_triple; [reflexivity|]);
      (eapply bind_triple; [reflexivity|]);
      change (WizardIO.isYes "n") with false; cbn beta iota;
      (eapply bind_triple; [reflexivity|]); cbn beta iota;
      (eapply bind_triple; [reflexivity|]);
      (eapply bind_triple; [apply (addCaptions_typed O [] lines more w Hlines)|]);
      cbn beta iota zeta; rewrite Hfinal, typedFrom_length, El.
    - eapply bind_triple; reflexivity.
    - eapply bind_triple.
      + unfold WizardIO.writeJson, writeFile. rewrite (syscall_calm _ _ _ Hc).
        rewrite bool_decide_eq_false_2 by exact Hnd.
        assert (Hp : missingParent w (captionsPath rootDir) = None)
          by apply (missingParent_join w (dataDir rootDir) "captions.json" Hdata eq_refl).
        rewrite Hp. reflexivity.
      + eapply bind_triple; reflexivity. }
  destruct Hrun as [es ->]. split; [reflexivity|].
  destruct (length lines =? 0)%nat; reflexivity.
Qed.
End MissingBank.

Lemma missing_bank_file_witness :
  resultOf (@WizardIO.readJson sampleBuiltins "/r/data/none.json" (VArr []) sampleWorld)
  = Ok (VArr []) /\
  resultOf (@readJsonFile sampleBuiltins "/r/data/none.json" sampleWorld)
  = Throw (SysError "ENOENT").
Proof.
  apply (@missing_bank_file sampleBuiltins "/r/data/none.json" (VArr []) sampleWorld eq_refl).
  - reflexivity.
  - apply not_elem_of_empty.
Defined.

Lemma handleCaptions_first_session_witness :
  resultOf (@WizardIO.handleCaptions sampleBuiltins "/fresh" ["n"; " Halo "; "Dua"; ""]%string
              freshWorld)
  = Ok (true, []).
Proof.
  apply (@handleCaptions_first_session sampleBuiltins "/fresh" [" Halo "; "Dua"]%string []
           freshWorld eq_refl).
  - vm_compute. reflexivity.
  - reflexivity.
  - vm_compute. intros Hin. discriminate Hin.
  - repeat constructor.
Defined.

(** * The bank is written last, for the media selected *)

Lemma under_apart (parent a b p : string) (x y : ascii) :
  x <> y ->
  under (join parent (String x a)) p -> under (join parent (String y b)) p -> False.
Proof.
  unfold under, join. intros Hxy Ha Hb.
  apply prefix_split in Ha. apply prefix_split in Hb.
  set (ra := substring _ _ p) in Ha. set (rb := substring _ _ p) in Hb.
  rewrite !append_assoc in Ha, Hb. rewrite Ha in Hb at 1.
  apply append_cancel_l in Hb. change ("/" +:+ ?s) with (String "/" s) in Hb.
  rewrite !append_cons in Hb. injection Hb as Hb _. contradiction.
Qed.

Lemma images_apart_videos (rootDir p : string) :
  under (sourceImageDir rootDir) p -> under (sourceVideoDir rootDir) p -> False.
Proof. unfold sourceImageDir, sourceVideoDir. apply under_apart. discriminate. Qed.

Section Scanned.
Context `{Builtins}.

(** What a scan returns: no path twice, and paths under its root only. *)
Lemma collectFilesRecursive_scanned (fuel : nat) (root : string) (exts : list string)
      (w : world) (out : list string) :
  resultOf (collectFilesRecursive fuel root exts w) = Ok out ->
  NoDup out /\ Forall (under root) out.
Proof.
  unfold collectFilesRecursive. rewrite bind_result.
  destruct (resultOf (existsSync root w)) as [[|]|e]; cbn [negb]; [| |discriminate].
  2:{ intros [= <-]. split; [apply NoDup_nil_2 | constructor]. }
  rewrite bind_result.
  set (w1 := worldOf (existsSync root w)).
  destruct (resultOf (walk fuel exts [root] [] w1)) as [results|e] eqn:Ew; [|discriminate].
  intros [= <-]. split.
  - rewrite (sortPaths_perm results).
    apply (walk_distinct fuel root exts [] [root] [] w1 results); [|exact Ew].
    split; [|split; [|split]].
    + apply NoDup_singleton.
    + apply NoDup_nil_2.
    + intros x Hx. apply list_elem_of_singleton in Hx. subst x.
      split; [lia | left; reflexivity].
    + intros r Hr. apply elem_of_nil in Hr. destruct Hr.
  - assert (Hs : scanState w1 root exts [root] []).
    { split; [constructor; [left; reflexivity | constructor] | constructor]. }
    destruct (walk_sound fuel root exts [root] [] w1 results Hs Ew) as (Hall & _ & _).
    apply Forall_forall. intros p Hp. rewrite (sortPaths_perm results) in Hp.
    rewrite Forall_forall in Hall. destruct (Hall p Hp) as (_ & Hu & _). exact Hu.
Qed.
End Scanned.

(** What [pickRandomItems] returns, when it returns: [count] of the items, none
    of them twice when no item is there twice. *)
Lemma sampled_from (items : list string) (count : Z) (w : world) (selected : list string) :
  0 <= count <= Z.of_nat (length items) ->
  resultOf ((liftRand (pickRandomItems items count) ≫= liftResult) w) = Ok selected ->
  Z.of_nat (length selected) = count /\
  (NoDup items -> NoDup selected) /\
  (forall x, x ∈ selected -> x ∈ items).
Proof.
  intros Hc. rewrite bind_result. unfold liftRand, liftResult.
  destruct (pickRandomItems_sample items count (random w) ltac:(lia))
    as (sampled & rest & Heq & Hlen & Hperm).
  destruct (pickRandomItems items count (random w)) as [r g]. simpl in *. subst r.
  intros [= <-]. split; [lia|]. split.
  - intros Hnd. exact (sample_NoDup _ _ _ Hperm Hnd).
  - intros x Hx. rewrite <- Hperm. apply elem_of_app. left. exact Hx.
Qed.

Lemma uniqueDirectoryLoop_result (fuel : nat) (baseDir desiredName : string) (attempt : nat)
      (w : world) (p : string) :
  resultOf (uniqueDirectoryLoop fuel baseDir desiredName attempt w) = Ok p ->
  exists name, p = join baseDir name.
Proof.
  revert attempt w. induction fuel as [|fuel IH]; intros attempt w Hr; [discriminate|].
  cbn [uniqueDirectoryLoop] in Hr. rewrite bind_result, catching_result, catching_world in Hr.
  destruct (resultOf (mkdir _ false w)) as [u|e].
  - injection Hr as <-. eexists. reflexivity.
  - destruct e as [msg|code|]; [| |discriminate].
    + discriminate.
    + destruct (negb (hasCode (SysError code) "EEXIST")); [discriminate|].
      apply IH in Hr. exact Hr.
Qed.

Section RunGuarded.
Context `{Builtins}.
Variable rootDir : string.

Abbreviation quiet := (respects (notBankWrite rootDir) (fun _ : error => True)).

Let HP := notWriteFile_notBankWrite rootDir.
Let HE : forall e, prefix3 e <> "Can"%string -> True := fun _ _ => I.

Lemma guarded_impl (Sel Sel' : list string -> Prop) (es : list event) :
  (forall selectedMedia, Sel selectedMedia -> Sel' selectedMedia) ->
  guarded rootDir Sel es -> guarded rootDir Sel' es.
Proof.
  intros Himp [Hq | (pre & ev & post & media & Heq & Hev & Hpre & Hsel & Hpack & Hpost)].
  - left. exact Hq.
  - right. exists pre, ev, post, media. auto 10.
Qed.

Lemma ensures_then (Sel : list string -> Prop) {A B : Type} (m : M A) (f : A -> M B) :
  quiet m -> (forall a, ensuresGuarded rootDir Sel (f a)) ->
  ensuresGuarded rootDir Sel (m ≫= f).
Proof.
  intros Hm Hf. apply (ensures_bind rootDir Sel m f (fun _ => True)); auto.
Qed.

Lemma tied_quiet (k : M (option (list string))) (m : M unit) : quiet m -> tied rootDir k m.
Proof. intros Hm w. apply guarded_quiet. apply Hm. Qed.

(** The run and its selection go through the same step. *)
Lemma tied_bind {A : Type} (m0 : M A) (k : A -> M (option (list string))) (f : A -> M unit)
      (Q : A -> Prop) :
  quiet m0 ->
  (forall w a, resultOf (m0 w) = Ok a -> Q a) ->
  (forall a, Q a -> tied rootDir (k a) (f a)) ->
  tied rootDir (m0 ≫= k) (m0 ≫= f).
Proof.
  intros Hm Hq Hf w. rewrite bind_events. destruct (Hm w) as [Hes _].
  destruct (resultOf (m0 w)) as [a|e] eqn:Hr.
  - apply guarded_after; [exact Hes|].
    eapply guarded_impl; [|apply (Hf a (Hq w a Hr) (worldOf (m0 w)))].
    intros media [Hk Hfour]. split; [|exact Hfour].
    rewrite bind_result, Hr. exact Hk.
  - rewrite app_nil_r. apply guarded_quiet. exact Hes.
Qed.

Lemma tied_finally (k : M (option (list string))) (m cleanup : M unit) :
  tied rootDir k m -> quiet cleanup -> tied rootDir k (finally m cleanup).
Proof. intros Hm Hc w. apply guarded_finally; [apply Hm | exact Hc]. Qed.

(** The selection is made: what follows packages it before it writes the
    bank. *)
Lemma tied_ret (selectedMedia : list string) (m : M unit) :
  fourDistinct selectedMedia ->
  ensuresGuarded rootDir (fun media => media = selectedMedia) m ->
  tied rootDir (mret (Some selectedMedia)) m.
Proof.
  intros Hfour Hm w. eapply guarded_impl; [|apply Hm].
  intros media ->. split; [reflexivity | exact Hfour].
Qed.

(** What [assemble] does with the media it has selected. *)
Lemma assembling_guarded (fuel : nat) (selectedMedia : list string)
      (rest : string -> picked value -> list string -> string) :
  ensuresGuarded rootDir (fun media => media = selectedMedia)
    (captionsRaw ← readJsonFile (captionsPath rootDir);
     normalizedCaptions ← liftResult (normalizeCaptionEntries captionsRaw);
     stamp ← newDate;
     chosen ← (liftRand (pickCaption (iso stamp) normalizedCaptions) ≫= liftResult);
     hashtagsRaw ← readJsonFile (hashtagsPath rootDir);
     hashtags ← liftResult (normalizeHashtags hashtagsRaw);
     selectedHashtags ← (liftRand (pickHashtags hashtags) ≫= liftResult);
     now ← newDate;
     let jobFolderName := formatWibJobFolderName now in
     jobDir ← uniqueDirectoryPath fuel (outputJobsDir rootDir) jobFolderName;
     moveSelected fuel jobDir selectedMedia;;
     writeFile (join jobDir "caption.txt")
               (captionFileContent (captionText chosen) selectedHashtags);;
     writeJsonFile (captionsPath rootDir) (bankToValue (fun v => v) (nextCaptions chosen));;
     log (rest jobDir chosen selectedHashtags)).
Proof.
  apply ensures_then; [apply (readJsonFile_quiet _ _ HP HE) | intros captionsRaw].
  apply ensures_then; [apply respects_liftResult; auto | intros normalized].
  apply ensures_then; [apply respects_newDate | intros stamp].
  apply ensures_then; [apply sampling_safe; auto | intros chosen].
  apply ensures_then; [apply (readJsonFile_quiet _ _ HP HE) | intros hashtagsRaw].
  apply ensures_then; [apply respects_liftResult; auto | intros hashtags].
  apply ensures_then; [apply sampling_safe; auto | intros selectedHashtags].
  apply ensures_then; [apply respects_newDate | intros now].
  apply (ensures_bind rootDir _ _ _
           (fun jobDir => exists name, jobDir = join (outputJobsDir rootDir) name)).
  - apply (uniqueDirectoryLoop_quiet _ _ HP HE).
  - intros w jobDir Hr. exact (uniqueDirectoryLoop_result _ _ _ _ _ _ Hr).
  - intros jobDir Hdir. apply packaging_guarded; [reflexivity | exact Hdir].
Qed.

Lemma assemble_tied (fuel : nat) (imageFiles videoFiles : list string) (c : composition) :
  NoDup imageFiles -> Forall (under (sourceImageDir rootDir)) imageFiles ->
  NoDup videoFiles -> Forall (under (sourceVideoDir rootDir)) videoFiles ->
  0 <= images c <= Z.of_nat (length imageFiles) ->
  0 <= videos c <= Z.of_nat (length videoFiles) ->
  images c + videos c = 4 ->
  tied rootDir
    (selectedImages ← (liftRand (pickRandomItems imageFiles (images c)) ≫= liftResult);
     selectedVideos ← (liftRand (pickRandomItems videoFiles (videos c)) ≫= liftResult);
     mret (Some (selectedImages ++ selectedVideos)))
    (assemble rootDir fuel imageFiles videoFiles c).
Proof.
  intros Hni Hui Hnv Huv Hi Hv Hsum. unfold assemble.
  apply (tied_bind _ _ _
           (fun l => Z.of_nat (length l) = images c /\ NoDup l /\
                     forall x, x ∈ l -> x ∈ imageFiles)).
  { apply sampling_safe. auto. }
  { intros w a Hr. destruct (sampled_from _ _ _ _ Hi Hr) as (Hl & Hnd & Hin). auto. }
  intros selectedImages (Hli & Hndi & Hini).
  apply (tied_bind _ _ _
           (fun l => Z.of_nat (length l) = videos c /\ NoDup l /\
                     forall x, x ∈ l -> x ∈ videoFiles)).
  { apply sampling_safe. auto. }
  { intros w a Hr. destruct (sampled_from _ _ _ _ Hv Hr) as (Hl & Hnd & Hin). auto. }
  intros selectedVideos (Hlv & Hndv & Hinv).
  apply tied_ret; [|apply assembling_guarded].
  split; [rewrite length_app; lia|].
  apply NoDup_app. split; [exact Hndi|]. split; [|exact Hndv].
  intros x Hxi Hxv. apply Hini in Hxi. apply Hinv in Hxv.
  rewrite Forall_forall in Hui, Huv.
  exact (images_apart_videos rootDir x (Hui x Hxi) (Huv x Hxv)).
Qed.

Lemma run_tied (fuel : nat) : tied rootDir (selecting rootDir fuel) (run rootDir fuel).
Proof.
  unfold run, selecting.
  apply (tied_bind _ _ _ (fun _ => True));
    [apply (ensureDirectories_quiet rootDir _ _ HP HE) | auto | intros _ _].
  apply (tied_bind _ _ _ (fun _ => True));
    [apply (acquireLock_quiet rootDir _ _ HP HE) | auto | intros lockAcquired _].
  destruct lockAcquired; cbn [negb]; [|apply tied_quiet; apply (log_quiet _ _ HP)].
  apply tied_finally; [|apply (releaseLock_quiet rootDir _ _ HP HE)].
  apply (tied_bind _ _ _
           (fun l => NoDup l /\ Forall (under (sourceImageDir rootDir)) l)).
  { apply (collectFilesRecursive_quiet _ _ HP HE). }
  { intros w a Hr. exact (collectFilesRecursive_scanned _ _ _ _ _ Hr). }
  intros imageFiles [Hni Hui].
  apply (tied_bind _ _ _
           (fun l => NoDup l /\ Forall (under (sourceVideoDir rootDir)) l)).
  { apply (collectFilesRecursive_quiet _ _ HP HE). }
  { intros w a Hr. exact (collectFilesRecursive_scanned _ _ _ _ _ Hr). }
  intros videoFiles [Hnv Huv].
  apply (tied_bind _ _ _
           (fun oc => forall c, oc = Some c ->
                                0 <= images c <= Z.of_nat (length imageFiles) /\
                                0 <= videos c <= Z.of_nat (length videoFiles) /\
                                images c + videos c = 4)).
  - apply respects_liftRand.
  - intros w oc Hr c ->. unfold liftRand in Hr.
    destruct (chooseComposition _ _ (random w)) as [oc g] eqn:Ec. simpl in Hr.
    injection Hr as ->.
    apply (chooseComposition_within _ _ (random w)); [lia | lia | rewrite Ec; reflexivity].
  - intros [c|] Hc; [|apply tied_quiet; apply (log_quiet _ _ HP)].
    destruct (Hc c eq_refl) as (Hi & Hv & Hsum). apply assemble_tied; assumption.
Qed.

(** C8. Whatever the run meets, a write of the caption bank file is the
    only one of the run, it is one [fs.writeFile] of the whole updated bank,
    and before it the run has packaged the media it selected: these are
    four media, all different, every one of them has been moved into the
    job directory (renamed, or copied and unlinked, under its base name or
    that name with a suffix), and the [caption.txt] of that directory has
    been written. *)
Theorem bank_written_last (fuel : nat) (w : world) (pre post : list event) (ev : event) :
  eventsOf (run rootDir fuel w) = pre ++ ev :: post ->
  isBankWrite rootDir ev ->
  writesWholeBank rootDir ev /\
  (exists selectedMedia,
     selectedBy rootDir fuel w selectedMedia /\
     length selectedMedia = 4%nat /\ NoDup selectedMedia /\
     packaged rootDir selectedMedia pre) /\
  Forall (notBankWrite rootDir) pre /\
  Forall (notBankWrite rootDir) post.
Proof.
  intros Hes Hev.
  destruct (run_tied fuel w)
    as [Hq | (pre' & ev' & post' & media & Heq & Hw & Hpre & Hsel & Hpack & Hpost)].
  - exfalso. rewrite Hes in Hq. rewrite Forall_forall in Hq. apply (Hq ev); [|exact Hev].
    apply list_elem_of_In. apply in_or_app. right. left. reflexivity.
  - rewrite Hes in Heq.
    destruct (split_at_unique (isBankWrite rootDir) _ _ _ _ _ _ Heq Hpre Hpost Hev)
      as (-> & -> & ->).
    destruct Hsel as (Hk & Hlen & Hnd).
    split; [exact Hw|]. split; [|split; assumption].
    exists media. unfold selectedBy. auto.
Qed.
End RunGuarded.

Lemma bank_written_last_witness :
  resultOf sampleRun = Ok tt /\
  (exists selectedMedia,
     @selectedBy sampleBuiltins "/r" 10 sampleWorld selectedMedia /\
     length selectedMedia = 4%nat /\ NoDup selectedMedia /\
     packaged "/r" selectedMedia (firstn 23 (eventsOf sampleRun))) /\
  Forall (notBankWrite "/r") (skipn 24 (eventsOf sampleRun)).
Proof.
  split; [vm_compute; reflexivity|].
  destruct (@bank_written_last sampleBuiltins "/r" 10 sampleWorld
              (firstn 23 (eventsOf sampleRun))
              (skipn 24 (eventsOf sampleRun))
              (nth 23 (eventsOf sampleRun) (succeeded (Rm ""))))
    as (_ & Hpack & _ & Hpost).
  - vm_compute. reflexivity.
  - eexists. vm_compute. reflexivity.
  - split; assumption.
Defined.
